(** * Schema augmentation engine of neo4j-graphql-js (src/augment.js)

    A shallow embedding of the augmentation pass: the parsed type map, the
    policy configuration, and the pipeline stages of [augmentTypeMap], with
    the properties the specification states about them.

    Conventions of the embedding.
    - A JavaScript exception is a value [Throw e] of the [result] type; a
      function that cannot throw is a plain function.
    - The type map is a JavaScript object used as a dictionary whose keys
      are iterated in insertion order: an association list with unique
      keys, [tm_set] keeping the position of a key that is already there.
    - AST nodes built by interpolating text and calling graphql's [parse]
      are built directly; [parse] returns a Document node, so a stage that
      stores the result of [parse] without [.definitions[0]] stores a
      [Document]. *)

From Stdlib Require Import String Ascii List Bool Arith Lia.
Import ListNotations.
Open Scope string_scope.
Open Scope list_scope.

Set Implicit Arguments.

(** ** Exceptions *)

Inductive JsError : Type :=
| TypeError (what : string)       (* property read on undefined *)
| ReferenceError (ident : string) (* identifier that is not in scope *)
| Error (message : string).       (* throw new Error(message) *)

Inductive result (A : Type) : Type :=
| Ok (a : A)
| Throw (e : JsError).

Arguments Throw {A} e.

Definition bind {A B} (r : result A) (k : A -> result B) : result B :=
  match r with
  | Ok a => k a
  | Throw e => Throw e
  end.

Notation "'do' x <- r ; k" := (bind r (fun x => k))
  (at level 10, x name, r at level 100, k at level 200).
Notation "'do' ' p <- r ; k" := (bind r (fun x => let p := x in k))
  (at level 10, p strict pattern, r at level 100, k at level 200).

(** ** AST nodes *)

Inductive TypeNode : Type :=
| NamedType (name : string)
| ListType (type : TypeNode)
| NonNullType (type : TypeNode).

Record InputValueDefinition : Type := mkArg {
  arg_name : string;
  arg_type : TypeNode
}.

(** A directive use; argument values are kept as their text. *)
Record DirectiveNode : Type := mkDirective {
  dir_name : string;
  dir_arguments : list (string * string)
}.

Record FieldDefinition : Type := mkField {
  field_name : string;
  field_arguments : list InputValueDefinition;
  field_type : TypeNode;
  field_directives : list DirectiveNode
}.

Inductive Kind : Type :=
| ObjectTypeDefinition
| InputObjectTypeDefinition
| EnumTypeDefinition
| ScalarTypeDefinition
| InterfaceTypeDefinition
| UnionTypeDefinition
| DirectiveDefinition.

Definition Kind_eqb (a b : Kind) : bool :=
  match a, b with
  | ObjectTypeDefinition, ObjectTypeDefinition
  | InputObjectTypeDefinition, InputObjectTypeDefinition
  | EnumTypeDefinition, EnumTypeDefinition
  | ScalarTypeDefinition, ScalarTypeDefinition
  | InterfaceTypeDefinition, InterfaceTypeDefinition
  | UnionTypeDefinition, UnionTypeDefinition
  | DirectiveDefinition, DirectiveDefinition => true
  | _, _ => false
  end.

(** A type definition.  [def_fields] is the [fields] array (the empty list
    for a definition without one); for an input object type its entries
    are the input fields, kept as [FieldDefinition]s without arguments;
    [def_values] are the value names of an enum. *)
Record TypeDefinition : Type := mkDef {
  def_kind : Kind;
  def_name : string;
  def_fields : list FieldDefinition;
  def_directives : list DirectiveNode;
  def_values : list string
}.

(** What a key of the type map holds: a definition, or the Document that
    [parse] returned. *)
Inductive AstNode : Type :=
| Def (d : TypeDefinition)
| Document (definitions : list TypeDefinition).

Definition TypeMap : Type := list (string * AstNode).

Fixpoint tm_get (typeMap : TypeMap) (key : string) : option AstNode :=
  match typeMap with
  | [] => None
  | (k, v) :: rest => if String.eqb k key then Some v else tm_get rest key
  end.

(** [typeMap[key] = v]. *)
Fixpoint tm_set (typeMap : TypeMap) (key : string) (v : AstNode) : TypeMap :=
  match typeMap with
  | [] => [(key, v)]
  | (k, v0) :: rest =>
      if String.eqb k key then (k, v) :: rest
      else (k, v0) :: tm_set rest key v
  end.

Definition tm_keys (typeMap : TypeMap) : list string := map fst typeMap.

(** [typeMap[key]] read as a definition: [None] for a missing key and for a
    Document, which has no [name], [fields] or [directives]. *)
Definition tm_def (typeMap : TypeMap) (key : string) : option TypeDefinition :=
  match tm_get typeMap key with
  | Some (Def d) => Some d
  | _ => None
  end.

(** [Array.prototype.find]. *)
Definition find_field (name : string) (fields : list FieldDefinition)
  : option FieldDefinition :=
  find (fun e => String.eqb (field_name e) name) fields.

Definition has_field (name : string) (fields : list FieldDefinition) : bool :=
  match find_field name fields with Some _ => true | None => false end.

Definition find_directive (name : string) (ds : list DirectiveNode)
  : option DirectiveNode :=
  find (fun e => String.eqb (dir_name e) name) ds.

Definition find_arg (name : string) (args : list InputValueDefinition)
  : option InputValueDefinition :=
  find (fun e => String.eqb (arg_name e) name) args.

Definition dir_arg (name : string) (d : DirectiveNode) : option string :=
  match find (fun e => String.eqb (fst e) name) (dir_arguments d) with
  | Some (_, v) => Some v
  | None => None
  end.

(** ** Helpers imported from ./utils and ./auth *)

(** Modelled from the spec: [_getNamedType] of ./utils, which is not under
    src/; it strips the list and non-null wrapper layers of a declared type
    and returns the named leaf. *)
Fixpoint _getNamedType (t : TypeNode) : string :=
  match t with
  | NamedType n => n
  | ListType t' => _getNamedType t'
  | NonNullType t' => _getNamedType t'
  end.

(** Modelled from the spec: [_isListType] of ./utils; the declared type has
    a list layer. *)
Fixpoint _isListType (t : TypeNode) : bool :=
  match t with
  | NamedType _ => false
  | ListType _ => true
  | NonNullType t' => _isListType t'
  end.

(** Modelled from the spec: [isNonNullType] of ./utils; the field is
    required, its declared type is a non-null layer. *)
Definition isNonNullType (t : TypeNode) : bool :=
  match t with
  | NonNullType _ => true
  | _ => false
  end.

(** Modelled from the spec: [isBasicScalar] of ./utils, the five built-in
    scalars. *)
Definition isBasicScalar (name : string) : bool :=
  existsb (String.eqb name) ["ID"; "String"; "Int"; "Float"; "Boolean"].

(** Modelled from the spec: [isTemporalType] of ./utils, the names of the
    structured temporal output types. *)
Definition isTemporalType (name : string) : bool :=
  existsb (String.eqb name)
    ["_Neo4jTime"; "_Neo4jDate"; "_Neo4jDateTime"; "_Neo4jLocalTime";
     "_Neo4jLocalDateTime"].

(** Modelled from the spec: [isKind] of ./utils, applied to [typeMap[name]]. *)
Definition isKind (node : option AstNode) (k : Kind) : bool :=
  match node with
  | Some (Def d) => Kind_eqb (def_kind d) k
  | _ => false
  end.

(** Modelled from the spec: [getFieldDirective] of ./utils. *)
Definition getFieldDirective (field : FieldDefinition) (name : string)
  : option DirectiveNode :=
  find_directive name (field_directives field).

(** Modelled from the spec: [getTypeDirective] of ./utils. *)
Definition getTypeDirective (d : TypeDefinition) (name : string)
  : option DirectiveNode :=
  find_directive name (def_directives d).

(** Modelled from the spec: [isNodeType] of ./utils.  A node type is an
    object type that is not the root Query or Mutation container and is
    not a relationship type: it carries no relation marker and has neither
    a [from] nor a [to] field. *)
Definition isNodeType_def (d : TypeDefinition) : bool :=
  Kind_eqb (def_kind d) ObjectTypeDefinition
  && negb (String.eqb (def_name d) "Query")
  && negb (String.eqb (def_name d) "Mutation")
  && match getTypeDirective d "relation" with None => true | Some _ => false end
  && negb (has_field "from" (def_fields d))
  && negb (has_field "to" (def_fields d)).

Definition isNodeType (node : option AstNode) : bool :=
  match node with
  | Some (Def d) => isNodeType_def d
  | _ => false
  end.

(** [getPrimaryKey] is imported from ./utils; the model takes it as a
    parameter.  It returns the field that identifies a node of the type,
    or nothing. *)
Class PrimaryKey : Type :=
  getPrimaryKey : TypeDefinition -> option FieldDefinition.

(** A required, non-list, ID-typed field. *)
Definition isPrimaryKeyField (f : FieldDefinition) : bool :=
  isNonNullType (field_type f)
  && negb (_isListType (field_type f))
  && String.eqb (_getNamedType (field_type f)) "ID".

(** Modelled from the spec: [getPrimaryKey] of ./utils; the primary key is
    the first required, non-list, ID-typed field. *)
#[export] Instance requiredIdKey : PrimaryKey :=
  fun d => find isPrimaryKeyField (def_fields d).

(** [acc[t.name.value] = t]: a later field replaces an earlier one of the
    same name, at the place of the earlier one. *)
Fixpoint om_set (acc : list FieldDefinition) (t : FieldDefinition)
  : list FieldDefinition :=
  match acc with
  | [] => [t]
  | e :: rest =>
      if String.eqb (field_name e) (field_name t) then t :: rest
      else e :: om_set rest t
  end.

(** Modelled from the spec: [createOperationMap] of ./utils; the fields of
    a root type keyed by name, the empty map for a missing root type. *)
Definition createOperationMap (root : option AstNode) : list FieldDefinition :=
  match root with
  | Some (Def d) => fold_left om_set (def_fields d) []
  | _ => []
  end.

(** The names that a plain object inherits from [Object.prototype]: a read
    of one of them gives a function (the prototype itself for [__proto__])
    when the object has no property of that name. *)
Definition objectPrototypeKeys : list string :=
  ["constructor"; "__defineGetter__"; "__defineSetter__"; "hasOwnProperty";
   "__lookupGetter__"; "__lookupSetter__"; "isPrototypeOf";
   "propertyIsEnumerable"; "toString"; "valueOf"; "__proto__";
   "toLocaleString"].

Definition inherited (name : string) : bool :=
  existsb (String.eqb name) objectPrototypeKeys.

(** [operationMap[name] === undefined]: the map, a plain object, has no
    field of that name and inherits none. *)
Definition op_undefined (operationMap : list FieldDefinition) (name : string)
  : bool :=
  negb (has_field name operationMap) && negb (inherited name).

(** ** Configuration *)

(** [config.query] and [config.mutation]: a boolean, or an object whose
    [exclude] member is the set of excluded type names (an absent member
    is the empty set). *)
Inductive OperationPolicy : Type :=
| PolicyBool (enabled : bool)
| PolicyExclude (exclude : list string).

(** [config.temporal]: absent, a boolean, or an object with one optional
    flag per temporal kind. *)
Record TemporalFlags (A : Type) : Type := mkTemporal {
  time : A;
  date : A;
  datetime : A;
  localtime : A;
  localdatetime : A
}.

Inductive TemporalOption : Type :=
| TemporalUndefined
| TemporalBool (b : bool)
| TemporalObject (flags : TemporalFlags (option bool)).

Inductive EntityType : Type := EntityNode | EntityRelation.

(** Modelled from the spec: [possiblyAddScopeDirective] of ./auth, the
    external policy hook.  It is called with the entity kind, the operation
    kind, the type name and, for a relationship, the related type name, and
    returns zero or more directive nodes that the engine attaches to the
    generated field as they are. *)
Definition ScopeHook : Type :=
  EntityType -> string -> string -> option string -> list DirectiveNode.

Record Config : Type := mkConfig {
  query : OperationPolicy;
  mutation : OperationPolicy;
  temporal : TemporalOption;
  possiblyAddScopeDirective : ScopeHook
}.

Inductive RootType : Type := RQuery | RMutation.

Definition config_policy (config : Config) (rootType : RootType)
  : OperationPolicy :=
  match rootType with
  | RQuery => query config
  | RMutation => mutation config
  end.

(** [shouldAugmentType]: a boolean policy decides for every type; with an
    exclusion set a type is augmented when its name is a non-empty string
    that is not in the set.  ([getExcludedTypes] of ./utils reads the
    [exclude] member.) *)
Definition shouldAugmentType (config : Config) (rootType : RootType)
  (type : string) : bool :=
  match config_policy config rootType with
  | PolicyBool b => b
  | PolicyExclude exclude =>
      if String.eqb type "" then false
      else negb (existsb (String.eqb type) exclude)
  end.

Definition shouldAugmentRelationField (config : Config) (rootType : RootType)
  (fromName toName : string) : bool :=
  shouldAugmentType config rootType fromName
  && shouldAugmentType config rootType toName.

(** [fieldIsNotIgnored]: the field carries no [neo4j_ignore] directive. *)
Definition fieldIsNotIgnored (field : FieldDefinition) : bool :=
  match getFieldDirective field "neo4j_ignore" with
  | None => true
  | Some _ => false
  end.

Definition isNotSystemField (name : string) : bool :=
  negb (String.eqb name "_id") && negb (String.eqb name "to")
  && negb (String.eqb name "from").

Definition hasCypher (field : FieldDefinition) : bool :=
  match getFieldDirective field "cypher" with
  | None => false
  | Some _ => true
  end.

(** ** Temporal-type injector *)

(** [decideTemporalConfig]: every kind is enabled unless the configuration
    turns it off; [temporal: true] and an absent option keep the default,
    [temporal: false] disables all five, an object overrides per kind. *)
Definition decideTemporalConfig (config : Config) : TemporalFlags bool :=
  match temporal config with
  | TemporalUndefined => mkTemporal true true true true true
  | TemporalBool true => mkTemporal true true true true true
  | TemporalBool false => mkTemporal false false false false false
  | TemporalObject p =>
      let pick (o : option bool) := match o with Some b => b | None => true end in
      mkTemporal (pick (time p)) (pick (date p)) (pick (datetime p))
                 (pick (localtime p)) (pick (localdatetime p))
  end.

Definition scalarField (name type : string) : FieldDefinition :=
  mkField name [] (NamedType type) [].

Definition temporalFieldsOf (names : list string) (withTimezone : bool)
  : list FieldDefinition :=
  map (fun n => scalarField n "Int") names
  ++ (if withTimezone then [scalarField "timezone" "String"] else [])
  ++ [scalarField "formatted" "String"].

Definition temporalPair (typeMap : TypeMap) (name : string)
  (outFields inFields : list FieldDefinition) : TypeMap :=
  let typeMap := tm_set typeMap name
    (Def (mkDef ObjectTypeDefinition name outFields [] [])) in
  tm_set typeMap (name ++ "Input")
    (Def (mkDef InputObjectTypeDefinition (name ++ "Input") inFields [] [])).

Definition clockNames : list string :=
  ["hour"; "minute"; "second"; "millisecond"; "microsecond"; "nanosecond"].
Definition calendarNames : list string := ["year"; "month"; "day"].

(** [temporalTypes]: for each enabled kind, the structured output type and
    its input twin, written over whatever the key held. *)
Definition temporalTypes (typeMap : TypeMap) (types : TemporalFlags bool)
  : TypeMap :=
  let typeMap :=
    if time types then
      temporalPair typeMap "_Neo4jTime"
        (temporalFieldsOf clockNames true)
        (temporalFieldsOf
           ["hour"; "minute"; "second"; "nanosecond"; "millisecond";
            "microsecond"] true)
    else typeMap in
  let typeMap :=
    if date types then
      temporalPair typeMap "_Neo4jDate"
        (temporalFieldsOf calendarNames false)
        (temporalFieldsOf calendarNames false)
    else typeMap in
  let typeMap :=
    if datetime types then
      temporalPair typeMap "_Neo4jDateTime"
        (temporalFieldsOf (calendarNames ++ clockNames) true)
        (temporalFieldsOf (calendarNames ++ clockNames) true)
    else typeMap in
  let typeMap :=
    if localtime types then
      temporalPair typeMap "_Neo4jLocalTime"
        (temporalFieldsOf clockNames false)
        (temporalFieldsOf clockNames false)
    else typeMap in
  if localdatetime types then
    temporalPair typeMap "_Neo4jLocalDateTime"
      (temporalFieldsOf (calendarNames ++ clockNames) false)
      (temporalFieldsOf (calendarNames ++ clockNames) false)
  else typeMap.

(** The [switch] of [transformTemporalTypeName] on the leaf name. *)
Definition temporalLeafName (name : string) (config : TemporalFlags bool)
  (isArgument : bool) : string :=
  let suffix := if isArgument then "Input" else "" in
  if String.eqb name "Time" then
    if time config then "_Neo4jTime" ++ suffix else name
  else if String.eqb name "Date" then
    if date config then "_Neo4jDate" ++ suffix else name
  else if String.eqb name "DateTime" then
    if datetime config then "_Neo4jDateTime" ++ suffix else name
  else if String.eqb name "LocalTime" then
    if localtime config then "_Neo4jLocalTime" ++ suffix else name
  else if String.eqb name "LocalDateTime" then
    if localdatetime config then "_Neo4jLocalDateTime" ++ suffix else name
  else name.

(** [transformTemporalTypeName].  The recursive call on a wrapper layer
    passes two arguments only, so [isArgument] is undefined (false) below
    the outermost layer. *)
Fixpoint transformTemporalTypeName (type : TypeNode)
  (config : TemporalFlags bool) (isArgument : bool) : TypeNode :=
  match type with
  | NamedType name => NamedType (temporalLeafName name config isArgument)
  | ListType t => ListType (transformTemporalTypeName t config false)
  | NonNullType t => NonNullType (transformTemporalTypeName t config false)
  end.

Definition transformTemporalFieldArgs (field : FieldDefinition)
  (config : TemporalFlags bool) : FieldDefinition :=
  mkField (field_name field)
    (map (fun arg =>
            mkArg (arg_name arg)
                  (transformTemporalTypeName (arg_type arg) config true))
         (field_arguments field))
    (field_type field) (field_directives field).

Definition transformTemporalField (config : TemporalFlags bool)
  (field : FieldDefinition) : FieldDefinition :=
  transformTemporalFieldArgs
    (mkField (field_name field) (field_arguments field)
       (transformTemporalTypeName (field_type field) config false)
       (field_directives field))
    config.

(** [transformTemporalFields]: every field of every object type whose key
    is not itself a temporal type name. *)
Definition transformTemporalFields (typeMap : TypeMap)
  (config : TemporalFlags bool) : TypeMap :=
  map (fun entry =>
         match entry with
         | (t, Def d) =>
             if Kind_eqb (def_kind d) ObjectTypeDefinition
                && negb (isTemporalType t)
             then (t, Def (mkDef (def_kind d) (def_name d)
                             (map (transformTemporalField config) (def_fields d))
                             (def_directives d) (def_values d)))
             else entry
         | _ => entry
         end)
      typeMap.

Definition addTemporalTypes (typeMap : TypeMap) (config : Config) : TypeMap :=
  let config := decideTemporalConfig config in
  let typeMap := temporalTypes typeMap config in
  transformTemporalFields typeMap config.

(** ** Relationship normalization *)

(** [String.prototype.toUpperCase] on the characters of a GraphQL name. *)
Definition toUpperCase (c : ascii) : ascii :=
  let n := nat_of_ascii c in
  if Nat.leb 97 n && Nat.leb n 122 then ascii_of_nat (n - 32) else c.

(** [transformRelationName]: the default relationship name of a type; every
    character is upper-cased, and one that already equals its upper case
    gets an underscore in front unless it is at position zero. *)
Fixpoint transformRelationName_at (atZero : bool) (name : string) : string :=
  match name with
  | EmptyString => EmptyString
  | String char rest =>
      let uppercased := toUpperCase char in
      (if Ascii.eqb char uppercased && negb atZero
       then String "_" (String uppercased EmptyString)
       else String uppercased EmptyString)
      ++ transformRelationName_at false rest
  end.

Definition transformRelationName (relatedAstNode : TypeDefinition) : string :=
  transformRelationName_at true (def_name relatedAstNode).

(** The relation marker that [parseDirectiveSdl] returns for the text
    [@relation(name: .., from: .., to: ..)]. *)
Definition relationDirective (relationName fromName toName : string)
  : DirectiveNode :=
  mkDirective "relation"
    [("name", relationName); ("from", fromName); ("to", toName)].

(** [directives[index] = d] at the first directive called [name], or
    [directives.push(d)] when there is none. *)
Fixpoint replaceOrPushDirective (name : string) (d : DirectiveNode)
  (directives : list DirectiveNode) : list DirectiveNode :=
  match directives with
  | [] => [d]
  | e :: rest =>
      if String.eqb (dir_name e) name then d :: rest
      else e :: replaceOrPushDirective name d rest
  end.

Definition missingFromMessage (name : string) : string :=
  "Relationship type " ++ name
  ++ " has a 'to' field but no corresponding 'from' field".

Definition missingToMessage (name : string) : string :=
  "Relationship type " ++ name
  ++ " has a 'from' field but no corresponding 'to' field".

(** The body of the [forEach] of [addRelationTypeDirectives] for one key. *)
Definition addRelationTypeDirective (astNode : AstNode) : result AstNode :=
  match astNode with
  | Document _ => Ok astNode
  | Def d =>
      if Kind_eqb (def_kind d) ObjectTypeDefinition then
        let name := def_name d in
        let fields := def_fields d in
        match find_field "to" fields, find_field "from" fields with
        | Some _, None => Throw (Error (missingFromMessage name))
        | None, Some _ => Throw (Error (missingToMessage name))
        | None, None => Ok astNode
        | Some to, Some from =>
            let fromTypeName := _getNamedType (field_type from) in
            let toTypeName := _getNamedType (field_type to) in
            let relationName :=
              match find_directive "relation" (def_directives d) with
              | Some typeDirective =>
                  match dir_arg "name" typeDirective with
                  | Some nameArg => nameArg
                  | None => transformRelationName d
                  end
              | None => transformRelationName d
              end in
            Ok (Def (mkDef (def_kind d) name fields
                       (replaceOrPushDirective "relation"
                          (relationDirective relationName fromTypeName
                             toTypeName)
                          (def_directives d))
                       (def_values d)))
        end
      else Ok astNode
  end.

(** [addRelationTypeDirectives]: the keys are visited in order and the
    first error aborts the stage. *)
Fixpoint addRelationTypeDirectives (typeMap : TypeMap) : result TypeMap :=
  match typeMap with
  | [] => Ok []
  | (typeName, astNode) :: rest =>
      do astNode' <- addRelationTypeDirective astNode;
      do rest' <- addRelationTypeDirectives rest;
      Ok ((typeName, astNode') :: rest')
  end.

(** ** Root operation types *)

(** [possiblyAddObjectType]: an empty object type under [name] unless the
    key is defined. *)
Definition possiblyAddObjectType (typeMap : TypeMap) (name : string) : TypeMap :=
  match tm_get typeMap name with
  | None => tm_set typeMap name (Def (mkDef ObjectTypeDefinition name [] [] []))
  | Some _ => typeMap
  end.

(** The predicate of the [find] in [hasNonExcludedNodeType]; a definition
    built by the parser always has a [name]. *)
Definition nonExcludedNodeType (typeMap : TypeMap) (rootType : RootType)
  (config : Config) (e : string) : bool :=
  match tm_get typeMap e with
  | Some (Def type) =>
      isNodeType_def type && shouldAugmentType config rootType (def_name type)
  | _ => false
  end.

(** [hasNonExcludedNodeType] returns the key found; its callers test it for
    truthiness, and the empty string is falsy. *)
Definition hasNonExcludedNodeType (types : list string) (typeMap : TypeMap)
  (rootType : RootType) (config : Config) : bool :=
  match find (nonExcludedNodeType typeMap rootType config) types with
  | Some e => negb (String.eqb e "")
  | None => false
  end.

Definition initializeOperationTypes (typeMap : TypeMap) (config : Config)
  : TypeMap :=
  let queryType := "Query" in
  let mutationType := "Mutation" in
  let types := tm_keys typeMap in
  let typeMap :=
    if hasNonExcludedNodeType types typeMap RQuery config
    then possiblyAddObjectType typeMap queryType else typeMap in
  if hasNonExcludedNodeType types typeMap RMutation config
  then possiblyAddObjectType typeMap mutationType else typeMap.

(** ** Node API: arguments, query fields, ordering, inputs, filters *)

Definition has_arg (name : string) (args : list InputValueDefinition) : bool :=
  match find_arg name args with Some _ => true | None => false end.

(** [possiblyAddArgument]: pushes [fieldName: fieldType] unless an argument
    of that name is there. *)
Definition possiblyAddArgument (args : list InputValueDefinition)
  (fieldName fieldType : string) : list InputValueDefinition :=
  if has_arg fieldName args then args
  else args ++ [mkArg fieldName (NamedType fieldType)].

(** [possiblyAddOrderingArgument]: pushes [orderBy: [_<fieldName>Ordering]];
    the existence check looks for an argument called [fieldName], which is
    the name of the value type. *)
Definition possiblyAddOrderingArgument (args : list InputValueDefinition)
  (fieldName : string) : list InputValueDefinition :=
  let orderingType := ("_" ++ fieldName ++ "Ordering")%string in
  if has_arg fieldName args then args
  else args ++ [mkArg "orderBy" (ListType (NamedType orderingType))].

Definition nodeIdField : FieldDefinition :=
  mkField "_id" [] (NamedType "String") [].

(** [addOrReplaceNodeIdField]. *)
Fixpoint addOrReplaceNodeIdField (fields : list FieldDefinition)
  : list FieldDefinition :=
  match fields with
  | [] => [nodeIdField]
  | e :: rest =>
      if String.eqb (field_name e) "_id" then
        if fieldIsNotIgnored e then nodeIdField :: rest else e :: rest
      else e :: addOrReplaceNodeIdField rest
  end.

Definition hasRelationOrCypher (field : FieldDefinition) : bool :=
  match getFieldDirective field "relation" with
  | Some _ => true
  | None => hasCypher field
  end.

(** The arguments that [possiblyAddTypeFieldArguments] and
    [augmentQueryArguments] add to a field whose value is the node type
    [valueTypeName]. *)
Definition addNodeListArguments (field : FieldDefinition)
  (valueTypeName : string) : FieldDefinition :=
  let args := field_arguments field in
  let args :=
    if _isListType (field_type field) then
      possiblyAddOrderingArgument
        (possiblyAddArgument (possiblyAddArgument args "first" "Int")
           "offset" "Int")
        valueTypeName
    else args in
  let args :=
    if negb (hasCypher field) then
      possiblyAddArgument args "filter" ("_" ++ valueTypeName ++ "Filter")%string
    else args in
  mkField (field_name field) args (field_type field) (field_directives field).

Definition possiblyAddTypeFieldArguments (astNode : TypeDefinition)
  (typeMap : TypeMap) (config : Config) : list FieldDefinition :=
  map (fun field =>
         let relationTypeName := _getNamedType (field_type field) in
         let relationType := tm_get typeMap relationTypeName in
         if fieldIsNotIgnored field
            && shouldAugmentType config RQuery relationTypeName
            && isNodeType relationType
            && hasRelationOrCypher field
         then addNodeListArguments field relationTypeName
         else field)
      (def_fields astNode).

Definition set_fields (d : TypeDefinition) (fields : list FieldDefinition)
  : TypeDefinition :=
  mkDef (def_kind d) (def_name d) fields (def_directives d) (def_values d).

(** [augmentType]: the node is changed in place and returned. *)
Definition augmentType (astNode : AstNode) (typeMap : TypeMap)
  (config : Config) : AstNode :=
  match astNode with
  | Def d =>
      if isNodeType_def d then
        let d :=
          if shouldAugmentType config RQuery (def_name d)
          then set_fields d (addOrReplaceNodeIdField (def_fields d))
          else d in
        Def (set_fields d (possiblyAddTypeFieldArguments d typeMap config))
      else astNode
  | Document _ => astNode
  end.

(** [astNode.name.value]; a Document has no [name]. *)
Definition name_value (astNode : AstNode) : result string :=
  match astNode with
  | Def d => Ok (def_name d)
  | Document _ => Throw (TypeError "Cannot read property 'value' of undefined")
  end.

(** Kinds whose AST node has a [fields] member. *)
Definition has_fields_member (k : Kind) : bool :=
  match k with
  | ObjectTypeDefinition | InputObjectTypeDefinition
  | InterfaceTypeDefinition => true
  | _ => false
  end.

(** [typeMap[root].fields.push(field)]. *)
Definition push_root_field (typeMap : TypeMap) (root : string)
  (field : FieldDefinition) : result TypeMap :=
  match tm_get typeMap root with
  | Some (Def d) =>
      if has_fields_member (def_kind d)
      then Ok (tm_set typeMap root (Def (set_fields d (def_fields d ++ [field]))))
      else Throw (TypeError "Cannot read property 'push' of undefined")
  | Some (Document _) =>
      Throw (TypeError "Cannot read property 'push' of undefined")
  | None => Throw (TypeError "Cannot read property 'fields' of undefined")
  end.

Definition scalarLike (typeMap : TypeMap) (valueTypeName : string) : bool :=
  isBasicScalar valueTypeName
  || isKind (tm_get typeMap valueTypeName) EnumTypeDefinition
  || isKind (tm_get typeMap valueTypeName) ScalarTypeDefinition.

(** [createQueryArguments]. *)
Definition createQueryArguments (astNode : TypeDefinition) (typeMap : TypeMap)
  : list InputValueDefinition :=
  fold_left
    (fun acc t =>
       if fieldIsNotIgnored t then
         let valueTypeName := _getNamedType (field_type t) in
         if scalarLike typeMap valueTypeName then
           acc ++ [mkArg (field_name t) (NamedType valueTypeName)]
         else if isTemporalType valueTypeName then
           acc ++ [mkArg (field_name t) (NamedType (valueTypeName ++ "Input")%string)]
         else acc
       else acc)
    (def_fields astNode) [].

(** [possiblyAddQuery]. *)
Definition possiblyAddQuery (astNode : AstNode) (typeMap : TypeMap)
  (config : Config) : result TypeMap :=
  do typeName <- name_value astNode;
  let queryType := "Query" in
  let queryMap := createOperationMap (tm_get typeMap "Query") in
  match astNode with
  | Def d =>
      if isNodeType_def d && shouldAugmentType config RQuery typeName then
        let authDirectives :=
          possiblyAddScopeDirective config EntityNode "Read" typeName None in
        let name := def_name d in
        if op_undefined queryMap name then
          push_root_field typeMap queryType
            (mkField name (createQueryArguments d typeMap)
               (ListType (NamedType name)) authDirectives)
        else Ok typeMap
      else Ok typeMap
  | Document _ => Ok typeMap
  end.

(** [createOrderingFields]: the names of the enum values. *)
Definition createOrderingFields (astNode : TypeDefinition) (typeMap : TypeMap)
  : list string :=
  fold_left
    (fun acc field =>
       let valueTypeName := _getNamedType (field_type field) in
       if negb (_isListType (field_type field))
          && fieldIsNotIgnored field
          && (isBasicScalar valueTypeName
              || isKind (tm_get typeMap valueTypeName) EnumTypeDefinition
              || isTemporalType valueTypeName)
       then acc ++ [(field_name field ++ "_asc")%string;
                    (field_name field ++ "_desc")%string]
       else acc)
    (def_fields astNode) [].

(** [possiblyAddOrderingEnum]. *)
Definition possiblyAddOrderingEnum (astNode : AstNode) (typeMap : TypeMap)
  (config : Config) : result TypeMap :=
  do typeName <- name_value astNode;
  match astNode with
  | Def d =>
      if isNodeType_def d && shouldAugmentType config RQuery typeName then
        let name := ("_" ++ def_name d ++ "Ordering")%string in
        let values := createOrderingFields d typeMap in
        match tm_get typeMap name, values with
        | None, _ :: _ =>
            Ok (tm_set typeMap name
                  (Def (mkDef EnumTypeDefinition name [] [] values)))
        | _, _ => Ok typeMap
        end
      else Ok typeMap
  | Document _ => Ok typeMap
  end.

(** An input field [name: type] of an input object type. *)
Definition inputField (name : string) (type : TypeNode) : FieldDefinition :=
  mkField name [] type [].

Definition decideFieldType (name : string) : string :=
  if isTemporalType name then (name ++ "Input")%string else name.

(** [String.prototype.replace] with a string pattern: the first occurrence
    is replaced; [None] when [includes] is false. *)
Fixpoint replaceFirst (pattern replacement s : string) : option string :=
  if String.prefix pattern s then
    Some (replacement
          ++ substring (String.length pattern)
               (String.length s - String.length pattern) s)%string
  else
    match s with
    | EmptyString => None
    | String c rest =>
        option_map (String c) (replaceFirst pattern replacement rest)
    end.

(** [String.prototype.includes]. *)
Fixpoint includes (pattern s : string) : bool :=
  String.prefix pattern s
  || match s with
     | EmptyString => false
     | String _ rest => includes pattern rest
     end.

(** [s.replace(pattern, replacement)]. *)
Definition replace (pattern replacement s : string) : string :=
  match replaceFirst pattern replacement s with
  | Some s' => s'
  | None => s
  end.

Fixpoint mapNamedType (f : string -> string) (t : TypeNode) : TypeNode :=
  match t with
  | NamedType n => NamedType (f n)
  | ListType t' => ListType (mapNamedType f t')
  | NonNullType t' => NonNullType (mapNamedType f t')
  end.

(** The text that graphql's [print] gives for a field or an input value is
    kept as the node it prints, and read as its parts in the order in
    which they are printed: the name, the name and the named type of each
    argument, the named type, and the name, argument names and argument
    values of each directive.  The parts are separated by punctuation, so
    an occurrence of a pattern made of name characters lies within one
    part.  (The nodes of the model have no description and no default
    value.)  An input value [name: type] is the field without arguments
    and directives. *)
Definition argumentIncludes (pattern : string) (a : InputValueDefinition)
  : bool :=
  includes pattern (arg_name a)
  || includes pattern (_getNamedType (arg_type a)).

Definition pairIncludes (pattern : string) (kv : string * string) : bool :=
  includes pattern (fst kv) || includes pattern (snd kv).

Definition directiveIncludes (pattern : string) (d : DirectiveNode) : bool :=
  includes pattern (dir_name d)
  || existsb (pairIncludes pattern) (dir_arguments d).

(** [field.includes(pattern)] on the printed field. *)
Definition textIncludes (pattern : string) (field : FieldDefinition) : bool :=
  includes pattern (field_name field)
  || existsb (argumentIncludes pattern) (field_arguments field)
  || includes pattern (_getNamedType (field_type field))
  || existsb (directiveIncludes pattern) (field_directives field).

Fixpoint replaceInArguments (pattern replacement : string)
  (args : list InputValueDefinition) : list InputValueDefinition :=
  match args with
  | [] => []
  | a :: rest =>
      if includes pattern (arg_name a) then
        mkArg (replace pattern replacement (arg_name a)) (arg_type a) :: rest
      else if includes pattern (_getNamedType (arg_type a)) then
        mkArg (arg_name a)
          (mapNamedType (replace pattern replacement) (arg_type a)) :: rest
      else a :: replaceInArguments pattern replacement rest
  end.

Fixpoint replaceInPairs (pattern replacement : string)
  (kvs : list (string * string)) : list (string * string) :=
  match kvs with
  | [] => []
  | (k, v) :: rest =>
      if includes pattern k then (replace pattern replacement k, v) :: rest
      else if includes pattern v then
        (k, replace pattern replacement v) :: rest
      else (k, v) :: replaceInPairs pattern replacement rest
  end.

Fixpoint replaceInDirectives (pattern replacement : string)
  (ds : list DirectiveNode) : list DirectiveNode :=
  match ds with
  | [] => []
  | d :: rest =>
      if includes pattern (dir_name d) then
        mkDirective (replace pattern replacement (dir_name d))
          (dir_arguments d) :: rest
      else if existsb (pairIncludes pattern) (dir_arguments d) then
        mkDirective (dir_name d)
          (replaceInPairs pattern replacement (dir_arguments d)) :: rest
      else d :: replaceInDirectives pattern replacement rest
  end.

(** [field.replace(pattern, replacement)] on the printed field: the first
    occurrence in the text is replaced, whichever part it lies in. *)
Definition replaceInText (pattern replacement : string)
  (field : FieldDefinition) : FieldDefinition :=
  if includes pattern (field_name field) then
    mkField (replace pattern replacement (field_name field))
      (field_arguments field) (field_type field) (field_directives field)
  else if existsb (argumentIncludes pattern) (field_arguments field) then
    mkField (field_name field)
      (replaceInArguments pattern replacement (field_arguments field))
      (field_type field) (field_directives field)
  else if includes pattern (_getNamedType (field_type field)) then
    mkField (field_name field) (field_arguments field)
      (mapNamedType (replace pattern replacement) (field_type field))
      (field_directives field)
  else
    mkField (field_name field) (field_arguments field) (field_type field)
      (replaceInDirectives pattern replacement (field_directives field)).

(** The body of the [reduce] of [transformManagedFieldTypes] for one
    printed field.  The test that the text is none of the five input type
    names holds of every printed field, which has a name and a type. *)
Definition transformManagedField (field : FieldDefinition) : FieldDefinition :=
  if textIncludes "_Neo4jDateTime" field then
    replaceInText "_Neo4jDateTime" "_Neo4jDateTimeInput" field
  else if textIncludes "_Neo4jDate" field then
    replaceInText "_Neo4jDate" "_Neo4jDateInput" field
  else if textIncludes "_Neo4jTime" field then
    replaceInText "_Neo4jTime" "_Neo4jTimeInput" field
  else if textIncludes "_Neo4jLocalTime" field then
    replaceInText "_Neo4jLocalTime" "_Neo4jLocalTimeInput" field
  else if textIncludes "_Neo4jLocalDateTime" field then
    replaceInText "_Neo4jLocalDateTime" "_Neo4jLocalDateTimeInput" field
  else field.

(** [transformManagedFieldTypes]. *)
Definition transformManagedFieldTypes (fields : list FieldDefinition)
  : list FieldDefinition :=
  map transformManagedField fields.

(** Modelled from the spec: [buildInputValueDefinitions] of ./utils parses
    the printed fields and keeps the name and the type of each. *)
Definition buildInputValueDefinitions (fields : list FieldDefinition)
  : list InputValueDefinition :=
  map (fun field => mkArg (field_name field) (field_type field)) fields.

(** The value types that become mutation arguments and relation inputs. *)
Definition isInputValueType (typeMap : TypeMap) (valueTypeName : string)
  : bool :=
  scalarLike typeMap valueTypeName || isTemporalType valueTypeName.

Definition isPropertyInput (typeMap : TypeMap) (t : FieldDefinition) : bool :=
  fieldIsNotIgnored t
  && isNotSystemField (field_name t)
  && negb (hasCypher t)
  && isInputValueType typeMap (_getNamedType (field_type t)).

(** [buildRelationTypeInputFields]: the printed input values, which the
    caller joins and parses as the fields of the input type. *)
Definition buildRelationTypeInputFields (fields : list FieldDefinition)
  (typeMap : TypeMap) : list FieldDefinition :=
  transformManagedFieldTypes
    (map (fun t => inputField (field_name t) (field_type t))
         (filter (isPropertyInput typeMap) fields)).

(** [e.name.value !== 'from' && e.name.value !== 'to']. *)
Definition isPropertyField (e : FieldDefinition) : bool :=
  negb (String.eqb (field_name e) "from")
  && negb (String.eqb (field_name e) "to").

Definition hasSomePropertyField (fields : list FieldDefinition) : bool :=
  existsb isPropertyField fields.

(** graphql's [parse] rejects a type whose braces hold no field. *)
Definition syntaxError : JsError :=
  Error "Syntax Error: Expected Name, found }".

(** [_getNamedType(fields.find(..))] where the field may be missing. *)
Definition namedTypeOfField (name : string) (fields : list FieldDefinition)
  : result string :=
  match find_field name fields with
  | Some f => Ok (_getNamedType (field_type f))
  | None => Throw (TypeError "Cannot read property 'kind' of undefined")
  end.

(** [possiblyAddTypeInput]. *)
Definition possiblyAddTypeInput {PK : PrimaryKey} (astNode : AstNode)
  (typeMap : TypeMap) (config : Config) : result TypeMap :=
  do typeName <- name_value astNode;
  match astNode with
  | Document _ => Ok typeMap
  | Def d =>
      if shouldAugmentType config RMutation typeName then
        let inputName := ("_" ++ def_name d ++ "Input")%string in
        if isNodeType_def d then
          match tm_get typeMap inputName, getPrimaryKey d with
          | None, Some pk =>
              Ok (tm_set typeMap inputName
                    (Document
                       [mkDef InputObjectTypeDefinition inputName
                          [inputField (field_name pk)
                             (NonNullType
                                (NamedType
                                   (decideFieldType
                                      (_getNamedType (field_type pk)))))]
                          [] []]))
          | _, _ => Ok typeMap
          end
        else
          match getTypeDirective d "relation", tm_get typeMap inputName with
          | Some _, None =>
              let fields := def_fields d in
              do fromName <- namedTypeOfField "from" fields;
              do toName <- namedTypeOfField "to" fields;
              if hasSomePropertyField fields
                 && shouldAugmentRelationField config RMutation fromName toName
              then
                match buildRelationTypeInputFields fields typeMap with
                | [] => Throw syntaxError
                | relationInputFields =>
                    Ok (tm_set typeMap inputName
                          (Document
                             [mkDef InputObjectTypeDefinition inputName
                                relationInputFields [] []]))
                end
              else Ok typeMap
          | _, _ => Ok typeMap
          end
      else Ok typeMap
  end.

(** The comparison operators of one filter group: [field<suffix>: type]. *)
Definition filterGroup (fieldName : string)
  (ops : list (string * TypeNode)) : list FieldDefinition :=
  map (fun op => inputField (fieldName ++ fst op)%string (snd op)) ops.

Definition nonNullList (name : string) : TypeNode :=
  ListType (NonNullType (NamedType name)).

Definition filtersOfField (t : FieldDefinition) (typeMap : TypeMap)
  (config : Config) : list FieldDefinition :=
  let fieldName := field_name t in
  let valueTypeName := _getNamedType (field_type t) in
  let isList := _isListType (field_type t) in
  let valueType := tm_get typeMap valueTypeName in
  let v := NamedType valueTypeName in
  let f := NamedType ("_" ++ valueTypeName ++ "Filter")%string in
  let fs := nonNullList ("_" ++ valueTypeName ++ "Filter")%string in
  let isRelationToQueried :=
    isKind valueType ObjectTypeDefinition
    && (match getFieldDirective t "relation" with
        | Some _ => true | None => false end)
    && shouldAugmentType config RQuery valueTypeName in
  if negb isList then
    if String.eqb valueTypeName "ID" || String.eqb valueTypeName "String" then
      filterGroup fieldName
        [("", v); ("_not", v); ("_in", nonNullList valueTypeName);
         ("_not_in", nonNullList valueTypeName); ("_contains", v);
         ("_not_contains", v); ("_starts_with", v); ("_not_starts_with", v);
         ("_ends_with", v); ("_not_ends_with", v)]
    else if String.eqb valueTypeName "Int" || String.eqb valueTypeName "Float"
    then
      filterGroup fieldName
        [("", v); ("_not", v); ("_in", nonNullList valueTypeName);
         ("_not_in", nonNullList valueTypeName); ("_lt", v); ("_lte", v);
         ("_gt", v); ("_gte", v)]
    else if String.eqb valueTypeName "Boolean" then
      filterGroup fieldName [("", v); ("_not", v)]
    else if isKind valueType EnumTypeDefinition then
      filterGroup fieldName
        [("", v); ("_not", v); ("_in", nonNullList valueTypeName);
         ("_not_in", nonNullList valueTypeName)]
    else if isRelationToQueried then
      filterGroup fieldName
        [("", f); ("_not", f); ("_in", fs); ("_not_in", fs)]
    else []
  else if isRelationToQueried then
    filterGroup fieldName
      [("", f); ("_not", f); ("_in", fs); ("_not_in", fs); ("_some", f);
       ("_none", f); ("_single", f); ("_every", f)]
  else [].

(** [buildFilterFields]: the [AND]/[OR] combinators first, then one group
    per eligible field. *)
Definition buildFilterFields (filterType : string) (astNode : TypeDefinition)
  (typeMap : TypeMap) (config : Config) : list FieldDefinition :=
  [inputField "AND" (ListType (NamedType filterType));
   inputField "OR" (ListType (NamedType filterType))]
  ++ flat_map
       (fun t =>
          if fieldIsNotIgnored t && isNotSystemField (field_name t)
             && negb (hasCypher t)
          then filtersOfField t typeMap config
          else [])
       (def_fields astNode).

(** [possiblyAddFilterInput]. *)
Definition possiblyAddFilterInput (astNode : AstNode) (typeMap : TypeMap)
  (config : Config) : result TypeMap :=
  do typeName <- name_value astNode;
  match astNode with
  | Document _ => Ok typeMap
  | Def d =>
      if isNodeType_def d && shouldAugmentType config RQuery typeName then
        let name := ("_" ++ def_name d ++ "Filter")%string in
        let filterFields := buildFilterFields name d typeMap config in
        match tm_get typeMap name, filterFields with
        | None, _ :: _ =>
            Ok (tm_set typeMap name
                  (Document
                     [mkDef InputObjectTypeDefinition name filterFields [] []]))
        | _, _ => Ok typeMap
        end
      else Ok typeMap
  end.

(** ** Node mutations *)

Inductive MutationType : Type := Create | Update | Delete.

Definition mutationTypeName (m : MutationType) : string :=
  match m with
  | Create => "Create"
  | Update => "Update"
  | Delete => "Delete"
  end.

(** A field that becomes an argument of a Create or Update mutation. *)
Definition isMutationArgumentField (typeMap : TypeMap) (t : FieldDefinition)
  : bool :=
  isNotSystemField (field_name t)
  && negb (hasCypher t)
  && isInputValueType typeMap (_getNamedType (field_type t)).

(** [buildCreateMutationArguments]; the accumulator carries [firstIdField].
    The first [ID!] field is printed as the input value [name: ID], every
    other field as the whole field, arguments and directives included. *)
Definition buildCreateMutationArguments (astNode : TypeDefinition)
  (typeMap : TypeMap) : list InputValueDefinition :=
  let step (st : list FieldDefinition * bool) (t : FieldDefinition) :=
    let '(acc, firstIdField) := st in
    let valueTypeName := _getNamedType (field_type t) in
    if fieldIsNotIgnored t && isMutationArgumentField typeMap t then
      if isNonNullType (field_type t)
         && negb (_isListType (field_type t))
         && String.eqb valueTypeName "ID"
         && negb firstIdField
      then (acc ++ [inputField (field_name t) (NamedType valueTypeName)], true)
      else (acc ++ [t], firstIdField)
    else st in
  buildInputValueDefinitions
    (transformManagedFieldTypes
       (fst (fold_left step (def_fields astNode) ([], false)))).

(** [buildUpdateMutationArguments]. *)
Definition buildUpdateMutationArguments (primaryKey : FieldDefinition)
  (astNode : TypeDefinition) (typeMap : TypeMap)
  : list InputValueDefinition :=
  let primaryKeyName := field_name primaryKey in
  let parsedPrimaryKeyField :=
    inputField primaryKeyName
      (NonNullType (NamedType (_getNamedType (field_type primaryKey)))) in
  let mutationArgs :=
    fold_left
      (fun acc t =>
         if fieldIsNotIgnored t
            && negb (String.eqb (field_name t) primaryKeyName)
            && isMutationArgumentField typeMap t
         then
           acc ++ [inputField (field_name t)
                     match field_type t with
                     | NonNullType inner => inner
                     | other => other
                     end]
         else acc)
      (def_fields astNode) [] in
  match mutationArgs with
  | [] => []
  | _ :: _ =>
      buildInputValueDefinitions
        (transformManagedFieldTypes (parsedPrimaryKeyField :: mutationArgs))
  end.

(** [buildDeleteMutationArguments]. *)
Definition buildDeleteMutationArguments (primaryKey : FieldDefinition)
  : list InputValueDefinition :=
  buildInputValueDefinitions
    (transformManagedFieldTypes
       [inputField (field_name primaryKey)
          (NonNullType (NamedType (_getNamedType (field_type primaryKey))))]).

(** [buildMutationArguments].  [None] is the [undefined] that the function
    returns when control leaves the [switch]: the Update case without a
    primary key falls through to the Delete case, and the Delete case
    without a primary key falls out of the [switch]. *)
Definition buildMutationArguments {PK : PrimaryKey}
  (mutationType : MutationType) (astNode : TypeDefinition) (typeMap : TypeMap)
  : option (list InputValueDefinition) :=
  let primaryKey := getPrimaryKey astNode in
  match mutationType with
  | Create => Some (buildCreateMutationArguments astNode typeMap)
  | Update =>
      match primaryKey with
      | Some pk => Some (buildUpdateMutationArguments pk astNode typeMap)
      | None => None
      end
  | Delete =>
      match primaryKey with
      | Some pk => Some (buildDeleteMutationArguments pk)
      | None => None
      end
  end.

(** [possiblyAddTypeMutation]; [args.length] is read on what
    [buildMutationArguments] returned. *)
Definition possiblyAddTypeMutation {PK : PrimaryKey}
  (mutationType : MutationType) (astNode : TypeDefinition) (typeMap : TypeMap)
  (mutationMap : list FieldDefinition) (config : Config) : result TypeMap :=
  let typeName := def_name astNode in
  let mutationName := (mutationTypeName mutationType ++ typeName)%string in
  if op_undefined mutationMap mutationName then
    match buildMutationArguments mutationType astNode typeMap with
    | None => Throw (TypeError "Cannot read property 'length' of undefined")
    | Some [] => Ok typeMap
    | Some args =>
        let authDirectives :=
          possiblyAddScopeDirective config EntityNode
            (mutationTypeName mutationType) typeName None in
        push_root_field typeMap "Mutation"
          (mkField mutationName args (NamedType typeName) authDirectives)
    end
  else Ok typeMap.

(** [possiblyAddTypeMutations]: the three mutations are checked against the
    operation map read once, before the first of them is added. *)
Definition possiblyAddTypeMutations {PK : PrimaryKey} (astNode : AstNode)
  (typeMap : TypeMap) (config : Config) : result TypeMap :=
  do typeName <- name_value astNode;
  match astNode with
  | Document _ => Ok typeMap
  | Def d =>
      if shouldAugmentType config RMutation typeName then
        let mutationMap := createOperationMap (tm_get typeMap "Mutation") in
        if isNodeType_def d && shouldAugmentType config RMutation typeName
        then
          do typeMap <- possiblyAddTypeMutation Create d typeMap mutationMap config;
          do typeMap <- possiblyAddTypeMutation Update d typeMap mutationMap config;
          possiblyAddTypeMutation Delete d typeMap mutationMap config
        else Ok typeMap
      else Ok typeMap
  end.

(** ** Relationship fields *)

Inductive RelationAction : Type := Add | Remove.

Definition actionName (a : RelationAction) : string :=
  match a with Add => "Add" | Remove => "Remove" end.

(** Modelled from the spec: [getRelationMutationPayloadFieldsFromAst] of
    ./utils; the property fields of the relationship type, typed by name
    with the list layer kept. *)
Definition getRelationMutationPayloadFieldsFromAst
  (relatedAstNode : TypeDefinition) : list FieldDefinition :=
  map (fun t =>
         let named := NamedType (_getNamedType (field_type t)) in
         mkField (field_name t) []
           (if _isListType (field_type t) then ListType named else named)
           (field_directives t))
      (filter isPropertyField (def_fields relatedAstNode)).

(** The [@MutationMeta] marker written by [possiblyAddRelationMutationField]. *)
Definition mutationMetaDirective (relationName fromName toName : string)
  : DirectiveNode :=
  mkDirective "MutationMeta"
    [("relationship", relationName); ("from", fromName); ("to", toName)].

Definition inputTypeOf (name : string) : TypeNode :=
  NonNullType (NamedType ("_" ++ name ++ "Input")%string).

(** [relationHasProps && hasSomePropertyField && action === 'Add']. *)
Definition shouldUseRelationDataArgument (relationHasProps : bool)
  (relatedAstNode : TypeDefinition) (action : RelationAction) : bool :=
  relationHasProps
  && hasSomePropertyField (def_fields relatedAstNode)
  && match action with Add => true | Remove => false end.

(** The field that [parseFieldSdl] returns for the text interpolated in
    [possiblyAddRelationMutationField]. *)
Definition relationMutationField (action : RelationAction)
  (typeName capitalizedFieldName fromName toName relationName : string)
  (relatedAstNode : TypeDefinition) (relationHasProps : bool)
  (config : Config) : FieldDefinition :=
  let mutationName :=
    (actionName action ++ typeName ++ capitalizedFieldName)%string in
  let payloadTypeName := ("_" ++ mutationName ++ "Payload")%string in
  let authDirectives :=
    possiblyAddScopeDirective config EntityRelation (actionName action)
      typeName (Some toName) in
  mkField mutationName
    ([mkArg "from" (inputTypeOf fromName); mkArg "to" (inputTypeOf toName)]
     ++ (if shouldUseRelationDataArgument relationHasProps relatedAstNode action
         then [mkArg "data" (inputTypeOf (def_name relatedAstNode))]
         else []))
    (NamedType payloadTypeName)
    (mutationMetaDirective relationName fromName toName :: authDirectives).

Definition relationMutationPayload (action : RelationAction)
  (payloadTypeName fromName toName relationName : string)
  (relatedAstNode : TypeDefinition) (relationHasProps : bool) : AstNode :=
  Document
    [mkDef ObjectTypeDefinition payloadTypeName
       ([mkField "from" [] (NamedType fromName) [];
         mkField "to" [] (NamedType toName) []]
        ++ (if shouldUseRelationDataArgument relationHasProps relatedAstNode
                 action
            then getRelationMutationPayloadFieldsFromAst relatedAstNode
            else []))
       [relationDirective relationName fromName toName] []].

(** One round of the [forEach] over ['Add', 'Remove']. *)
Definition addRelationMutation (action : RelationAction)
  (typeName capitalizedFieldName fromName toName : string)
  (mutationMap : list FieldDefinition) (typeMap : TypeMap)
  (relationName : string) (relatedAstNode : TypeDefinition)
  (relationHasProps : bool) (config : Config) : result TypeMap :=
  let mutationName :=
    (actionName action ++ typeName ++ capitalizedFieldName)%string in
  if op_undefined mutationMap mutationName then
    let payloadTypeName := ("_" ++ mutationName ++ "Payload")%string in
    do typeMap <-
      push_root_field typeMap "Mutation"
        (relationMutationField action typeName capitalizedFieldName fromName
           toName relationName relatedAstNode relationHasProps config);
    match tm_get typeMap payloadTypeName with
    | None =>
        Ok (tm_set typeMap payloadTypeName
              (relationMutationPayload action payloadTypeName fromName toName
                 relationName relatedAstNode relationHasProps))
    | Some _ => Ok typeMap
    end
  else Ok typeMap.

(** [possiblyAddRelationMutationField]. *)
Definition possiblyAddRelationMutationField
  (typeName capitalizedFieldName fromName toName : string)
  (mutationMap : list FieldDefinition) (typeMap : TypeMap)
  (relationName : string) (relatedAstNode : TypeDefinition)
  (relationHasProps : bool) (config : Config) : result TypeMap :=
  do typeMap <-
    addRelationMutation Add typeName capitalizedFieldName fromName toName
      mutationMap typeMap relationName relatedAstNode relationHasProps config;
  addRelationMutation Remove typeName capitalizedFieldName fromName toName
    mutationMap typeMap relationName relatedAstNode relationHasProps config.

(** [validateRelationTypeDirectedFields].  The message of the error it
    means to throw reads [field] and [relatedAstNode], which are neither
    parameters of the function nor bound in the module: evaluating the
    template raises a ReferenceError before the Error is built. *)
Definition validateRelationTypeDirectedFields
  (typeName fromName toName : string) : result bool :=
  if negb (String.eqb fromName toName)
     && negb (String.eqb toName typeName)
     && negb (String.eqb fromName typeName)
  then Throw (ReferenceError "field")
  else Ok true.

(** Modelled from the spec: [getRelationTypeDirectiveArgs] of ./utils; the
    name, from and to arguments of the relation marker of a relationship
    type, [None] when the type carries no marker. *)
Definition getRelationTypeDirectiveArgs (relationshipType : TypeDefinition)
  : result (option (string * string * string)) :=
  match getTypeDirective relationshipType "relation" with
  | None => Ok None
  | Some directive =>
      match dir_arg "name" directive, dir_arg "from" directive,
            dir_arg "to" directive with
      | Some n, Some f, Some t => Ok (Some (n, f, t))
      | _, _, _ => Throw (TypeError "Cannot read property 'value' of undefined")
      end
  end.

(** The value type of the last field called [name]: what the [reduce] of
    [possiblyAddRelationTypeFieldPayload] leaves in [fromValue]/[toValue]. *)
Definition directedValue (name : string) (fields : list FieldDefinition)
  : option string :=
  fold_left
    (fun acc t =>
       if String.eqb (field_name t) name
       then Some (_getNamedType (field_type t)) else acc)
    fields None.

(** A value interpolated into a template. *)
Definition interpolate (v : option string) : string :=
  match v with Some s => s | None => "undefined" end.

(** [parse] of a type definition text; the braces must hold a field. *)
Definition parseObjectType (name : string) (directives : list DirectiveNode)
  (fields : list FieldDefinition) : result AstNode :=
  match fields with
  | [] => Throw syntaxError
  | _ :: _ => Ok (Document [mkDef ObjectTypeDefinition name fields directives []])
  end.

Definition selfField (v : option string) : FieldDefinition :=
  mkField (interpolate v) [] (NamedType (interpolate v)) [].

(** [possiblyAddRelationTypeFieldPayload]; the field is returned with the
    type map because its arguments are cleared in the reflexive case. *)
Definition possiblyAddRelationTypeFieldPayload (relationAstNode : TypeDefinition)
  (capitalizedFieldName typeName : string) (typeMap : TypeMap)
  (field : FieldDefinition) : result (TypeMap * FieldDefinition) :=
  let fieldTypeName := ("_" ++ typeName ++ capitalizedFieldName)%string in
  match tm_get typeMap fieldTypeName with
  | Some _ => Ok (typeMap, field)
  | None =>
      let fields := def_fields relationAstNode in
      do relationTypeDirective <- getRelationTypeDirectiveArgs relationAstNode;
      match relationTypeDirective with
      | None => Ok (typeMap, field)
      | Some _ =>
          let relationTypePayloadFields := filter isPropertyField fields in
          let fromValue := directedValue "from" fields in
          let toValue := directedValue "to" fields in
          let directives := def_directives relationAstNode in
          let isReflexive :=
            match fromValue, toValue with
            | Some f, Some t => negb (String.eqb f "") && String.eqb f t
            | _, _ => false
            end in
          if isReflexive then
            let fieldIsList := _isListType (field_type field) in
            let fieldArgs := field_arguments field in
            let directed :=
              if fieldIsList then ListType (NamedType fieldTypeName)
              else NamedType fieldTypeName in
            let typeMap :=
              tm_set typeMap (fieldTypeName ++ "Directions")%string
                (Document
                   [mkDef ObjectTypeDefinition
                      (fieldTypeName ++ "Directions")%string
                      [mkField "from" fieldArgs directed [];
                       mkField "to" fieldArgs directed []]
                      directives []]) in
            do payload <-
              parseObjectType fieldTypeName directives
                (relationTypePayloadFields ++ [selfField fromValue]);
            Ok (tm_set typeMap fieldTypeName payload,
                mkField (field_name field) [] (field_type field)
                  (field_directives field))
          else
            do payload <-
              parseObjectType fieldTypeName directives
                (relationTypePayloadFields
                 ++ (if match toValue with
                        | Some t => String.eqb typeName t | None => false end
                     then [selfField fromValue]
                     else if match fromValue with
                             | Some f => String.eqb typeName f | None => false
                             end
                     then [selfField toValue]
                     else []));
            Ok (tm_set typeMap fieldTypeName payload, field)
      end
  end.

(** [replaceRelationTypeValue]. *)
Definition replaceRelationTypeValue (fromName toName : string)
  (field : FieldDefinition) (capitalizedFieldName typeName : string)
  : FieldDefinition :=
  let isList := _isListType (field_type field) in
  let type :=
    NamedType ("_" ++ typeName ++ capitalizedFieldName
               ++ (if String.eqb fromName toName then "Directions" else ""))%string in
  let type :=
    if isList && negb (String.eqb fromName toName) then ListType type
    else type in
  mkField (field_name field) (field_arguments field) type
    (field_directives field).

(** [directive.arguments.find(..).value.value]. *)
Definition argumentValue (name : string) (d : DirectiveNode) : result string :=
  match dir_arg name d with
  | Some v => Ok v
  | None => Throw (TypeError "Cannot read property 'value' of undefined")
  end.

(** [handleRelationTypeDirective]; returns the type map and the field that
    is stored back at [fields[fieldIndex]]. *)
Definition handleRelationTypeDirective (relatedAstNode : TypeDefinition)
  (typeName : string) (field : FieldDefinition)
  (capitalizedFieldName : string) (relationTypeDirective : DirectiveNode)
  (config : Config) (typeMap : TypeMap) (mutationMap : list FieldDefinition)
  : result (TypeMap * FieldDefinition) :=
  do relationName <- argumentValue "name" relationTypeDirective;
  do fromName <- argumentValue "from" relationTypeDirective;
  do toName <- argumentValue "to" relationTypeDirective;
  do typeMap <-
    (if shouldAugmentRelationField config RMutation fromName toName then
       do valid <- validateRelationTypeDirectedFields typeName fromName toName;
       if valid then
         possiblyAddRelationMutationField typeName capitalizedFieldName
           fromName toName mutationMap typeMap relationName relatedAstNode
           true config
       else Ok typeMap
     else Ok typeMap);
  do '(typeMap, field) <-
    possiblyAddRelationTypeFieldPayload relatedAstNode capitalizedFieldName
      typeName typeMap field;
  Ok (typeMap,
      replaceRelationTypeValue fromName toName field capitalizedFieldName
        typeName).

(** Modelled from the spec: [getRelationName] and [getRelationDirection] of
    ./utils read the [name] and [direction] arguments of a field-level
    relation directive. *)
Definition getRelationName (relationDirective : DirectiveNode)
  : result string :=
  match dir_arg "name" relationDirective with
  | Some v => Ok v
  | None => Throw (Error "No name argument specified on @relation directive")
  end.

Definition getRelationDirection (relationDirective : DirectiveNode)
  : result string :=
  match dir_arg "direction" relationDirective with
  | Some v => Ok v
  | None =>
      Throw (Error "No direction argument specified on @relation directive")
  end.

(** [handleRelationFieldDirective]. *)
Definition handleRelationFieldDirective (relatedAstNode : TypeDefinition)
  (typeName capitalizedFieldName fieldValueName : string)
  (relationFieldDirective : DirectiveNode)
  (mutationMap : list FieldDefinition) (typeMap : TypeMap) (config : Config)
  : result TypeMap :=
  let fromName := typeName in
  let toName := fieldValueName in
  if shouldAugmentRelationField config RMutation fromName toName then
    do relationName <- getRelationName relationFieldDirective;
    do direction <- getRelationDirection relationFieldDirective;
    let '(fromName, toName) :=
      if String.eqb direction "IN" || String.eqb direction "in"
      then (toName, fromName) else (fromName, toName) in
    possiblyAddRelationMutationField typeName capitalizedFieldName fromName
      toName mutationMap typeMap relationName relatedAstNode false config
  else Ok typeMap.

(** [name.charAt(0).toUpperCase() + name.substr(1)]. *)
Definition capitalize (name : string) : string :=
  match name with
  | EmptyString => EmptyString
  | String c rest => String (toUpperCase c) rest
  end.

(** The body of the [for] loop of [handleRelationFields] for one field. *)
Definition handleRelationField (typeName : string)
  (mutationMap : list FieldDefinition) (config : Config)
  (typeMap : TypeMap) (field : FieldDefinition)
  : result (TypeMap * FieldDefinition) :=
  if fieldIsNotIgnored field then
    let fieldValueName := _getNamedType (field_type field) in
    let capitalizedFieldName := capitalize (field_name field) in
    match tm_get typeMap fieldValueName with
    | Some (Def relatedAstNode) =>
        let relationTypeDirective := getTypeDirective relatedAstNode "relation" in
        let relationFieldDirective := getFieldDirective field "relation" in
        if isNodeType_def relatedAstNode then
          match relationFieldDirective with
          | Some directive =>
              do typeMap <-
                handleRelationFieldDirective relatedAstNode typeName
                  capitalizedFieldName fieldValueName directive mutationMap
                  typeMap config;
              Ok (typeMap, field)
          | None => Ok (typeMap, field)
          end
        else
          match relationTypeDirective with
          | Some directive =>
              handleRelationTypeDirective relatedAstNode typeName field
                capitalizedFieldName directive config typeMap mutationMap
          | None => Ok (typeMap, field)
          end
    | _ => Ok (typeMap, field)
    end
  else Ok (typeMap, field).

Fixpoint handleRelationFieldsLoop (typeName : string)
  (mutationMap : list FieldDefinition) (config : Config)
  (typeMap : TypeMap) (fields : list FieldDefinition)
  : result (TypeMap * list FieldDefinition) :=
  match fields with
  | [] => Ok (typeMap, [])
  | field :: rest =>
      do '(typeMap, field) <-
        handleRelationField typeName mutationMap config typeMap field;
      do '(typeMap, rest) <-
        handleRelationFieldsLoop typeName mutationMap config typeMap rest;
      Ok (typeMap, field :: rest)
  end.

(** [handleRelationFields].  The source changes the fields of [astNode] in
    place and returns the type map; the model returns the node as well,
    and [augmentTypeMap] stores it back under its key. *)
Definition handleRelationFields (astNode : AstNode) (typeMap : TypeMap)
  (config : Config) : result (TypeMap * AstNode) :=
  let mutationMap := createOperationMap (tm_get typeMap "Mutation") in
  do typeName <- name_value astNode;
  match astNode with
  | Document _ => Ok (typeMap, astNode)
  | Def d =>
      if isNodeType_def d then
        do '(typeMap, fields) <-
          handleRelationFieldsLoop typeName mutationMap config typeMap
            (def_fields d);
        Ok (typeMap, Def (set_fields d fields))
      else Ok (typeMap, astNode)
  end.

(** ** The pipeline *)

(** [augmentQueryArguments]: pagination, ordering and filter arguments on
    the root query fields whose value is a queried node type. *)
Definition augmentQueryArguments (typeMap : TypeMap) (config : Config)
  : TypeMap :=
  let queryType := "Query" in
  let queryMap := createOperationMap (tm_get typeMap "Query") in
  match queryMap, tm_get typeMap queryType with
  | _ :: _, Some (Def d) =>
      tm_set typeMap queryType
        (Def (set_fields d
                (map (fun field =>
                        let valueTypeName := _getNamedType (field_type field) in
                        if isNodeType (tm_get typeMap valueTypeName)
                           && shouldAugmentType config RQuery valueTypeName
                        then addNodeListArguments field valueTypeName
                        else field)
                     queryMap)))
  | _, _ => typeMap
  end.

Definition directiveDeclaration (name : string) (args : list string)
  : AstNode :=
  Def (mkDef DirectiveDefinition name
         (map (fun a => inputField a (NamedType "String")) args) [] []).

(** Modelled from the spec: [addDirectiveDeclarations] of ./utils; the
    declarations of the directives the engine itself introduces: the
    relationship-type marker, the relationship-mutation metadata marker and
    the computed-field marker. *)
Definition addDirectiveDeclarations (typeMap : TypeMap) (config : Config)
  : TypeMap :=
  let typeMap :=
    tm_set typeMap "cypher" (directiveDeclaration "cypher" ["statement"]) in
  let typeMap :=
    tm_set typeMap "relation"
      (directiveDeclaration "relation" ["name"; "direction"; "from"; "to"]) in
  tm_set typeMap "MutationMeta"
    (directiveDeclaration "MutationMeta" ["relationship"; "from"; "to"]).

Definition isIgnoredType (entry : string * AstNode) : bool :=
  match snd entry with
  | Def d =>
      match getTypeDirective d "neo4j_ignore" with
      | Some _ => true
      | None => false
      end
  | Document _ => false
  end.

(** Modelled from the spec: [excludeIgnoredTypes] of ./utils; a per-type
    policy gets the types that carry the ignore marker added to its
    exclusion set, a global boolean is kept. *)
Definition excludeIgnoredTypes (typeMap : TypeMap) (config : Config) : Config :=
  let ignored := map fst (filter isIgnoredType typeMap) in
  let extend (p : OperationPolicy) :=
    match p with
    | PolicyBool b => PolicyBool b
    | PolicyExclude ex => PolicyExclude (ex ++ ignored)
    end in
  mkConfig (extend (query config)) (extend (mutation config))
    (temporal config) (possiblyAddScopeDirective config).

(** The body of the [forEach] over [Object.entries(typeMap)] for one key.
    The node of the entry is changed in place by [augmentType] and by
    [handleRelationFields]; the model reads it from the map, where the key
    still holds it (keys are the names of the definitions they hold), and
    stores the changed node back. *)
Definition augmentEntry {PK : PrimaryKey} (config : Config)
  (typeMap : TypeMap) (name : string) : result TypeMap :=
  if isTemporalType name then Ok typeMap
  else
    match tm_get typeMap name with
    | None => Ok typeMap
    | Some type =>
        let type := augmentType type typeMap config in
        let typeMap := tm_set typeMap name type in
        do typeMap <- possiblyAddQuery type typeMap config;
        do typeMap <- possiblyAddOrderingEnum type typeMap config;
        do typeMap <- possiblyAddTypeInput type typeMap config;
        do typeMap <- possiblyAddFilterInput type typeMap config;
        do typeMap <- possiblyAddTypeMutations type typeMap config;
        do '(typeMap, type) <- handleRelationFields type typeMap config;
        Ok (tm_set typeMap name type)
    end.

Fixpoint augmentEntries {PK : PrimaryKey} (config : Config) (typeMap : TypeMap)
  (names : list string) : result TypeMap :=
  match names with
  | [] => Ok typeMap
  | name :: rest =>
      do typeMap <- augmentEntry config typeMap name;
      augmentEntries config typeMap rest
  end.

(** [augmentTypeMap]; the entries visited are those present when the loop
    starts. *)
Definition augmentTypeMap {PK : PrimaryKey} (typeMap : TypeMap)
  (config : Config) : result TypeMap :=
  let config := excludeIgnoredTypes typeMap config in
  let typeMap := initializeOperationTypes typeMap config in
  do typeMap <- addRelationTypeDirectives typeMap;
  let typeMap := addTemporalTypes typeMap config in
  do typeMap <- augmentEntries config typeMap (tm_keys typeMap);
  let typeMap := augmentQueryArguments typeMap config in
  Ok (addDirectiveDeclarations typeMap config).


(** ** Resolvers *)

(** A JavaScript object used as a dictionary, with keys in insertion
    order. *)
Fixpoint obj_get {V : Type} (o : list (string * V)) (key : string)
  : option V :=
  match o with
  | [] => None
  | (k, v) :: rest => if String.eqb k key then Some v else obj_get rest key
  end.

Fixpoint obj_set {V : Type} (o : list (string * V)) (key : string) (v : V)
  : list (string * V) :=
  match o with
  | [] => [(key, v)]
  | (k, v0) :: rest =>
      if String.eqb k key then (k, v) :: rest
      else (k, v0) :: obj_set rest key v
  end.

(** The functions that end up in a resolver map: one the caller supplied,
    the default that delegates to [neo4jgraphql] with the configuration's
    debug flag, and the interface type resolution that reads
    [FRAGMENT_TYPE] off the resolved value. *)
Inductive Resolver : Type :=
| UserResolver (id : nat)
| DefaultResolver (config : Config)
| ResolveTypeByFragment.

Definition ResolverMap : Type := list (string * Resolver).

(** The resolvers argument: [None] is [undefined]. *)
Definition Resolvers : Type := option (list (string * ResolverMap)).

(** [o[key] === undefined] on a plain object: no own property and none
    inherited from [Object.prototype]. *)
Definition obj_undefined {V : Type} (o : list (string * V)) (key : string)
  : bool :=
  match obj_get o key with
  | None => negb (inherited key)
  | Some _ => false
  end.

(** [possiblyAddResolvers]: the default resolver for every operation for
    which [acc[operationName]] is undefined. *)
Definition possiblyAddResolvers (operationTypeMap : list FieldDefinition)
  (resolvers : ResolverMap) (config : Config) : ResolverMap :=
  fold_left
    (fun acc t =>
       let operationName := field_name t in
       if obj_undefined acc operationName
       then obj_set acc operationName (DefaultResolver config)
       else acc)
    operationTypeMap resolvers.

(** [resolvers && resolvers[root] ? resolvers[root] : {}]. *)
Definition rootResolvers (resolvers : Resolvers) (root : string)
  : ResolverMap :=
  match resolvers with
  | Some r => match obj_get r root with Some m => m | None => [] end
  | None => []
  end.

(** [resolvers[key] = value]. *)
Definition setResolvers (resolvers : Resolvers) (key : string)
  (value : ResolverMap) : result Resolvers :=
  match resolvers with
  | Some r => Ok (Some (obj_set r key value))
  | None =>
      Throw (TypeError ("Cannot set property '" ++ key ++ "' of undefined"))
  end.

(** The part of [augmentResolvers] for one root type. *)
Definition augmentRootResolvers (augmentedTypeMap : TypeMap) (root : string)
  (resolvers : Resolvers) (config : Config) : result Resolvers :=
  let generatedMap := createOperationMap (tm_get augmentedTypeMap root) in
  let rootMap :=
    possiblyAddResolvers generatedMap (rootResolvers resolvers root) config in
  match rootMap with
  | [] => Ok resolvers
  | _ :: _ => setResolvers resolvers root rootMap
  end.

(** The keys of the interface types of the map. *)
Definition interfaceTypes (augmentedTypeMap : TypeMap) : list string :=
  filter
    (fun e => isKind (tm_get augmentedTypeMap e) InterfaceTypeDefinition)
    (tm_keys augmentedTypeMap).

Fixpoint addResolveTypes (interfaces : list string) (resolvers : Resolvers)
  : result Resolvers :=
  match interfaces with
  | [] => Ok resolvers
  | e :: rest =>
      do resolvers <-
        setResolvers resolvers e [("__resolveType", ResolveTypeByFragment)];
      addResolveTypes rest resolvers
  end.

(** [augmentResolvers]. *)
Definition augmentResolvers (augmentedTypeMap : TypeMap)
  (resolvers : Resolvers) (config : Config) : result Resolvers :=
  do resolvers <- augmentRootResolvers augmentedTypeMap "Query" resolvers config;
  do resolvers <-
    augmentRootResolvers augmentedTypeMap "Mutation" resolvers config;
  addResolveTypes (interfaceTypes augmentedTypeMap) resolvers.

(** ** Extraction from an executable schema *)

(** The parts of graphql's schema objects that the extraction reads: the
    [resolve] member of a field, the [_fields] member of a type, and the
    [astNode] of a type or directive. *)
Record SchemaField : Type := mkSchemaField {
  resolve : option Resolver
}.

Record SchemaType : Type := mkSchemaType {
  _fields : option (list (string * SchemaField));
  astNode : option TypeDefinition
}.

(** [extractFieldResolversFromSchemaType]: the resolvers of the fields
    that have one, or nothing when no field has. *)
Definition extractFieldResolversFromSchemaType (type : SchemaType)
  : option ResolverMap :=
  match _fields type with
  | None | Some [] => None
  | Some fields =>
      let fieldResolvers :=
        fold_left
          (fun acc t =>
             match obj_get fields t with
             | Some field =>
                 match resolve field with
                 | Some r => obj_set acc t r
                 | None => acc
                 end
             | None => acc
             end)
          (map fst fields) [] in
      match fieldResolvers with
      | [] => None
      | _ :: _ => Some fieldResolvers
      end
  end.

Definition introspectionKeys : list string :=
  ["__Schema"; "__Type"; "__TypeKind"; "__Field"; "__InputValue";
   "__EnumValue"; "__Directive"].

(** [extractResolversFromSchema]; [None] is a missing schema or a schema
    without [_typeMap]. *)
Definition extractResolversFromSchema
  (schema : option (list (string * SchemaType)))
  : list (string * ResolverMap) :=
  let _typeMap := match schema with Some m => m | None => [] end in
  fold_left
    (fun acc t =>
       if negb (existsb (String.eqb t) introspectionKeys) then
         match obj_get _typeMap t with
         | Some type =>
             match extractFieldResolversFromSchemaType type with
             | Some schemaTypeResolvers => obj_set acc t schemaTypeResolvers
             | None => acc
             end
         | None => acc
         end
       else acc)
    (map fst _typeMap) [].

(** [extractTypeMapFromSchema].  [types] spreads the type map and then
    the array of directives into one object; the array indices are its
    first keys, so the directives are visited before the types (a type
    name is never an array index).  An entry without [astNode] is
    skipped. *)
Definition extractTypeMapFromSchema (typeMap : list (string * SchemaType))
  (directives : list SchemaType) : TypeMap :=
  fold_left
    (fun acc type =>
       match astNode type with
       | Some node => tm_set acc (def_name node) (Def node)
       | None => acc
       end)
    (directives ++ map snd typeMap) [].

(** ** Example schemas *)

Definition noScope : ScopeHook := fun _ _ _ _ => [].

Definition objectType (name : string) (fields : list FieldDefinition)
  : AstNode :=
  Def (mkDef ObjectTypeDefinition name fields [] []).

Definition requiredId : FieldDefinition :=
  mkField "id" [] (NonNullType (NamedType "ID")) [].

(** [query: true, mutation: true], no [temporal] option. *)
Definition allEnabled : Config :=
  mkConfig (PolicyBool true) (PolicyBool true) TemporalUndefined noScope.

(** [query: true, mutation: false]. *)
Definition queryOnly : Config :=
  mkConfig (PolicyBool true) (PolicyBool false) TemporalUndefined noScope.

(** [type Person { id: ID! name: String }]. *)
Definition personType : AstNode :=
  objectType "Person" [requiredId; mkField "name" [] (NamedType "String") []].

(** [type User { id: ID! }]. *)
Definition userType : AstNode := objectType "User" [requiredId].

(** [type Movie { released(since: DateTime!): [DateTime!]! }]. *)
Definition releasedField : FieldDefinition :=
  mkField "released"
    [mkArg "since" (NonNullType (NamedType "DateTime"))]
    (NonNullType (ListType (NonNullType (NamedType "DateTime")))) [].

Definition temporalSchema : TypeMap :=
  [("Movie", objectType "Movie" [releasedField])].

(** [rootFields typeMap root]: the fields of a root operation type. *)
Definition rootFields (typeMap : TypeMap) (root : string)
  : list FieldDefinition :=
  match tm_get typeMap root with
  | Some (Def d) => def_fields d
  | _ => []
  end.

(** ** Vocabulary of the statements *)

Definition rootTypeName (rootType : RootType) : string :=
  match rootType with RQuery => "Query" | RMutation => "Mutation" end.

(** A node type of the map that the policy permits for [rootType]. *)
Definition permittedNodeType (typeMap : TypeMap) (config : Config)
  (rootType : RootType) (key : string) (type : TypeDefinition) : Prop :=
  In (key, Def type) typeMap
  /\ isNodeType_def type = true
  /\ shouldAugmentType config rootType (def_name type) = true.

(** An object type with exactly one of a [to] field and a [from] field. *)
Definition oneSided (astNode : AstNode) : bool :=
  match astNode with
  | Def d =>
      Kind_eqb (def_kind d) ObjectTypeDefinition
      && xorb (has_field "to" (def_fields d)) (has_field "from" (def_fields d))
  | Document _ => false
  end.

(** The error of a one-sided type: it names the type and the field that is
    missing. *)
Definition oneSidedError (d : TypeDefinition) : JsError :=
  Error (if has_field "to" (def_fields d)
         then missingFromMessage (def_name d)
         else missingToMessage (def_name d)).

(** The first one-sided entry in the order of the keys. *)
Definition firstOneSided (typeMap : TypeMap) : option (string * AstNode) :=
  find (fun entry => oneSided (snd entry)) typeMap.

(** [type Person { name: String }]: no required ID field, one field that is
    eligible as a mutation argument. *)
Definition unkeyedPerson : TypeDefinition :=
  mkDef ObjectTypeDefinition "Person"
    [mkField "name" [] (NamedType "String") []] [] [].

(** The root mutation fields that one call of
    [possiblyAddRelationMutationField] pushes: Add, then Remove, each
    unless the operation map has its name. *)
Definition generatedRelationMutations (mutationMap : list FieldDefinition)
  (typeName capitalizedFieldName fromName toName relationName : string)
  (relatedAstNode : TypeDefinition) (relationHasProps : bool)
  (config : Config) : list FieldDefinition :=
  flat_map
    (fun action =>
       if op_undefined mutationMap
            (actionName action ++ typeName ++ capitalizedFieldName)
       then [relationMutationField action typeName capitalizedFieldName
               fromName toName relationName relatedAstNode relationHasProps
               config]
       else [])
    [Add; Remove].

(** The field takes an argument called [data]. *)
Definition takesData (f : FieldDefinition) : bool :=
  has_arg "data" (field_arguments f).

(** The endpoints of a field-level relationship: the owner is [from]
    unless the direction is inbound. *)
Definition directedEndpoints (typeName fieldValueName direction : string)
  : string * string :=
  if String.eqb direction "IN" || String.eqb direction "in"
  then (fieldValueName, typeName) else (typeName, fieldValueName).

(** [_<action><Type><Field>Payload], the result type of a relationship
    mutation. *)
Definition relationPayloadName (action : RelationAction)
  (typeName capitalizedFieldName : string) : string :=
  "_" ++ (actionName action ++ typeName ++ capitalizedFieldName) ++ "Payload".

(** The directional carrier [_<Type><Field>Directions] of a reflexive
    relationship field: [from] and [to] select the payload type, as a list
    when the field is a list, and carry the arguments the field had. *)
Definition directionsType (fieldTypeName : string) (field : FieldDefinition)
  (relationAstNode : TypeDefinition) : AstNode :=
  let directed :=
    if _isListType (field_type field) then ListType (NamedType fieldTypeName)
    else NamedType fieldTypeName in
  Document
    [mkDef ObjectTypeDefinition (fieldTypeName ++ "Directions")
       [mkField "from" (field_arguments field) directed [];
        mkField "to" (field_arguments field) directed []]
       (def_directives relationAstNode) []].

(** The fields that a stage pushed onto a root type: what follows the
    fields that were there before. *)
Definition addedFields (before after : list FieldDefinition)
  : list FieldDefinition :=
  skipn (List.length before) after.

(** The root mutation fields added between two states of the type map. *)
Definition addedMutations (typeMap typeMap' : TypeMap) : list FieldDefinition :=
  addedFields (rootFields typeMap "Mutation") (rootFields typeMap' "Mutation").

(** The schema of the specification's scenario:
    [type ACTED_IN @relation(name: "ACTED_IN", from: "Person", to: "Movie")
     { from: Person to: Movie roles: [String] }] used as the value of
    [Person.movies]. *)
Definition actedInDirective : DirectiveNode :=
  relationDirective "ACTED_IN" "Person" "Movie".

Definition actedIn : TypeDefinition :=
  mkDef ObjectTypeDefinition "ACTED_IN"
    [mkField "from" [] (NamedType "Person") [];
     mkField "to" [] (NamedType "Movie") [];
     mkField "roles" [] (ListType (NamedType "String")) []]
    [actedInDirective] [].

Definition moviesField : FieldDefinition :=
  mkField "movies" [] (ListType (NamedType "ACTED_IN")) [].

Definition movieType : TypeDefinition :=
  mkDef ObjectTypeDefinition "Movie" [requiredId] [] [].

(** A type map that holds only an empty root Mutation type. *)
Definition emptyMutationRoot : TypeMap :=
  [("Mutation", objectType "Mutation" [])].

(** [Movie.actors: [Person] @relation(name: "ACTED_IN", direction: "IN")]. *)
Definition actorsDirective : DirectiveNode :=
  mkDirective "relation" [("name", "ACTED_IN"); ("direction", "IN")].

(** The value of a result, if it has one. *)
Definition resultValue {A : Type} (r : result A) : option A :=
  match r with Ok a => Some a | Throw _ => None end.

(** The value of a result that is known to be [Ok]. *)
Definition okValue {A : Type} (r : result A) (default : A) : A :=
  match r with Ok a => a | Throw _ => default end.

Definition actedInHandled : TypeMap * FieldDefinition :=
  okValue
    (handleRelationTypeDirective actedIn "Person" moviesField "Movies"
       actedInDirective allEnabled emptyMutationRoot [])
    ([], moviesField).

Definition actorsHandled : TypeMap :=
  okValue
    (handleRelationFieldDirective
       (mkDef ObjectTypeDefinition "Person" [requiredId] [] [])
       "Movie" "Actors" "Person" actorsDirective [] emptyMutationRoot
       allEnabled)
    [].

(** [Movie.ratings: [Rated]] where [Rated] goes from [User] to [Person]:
    the owner is on neither side of the relationship. *)
Definition foreignRatingSchema : TypeMap :=
  [("Movie",
    objectType "Movie"
      [requiredId; mkField "ratings" [] (ListType (NamedType "Rated")) []]);
   ("User", userType);
   ("Person", personType);
   ("Rated",
    objectType "Rated"
      [mkField "from" [] (NamedType "User") [];
       mkField "to" [] (NamedType "Person") [];
       mkField "rating" [] (NamedType "Int") []])].

(** A reflexive relationship [FRIEND_OF] from [Person] to [Person], used as
    the value of the list field [Person.friends(since: Int)]. *)
Definition friendOf : TypeDefinition :=
  mkDef ObjectTypeDefinition "FriendOf"
    [mkField "from" [] (NamedType "Person") [];
     mkField "to" [] (NamedType "Person") [];
     mkField "since" [] (NamedType "Int") []]
    [relationDirective "FRIEND_OF" "Person" "Person"] [].

Definition friendsField : FieldDefinition :=
  mkField "friends" [mkArg "since" (NamedType "Int")]
    (ListType (NamedType "FriendOf")) [].

Definition friendsSchema : TypeMap :=
  [("Person", personType); ("FriendOf", Def friendOf);
   ("Mutation", objectType "Mutation" [])].

(** [query: { exclude: ["T"] }, mutation: true]. *)
Definition excludeT : Config :=
  mkConfig (PolicyExclude ["T"]) (PolicyBool true) TemporalUndefined noScope.

(** [type T { id: ID! filter: [Rel] }] with the relationship type
    [type Rel { from: T to: User since: Int }]. *)
Definition filterNamedSchema : TypeMap :=
  [("T", objectType "T"
           [requiredId; mkField "filter" [] (ListType (NamedType "Rel")) []]);
   ("User", userType);
   ("Rel", objectType "Rel"
             [mkField "from" [] (NamedType "T") [];
              mkField "to" [] (NamedType "User") [];
              mkField "since" [] (NamedType "Int") []])].

Fixpoint last_char (s : string) : option ascii :=
  match s with
  | EmptyString => None
  | String c EmptyString => Some c
  | String _ rest => last_char rest
  end.

(** [query: true, mutation: { exclude: ["T"] }]. *)
Definition excludeTMutation : Config :=
  mkConfig (PolicyBool true) (PolicyExclude ["T"]) TemporalUndefined noScope.

(** [User] next to empty root types. *)
Definition userWithRoots : TypeMap :=
  [("User", userType); ("Query", objectType "Query" []);
   ("Mutation", objectType "Mutation" [])].

(** A schema whose author wrote the root query field [T] by hand. *)
Definition customQuerySchema : TypeMap :=
  [("T", objectType "T" [requiredId]);
   ("Query",
    objectType "Query" [mkField "T" [] (ListType (NamedType "T")) []])].

(** [Person] with a filter input written by the schema author. *)
Definition customFilterSchema : TypeMap :=
  [("Person", personType);
   ("_PersonFilter",
    Def (mkDef InputObjectTypeDefinition "_PersonFilter"
           [inputField "name" (NamedType "String")] [] []))].

(** The pipeline run on its own output. *)
Definition augmentTwice (typeMap : TypeMap) (config : Config)
  : result TypeMap :=
  do once <- augmentTypeMap typeMap config;
  augmentTypeMap once config.

(** The argument names of each root query field. *)
Definition queryArgumentNames (typeMap : TypeMap)
  : list (string * list string) :=
  map (fun f => (field_name f, map arg_name (field_arguments f)))
      (rootFields typeMap "Query").

(** [type Rated { to: Movie }]: a [to] field without a [from] field. *)
Definition halfRated : TypeDefinition :=
  mkDef ObjectTypeDefinition "Rated"
    [mkField "to" [] (NamedType "Movie") []] [] [].

Definition oneSidedSchema : TypeMap :=
  [("Person", personType); ("Rated", Def halfRated)].

(** [query: false, mutation: false]. *)
Definition allDisabled : Config :=
  mkConfig (PolicyBool false) (PolicyBool false) TemporalUndefined noScope.

(** The type map has no entry under [key]. *)
Definition lacks (typeMap : TypeMap) (key : string) : Prop :=
  tm_get typeMap key = None.

(** [type Person { id: ID! friends(since: Int): [FriendOf] }] with
    [type FriendOf { from: Person to: Person since: Int }], as the schema
    author writes them. *)
Definition friendsInput : TypeMap :=
  [("Person", objectType "Person" [requiredId; friendsField]);
   ("FriendOf",
    objectType "FriendOf"
      [mkField "from" [] (NamedType "Person") [];
       mkField "to" [] (NamedType "Person") [];
       mkField "since" [] (NamedType "Int") []])].

(** The field [fieldName] of the type stored under [typeName]. *)
Definition fieldOf (typeMap : TypeMap) (typeName fieldName : string)
  : option FieldDefinition :=
  match tm_def typeMap typeName with
  | Some d => find_field fieldName (def_fields d)
  | None => None
  end.

(** [type Movie { actors: [Person] @relation(..) }]'s field, before the
    pagination arguments are added. *)
Definition actorsField : FieldDefinition :=
  mkField "actors" [mkArg "first" (NamedType "Int")]
    (ListType (NamedType "Person")) [actorsDirective].

(** The fields of a list that are not called [name]. *)
Definition fieldsNotNamed (name : string) (fields : list FieldDefinition)
  : list FieldDefinition :=
  filter (fun f => negb (String.eqb (field_name f) name)) fields.

(** The characters of a string. *)
Fixpoint chars (s : string) : list ascii :=
  match s with
  | EmptyString => []
  | String c rest => c :: chars rest
  end.

(** The characters after the first that are their own upper case: the
    places where [transformRelationName] inserts an underscore. *)
Definition upperAfterFirst (name : string) : nat :=
  match name with
  | EmptyString => 0
  | String _ rest =>
      List.length (filter (fun c => Ascii.eqb c (toUpperCase c)) (chars rest))
  end.

(** [temporal: false]. *)
Definition temporalOff : Config :=
  mkConfig (PolicyBool true) (PolicyBool true) (TemporalBool false) noScope.

(** An object type with both a [to] field and a [from] field. *)
Definition hasDirectedFields (astNode : AstNode) : bool :=
  match astNode with
  | Def d =>
      Kind_eqb (def_kind d) ObjectTypeDefinition
      && has_field "to" (def_fields d) && has_field "from" (def_fields d)
  | Document _ => false
  end.

(** The relationship name that normalization settles on: the [name]
    argument of the type's relation directive when it has one, the
    default name of the type otherwise. *)
Definition normalizedRelationName (d : TypeDefinition) : string :=
  match find_directive "relation" (def_directives d) with
  | Some typeDirective =>
      match dir_arg "name" typeDirective with
      | Some nameArg => nameArg
      | None => transformRelationName d
      end
  | None => transformRelationName d
  end.

(** The directives that are not called [name]. *)
Definition directivesNotNamed (name : string) (ds : list DirectiveNode)
  : list DirectiveNode :=
  filter (fun e => negb (String.eqb (dir_name e) name)) ds.

(** [type Rated @relation(name: "RATED", from: "A", to: "B")
     { from: User to: Movie rating: Int }]: the directive disagrees with
    the fields. *)
Definition misdirectedRated : TypeDefinition :=
  mkDef ObjectTypeDefinition "Rated"
    [mkField "from" [] (NamedType "User") [];
     mkField "to" [] (NamedType "Movie") [];
     mkField "rating" [] (NamedType "Int") []]
    [mkDirective "relation" [("name", "RATED"); ("from", "A"); ("to", "B")]]
    [].

(** The empty object type that [possiblyAddObjectType] stores. *)
Definition emptyObjectType (name : string) : AstNode :=
  Def (mkDef ObjectTypeDefinition name [] [] []).

(** [later] has the keys of [earlier], in the same order, followed by
    the keys that were added. *)
Definition extendsKeys (earlier later : TypeMap) : Prop :=
  exists added, tm_keys later = tm_keys earlier ++ added.

(** The key is defined in the type map. *)
Definition defines (typeMap : TypeMap) (key : string) : Prop :=
  tm_get typeMap key <> None.

(** A field of the type that the Update mutation would take besides the
    primary key. *)
Definition isUpdatableField (typeMap : TypeMap) (primaryKeyName : string)
  (t : FieldDefinition) : bool :=
  fieldIsNotIgnored t
  && negb (String.eqb (field_name t) primaryKeyName)
  && (isNotSystemField (field_name t)
      && negb (hasCypher t)
      && (scalarLike typeMap (_getNamedType (field_type t))
          || isTemporalType (_getNamedType (field_type t)))).

(** [Movie.ratings: [Rated!]!] where [Rated] goes from [User] to [Movie]. *)
Definition ratedType : TypeDefinition :=
  mkDef ObjectTypeDefinition "Rated"
    [mkField "from" [] (NamedType "User") [];
     mkField "to" [] (NamedType "Movie") [];
     mkField "rating" [] (NamedType "Int") []]
    [relationDirective "RATED" "User" "Movie"] [].

Definition ratingsField : FieldDefinition :=
  mkField "ratings" []
    (NonNullType (ListType (NonNullType (NamedType "Rated")))) [].

Definition ratingsSchema : TypeMap :=
  [("Movie", Def movieType); ("User", userType); ("Rated", Def ratedType);
   ("Mutation", objectType "Mutation" [])].

(** [interface Named { name: String }] next to a root query type. *)
Definition namedInterface : AstNode :=
  Def (mkDef InterfaceTypeDefinition "Named"
         [mkField "name" [] (NamedType "String") []] [] []).

Definition interfaceSchema : TypeMap :=
  [("Named", namedInterface);
   ("Query",
    objectType "Query"
      [mkField "Person" [] (ListType (NamedType "Person")) [];
       mkField "custom" [] (NamedType "String") []])].

(** The caller's resolvers: one for [Query.custom], one for the interface. *)
Definition callerResolvers : list (string * ResolverMap) :=
  [("Query", [("custom", UserResolver 1)]);
   ("Named", [("name", UserResolver 2)])].

(** The resolver of the field [f] of a schema type, if the type has the
    field and the field has a resolver. *)
Definition fieldResolver (type : SchemaType) (f : string) : option Resolver :=
  match _fields type with
  | Some fields =>
      match obj_get fields f with
      | Some field => resolve field
      | None => None
      end
  | None => None
  end.

(** An executable schema with one resolved field, one type without
    resolvers and an introspection type. *)
Definition resolvedSchema : list (string * SchemaType) :=
  [("Query",
    mkSchemaType
      (Some [("custom", mkSchemaField (Some (UserResolver 1)));
             ("Person", mkSchemaField None)])
      (Some (mkDef ObjectTypeDefinition "Query" [] [] [])));
   ("Person",
    mkSchemaType (Some [("name", mkSchemaField None)])
      (Some (mkDef ObjectTypeDefinition "Person" [] [] [])));
   ("__Type",
    mkSchemaType (Some [("kind", mkSchemaField (Some (UserResolver 9)))])
      None);
   ("String", mkSchemaType None None)].

(** A field that becomes an argument of the Create mutation. *)
Definition isCreateArgumentField (typeMap : TypeMap) (t : FieldDefinition)
  : bool :=
  fieldIsNotIgnored t
  && (isNotSystemField (field_name t)
      && negb (hasCypher t)
      && (scalarLike typeMap (_getNamedType (field_type t))
          || isTemporalType (_getNamedType (field_type t)))).

(** [type Account { id: ID! owner: ID! note: String internal: Account }]. *)
Definition accountType : TypeDefinition :=
  mkDef ObjectTypeDefinition "Account"
    [requiredId;
     mkField "owner" [] (NonNullType (NamedType "ID")) [];
     mkField "note" [] (NamedType "String") [];
     mkField "internal" [] (NamedType "Account") []]
    [] [].

(** The two values that [createOrderingFields] pushes for a field. *)
Definition orderingValues (field : FieldDefinition) : list string :=
  [(field_name field ++ "_asc")%string; (field_name field ++ "_desc")%string].

(** [type constructor { id: ID! }]: a node type named like a member of
    [Object.prototype]. *)
Definition constructorType : TypeDefinition :=
  mkDef ObjectTypeDefinition "constructor" [requiredId] [] [].

(** The fields of a root type for which a resolver can be bound: those not
    named like a member of [Object.prototype]. *)
Definition bindableFields (typeMap : TypeMap) (root : string)
  : list FieldDefinition :=
  filter (fun f => negb (inherited (field_name f))) (rootFields typeMap root).

(** A root query field named like a member of [Object.prototype]. *)
Definition toStringField : FieldDefinition :=
  mkField "toString" [] (NamedType "String") [].

(** [interfaceSchema] with the root query field [toString] added. *)
Definition prototypeNamedSchema : TypeMap :=
  [("Named", namedInterface);
   ("Query",
    objectType "Query"
      [mkField "Person" [] (ListType (NamedType "Person")) [];
       mkField "custom" [] (NamedType "String") [];
       toStringField])].

(** The type declares a field other than [from] and [to]. *)
Definition declaresPropertyField (relatedAstNode : TypeDefinition) : Prop :=
  exists e,
    In e (def_fields relatedAstNode)
    /\ field_name e <> "from" /\ field_name e <> "to".

(** [Person.Friends(first: Int): [FriendOf]], which the payload generator
    names like [Person.friends]. *)
Definition capitalFriendsField : FieldDefinition :=
  mkField "Friends" [mkArg "first" (NamedType "Int")]
    (ListType (NamedType "FriendOf")) [].

(** [friendsInput] with both fields on [Person]. *)
Definition twoFriendsInput : TypeMap :=
  [("Person",
    objectType "Person" [requiredId; friendsField; capitalFriendsField]);
   ("FriendOf",
    objectType "FriendOf"
      [mkField "from" [] (NamedType "Person") [];
       mkField "to" [] (NamedType "Person") [];
       mkField "since" [] (NamedType "Int") []])].

(** [Person.friends(since: Int): [FriendOf] @neo4j_ignore]. *)
Definition ignoredFriendsField : FieldDefinition :=
  mkField "friends" [mkArg "since" (NamedType "Int")]
    (ListType (NamedType "FriendOf")) [mkDirective "neo4j_ignore" []].

Definition ignoredFriendsInput : TypeMap :=
  [("Person", objectType "Person" [requiredId; ignoredFriendsField]);
   ("FriendOf",
    objectType "FriendOf"
      [mkField "from" [] (NamedType "Person") [];
       mkField "to" [] (NamedType "Person") [];
       mkField "since" [] (NamedType "Int") []])].

(** A primary-key selector that takes the first field of the type, of
    whatever type; an instance at which the statements made for every
    selector are evaluated. *)
Definition firstFieldKey : PrimaryKey :=
  fun d => hd_error (def_fields d).

(** [unkeyedPerson] with an empty root Mutation type. *)
Definition unkeyedPersonSchema : TypeMap :=
  [("Person", Def unkeyedPerson); ("Mutation", objectType "Mutation" [])].

(** The entry under [key] is an object type that [parse] returned as a
    document: the form in which the relationship payload types
    [_<Type><Field>] are stored. *)
Definition relationObjectAt (typeMap : TypeMap) (key : string) : Prop :=
  exists d,
    tm_get typeMap key = Some (Document [d])
    /\ def_kind d = ObjectTypeDefinition
    /\ def_name d = key.

(** The type map has no entry under [key], or a relationship object
    type: no enum and no input type. *)
Definition noDerivativeAt (typeMap : TypeMap) (key : string) : Prop :=
  tm_get typeMap key = None \/ relationObjectAt typeMap key.

(** The definition stored under the key of a root type bears its name. *)
Definition rootNamed (typeMap : TypeMap) (root : string) : Prop :=
  forall q, tm_get typeMap root = Some (Def q) -> def_name q = root.

(** The entry of [root] is the same definition in [typeMap'] as in
    [typeMap] up to fields, with a field called [n] in the one exactly
    when there is one in the other; an entry that is no definition is
    unchanged. *)
Definition rootKept (n root : string) (typeMap typeMap' : TypeMap) : Prop :=
  match tm_get typeMap root with
  | Some (Def q) =>
      exists q',
        tm_get typeMap' root = Some (Def q')
        /\ def_name q' = def_name q
        /\ has_field n (def_fields q') = has_field n (def_fields q)
  | other => tm_get typeMap' root = other
  end.

(** The names of the structured temporal types, which
    [transformManagedFieldTypes] looks for in the text of a field. *)
Definition managedTypeNames : list string :=
  ["_Neo4jDateTime"; "_Neo4jDate"; "_Neo4jTime"; "_Neo4jLocalTime";
   "_Neo4jLocalDateTime"].

Definition mentionsManagedType (s : string) : bool :=
  existsb (fun marker => includes marker s) managedTypeNames.

(** An input value [name: type] that mentions a structured temporal type
    only as the type it names. *)
Definition plainInput (name : string) (type : TypeNode) : bool :=
  negb (mentionsManagedType name)
  && (isTemporalType (_getNamedType type)
      || negb (mentionsManagedType (_getNamedType type))).

Definition plainArgument (a : InputValueDefinition) : bool :=
  negb (mentionsManagedType (arg_name a))
  && negb (mentionsManagedType (_getNamedType (arg_type a))).

Definition plainDirective (d : DirectiveNode) : bool :=
  negb (mentionsManagedType (dir_name d))
  && forallb
       (fun kv =>
          negb (mentionsManagedType (fst kv))
          && negb (mentionsManagedType (snd kv)))
       (dir_arguments d).

(** A field that mentions a structured temporal type only as the type of
    its value: not in its name, its arguments or its directives. *)
Definition managedOnlyAsType (t : FieldDefinition) : bool :=
  plainInput (field_name t) (field_type t)
  && forallb plainArgument (field_arguments t)
  && forallb plainDirective (field_directives t).

(** The fields that [buildCreateMutationArguments] prints for the eligible
    fields: the first [ID!] one as the input value [name: ID] unless
    [firstIdField] is already set, every other one as it is. *)
Fixpoint createFields (firstIdField : bool)
  (eligible : list FieldDefinition) : list FieldDefinition :=
  match eligible with
  | [] => []
  | t :: rest =>
      if isPrimaryKeyField t && negb firstIdField
      then inputField (field_name t) (NamedType "ID") :: createFields true rest
      else t :: createFields firstIdField rest
  end.

(** The argument that the Update mutation takes for a field: not
    required, and of the input twin of a structured temporal type. *)
Definition optionalArgument (t : FieldDefinition) : InputValueDefinition :=
  mkArg (field_name t)
    (mapNamedType decideFieldType
       match field_type t with
       | NonNullType inner => inner
       | other => other
       end).

(** A field that gets a pair of ordering values: not a list, not ignored,
    and valued in a built-in scalar, an enum or a structured temporal
    type. *)
Definition isSortableField (typeMap : TypeMap) (field : FieldDefinition)
  : bool :=
  negb (_isListType (field_type field))
  && fieldIsNotIgnored field
  && (isBasicScalar (_getNamedType (field_type field))
      || isKind (tm_get typeMap (_getNamedType (field_type field)))
           EnumTypeDefinition
      || isTemporalType (_getNamedType (field_type field))).

(** [born(as: _Neo4jDateTimeInput): _Neo4jDateTime], a temporal field with
    a temporal argument, as the temporal injector leaves it. *)
Definition bornField : FieldDefinition :=
  mkField "born" [mkArg "as" (NamedType "_Neo4jDateTimeInput")]
    (NamedType "_Neo4jDateTime") [].

(** [type Event { _Neo4jDateKey: ID! note: String }]. *)
Definition eventType : TypeDefinition :=
  mkDef ObjectTypeDefinition "Event"
    [mkField "_Neo4jDateKey" [] (NonNullType (NamedType "ID")) [];
     mkField "note" [] (NamedType "String") []]
    [] [].

(** A field that the mutation generator takes as an argument: it carries
    neither the ignore marker nor the computed-field marker, it is none
    of the system fields [_id], [to] and [from], and its value is a
    built-in scalar, an enum or scalar type of the map, or a structured
    temporal type. *)
Definition eligibleField (typeMap : TypeMap) (t : FieldDefinition) : Prop :=
  find_directive "neo4j_ignore" (field_directives t) = None
  /\ find_directive "cypher" (field_directives t) = None
  /\ ~ In (field_name t) ["_id"; "to"; "from"]
  /\ (In (_getNamedType (field_type t))
        ["ID"; "String"; "Int"; "Float"; "Boolean"]
      \/ (exists d,
            tm_get typeMap (_getNamedType (field_type t)) = Some (Def d)
            /\ (def_kind d = EnumTypeDefinition
                \/ def_kind d = ScalarTypeDefinition))
      \/ In (_getNamedType (field_type t))
           ["_Neo4jTime"; "_Neo4jDate"; "_Neo4jDateTime"; "_Neo4jLocalTime";
            "_Neo4jLocalDateTime"]).

(** * Properties *)

Unset Implicit Arguments.

(** ** Type-map and string lemmas *)

Lemma tm_get_set_same typeMap key v :
  tm_get (tm_set typeMap key v) key = Some v.
Proof.
  induction typeMap as [|[k v0] rest IH]; simpl.
  - now rewrite String.eqb_refl.
  - destruct (String.eqb k key) eqn:E; simpl; rewrite E; auto.
Qed.

Lemma tm_get_set_other typeMap key key' v :
  key <> key' -> tm_get (tm_set typeMap key v) key' = tm_get typeMap key'.
Proof.
  intros Hne. induction typeMap as [|[k v0] rest IH]; simpl.
  - destruct (String.eqb key key') eqn:E; auto.
    apply String.eqb_eq in E. contradiction.
  - destruct (String.eqb k key) eqn:E; simpl.
    + apply String.eqb_eq in E. subst k.
      destruct (String.eqb key key') eqn:E'; auto.
      apply String.eqb_eq in E'. contradiction.
    + destruct (String.eqb k key'); auto.
Qed.

Lemma tm_get_In typeMap key v :
  tm_get typeMap key = Some v -> In (key, v) typeMap.
Proof.
  induction typeMap as [|[k v0] rest IH]; simpl; [discriminate|].
  destruct (String.eqb k key) eqn:E.
  - apply String.eqb_eq in E. intros H. inversion H. subst. now left.
  - intros H. right. auto.
Qed.

Lemma length_append (a b : string) :
  String.length (a ++ b) = String.length a + String.length b.
Proof. induction a; simpl; auto. Qed.

Lemma append_inj_l (p a b : string) : (p ++ a = p ++ b)%string -> a = b.
Proof.
  induction p; simpl; auto. intros H. inversion H. auto.
Qed.

Lemma append_inj_r (s a b : string) : (a ++ s = b ++ s)%string -> a = b.
Proof.
  revert b. induction a as [|c a IH]; intros b H.
  - destruct b as [|c' b]; auto.
    apply (f_equal String.length) in H. simpl in H.
    rewrite length_append in H. lia.
  - destruct b as [|c' b].
    + apply (f_equal String.length) in H. simpl in H.
      rewrite length_append in H. lia.
    + simpl in H. inversion H. f_equal. auto.
Qed.

(** ** Temporal substitution *)

(** In output position the rewrite reaches the named leaf through every
    wrapper layer and keeps the layers. *)
Lemma transformTemporalTypeName_field type config :
  transformTemporalTypeName type config false
  = mapNamedType (fun n => temporalLeafName n config false) type.
Proof. induction type; simpl; congruence. Qed.

(** A bare named argument type gets the input twin. *)
Lemma transformTemporalTypeName_argument_named name config :
  transformTemporalTypeName (NamedType name) config true
  = NamedType (temporalLeafName name config true).
Proof. reflexivity. Qed.

(** Below a wrapper layer an argument type is rewritten as a field type:
    the flag is not passed down. *)
Lemma transformTemporalTypeName_argument_wrapped type config :
  type <> NamedType (_getNamedType type) ->
  transformTemporalTypeName type config true
  = transformTemporalTypeName type config false.
Proof. destruct type; simpl; congruence. Qed.

(** C6 (fails on the code).  On [released(since: DateTime!): [DateTime!]!]
    the injector rewrites the field type to [[_Neo4jDateTime!]!], as the
    claim says, but the wrapped argument type [DateTime!] becomes
    [_Neo4jDateTime!], the output type, where the claim requires the input
    twin [_Neo4jDateTimeInput!]. *)
Theorem addTemporalTypes_wrapped_argument_gets_output_type :
  tm_get (addTemporalTypes temporalSchema allEnabled) "Movie"
  = Some (objectType "Movie"
            [mkField "released"
               [mkArg "since" (NonNullType (NamedType "_Neo4jDateTime"))]
               (NonNullType
                  (ListType (NonNullType (NamedType "_Neo4jDateTime"))))
               []])
  /\ transformTemporalTypeName (NonNullType (NamedType "DateTime"))
       (decideTemporalConfig allEnabled) true
     <> NonNullType (NamedType "_Neo4jDateTimeInput").
Proof. split; [reflexivity | discriminate]. Qed.

(** ** Root operation types *)

Lemma possiblyAddObjectType_nodes typeMap name k d :
  (name = "Query" \/ name = "Mutation") ->
  tm_get (possiblyAddObjectType typeMap name) k = Some (Def d) ->
  isNodeType_def d = true ->
  tm_get typeMap k = Some (Def d).
Proof.
  intros Hname Hget Hnode. unfold possiblyAddObjectType in Hget.
  destruct (tm_get typeMap name) eqn:E; auto.
  destruct (string_dec name k) as [->|Hne].
  - rewrite tm_get_set_same in Hget. inversion Hget. subst d.
    unfold isNodeType_def in Hnode. simpl in Hnode.
    destruct Hname as [-> | ->]; simpl in Hnode; discriminate.
  - rewrite tm_get_set_other in Hget; auto.
Qed.

Lemma hasNonExcludedNodeType_true types typeMap1 typeMap rootType config :
  (forall k d, tm_get typeMap1 k = Some (Def d) -> isNodeType_def d = true ->
               tm_get typeMap k = Some (Def d)) ->
  hasNonExcludedNodeType types typeMap1 rootType config = true ->
  exists key type, permittedNodeType typeMap config rootType key type.
Proof.
  intros Hsub H. unfold hasNonExcludedNodeType in H.
  destruct (find _ types) as [e|] eqn:F; [|discriminate].
  apply find_some in F. destruct F as [_ F].
  unfold nonExcludedNodeType in F.
  destruct (tm_get typeMap1 e) as [[d|]|] eqn:G; try discriminate.
  apply andb_prop in F. destruct F as [F1 F2].
  exists e, d. repeat split; auto. apply tm_get_In. auto.
Qed.

Lemma hasNonExcludedNodeType_false typeMap1 typeMap rootType config :
  (forall k d, tm_get typeMap1 k = Some (Def d) -> isNodeType_def d = true ->
               tm_get typeMap k = Some (Def d)) ->
  (forall key type, In (key, Def type) typeMap ->
     isNodeType_def type = true ->
     shouldAugmentType config rootType (def_name type) = false) ->
  forall types, hasNonExcludedNodeType types typeMap1 rootType config = false.
Proof.
  intros Hsub Hall types.
  destruct (hasNonExcludedNodeType types typeMap1 rootType config) eqn:H; auto.
  destruct (hasNonExcludedNodeType_true _ _ _ _ _ Hsub H)
    as (key & type & Hin & Hnode & Hshould).
  rewrite (Hall _ _ Hin Hnode) in Hshould. discriminate.
Qed.

(** [initializeOperationTypes] defines the root container of an operation
    that the input map lacks only if the input map holds a node type that
    the policy permits for that operation; when every node type is
    excluded for the operation, the entry of its root container is left as
    it was. *)
Lemma initializeOperationTypes_roots typeMap config
  rootType :
  (tm_get typeMap (rootTypeName rootType) = None ->
   tm_get (initializeOperationTypes typeMap config) (rootTypeName rootType)
     <> None ->
   exists key type, permittedNodeType typeMap config rootType key type)
  /\ ((forall key type, In (key, Def type) typeMap ->
         isNodeType_def type = true ->
         shouldAugmentType config rootType (def_name type) = false) ->
      tm_get (initializeOperationTypes typeMap config) (rootTypeName rootType)
      = tm_get typeMap (rootTypeName rootType)).
Proof.
  assert (Hq : forall k d,
             tm_get (if hasNonExcludedNodeType (tm_keys typeMap) typeMap
                          RQuery config
                     then possiblyAddObjectType typeMap "Query"
                     else typeMap) k = Some (Def d) ->
             isNodeType_def d = true -> tm_get typeMap k = Some (Def d)).
  { intros k d. destruct (hasNonExcludedNodeType _ typeMap RQuery config); auto.
    apply possiblyAddObjectType_nodes. now left. }
  assert (Hother : forall tm name k, name <> k ->
             tm_get (possiblyAddObjectType tm name) k = tm_get tm k).
  { intros tm name k Hne. unfold possiblyAddObjectType.
    destruct (tm_get tm name); auto. apply tm_get_set_other; auto. }
  unfold initializeOperationTypes. destruct rootType; simpl rootTypeName.
  - split.
    + intros Hnone Hsome.
      destruct (hasNonExcludedNodeType (tm_keys typeMap) typeMap RQuery config)
        eqn:E.
      * apply (hasNonExcludedNodeType_true (tm_keys typeMap) typeMap typeMap
                 RQuery config); auto.
      * exfalso. apply Hsome.
        destruct (hasNonExcludedNodeType _ typeMap RMutation config);
          [rewrite Hother by discriminate|]; auto.
    + intros Hall.
      rewrite (hasNonExcludedNodeType_false typeMap typeMap RQuery config)
        by auto.
      destruct (hasNonExcludedNodeType _ typeMap RMutation config);
        [rewrite Hother by discriminate|]; auto.
  - split.
    + intros Hnone Hsome.
      match goal with
      | H : tm_get (if ?c then _ else _) _ <> None |- _ =>
          destruct c eqn:E
      end.
      * apply (hasNonExcludedNodeType_true _ _ typeMap _ _ Hq E).
      * exfalso. apply Hsome.
        destruct (hasNonExcludedNodeType _ typeMap RQuery config);
          [rewrite Hother by discriminate|]; auto.
    + intros Hall.
      rewrite (hasNonExcludedNodeType_false _ typeMap RMutation config Hq Hall).
      destruct (hasNonExcludedNodeType _ typeMap RQuery config);
        [rewrite Hother by discriminate|]; auto.
Qed.

(** ** Relationship normalization *)

Lemma addRelationTypeDirective_oneSided d :
  oneSided (Def d) = true ->
  addRelationTypeDirective (Def d) = Throw (oneSidedError d).
Proof.
  unfold oneSided, oneSidedError, addRelationTypeDirective, has_field.
  destruct (Kind_eqb (def_kind d) ObjectTypeDefinition); simpl; [|discriminate].
  destruct (find_field "to" (def_fields d)),
           (find_field "from" (def_fields d)); simpl;
    intros H; try discriminate; reflexivity.
Qed.

Lemma addRelationTypeDirective_paired astNode :
  oneSided astNode = false ->
  exists astNode', addRelationTypeDirective astNode = Ok astNode'.
Proof.
  destruct astNode as [d|defs]; [|eexists; reflexivity].
  unfold oneSided, addRelationTypeDirective, has_field.
  destruct (Kind_eqb (def_kind d) ObjectTypeDefinition); simpl;
    [|eexists; reflexivity].
  destruct (find_field "to" (def_fields d)),
           (find_field "from" (def_fields d)); simpl;
    intros H; try discriminate; eexists; reflexivity.
Qed.

(** The stage throws for the first one-sided entry and returns otherwise. *)
Lemma addRelationTypeDirectives_first typeMap :
  match firstOneSided typeMap with
  | Some (_, Def d) =>
      addRelationTypeDirectives typeMap = Throw (oneSidedError d)
  | Some (_, Document _) => False
  | None => exists typeMap', addRelationTypeDirectives typeMap = Ok typeMap'
  end.
Proof.
  unfold firstOneSided.
  induction typeMap as [|[k v] rest IH]; simpl.
  - eexists; reflexivity.
  - destruct (oneSided v) eqn:E.
    + destruct v as [d|defs]; [|discriminate].
      rewrite addRelationTypeDirective_oneSided; auto.
    + destruct (addRelationTypeDirective_paired v E) as [v' ->]. simpl.
      destruct (find _ rest) as [[k' [d|defs]]|].
      * rewrite IH. reflexivity.
      * contradiction.
      * destruct IH as [rest' ->]. eexists; reflexivity.
Qed.

Lemma addRelationTypeDirectives_throw_app typeMap more e :
  addRelationTypeDirectives typeMap = Throw e ->
  addRelationTypeDirectives (typeMap ++ more) = Throw e.
Proof.
  induction typeMap as [|[k v] rest IH]; simpl; [discriminate|].
  destruct (addRelationTypeDirective v); simpl; auto.
  destruct (addRelationTypeDirectives rest); simpl; [discriminate|].
  intros H. rewrite IH; auto.
Qed.

Lemma tm_set_fresh typeMap key v :
  tm_get typeMap key = None -> tm_set typeMap key v = typeMap ++ [(key, v)].
Proof.
  induction typeMap as [|[k v0] rest IH]; simpl; auto.
  destruct (String.eqb k key); [discriminate|].
  intros H. rewrite IH; auto.
Qed.

Lemma possiblyAddObjectType_app typeMap name :
  exists more, possiblyAddObjectType typeMap name = typeMap ++ more.
Proof.
  unfold possiblyAddObjectType. destruct (tm_get typeMap name) eqn:E.
  - exists []. now rewrite app_nil_r.
  - eexists. apply tm_set_fresh. auto.
Qed.

(** The root containers are appended after the entries of the input. *)
Lemma initializeOperationTypes_app typeMap config :
  exists more, initializeOperationTypes typeMap config = typeMap ++ more.
Proof.
  unfold initializeOperationTypes.
  destruct (hasNonExcludedNodeType _ typeMap RQuery config).
  - destruct (possiblyAddObjectType_app typeMap "Query") as [m1 ->].
    destruct (hasNonExcludedNodeType _ _ RMutation config).
    + destruct (possiblyAddObjectType_app (typeMap ++ m1) "Mutation")
        as [m2 ->].
      exists (m1 ++ m2). now rewrite app_assoc.
    + eexists; reflexivity.
  - destruct (hasNonExcludedNodeType _ _ RMutation config).
    + apply possiblyAddObjectType_app.
    + exists []. now rewrite app_nil_r.
Qed.

Lemma firstOneSided_exists typeMap key d :
  In (key, Def d) typeMap -> oneSided (Def d) = true ->
  exists key' d',
    firstOneSided typeMap = Some (key', Def d')
    /\ In (key', Def d') typeMap /\ oneSided (Def d') = true.
Proof.
  intros Hin Hone. unfold firstOneSided.
  destruct (find (fun entry => oneSided (snd entry)) typeMap)
    as [[k' v']|] eqn:F.
  - apply find_some in F. destruct F as [F1 F2]. cbn [snd] in F2.
    destruct v' as [d'|defs]; [|discriminate].
    exists k', d'. auto.
  - pose proof (find_none _ _ F _ Hin) as Hno. cbn [snd] in Hno. congruence.
Qed.

(** C2.  If the type map holds an object type with exactly one of a [to]
    and a [from] field, [addRelationTypeDirectives] throws an error that
    names such a type (the first in key order) and the missing field, and
    [augmentTypeMap] aborts with that error under every configuration; if
    every object type has both fields or neither, the stage returns. *)
Theorem addRelationTypeDirectives_from_to_pairing typeMap :
  (forall key d,
     In (key, Def d) typeMap -> oneSided (Def d) = true ->
     exists key' d',
       firstOneSided typeMap = Some (key', Def d')
       /\ In (key', Def d') typeMap
       /\ oneSided (Def d') = true
       /\ addRelationTypeDirectives typeMap = Throw (oneSidedError d')
       /\ forall config,
            augmentTypeMap typeMap config = Throw (oneSidedError d'))
  /\ ((forall key astNode, In (key, astNode) typeMap ->
         oneSided astNode = false) ->
      exists typeMap', addRelationTypeDirectives typeMap = Ok typeMap').
Proof.
  split.
  - intros key d Hin Hone.
    destruct (firstOneSided_exists typeMap key d Hin Hone)
      as (key' & d' & Hfirst & Hin' & Hone').
    pose proof (addRelationTypeDirectives_first typeMap) as H.
    rewrite Hfirst in H.
    exists key', d'. repeat split; auto.
    intros config. unfold augmentTypeMap.
    destruct (initializeOperationTypes_app typeMap
                (excludeIgnoredTypes typeMap config)) as [more ->].
    rewrite (addRelationTypeDirectives_throw_app _ more _ H). reflexivity.
  - intros Hall.
    pose proof (addRelationTypeDirectives_first typeMap) as H.
    destruct (firstOneSided typeMap) as [[k v]|] eqn:F; auto.
    unfold firstOneSided in F. apply find_some in F. destruct F as [F1 F2].
    cbn [snd] in F2. rewrite (Hall _ _ F1) in F2. discriminate.
Qed.

(** ** Operation maps *)

Lemma has_field_om_set name acc t :
  has_field name (om_set acc t)
  = has_field name acc || String.eqb (field_name t) name.
Proof.
  unfold has_field, find_field.
  induction acc as [|e rest IH]; cbn [om_set find].
  - destruct (String.eqb (field_name t) name); reflexivity.
  - destruct (String.eqb_spec (field_name e) (field_name t)) as [E|E];
      cbn [find].
    + rewrite E.
      destruct (String.eqb (field_name t) name) eqn:X; [reflexivity|].
      now rewrite orb_false_r.
    + destruct (String.eqb (field_name e) name); [reflexivity|exact IH].
Qed.

Lemma has_field_createOperationMap_fold name fields :
  forall acc,
    has_field name (fold_left om_set fields acc)
    = has_field name acc || has_field name fields.
Proof.
  induction fields as [|t rest IH]; intros acc; cbn [fold_left].
  - unfold has_field at 3. cbn. now rewrite orb_false_r.
  - rewrite IH, has_field_om_set. unfold has_field at 4, find_field.
    cbn [find]. fold (find_field name rest).
    fold (has_field name rest).
    destruct (String.eqb (field_name t) name);
      [now rewrite orb_true_r|now rewrite orb_false_r].
Qed.

(** The operation map has a name exactly when the root type has a field
    of that name. *)
Lemma has_field_createOperationMap name typeMap root :
  has_field name (createOperationMap (tm_get typeMap root))
  = has_field name (rootFields typeMap root).
Proof.
  unfold createOperationMap, rootFields.
  destruct (tm_get typeMap root) as [[d|defs]|]; try reflexivity.
  apply has_field_createOperationMap_fold.
Qed.

Lemma has_field_app name l1 l2 :
  has_field name (l1 ++ l2) = has_field name l1 || has_field name l2.
Proof.
  unfold has_field, find_field.
  induction l1 as [|e rest IH]; cbn [app find orb]; auto.
  destruct (String.eqb (field_name e) name); auto.
Qed.

(** ** Node mutations and the primary key *)

Lemma inherited_mutation_name mutationType typeName :
  inherited (mutationTypeName mutationType ++ typeName) = false.
Proof. destruct mutationType; reflexivity. Qed.

Lemma fold_left_push_length {A B} (p : B -> bool) (g : B -> A) l :
  forall acc,
    length (fold_left (fun acc t => if p t then acc ++ [g t] else acc) l acc)
    = length acc + length (filter p l).
Proof.
  induction l as [|t rest IH]; intros acc; cbn [fold_left filter].
  - cbn [length]. lia.
  - rewrite IH. destruct (p t); [rewrite length_app|]; cbn [length]; lia.
Qed.

Lemma filter_cons_iff {A} (p : A -> bool) l :
  filter p l <> [] <-> exists t, In t l /\ p t = true.
Proof.
  split.
  - destruct (filter p l) as [|t rest] eqn:E; [intros H; now destruct H|].
    intros _. exists t. apply filter_In. rewrite E. now left.
  - intros (t & Hin & Ht) E.
    assert (In t (filter p l)) as H by (apply filter_In; auto).
    rewrite E in H. destruct H.
Qed.

Lemma existsb_eqb_In (s : string) l :
  existsb (String.eqb s) l = true <-> In s l.
Proof.
  rewrite existsb_exists. split.
  - intros (x & Hin & E). apply String.eqb_eq in E. now subst.
  - intros H. exists s. split; [exact H|apply String.eqb_refl].
Qed.

Lemma Kind_eqb_eq a b : Kind_eqb a b = true <-> a = b.
Proof. destruct a, b; split; intros H; try reflexivity; discriminate. Qed.

Lemma isKind_true node k :
  isKind node k = true <-> exists d, node = Some (Def d) /\ def_kind d = k.
Proof.
  unfold isKind. destruct node as [[d|defs]|].
  - rewrite Kind_eqb_eq. split.
    + intros H. now exists d.
    + intros (d' & E & H). inversion E. now subst.
  - split; [discriminate|intros (d & E & _); discriminate].
  - split; [discriminate|intros (d & E & _); discriminate].
Qed.

(** The test of the Create case, spelled out. *)
Lemma isCreateArgumentField_eligible typeMap t :
  isCreateArgumentField typeMap t = true <-> eligibleField typeMap t.
Proof.
  unfold isCreateArgumentField, eligibleField, fieldIsNotIgnored, hasCypher,
    isNotSystemField, getFieldDirective, scalarLike, isBasicScalar,
    isTemporalType.
  rewrite !andb_true_iff, !orb_true_iff, !negb_true_iff, !existsb_eqb_In,
    !isKind_true, !String.eqb_neq.
  set (basic := In _ ["ID"; "String"; "Int"; "Float"; "Boolean"]%string).
  set (temporal := In _ ("_Neo4jTime" :: _)%string).
  destruct (find_directive "neo4j_ignore" (field_directives t));
    destruct (find_directive "cypher" (field_directives t));
    cbn [In]; split; intros H;
    try (exfalso; intuition discriminate; fail).
  - destruct H as (_ & (((N1 & N2) & N3) & _) & V).
    split; [reflexivity|]. split; [reflexivity|]. split.
    + intros [E|[E|[E|[]]]]; congruence.
    + destruct V as [[[V|(d & E & K)]|(d & E & K)]|V]; auto;
        right; left; exists d; auto.
  - destruct H as (_ & _ & Hn & V).
    split; [reflexivity|]. split.
    + repeat split; auto; intros E; apply Hn; rewrite E; auto.
    + destruct V as [V|[(d & E & [K|K])|V]]; auto;
        [left; left; right|left; right]; exists d; auto.
Qed.

(** The test of the Update case: eligible, and not the primary key. *)
Lemma isUpdatableField_eligible typeMap primaryKeyName t :
  isUpdatableField typeMap primaryKeyName t = true
  <-> eligibleField typeMap t /\ field_name t <> primaryKeyName.
Proof.
  rewrite <- isCreateArgumentField_eligible.
  unfold isUpdatableField, isCreateArgumentField.
  rewrite !andb_true_iff, negb_true_iff, String.eqb_neq. tauto.
Qed.

(** The eligibility of a field as the Create and Update cases test it. *)
Lemma isCreateArgumentField_model typeMap t :
  isCreateArgumentField typeMap t
  = fieldIsNotIgnored t && isMutationArgumentField typeMap t.
Proof. reflexivity. Qed.

Lemma isUpdatableField_model typeMap primaryKeyName t :
  isUpdatableField typeMap primaryKeyName t
  = fieldIsNotIgnored t
    && negb (String.eqb (field_name t) primaryKeyName)
    && isMutationArgumentField typeMap t.
Proof. reflexivity. Qed.

(** The Create mutation takes one argument for each eligible field. *)
Lemma buildCreateMutationArguments_length astNode typeMap :
  length (buildCreateMutationArguments astNode typeMap)
  = length (filter (isCreateArgumentField typeMap) (def_fields astNode)).
Proof.
  unfold buildCreateMutationArguments, buildInputValueDefinitions,
    transformManagedFieldTypes.
  rewrite !length_map.
  match goal with
  | |- length (fst (fold_left ?f _ _)) = _ => set (step := f)
  end.
  assert (forall l acc b,
            length (fst (fold_left step l (acc, b)))
            = length acc
              + length (filter (isCreateArgumentField typeMap) l)) as H.
  { induction l as [|t rest IH]; intros acc b; cbn [fold_left filter].
    - cbn [fst length]. lia.
    - destruct (step (acc, b) t) as [acc' b'] eqn:E. rewrite IH.
      unfold step in E. rewrite isCreateArgumentField_model.
      destruct (fieldIsNotIgnored t && isMutationArgumentField typeMap t).
      + destruct (isNonNullType (field_type t) && _ && _ && _);
          inversion E; subst; rewrite length_app; cbn [length]; lia.
      + inversion E; subst. lia. }
  rewrite H. reflexivity.
Qed.

(** The Update mutation takes the primary key and one argument for each
    other eligible field, and nothing when there is no other such field. *)
Lemma buildUpdateMutationArguments_length primaryKey astNode typeMap :
  length (buildUpdateMutationArguments primaryKey astNode typeMap)
  = match filter (isUpdatableField typeMap (field_name primaryKey))
            (def_fields astNode) with
    | [] => 0
    | t :: rest => S (S (length rest))
    end.
Proof.
  unfold buildUpdateMutationArguments.
  match goal with
  | |- context [fold_left ?f (def_fields astNode) []] =>
      pose proof (fold_left_push_length
                    (isUpdatableField typeMap (field_name primaryKey))
                    (fun t => inputField (field_name t)
                                match field_type t with
                                | NonNullType inner => inner
                                | other => other
                                end)
                    (def_fields astNode) []) as H;
      change (length (fold_left f (def_fields astNode) [])
              = length (@nil FieldDefinition)
                + length (filter (isUpdatableField typeMap
                                    (field_name primaryKey))
                            (def_fields astNode))) in H;
      destruct (fold_left f (def_fields astNode) []) as [|a acc]
  end.
  - destruct (filter _ _); [reflexivity|discriminate].
  - unfold buildInputValueDefinitions, transformManagedFieldTypes.
    rewrite !length_map. cbn [length] in H |- *.
    destruct (filter _ _); [discriminate|]. cbn [length] in H. lia.
Qed.

Lemma buildDeleteMutationArguments_length primaryKey :
  length (buildDeleteMutationArguments primaryKey) = 1.
Proof. reflexivity. Qed.

(** Without a primary key the Update and Delete cases of
    [buildMutationArguments] return nothing at all. *)
Lemma buildMutationArguments_without_primary_key (PK : PrimaryKey) astNode
  typeMap :
  getPrimaryKey astNode = None ->
  buildMutationArguments Update astNode typeMap = None
  /\ buildMutationArguments Delete astNode typeMap = None
  /\ buildMutationArguments Create astNode typeMap
     = Some (buildCreateMutationArguments astNode typeMap).
Proof.
  intros H. unfold buildMutationArguments. rewrite H. auto.
Qed.

(** So generating the Update mutation of such a type throws, unless a
    field of that name exists already. *)
Lemma possiblyAddTypeMutation_update_without_primary_key (PK : PrimaryKey)
  astNode typeMap mutationMap config :
  getPrimaryKey astNode = None ->
  op_undefined mutationMap ("Update" ++ def_name astNode) = true ->
  possiblyAddTypeMutation Update astNode typeMap mutationMap config
  = Throw (TypeError "Cannot read property 'length' of undefined").
Proof.
  intros Hpk Hundef. unfold possiblyAddTypeMutation.
  simpl mutationTypeName. rewrite Hundef.
  destruct (buildMutationArguments_without_primary_key PK astNode typeMap Hpk)
    as [-> _].
  reflexivity.
Qed.

(** One mutation is pushed onto the root Mutation type when its name is
    not in the operation map and it has arguments; nothing else changes. *)
Lemma possiblyAddTypeMutation_returns (PK : PrimaryKey) mutationType astNode
  typeMap mutationMap config m args :
  tm_get typeMap "Mutation" = Some (Def m) ->
  has_fields_member (def_kind m) = true ->
  buildMutationArguments mutationType astNode typeMap = Some args ->
  exists typeMap' m',
    possiblyAddTypeMutation mutationType astNode typeMap mutationMap config
    = Ok typeMap'
    /\ tm_get typeMap' "Mutation" = Some (Def m')
    /\ def_kind m' = def_kind m
    /\ (forall key, key <> "Mutation" ->
                    tm_get typeMap' key = tm_get typeMap key)
    /\ (forall name,
          has_field name (def_fields m')
          = has_field name (def_fields m)
            || (String.eqb (mutationTypeName mutationType ++ def_name astNode)
                  name
                && op_undefined mutationMap
                     (mutationTypeName mutationType ++ def_name astNode)
                && negb (Nat.eqb (length args) 0))).
Proof.
  intros Hm Hk Hargs. unfold possiblyAddTypeMutation. rewrite Hargs.
  destruct (op_undefined mutationMap _).
  - destruct args as [|a args].
    + exists typeMap, m. repeat split; auto.
      intros name. cbn [length Nat.eqb negb].
      now rewrite andb_false_r, orb_false_r.
    + unfold push_root_field. rewrite Hm, Hk.
      eexists _, _. split; [reflexivity|].
      split; [apply tm_get_set_same|].
      split; [reflexivity|].
      split; [intros key Hne; apply tm_get_set_other; auto|].
      intros name. cbn [set_fields def_fields length Nat.eqb negb].
      rewrite has_field_app, andb_true_r.
      unfold has_field at 2, find_field. cbn [find field_name].
      destruct (String.eqb _ name); reflexivity.
  - exists typeMap, m. repeat split; auto.
    intros name. cbn [andb]. now rewrite andb_false_r, orb_false_r.
Qed.

Lemma isKind_root_pushed typeMap typeMap' m m' :
  tm_get typeMap "Mutation" = Some (Def m) ->
  tm_get typeMap' "Mutation" = Some (Def m') ->
  def_kind m' = def_kind m ->
  (forall key, key <> "Mutation" -> tm_get typeMap' key = tm_get typeMap key) ->
  forall key k, isKind (tm_get typeMap' key) k = isKind (tm_get typeMap key) k.
Proof.
  intros Hm Hm' Hk Hother key k.
  destruct (String.eqb_spec key "Mutation") as [->|Hne].
  - rewrite Hm, Hm'. cbn [isKind]. now rewrite Hk.
  - now rewrite Hother.
Qed.

Lemma isMutationArgumentField_same_kinds typeMap typeMap' t :
  (forall key k,
     isKind (tm_get typeMap' key) k = isKind (tm_get typeMap key) k) ->
  isMutationArgumentField typeMap' t = isMutationArgumentField typeMap t.
Proof.
  intros H. unfold isMutationArgumentField, isInputValueType, scalarLike.
  now rewrite !H.
Qed.

(** The three node mutations of a type with a primary key, whatever field
    the selector of ./utils takes it to be. *)
Lemma possiblyAddTypeMutations_root_fields (PK : PrimaryKey) d typeMap config
  m primaryKey :
  isNodeType_def d = true ->
  shouldAugmentType config RMutation (def_name d) = true ->
  tm_get typeMap "Mutation" = Some (Def m) ->
  has_fields_member (def_kind m) = true ->
  getPrimaryKey d = Some primaryKey ->
  exists typeMap' m',
    possiblyAddTypeMutations (Def d) typeMap config = Ok typeMap'
    /\ tm_get typeMap' "Mutation" = Some (Def m')
    /\ forall name,
         has_field name (def_fields m')
         = has_field name (def_fields m)
           || (String.eqb ("Create" ++ def_name d) name
               && negb (Nat.eqb
                       (length (filter (isCreateArgumentField typeMap)
                                  (def_fields d))) 0))
           || (String.eqb ("Update" ++ def_name d) name
               && negb (Nat.eqb
                       (length (filter (isUpdatableField typeMap
                                          (field_name primaryKey))
                                  (def_fields d))) 0))
           || String.eqb ("Delete" ++ def_name d) name.
Proof.
  intros Hnode Hpol Hm Hk Hpk.
  unfold possiblyAddTypeMutations. cbn [name_value bind].
  rewrite Hpol, Hnode. cbn [andb].
  set (mutationMap := createOperationMap (tm_get typeMap "Mutation")).
  assert (forall mutationType,
            op_undefined mutationMap
              (mutationTypeName mutationType ++ def_name d)
            = negb (has_field (mutationTypeName mutationType ++ def_name d)
                      (def_fields m))) as Hundef.
  { intros mutationType. unfold op_undefined, mutationMap.
    rewrite has_field_createOperationMap, inherited_mutation_name.
    unfold rootFields. rewrite Hm. apply andb_true_r. }
  destruct (possiblyAddTypeMutation_returns PK Create d typeMap mutationMap
              config m (buildCreateMutationArguments d typeMap) Hm Hk
              eq_refl)
    as (tm1 & m1 & -> & Hm1 & Hk1 & Ho1 & Hf1).
  cbn [bind].
  assert (has_fields_member (def_kind m1) = true) as Hk1'
      by now rewrite Hk1.
  destruct (possiblyAddTypeMutation_returns PK Update d tm1 mutationMap
              config m1 (buildUpdateMutationArguments primaryKey d tm1)
              Hm1 Hk1')
    as (tm2 & m2 & -> & Hm2 & Hk2 & Ho2 & Hf2).
  { unfold buildMutationArguments. now rewrite Hpk. }
  cbn [bind].
  assert (has_fields_member (def_kind m2) = true) as Hk2'
      by now rewrite Hk2.
  destruct (possiblyAddTypeMutation_returns PK Delete d tm2 mutationMap
              config m2 (buildDeleteMutationArguments primaryKey) Hm2 Hk2')
    as (tm3 & m3 & -> & Hm3 & Hk3 & Ho3 & Hf3).
  { unfold buildMutationArguments. now rewrite Hpk. }
  exists tm3, m3. split; [reflexivity|]. split; [exact Hm3|].
  intros name. rewrite Hf3, Hf2, Hf1.
  rewrite buildCreateMutationArguments_length,
    buildUpdateMutationArguments_length, buildDeleteMutationArguments_length.
  rewrite (filter_ext (isUpdatableField tm1 (field_name primaryKey))
             (isUpdatableField typeMap (field_name primaryKey))).
  2:{ intros t. rewrite !isUpdatableField_model.
      now rewrite (isMutationArgumentField_same_kinds typeMap tm1 t
                     (isKind_root_pushed typeMap tm1 m m1 Hm Hm1 Hk1 Ho1)). }
  rewrite (Hundef Create), (Hundef Update), (Hundef Delete).
  change (mutationTypeName Create) with "Create".
  change (mutationTypeName Update) with "Update".
  change (mutationTypeName Delete) with "Delete".
  cbn [Nat.eqb negb]. rewrite andb_true_r.
  assert (forall n b, has_field name (def_fields m)
                      || (String.eqb n name
                          && negb (has_field n (def_fields m)) && b)
                      = has_field name (def_fields m)
                        || (String.eqb n name && b)) as Hcase.
  { intros n b. destruct (String.eqb_spec n name) as [->|]; [|reflexivity].
    destruct (has_field name (def_fields m)); reflexivity. }
  destruct (has_field name (def_fields m)) eqn:E; [reflexivity|].
  cbn [orb].
  assert (forall n, String.eqb n name && negb (has_field n (def_fields m))
                    = String.eqb n name) as Hn.
  { intros n. destruct (String.eqb_spec n name) as [->|]; [|reflexivity].
    now rewrite E. }
  rewrite !Hn.
  destruct (filter (isUpdatableField typeMap (field_name primaryKey))
              (def_fields d)); reflexivity.
Qed.

(** C3 (as stated, fails on the code).  [type Person { name: String }]
    has no required, non-list ID field and one eligible field.  Whatever
    field, if any, the primary-key selector of ./utils takes from it, the
    node-mutation generator does not return a map with [CreatePerson] and
    without [UpdatePerson] and [DeletePerson]: when the selector gives a
    field, [DeletePerson] is generated with that field as its argument;
    when it gives none, reading the Update arguments throws. *)
Lemma unkeyed_type_gets_delete_or_no_map :
  ~ exists (PK : PrimaryKey) typeMap',
      possiblyAddTypeMutations (Def unkeyedPerson) unkeyedPersonSchema
        allEnabled = Ok typeMap'
      /\ has_field "CreatePerson" (rootFields typeMap' "Mutation") = true
      /\ has_field "UpdatePerson" (rootFields typeMap' "Mutation") = false
      /\ has_field "DeletePerson" (rootFields typeMap' "Mutation") = false.
Proof.
  intros (PK & typeMap' & H & _ & _ & Hd).
  destruct (getPrimaryKey unkeyedPerson) as [primaryKey|] eqn:E.
  - destruct (possiblyAddTypeMutations_root_fields PK unkeyedPerson
                unkeyedPersonSchema allEnabled
                (mkDef ObjectTypeDefinition "Mutation" [] [] []) primaryKey
                eq_refl eq_refl eq_refl eq_refl E)
      as (tm & m' & Hgen & Hm' & Hf).
    rewrite Hgen in H. inversion H; subst tm.
    unfold rootFields in Hd. rewrite Hm', (Hf "DeletePerson") in Hd.
    cbn [def_name unkeyedPerson] in Hd.
    rewrite String.eqb_refl, orb_true_r in Hd. discriminate.
  - unfold possiblyAddTypeMutations in H. cbn [name_value bind] in H.
    change (shouldAugmentType allEnabled RMutation (def_name unkeyedPerson))
      with true in H.
    change (isNodeType_def unkeyedPerson) with true in H.
    cbn [andb] in H.
    destruct (possiblyAddTypeMutation Create _ _ _ _) as [tm1|];
      cbn [bind] in H; [|discriminate].
    rewrite (possiblyAddTypeMutation_update_without_primary_key PK
               unkeyedPerson tm1
               (createOperationMap (tm_get unkeyedPersonSchema "Mutation"))
               allEnabled E eq_refl) in H.
    discriminate.
Qed.

(** C3 (amended).  Take a node type that the policy permits for mutation,
    with the root Mutation type in the map, on which the primary-key
    selector of ./utils gives a field, whatever its type.  The
    node-mutation generator returns, and the root Mutation type then has
    the fields it had before, [Create<Type>] when the type has an
    eligible field, [Update<Type>] when it has an eligible field other
    than the primary key, and [Delete<Type>]; no other field. *)
Theorem node_mutations_follow_primary_key (PK : PrimaryKey) d typeMap config
  m primaryKey :
  isNodeType_def d = true ->
  shouldAugmentType config RMutation (def_name d) = true ->
  tm_get typeMap "Mutation" = Some (Def m) ->
  has_fields_member (def_kind m) = true ->
  getPrimaryKey d = Some primaryKey ->
  exists typeMap',
    possiblyAddTypeMutations (Def d) typeMap config = Ok typeMap'
    /\ forall name,
         has_field name (rootFields typeMap' "Mutation") = true
         <-> has_field name (def_fields m) = true
             \/ (name = ("Create" ++ def_name d)%string
                 /\ exists t, In t (def_fields d) /\ eligibleField typeMap t)
             \/ (name = ("Update" ++ def_name d)%string
                 /\ exists t, In t (def_fields d)
                              /\ eligibleField typeMap t
                              /\ field_name t <> field_name primaryKey)
             \/ name = ("Delete" ++ def_name d)%string.
Proof.
  intros Hnode Hpol Hm Hk Hpk.
  destruct (possiblyAddTypeMutations_root_fields PK d typeMap config m
              primaryKey Hnode Hpol Hm Hk Hpk)
    as (typeMap' & m' & Hgen & Hm' & Hf).
  exists typeMap'. split; [exact Hgen|].
  intros name. unfold rootFields. rewrite Hm', Hf.
  assert (forall p : FieldDefinition -> bool,
            negb (Nat.eqb (length (filter p (def_fields d))) 0) = true
            <-> exists t, In t (def_fields d) /\ p t = true) as Hsome.
  { intros p. rewrite <- filter_cons_iff.
    destruct (filter p (def_fields d)); cbn [length Nat.eqb negb];
      split; congruence. }
  assert ((exists t, In t (def_fields d)
                     /\ isCreateArgumentField typeMap t = true)
          <-> exists t, In t (def_fields d) /\ eligibleField typeMap t)
    as Hcreate.
  { split; intros (t & Hin & H); exists t; (split; [exact Hin|]);
      now apply isCreateArgumentField_eligible. }
  assert ((exists t, In t (def_fields d)
                     /\ isUpdatableField typeMap (field_name primaryKey) t
                        = true)
          <-> exists t, In t (def_fields d)
                        /\ eligibleField typeMap t
                        /\ field_name t <> field_name primaryKey)
    as Hupdate.
  { split; intros (t & Hin & H); exists t; (split; [exact Hin|]);
      now apply isUpdatableField_eligible. }
  rewrite !orb_true_iff, !andb_true_iff, !Hsome, !String.eqb_eq,
    Hcreate, Hupdate.
  split.
  - intros [[[H|[E H]]|[E H]]|E]; subst; auto 7.
  - intros [H|[[E H]|[[E H]|E]]]; subst; auto 7.
Qed.

Lemma node_mutations_follow_primary_key_witness :
  exists typeMap',
    @possiblyAddTypeMutations firstFieldKey (Def unkeyedPerson)
      unkeyedPersonSchema allEnabled = Ok typeMap'
    /\ has_field "CreatePerson" (rootFields typeMap' "Mutation") = true
    /\ has_field "UpdatePerson" (rootFields typeMap' "Mutation") = false
    /\ has_field "DeletePerson" (rootFields typeMap' "Mutation") = true.
Proof.
  destruct (node_mutations_follow_primary_key firstFieldKey unkeyedPerson
              unkeyedPersonSchema allEnabled
              (mkDef ObjectTypeDefinition "Mutation" [] [] [])
              (mkField "name" [] (NamedType "String") [])
              eq_refl eq_refl eq_refl eq_refl eq_refl)
    as (typeMap' & Hgen & Hiff).
  exists typeMap'. split; [exact Hgen|]. repeat split.
  - apply Hiff. right. left. split; [reflexivity|].
    exists (mkField "name" [] (NamedType "String") []).
    split; [left; reflexivity|].
    apply isCreateArgumentField_eligible. reflexivity.
  - destruct (has_field "UpdatePerson" (rootFields typeMap' "Mutation"))
      eqn:X; [|reflexivity].
    apply Hiff in X.
    destruct X as [X|[[X _]|[[_ (t & [<-|[]] & _ & X)]|X]]];
      try discriminate.
    now destruct X.
  - apply Hiff. right. right. right. reflexivity.
Defined.

(** With that selector [Person] gets [CreatePerson(name: String)] and
    [DeletePerson(name: String!)]. *)
Example unkeyed_person_mutations :
  option_map (fun typeMap' => map (fun f => (field_name f, field_arguments f))
                                (rootFields typeMap' "Mutation"))
    (resultValue
       (@possiblyAddTypeMutations firstFieldKey (Def unkeyedPerson)
          unkeyedPersonSchema allEnabled))
  = Some [("CreatePerson", [mkArg "name" (NamedType "String")]);
          ("DeletePerson", [mkArg "name" (NonNullType (NamedType "String"))])].
Proof. reflexivity. Qed.

(** ** Relationship mutations *)

Lemma push_root_field_fields typeMap root f typeMap' :
  push_root_field typeMap root f = Ok typeMap' ->
  rootFields typeMap' root = rootFields typeMap root ++ [f].
Proof.
  unfold push_root_field, rootFields.
  destruct (tm_get typeMap root) as [[d|defs]|]; try discriminate.
  destruct (has_fields_member (def_kind d)); [|discriminate].
  intros H. inversion H. rewrite tm_get_set_same. reflexivity.
Qed.

Lemma push_root_field_other typeMap root f typeMap' key :
  push_root_field typeMap root f = Ok typeMap' ->
  root <> key -> tm_get typeMap' key = tm_get typeMap key.
Proof.
  unfold push_root_field.
  destruct (tm_get typeMap root) as [[d|defs]|]; try discriminate.
  destruct (has_fields_member (def_kind d)); [|discriminate].
  intros H Hne. inversion H. apply tm_get_set_other. auto.
Qed.

Lemma rootFields_set_other typeMap key v root :
  key <> root -> rootFields (tm_set typeMap key v) root = rootFields typeMap root.
Proof.
  intros Hne. unfold rootFields. now rewrite tm_get_set_other.
Qed.

Lemma underscore_not_Mutation (s : string) : ("_" ++ s)%string <> "Mutation".
Proof. simpl. discriminate. Qed.

Lemma addRelationMutation_fields action typeName capitalizedFieldName fromName
  toName mutationMap typeMap relationName relatedAstNode relationHasProps
  config typeMap' :
  addRelationMutation action typeName capitalizedFieldName fromName toName
    mutationMap typeMap relationName relatedAstNode relationHasProps config
  = Ok typeMap' ->
  rootFields typeMap' "Mutation"
  = rootFields typeMap "Mutation"
    ++ (if op_undefined mutationMap
             (actionName action ++ typeName ++ capitalizedFieldName)
        then [relationMutationField action typeName capitalizedFieldName
                fromName toName relationName relatedAstNode relationHasProps
                config]
        else []).
Proof.
  unfold addRelationMutation.
  destruct (op_undefined mutationMap _).
  - destruct (push_root_field typeMap "Mutation" _) as [tm1|] eqn:P;
      simpl; [|discriminate].
    apply push_root_field_fields in P.
    destruct (tm_get tm1 _); intros H; inversion H; subst; auto.
    rewrite rootFields_set_other; auto. apply underscore_not_Mutation.
  - intros H. inversion H. now rewrite app_nil_r.
Qed.

(** What [possiblyAddRelationMutationField] appends to the root Mutation
    type. *)
Lemma possiblyAddRelationMutationField_fields typeName capitalizedFieldName
  fromName toName mutationMap typeMap relationName relatedAstNode
  relationHasProps config typeMap' :
  possiblyAddRelationMutationField typeName capitalizedFieldName fromName
    toName mutationMap typeMap relationName relatedAstNode relationHasProps
    config = Ok typeMap' ->
  rootFields typeMap' "Mutation"
  = rootFields typeMap "Mutation"
    ++ generatedRelationMutations mutationMap typeName capitalizedFieldName
         fromName toName relationName relatedAstNode relationHasProps config.
Proof.
  unfold possiblyAddRelationMutationField, generatedRelationMutations.
  destruct (addRelationMutation Add _ _ _ _ _ _ _ _ _ _) as [tm1|] eqn:A;
    simpl; [|discriminate].
  intros R.
  apply addRelationMutation_fields in A.
  apply addRelationMutation_fields in R.
  rewrite R, A, <- app_assoc, app_nil_r. reflexivity.
Qed.

Lemma neq_by_length (a b : string) :
  String.length a <> String.length b -> a <> b.
Proof. intros H E. apply H. now rewrite E. Qed.

Lemma payload_name_not_field_type action typeName capitalizedFieldName :
  relationPayloadName action typeName capitalizedFieldName
  <> ("_" ++ typeName ++ capitalizedFieldName)%string.
Proof.
  apply neq_by_length. unfold relationPayloadName. simpl.
  rewrite !length_append. destruct action; simpl; lia.
Qed.

Lemma directions_name_not_field_type (fieldTypeName : string) :
  (fieldTypeName ++ "Directions")%string <> fieldTypeName.
Proof. apply neq_by_length. rewrite length_append. simpl. lia. Qed.

(** One round returns whenever the root Mutation type is there, keeps it
    there, and touches no key but [Mutation] and its payload name. *)
Lemma addRelationMutation_returns action typeName capitalizedFieldName fromName
  toName mutationMap typeMap relationName relatedAstNode relationHasProps
  config m :
  tm_get typeMap "Mutation" = Some (Def m) ->
  has_fields_member (def_kind m) = true ->
  exists typeMap' m',
    addRelationMutation action typeName capitalizedFieldName fromName toName
      mutationMap typeMap relationName relatedAstNode relationHasProps config
    = Ok typeMap'
    /\ tm_get typeMap' "Mutation" = Some (Def m')
    /\ has_fields_member (def_kind m') = true
    /\ forall key,
         key <> "Mutation" ->
         key <> relationPayloadName action typeName capitalizedFieldName ->
         tm_get typeMap' key = tm_get typeMap key.
Proof.
  intros Hm Hk. unfold addRelationMutation.
  destruct (op_undefined mutationMap _).
  - unfold push_root_field. rewrite Hm, Hk. simpl.
    match goal with
    | |- context [tm_set typeMap "Mutation" ?v] => set (root := v)
    end.
    match goal with
    | |- context [tm_get _ ?k] =>
        change k with
          (relationPayloadName action typeName capitalizedFieldName)
    end.
    destruct (tm_get (tm_set typeMap "Mutation" root) _) eqn:G.
    + eexists _, _. split; [reflexivity|].
      split; [apply tm_get_set_same|]. split; [exact Hk|].
      intros key H1 _. apply tm_get_set_other. congruence.
    + eexists _, _. split; [reflexivity|].
      split.
      { rewrite tm_get_set_other; [apply tm_get_set_same|].
        unfold relationPayloadName. apply underscore_not_Mutation. }
      split; [exact Hk|].
      intros key H1 H2. rewrite !tm_get_set_other; congruence.
  - exists typeMap, m. auto.
Qed.

Lemma possiblyAddRelationMutationField_returns typeName capitalizedFieldName
  fromName toName mutationMap typeMap relationName relatedAstNode
  relationHasProps config m :
  tm_get typeMap "Mutation" = Some (Def m) ->
  has_fields_member (def_kind m) = true ->
  exists typeMap',
    possiblyAddRelationMutationField typeName capitalizedFieldName fromName
      toName mutationMap typeMap relationName relatedAstNode relationHasProps
      config = Ok typeMap'
    /\ tm_get typeMap' ("_" ++ typeName ++ capitalizedFieldName)
       = tm_get typeMap ("_" ++ typeName ++ capitalizedFieldName).
Proof.
  intros Hm Hk. unfold possiblyAddRelationMutationField.
  destruct (addRelationMutation_returns Add typeName capitalizedFieldName
              fromName toName mutationMap typeMap relationName relatedAstNode
              relationHasProps config m Hm Hk)
    as (tm1 & m1 & -> & Hm1 & Hk1 & Hkeep1).
  destruct (addRelationMutation_returns Remove typeName capitalizedFieldName
              fromName toName mutationMap tm1 relationName relatedAstNode
              relationHasProps config m1 Hm1 Hk1)
    as (tm2 & m2 & R & _ & _ & Hkeep2).
  exists tm2. simpl. split; [exact R|].
  pose proof underscore_not_Mutation as U.
  assert (forall a, ("_" ++ typeName ++ capitalizedFieldName)%string
                    <> relationPayloadName a typeName capitalizedFieldName)
    as P by (intros a E; symmetry in E;
             exact (payload_name_not_field_type _ _ _ E)).
  rewrite Hkeep2; [rewrite Hkeep1; [reflexivity | apply U | apply P]
                 | apply U | apply P].
Qed.

Lemma addedFields_app before added : addedFields before (before ++ added) = added.
Proof. unfold addedFields. induction before; simpl; auto. Qed.

Lemma generatedRelationMutations_In f mutationMap typeName
  capitalizedFieldName fromName toName relationName relatedAstNode
  relationHasProps config :
  In f (generatedRelationMutations mutationMap typeName capitalizedFieldName
          fromName toName relationName relatedAstNode relationHasProps config) ->
  exists action,
    f = relationMutationField action typeName capitalizedFieldName fromName
          toName relationName relatedAstNode relationHasProps config.
Proof.
  unfold generatedRelationMutations. cbn [flat_map actionName].
  destruct (op_undefined mutationMap
              ("Add" ++ typeName ++ capitalizedFieldName));
    destruct (op_undefined mutationMap
                ("Remove" ++ typeName ++ capitalizedFieldName));
    cbn [app In]; intros H; repeat destruct H as [H|H]; try contradiction;
    (exists Add; now rewrite H) || (exists Remove; now rewrite H).
Qed.

Lemma possiblyAddRelationTypeFieldPayload_root relationAstNode
  capitalizedFieldName typeName typeMap field typeMap' field' :
  possiblyAddRelationTypeFieldPayload relationAstNode capitalizedFieldName
    typeName typeMap field = Ok (typeMap', field') ->
  tm_get typeMap' "Mutation" = tm_get typeMap "Mutation".
Proof.
  unfold possiblyAddRelationTypeFieldPayload.
  destruct (tm_get typeMap _); [intros H; inversion H; auto|].
  destruct (getRelationTypeDirectiveArgs relationAstNode) as [[args|]|];
    simpl; try discriminate; [|intros H; inversion H; auto].
  match goal with |- context [if ?c then _ else _] => destruct c end.
  - destruct (parseObjectType _ _ _); simpl; [|discriminate].
    intros H; inversion H.
    rewrite !tm_get_set_other; auto; simpl; discriminate.
  - destruct (parseObjectType _ _ _); simpl; [|discriminate].
    intros H; inversion H.
    rewrite !tm_get_set_other; auto; simpl; discriminate.
Qed.

(** The relationship mutations a relationship-type field generates. *)
Lemma handleRelationTypeDirective_mutations relatedAstNode typeName field
  capitalizedFieldName relationTypeDirective config typeMap mutationMap
  typeMap' field' :
  handleRelationTypeDirective relatedAstNode typeName field
    capitalizedFieldName relationTypeDirective config typeMap mutationMap
  = Ok (typeMap', field') ->
  exists relationName fromName toName,
    argumentValue "name" relationTypeDirective = Ok relationName
    /\ argumentValue "from" relationTypeDirective = Ok fromName
    /\ argumentValue "to" relationTypeDirective = Ok toName
    /\ rootFields typeMap' "Mutation"
       = rootFields typeMap "Mutation"
         ++ (if shouldAugmentRelationField config RMutation fromName toName
             then generatedRelationMutations mutationMap typeName
                    capitalizedFieldName fromName toName relationName
                    relatedAstNode true config
             else []).
Proof.
  unfold handleRelationTypeDirective.
  destruct (argumentValue "name" _) as [relationName|]; simpl; [|discriminate].
  destruct (argumentValue "from" _) as [fromName|]; simpl; [|discriminate].
  destruct (argumentValue "to" _) as [toName|]; simpl; [|discriminate].
  intros H. exists relationName, fromName, toName.
  repeat split; auto.
  destruct (shouldAugmentRelationField config RMutation fromName toName).
  - unfold validateRelationTypeDirectedFields in H.
    destruct (negb (fromName =? toName)%string && _ && _);
      simpl in H; [discriminate|].
    destruct (possiblyAddRelationMutationField _ _ _ _ _ _ _ _ _ _)
      as [tm1|] eqn:P; simpl in H; [|discriminate].
    destruct (possiblyAddRelationTypeFieldPayload _ _ _ _ _)
      as [[tm2 f2]|] eqn:Q; simpl in H; [|discriminate].
    inversion H; subst.
    apply possiblyAddRelationMutationField_fields in P.
    apply possiblyAddRelationTypeFieldPayload_root in Q.
    unfold rootFields in *. rewrite Q. exact P.
  - simpl in H.
    destruct (possiblyAddRelationTypeFieldPayload _ _ _ _ _)
      as [[tm2 f2]|] eqn:Q; simpl in H; [|discriminate].
    inversion H; subst.
    apply possiblyAddRelationTypeFieldPayload_root in Q.
    unfold rootFields. rewrite Q, app_nil_r. reflexivity.
Qed.

(** The relationship mutations a field-level relation directive generates. *)
Lemma handleRelationFieldDirective_mutations relatedAstNode typeName
  capitalizedFieldName fieldValueName relationFieldDirective mutationMap
  typeMap config typeMap' :
  handleRelationFieldDirective relatedAstNode typeName capitalizedFieldName
    fieldValueName relationFieldDirective mutationMap typeMap config
  = Ok typeMap' ->
  (shouldAugmentRelationField config RMutation typeName fieldValueName = false
   /\ typeMap' = typeMap)
  \/ exists relationName direction,
       getRelationName relationFieldDirective = Ok relationName
       /\ getRelationDirection relationFieldDirective = Ok direction
       /\ rootFields typeMap' "Mutation"
          = rootFields typeMap "Mutation"
            ++ generatedRelationMutations mutationMap typeName
                 capitalizedFieldName
                 (fst (directedEndpoints typeName fieldValueName direction))
                 (snd (directedEndpoints typeName fieldValueName direction))
                 relationName relatedAstNode false config.
Proof.
  unfold handleRelationFieldDirective.
  destruct (shouldAugmentRelationField config RMutation typeName fieldValueName).
  - destruct (getRelationName _) as [relationName|]; simpl; [|discriminate].
    destruct (getRelationDirection _) as [direction|]; simpl; [|discriminate].
    intros H. right. exists relationName, direction.
    repeat split; auto. unfold directedEndpoints.
    destruct ((direction =? "IN")%string || (direction =? "in")%string);
      simpl; apply possiblyAddRelationMutationField_fields in H; exact H.
  - intros H. inversion H. left. auto.
Qed.

Lemma addedFields_same fields : addedFields fields fields = [].
Proof. unfold addedFields. induction fields; simpl; auto. Qed.

Lemma relationMutationField_name action typeName capitalizedFieldName fromName
  toName relationName relatedAstNode relationHasProps config :
  field_name (relationMutationField action typeName capitalizedFieldName
                fromName toName relationName relatedAstNode relationHasProps
                config)
  = (actionName action ++ typeName ++ capitalizedFieldName)%string.
Proof. reflexivity. Qed.

Lemma relationMutationField_data action typeName capitalizedFieldName fromName
  toName relationName relatedAstNode relationHasProps config :
  find_arg "data"
    (field_arguments
       (relationMutationField action typeName capitalizedFieldName fromName
          toName relationName relatedAstNode relationHasProps config))
  = if shouldUseRelationDataArgument relationHasProps relatedAstNode action
    then Some (mkArg "data"
                 (NonNullType
                    (NamedType ("_" ++ def_name relatedAstNode ++ "Input"))))
    else None.
Proof.
  unfold relationMutationField. cbn [field_arguments].
  destruct (shouldUseRelationDataArgument _ _ _); reflexivity.
Qed.

Lemma hasSomePropertyField_declares relatedAstNode :
  hasSomePropertyField (def_fields relatedAstNode) = true
  <-> declaresPropertyField relatedAstNode.
Proof.
  unfold hasSomePropertyField, declaresPropertyField.
  rewrite existsb_exists. unfold isPropertyField.
  split; intros (e & Hin & H); exists e; (split; [exact Hin|]).
  - apply andb_prop in H. destruct H as [H1 H2].
    apply negb_true_iff in H1, H2.
    split; intros E; rewrite E in *; discriminate.
  - destruct H as [H1 H2].
    destruct (String.eqb_spec (field_name e) "from"); [contradiction|].
    destruct (String.eqb_spec (field_name e) "to"); [contradiction|].
    reflexivity.
Qed.

(** C7.  Among the root mutation fields that a relationship-type field
    generates, [Add<Type><Field>] takes a [data] argument, of type
    [_<Relationship>Input!], if and only if the relationship type
    declares a field other than [from] and [to], and
    [Remove<Type><Field>] takes none; the fields that a field-level
    relation directive generates take none either, there being no
    relationship type. *)
Theorem relation_mutation_data_argument :
  (forall relatedAstNode typeName field capitalizedFieldName
          relationTypeDirective config typeMap mutationMap typeMap' field' f,
     handleRelationTypeDirective relatedAstNode typeName field
       capitalizedFieldName relationTypeDirective config typeMap mutationMap
     = Ok (typeMap', field') ->
     In f (addedMutations typeMap typeMap') ->
     (field_name f = ("Add" ++ typeName ++ capitalizedFieldName)%string
      /\ (takesData f = true <-> declaresPropertyField relatedAstNode)
      /\ (takesData f = true ->
          find_arg "data" (field_arguments f)
          = Some (mkArg "data"
                    (NonNullType
                       (NamedType
                          ("_" ++ def_name relatedAstNode ++ "Input"))))))
     \/ (field_name f = ("Remove" ++ typeName ++ capitalizedFieldName)%string
         /\ takesData f = false))
  /\ (forall relatedAstNode typeName capitalizedFieldName fieldValueName
             relationFieldDirective mutationMap typeMap config typeMap' f,
        handleRelationFieldDirective relatedAstNode typeName
          capitalizedFieldName fieldValueName relationFieldDirective
          mutationMap typeMap config = Ok typeMap' ->
        In f (addedMutations typeMap typeMap') ->
        (field_name f = ("Add" ++ typeName ++ capitalizedFieldName)%string
         \/ field_name f
            = ("Remove" ++ typeName ++ capitalizedFieldName)%string)
        /\ takesData f = false).
Proof.
  split.
  - intros relatedAstNode typeName field capitalizedFieldName
      relationTypeDirective config typeMap mutationMap typeMap' field' f H Hin.
    apply handleRelationTypeDirective_mutations in H.
    destruct H as (relationName & fromName & toName & _ & _ & _ & H).
    unfold addedMutations in Hin. rewrite H, addedFields_app in Hin.
    destruct (shouldAugmentRelationField config RMutation fromName toName);
      [|contradiction].
    apply generatedRelationMutations_In in Hin.
    destruct Hin as [action ->]. unfold takesData, has_arg.
    rewrite relationMutationField_data, relationMutationField_name.
    unfold shouldUseRelationDataArgument.
    destruct action; cbn [actionName andb]; [left|right].
    + split; [reflexivity|].
      rewrite <- hasSomePropertyField_declares.
      destruct (hasSomePropertyField (def_fields relatedAstNode));
        cbn [andb]; repeat split; auto; discriminate.
    + split; [reflexivity|].
      now rewrite andb_false_r.
  - intros relatedAstNode typeName capitalizedFieldName fieldValueName
      relationFieldDirective mutationMap typeMap config typeMap' f H Hin.
    apply handleRelationFieldDirective_mutations in H.
    unfold addedMutations in Hin.
    destruct H as [[_ ->] | (relationName & direction & _ & _ & H)].
    + rewrite addedFields_same in Hin. contradiction.
    + rewrite H, addedFields_app in Hin.
      apply generatedRelationMutations_In in Hin.
      destruct Hin as [action ->]. unfold takesData, has_arg.
      rewrite relationMutationField_data, relationMutationField_name.
      split; [destruct action; auto|reflexivity].
Qed.

Lemma relation_mutation_data_argument_witness :
  ((field_name (hd moviesField (addedMutations emptyMutationRoot
                                  (fst actedInHandled)))
    = "AddPersonMovies"
    /\ (takesData (hd moviesField (addedMutations emptyMutationRoot
                                     (fst actedInHandled))) = true
        <-> declaresPropertyField actedIn)
    /\ (takesData (hd moviesField (addedMutations emptyMutationRoot
                                     (fst actedInHandled))) = true ->
        find_arg "data"
          (field_arguments
             (hd moviesField (addedMutations emptyMutationRoot
                                (fst actedInHandled))))
        = Some (mkArg "data" (NonNullType (NamedType "_ACTED_INInput")))))
   \/ (field_name (hd moviesField (addedMutations emptyMutationRoot
                                     (fst actedInHandled)))
       = "RemovePersonMovies"
       /\ takesData (hd moviesField (addedMutations emptyMutationRoot
                                       (fst actedInHandled))) = false))
  /\ ((field_name (hd moviesField (addedMutations emptyMutationRoot
                                     actorsHandled)) = "AddMovieActors"
       \/ field_name (hd moviesField (addedMutations emptyMutationRoot
                                        actorsHandled)) = "RemoveMovieActors")
      /\ takesData (hd moviesField (addedMutations emptyMutationRoot
                                      actorsHandled)) = false).
Proof.
  split.
  - apply (proj1 relation_mutation_data_argument actedIn "Person" moviesField
             "Movies" actedInDirective allEnabled emptyMutationRoot []
             (fst actedInHandled) (snd actedInHandled)).
    + vm_compute. reflexivity.
    + vm_compute. left. reflexivity.
  - apply (proj2 relation_mutation_data_argument
             (mkDef ObjectTypeDefinition "Person" [requiredId] [] [])
             "Movie" "Actors" "Person" actorsDirective [] emptyMutationRoot
             allEnabled actorsHandled).
    + vm_compute. reflexivity.
    + vm_compute. left. reflexivity.
Defined.

Lemma relationMutationField_meta action typeName capitalizedFieldName fromName
  toName relationName relatedAstNode relationHasProps config :
  find_directive "MutationMeta"
    (field_directives
       (relationMutationField action typeName capitalizedFieldName fromName
          toName relationName relatedAstNode relationHasProps config))
  = Some (mkDirective "MutationMeta"
            [("relationship", relationName); ("from", fromName);
             ("to", toName)]).
Proof. reflexivity. Qed.

(** C8.  Every root mutation field generated for a relationship carries a
    [MutationMeta] directive whose arguments are exactly [relationship],
    [from] and [to]: for a relationship type they are the name, from and
    to of its relation marker; for a field-level relation directive they
    are its name and the owner and value types, ordered by its direction. *)
Theorem relation_mutation_meta_directive :
  (forall relatedAstNode typeName field capitalizedFieldName
          relationTypeDirective config typeMap mutationMap typeMap' field' f,
     handleRelationTypeDirective relatedAstNode typeName field
       capitalizedFieldName relationTypeDirective config typeMap mutationMap
     = Ok (typeMap', field') ->
     In f (addedMutations typeMap typeMap') ->
     exists relationName fromName toName,
       argumentValue "name" relationTypeDirective = Ok relationName
       /\ argumentValue "from" relationTypeDirective = Ok fromName
       /\ argumentValue "to" relationTypeDirective = Ok toName
       /\ find_directive "MutationMeta" (field_directives f)
          = Some (mkDirective "MutationMeta"
                    [("relationship", relationName); ("from", fromName);
                     ("to", toName)]))
  /\ (forall relatedAstNode typeName capitalizedFieldName fieldValueName
             relationFieldDirective mutationMap typeMap config typeMap' f,
        handleRelationFieldDirective relatedAstNode typeName
          capitalizedFieldName fieldValueName relationFieldDirective
          mutationMap typeMap config = Ok typeMap' ->
        In f (addedMutations typeMap typeMap') ->
        exists relationName direction,
          getRelationName relationFieldDirective = Ok relationName
          /\ getRelationDirection relationFieldDirective = Ok direction
          /\ find_directive "MutationMeta" (field_directives f)
             = Some (mkDirective "MutationMeta"
                       [("relationship", relationName);
                        ("from",
                         fst (directedEndpoints typeName fieldValueName
                                direction));
                        ("to",
                         snd (directedEndpoints typeName fieldValueName
                                direction))])).
Proof.
  split.
  - intros relatedAstNode typeName field capitalizedFieldName
      relationTypeDirective config typeMap mutationMap typeMap' field' f H Hin.
    apply handleRelationTypeDirective_mutations in H.
    destruct H as (relationName & fromName & toName & Hn & Hf & Ht & H).
    unfold addedMutations in Hin. rewrite H, addedFields_app in Hin.
    destruct (shouldAugmentRelationField config RMutation fromName toName);
      [|contradiction].
    apply generatedRelationMutations_In in Hin. destruct Hin as [action ->].
    exists relationName, fromName, toName.
    rewrite relationMutationField_meta. auto.
  - intros relatedAstNode typeName capitalizedFieldName fieldValueName
      relationFieldDirective mutationMap typeMap config typeMap' f H Hin.
    apply handleRelationFieldDirective_mutations in H.
    unfold addedMutations in Hin.
    destruct H as [[_ ->] | (relationName & direction & Hn & Hd & H)].
    + rewrite addedFields_same in Hin. contradiction.
    + rewrite H, addedFields_app in Hin.
      apply generatedRelationMutations_In in Hin. destruct Hin as [action ->].
      exists relationName, direction.
      rewrite relationMutationField_meta. auto.
Qed.

Lemma relation_mutation_meta_directive_witness :
  (exists relationName fromName toName,
     argumentValue "name" actedInDirective = Ok relationName
     /\ argumentValue "from" actedInDirective = Ok fromName
     /\ argumentValue "to" actedInDirective = Ok toName
     /\ find_directive "MutationMeta"
          (field_directives
             (hd moviesField (addedMutations emptyMutationRoot
                                (fst actedInHandled))))
        = Some (mkDirective "MutationMeta"
                  [("relationship", relationName); ("from", fromName);
                   ("to", toName)]))
  /\ (exists relationName direction,
        getRelationName actorsDirective = Ok relationName
        /\ getRelationDirection actorsDirective = Ok direction
        /\ find_directive "MutationMeta"
             (field_directives
                (hd moviesField (addedMutations emptyMutationRoot
                                   actorsHandled)))
           = Some (mkDirective "MutationMeta"
                     [("relationship", relationName);
                      ("from",
                       fst (directedEndpoints "Movie" "Person" direction));
                      ("to",
                       snd (directedEndpoints "Movie" "Person" direction))])).
Proof.
  split.
  - apply (proj1 relation_mutation_meta_directive actedIn "Person" moviesField
             "Movies" actedInDirective allEnabled emptyMutationRoot []
             (fst actedInHandled) (snd actedInHandled)).
    + vm_compute. reflexivity.
    + vm_compute. left. reflexivity.
  - apply (proj2 relation_mutation_meta_directive
             (mkDef ObjectTypeDefinition "Person" [requiredId] [] [])
             "Movie" "Actors" "Person" actorsDirective [] emptyMutationRoot
             allEnabled actorsHandled).
    + vm_compute. reflexivity.
    + vm_compute. left. reflexivity.
Defined.

(** The scenario of the specification: the Add mutation of
    [Person.movies] and its metadata. *)
Example actedIn_add_mutation :
  hd moviesField (addedMutations emptyMutationRoot (fst actedInHandled))
  = mkField "AddPersonMovies"
      [mkArg "from" (NonNullType (NamedType "_PersonInput"));
       mkArg "to" (NonNullType (NamedType "_MovieInput"));
       mkArg "data" (NonNullType (NamedType "_ACTED_INInput"))]
      (NamedType "_AddPersonMoviesPayload")
      [mkDirective "MutationMeta"
         [("relationship", "ACTED_IN"); ("from", "Person"); ("to", "Movie")]].
Proof. reflexivity. Qed.

(** An inbound field-level relationship: the value type is [from]. *)
Example actors_add_mutation :
  hd moviesField (addedMutations emptyMutationRoot actorsHandled)
  = mkField "AddMovieActors"
      [mkArg "from" (NonNullType (NamedType "_PersonInput"));
       mkArg "to" (NonNullType (NamedType "_MovieInput"))]
      (NamedType "_AddMovieActorsPayload")
      [mkDirective "MutationMeta"
         [("relationship", "ACTED_IN"); ("from", "Person"); ("to", "Movie")]].
Proof. reflexivity. Qed.

(** ** Relationship-type fields *)

(** The check passes when the relationship is reflexive or has the owner
    on one side; otherwise building the message fails. *)
Lemma validateRelationTypeDirectedFields_cases typeName fromName toName :
  (fromName <> toName /\ toName <> typeName /\ fromName <> typeName
   /\ validateRelationTypeDirectedFields typeName fromName toName
      = Throw (ReferenceError "field"))
  \/ ((fromName = toName \/ toName = typeName \/ fromName = typeName)
      /\ validateRelationTypeDirectedFields typeName fromName toName = Ok true).
Proof.
  unfold validateRelationTypeDirectedFields.
  destruct (String.eqb_spec fromName toName);
    destruct (String.eqb_spec toName typeName);
    destruct (String.eqb_spec fromName typeName); simpl; auto 10.
Qed.

(** C9 (fails on the code).  [Movie.ratings] uses [Rated], which goes from
    [User] to [Person].  With mutations enabled the augmentation does
    abort, but with a ReferenceError for the identifier [field]: the
    message that would report the type, the field and the from/to values
    is never built.  With mutations disabled the check is not reached and
    the augmentation returns a type map. *)
Theorem augmentTypeMap_foreign_relation_reference_error :
  validateRelationTypeDirectedFields "Movie" "User" "Person"
  = Throw (ReferenceError "field")
  /\ augmentTypeMap foreignRatingSchema allEnabled
     = Throw (ReferenceError "field")
  /\ option_map (fun typeMap' => tm_keys typeMap')
       (resultValue (augmentTypeMap foreignRatingSchema queryOnly))
     = Some ["Movie"; "User"; "Person"; "Rated"; "Query"; "_Neo4jTime";
             "_Neo4jTimeInput"; "_Neo4jDate"; "_Neo4jDateInput";
             "_Neo4jDateTime"; "_Neo4jDateTimeInput"; "_Neo4jLocalTime";
             "_Neo4jLocalTimeInput"; "_Neo4jLocalDateTime";
             "_Neo4jLocalDateTimeInput"; "_MovieOrdering"; "_MovieFilter";
             "_MovieRatings"; "_UserOrdering"; "_UserFilter";
             "_PersonOrdering"; "_PersonFilter"; "cypher"; "relation";
             "MutationMeta"].
Proof.
  split; [reflexivity|]. split; vm_compute; reflexivity.
Qed.

Lemma append_assoc (a b c : string) :
  ((a ++ b) ++ c = a ++ (b ++ c))%string.
Proof. induction a; simpl; congruence. Qed.

Lemma argumentValue_relationDirective relationName fromName toName :
  argumentValue "name" (relationDirective relationName fromName toName)
  = Ok relationName
  /\ argumentValue "from" (relationDirective relationName fromName toName)
     = Ok fromName
  /\ argumentValue "to" (relationDirective relationName fromName toName)
     = Ok toName.
Proof. repeat split. Qed.

(** First generation of the payload of a reflexive relationship field. *)
Lemma possiblyAddRelationTypeFieldPayload_reflexive relationAstNode
  capitalizedFieldName typeName typeMap field relationName endpoint :
  getTypeDirective relationAstNode "relation"
  = Some (relationDirective relationName endpoint endpoint) ->
  directedValue "from" (def_fields relationAstNode) = Some endpoint ->
  directedValue "to" (def_fields relationAstNode) = Some endpoint ->
  endpoint <> "" ->
  tm_get typeMap ("_" ++ typeName ++ capitalizedFieldName) = None ->
  exists payload,
    possiblyAddRelationTypeFieldPayload relationAstNode capitalizedFieldName
      typeName typeMap field
    = Ok (tm_set
            (tm_set typeMap
               (("_" ++ typeName ++ capitalizedFieldName) ++ "Directions")
               (directionsType ("_" ++ typeName ++ capitalizedFieldName)
                  field relationAstNode))
            ("_" ++ typeName ++ capitalizedFieldName)
            (Document [payload]),
          mkField (field_name field) [] (field_type field)
            (field_directives field)).
Proof.
  intros Hdir Hfrom Hto Hne Hfresh.
  unfold possiblyAddRelationTypeFieldPayload.
  rewrite Hfresh. unfold getRelationTypeDirectiveArgs. rewrite Hdir.
  cbn [dir_arg relationDirective dir_arguments find fst String.eqb Ascii.eqb
       Bool.eqb bind].
  rewrite Hfrom, Hto, String.eqb_refl.
  destruct (String.eqb_spec endpoint ""); [contradiction|].
  cbn [negb andb].
  destruct (filter isPropertyField (def_fields relationAstNode) ++ _) eqn:E.
  - destruct (filter isPropertyField (def_fields relationAstNode));
      discriminate.
  - cbn [parseObjectType bind]. eexists. reflexivity.
Qed.

Lemma replaceRelationTypeValue_reflexive endpoint field capitalizedFieldName
  typeName :
  replaceRelationTypeValue endpoint endpoint field capitalizedFieldName typeName
  = mkField (field_name field) (field_arguments field)
      (NamedType (("_" ++ typeName ++ capitalizedFieldName) ++ "Directions"))
      (field_directives field).
Proof.
  unfold replaceRelationTypeValue. rewrite String.eqb_refl.
  rewrite andb_false_r. do 2 f_equal.
  now rewrite !append_assoc.
Qed.

Lemma relation_type_is_not_node d directive :
  getTypeDirective d "relation" = Some directive -> isNodeType_def d = false.
Proof.
  intros H. unfold isNodeType_def. rewrite H.
  destruct (Kind_eqb _ _), (negb (def_name d =? "Query")%string),
    (negb (def_name d =? "Mutation")%string); reflexivity.
Qed.

Lemma addRelationMutation_other action typeName capitalizedFieldName fromName
  toName mutationMap typeMap relationName relatedAstNode relationHasProps
  config typeMap' key :
  addRelationMutation action typeName capitalizedFieldName fromName toName
    mutationMap typeMap relationName relatedAstNode relationHasProps config
  = Ok typeMap' ->
  key <> "Mutation" ->
  key <> relationPayloadName action typeName capitalizedFieldName ->
  tm_get typeMap' key = tm_get typeMap key.
Proof.
  unfold addRelationMutation.
  destruct (op_undefined mutationMap _);
    [|intros H; inversion H; reflexivity].
  destruct (push_root_field typeMap "Mutation" _) as [tm1|] eqn:P;
    cbn [bind]; [|discriminate].
  intros H Hm Hp.
  rewrite <- (push_root_field_other _ _ _ _ key P)
    by (intros E; apply Hm; symmetry; exact E).
  destruct (tm_get tm1 _); inversion H; subst; [reflexivity|].
  apply tm_get_set_other. unfold relationPayloadName in Hp.
  intros E. apply Hp. symmetry. exact E.
Qed.

Lemma possiblyAddRelationMutationField_other typeName capitalizedFieldName
  fromName toName mutationMap typeMap relationName relatedAstNode
  relationHasProps config typeMap' :
  possiblyAddRelationMutationField typeName capitalizedFieldName fromName
    toName mutationMap typeMap relationName relatedAstNode relationHasProps
    config = Ok typeMap' ->
  tm_get typeMap' ("_" ++ typeName ++ capitalizedFieldName)
  = tm_get typeMap ("_" ++ typeName ++ capitalizedFieldName).
Proof.
  unfold possiblyAddRelationMutationField.
  destruct (addRelationMutation Add _ _ _ _ _ _ _ _ _ _) as [tm1|] eqn:A;
    cbn [bind]; [|discriminate].
  intros R.
  assert (forall a, ("_" ++ typeName ++ capitalizedFieldName)%string
                    <> relationPayloadName a typeName capitalizedFieldName)
    as P by (intros a E; symmetry in E;
             exact (payload_name_not_field_type _ _ _ E)).
  rewrite (addRelationMutation_other _ _ _ _ _ _ _ _ _ _ _ _ _ R),
    (addRelationMutation_other _ _ _ _ _ _ _ _ _ _ _ _ _ A);
    auto; apply underscore_not_Mutation.
Qed.

(** C5 (as stated, fails on the code).  [Person] has the list fields
    [friends(since: Int)] and [Friends(first: Int)], both with the
    reflexive relationship type [FriendOf] as their value, and both named
    [_PersonFriends] by the payload generator.  The first is rewritten as
    the claim says; for the second the name is taken, and the field keeps
    its argument although its type is rewritten to the carrier.  A field
    that carries the ignore marker is left as it was. *)
Lemma reflexive_field_keeps_arguments_when_name_is_taken :
  option_map
    (fun typeMap' =>
       (fieldOf typeMap' "Person" "friends",
        fieldOf typeMap' "Person" "Friends"))
    (resultValue (augmentTypeMap twoFriendsInput allEnabled))
  = Some
      (Some (mkField "friends" [] (NamedType "_PersonFriendsDirections") []),
       Some (mkField "Friends" [mkArg "first" (NamedType "Int")]
               (NamedType "_PersonFriendsDirections") []))
  /\ option_map (fun typeMap' => fieldOf typeMap' "Person" "friends")
       (resultValue (augmentTypeMap ignoredFriendsInput allEnabled))
     = Some (Some ignoredFriendsField).
Proof. split; vm_compute; reflexivity. Qed.

(** C5 (amended).  Take a field of a node type [typeName] that is not
    ignored and whose value is a relationship type with [from] and [to]
    of the same type, with no type called [_<Type><Field>] in the map
    yet.  Whenever handling the field returns, the map holds the carrier
    [_<Type><Field>Directions] with a [from] and a [to] sub-field that
    select the payload type [_<Type><Field>], which the map holds as
    well; the field's type is the carrier, without a list layer, and the
    field has no arguments.  Handling the field does return when the root
    Mutation type is in the map or relationship mutations are not
    permitted for the endpoint. *)
Theorem reflexive_relation_field_gets_directions typeName mutationMap config
  typeMap field relatedAstNode relationName endpoint :
  fieldIsNotIgnored field = true ->
  tm_get typeMap (_getNamedType (field_type field)) = Some (Def relatedAstNode) ->
  getTypeDirective relatedAstNode "relation"
  = Some (relationDirective relationName endpoint endpoint) ->
  directedValue "from" (def_fields relatedAstNode) = Some endpoint ->
  directedValue "to" (def_fields relatedAstNode) = Some endpoint ->
  endpoint <> "" ->
  tm_get typeMap ("_" ++ typeName ++ capitalize (field_name field)) = None ->
  let fieldTypeName := ("_" ++ typeName ++ capitalize (field_name field))%string in
  (forall typeMap' field',
     handleRelationField typeName mutationMap config typeMap field
     = Ok (typeMap', field') ->
     field' = mkField (field_name field) []
                (NamedType (fieldTypeName ++ "Directions"))
                (field_directives field)
     /\ tm_get typeMap' (fieldTypeName ++ "Directions")
        = Some (directionsType fieldTypeName field relatedAstNode)
     /\ exists payload,
          tm_get typeMap' fieldTypeName = Some (Document [payload])
          /\ def_name payload = fieldTypeName)
  /\ ((shouldAugmentRelationField config RMutation endpoint endpoint = true ->
       exists m, tm_get typeMap "Mutation" = Some (Def m)
                 /\ has_fields_member (def_kind m) = true) ->
      exists typeMap' field',
        handleRelationField typeName mutationMap config typeMap field
        = Ok (typeMap', field')).
Proof.
  intros Hign Hrel Hdir Hfrom Hto Hne Hfresh fieldTypeName.
  unfold handleRelationField. rewrite Hign, Hrel.
  rewrite (relation_type_is_not_node _ _ Hdir), Hdir.
  unfold handleRelationTypeDirective.
  destruct (argumentValue_relationDirective relationName endpoint endpoint)
    as (-> & -> & ->).
  cbn [bind].
  set (step :=
         if shouldAugmentRelationField config RMutation endpoint endpoint
         then bind (validateRelationTypeDirectedFields typeName endpoint
                      endpoint)
                (fun valid =>
                   if valid
                   then possiblyAddRelationMutationField typeName
                          (capitalize (field_name field)) endpoint endpoint
                          mutationMap typeMap relationName relatedAstNode true
                          config
                   else Ok typeMap)
         else Ok typeMap).
  assert (forall tm1, step = Ok tm1 -> tm_get tm1 fieldTypeName = None)
    as Hstep.
  { intros tm1. unfold step.
    destruct (shouldAugmentRelationField config RMutation endpoint endpoint);
      [|intros E; inversion E; subst; exact Hfresh].
    unfold validateRelationTypeDirectedFields.
    rewrite String.eqb_refl. cbn [negb andb bind].
    intros E. unfold fieldTypeName.
    rewrite (possiblyAddRelationMutationField_other _ _ _ _ _ _ _ _ _ _ _ E).
    exact Hfresh. }
  assert (forall tm1,
            tm_get tm1 fieldTypeName = None ->
            exists payload,
              bind (possiblyAddRelationTypeFieldPayload relatedAstNode
                      (capitalize (field_name field)) typeName tm1 field)
                (fun x =>
                   let '(typeMap0, field0) := x in
                   Ok (typeMap0,
                       replaceRelationTypeValue endpoint endpoint field0
                         (capitalize (field_name field)) typeName))
              = Ok (tm_set
                      (tm_set tm1 (fieldTypeName ++ "Directions")
                         (directionsType fieldTypeName field relatedAstNode))
                      fieldTypeName (Document [payload]),
                    mkField (field_name field) []
                      (NamedType (fieldTypeName ++ "Directions"))
                      (field_directives field))
              /\ def_name payload = fieldTypeName) as Hpayload.
  { intros tm1 Hfresh1.
    unfold possiblyAddRelationTypeFieldPayload. fold fieldTypeName.
    rewrite Hfresh1. unfold getRelationTypeDirectiveArgs. rewrite Hdir.
    cbn [dir_arg relationDirective dir_arguments find fst String.eqb Ascii.eqb
         Bool.eqb bind].
    rewrite Hfrom, Hto, String.eqb_refl.
    destruct (String.eqb_spec endpoint ""); [contradiction|].
    cbn [negb andb].
    destruct (filter isPropertyField (def_fields relatedAstNode) ++ _)
      as [|p ps] eqn:E.
    - destruct (filter isPropertyField (def_fields relatedAstNode));
        discriminate.
    - cbn [parseObjectType bind].
      rewrite replaceRelationTypeValue_reflexive.
      cbn [field_name field_arguments field_directives].
      eexists. split; reflexivity. }
  split.
  - intros typeMap' field' H.
    destruct step as [tm1|] eqn:S; cbn [bind] in H; [|discriminate].
    destruct (Hpayload tm1 (Hstep tm1 eq_refl)) as (payload & Hp & Hname).
    rewrite Hp in H. inversion H; subst typeMap' field'.
    split; [reflexivity|]. split.
    + rewrite tm_get_set_other; [apply tm_get_set_same|].
      intros E. symmetry in E.
      exact (directions_name_not_field_type _ E).
    + exists payload. split; [apply tm_get_set_same|exact Hname].
  - intros Hmut.
    assert (exists tm1, step = Ok tm1) as [tm1 S].
    { unfold step.
      destruct (shouldAugmentRelationField config RMutation endpoint endpoint);
        [|eexists; reflexivity].
      destruct (Hmut eq_refl) as (m & Hm & Hk).
      unfold validateRelationTypeDirectedFields.
      rewrite String.eqb_refl. cbn [negb andb bind].
      destruct (possiblyAddRelationMutationField_returns typeName
                  (capitalize (field_name field)) endpoint endpoint
                  mutationMap typeMap relationName relatedAstNode true config
                  m Hm Hk) as (tm1 & -> & _).
      eexists. reflexivity. }
    rewrite S. cbn [bind].
    destruct (Hpayload tm1 (Hstep tm1 S)) as (payload & -> & _).
    eexists _, _. reflexivity.
Qed.

(** ** Policy *)

Lemma last_char_append (a b : string) :
  b <> EmptyString -> last_char (a ++ b) = last_char b.
Proof.
  intros Hb. induction a as [|c a IH]; simpl; auto.
  destruct (a ++ b)%string eqn:E; auto.
  destruct a; simpl in E; [contradiction|discriminate].
Qed.

Lemma ordering_name_not_filter_name (a b : string) :
  ("_" ++ a ++ "Ordering")%string <> ("_" ++ b ++ "Filter")%string.
Proof.
  intros E. apply (f_equal last_char) in E.
  rewrite <- !append_assoc in E.
  rewrite (last_char_append ("_" ++ a) "Ordering"),
    (last_char_append ("_" ++ b) "Filter") in E by discriminate.
  discriminate.
Qed.

Lemma derived_name_inj (suffix a b : string) :
  ("_" ++ a ++ suffix = "_" ++ b ++ suffix)%string -> a = b.
Proof.
  intros E. apply append_inj_l in E. now apply append_inj_r in E.
Qed.

Lemma excluded_not_augmented config rootType T U :
  shouldAugmentType config rootType T = false ->
  shouldAugmentType config rootType U = true -> U <> T.
Proof. intros H1 H2 E. subst. congruence. Qed.

Lemma mutation_name_differs (m m' : MutationType) (U T : string) :
  U <> T ->
  (mutationTypeName m ++ U)%string <> (mutationTypeName m' ++ T)%string.
Proof.
  intros Hne E. destruct m, m'; simpl in E; try discriminate;
    repeat (injection E as E); contradiction.
Qed.

(** ** Re-running the pipeline *)

Lemma has_arg_app name args more :
  has_arg name (args ++ more) = has_arg name args || has_arg name more.
Proof.
  unfold has_arg, find_arg.
  induction args as [|a args IH]; cbn [app find orb]; auto.
  destruct (String.eqb (arg_name a) name); auto.
Qed.

(** The existence check of [possiblyAddOrderingArgument] looks for the
    type name, not for [orderBy]: a second call pushes [orderBy] again. *)
Lemma possiblyAddOrderingArgument_twice args fieldName :
  has_arg fieldName args = false ->
  fieldName <> "orderBy" ->
  possiblyAddOrderingArgument (possiblyAddOrderingArgument args fieldName)
    fieldName
  = args
    ++ [mkArg "orderBy" (ListType (NamedType ("_" ++ fieldName ++ "Ordering")));
        mkArg "orderBy" (ListType (NamedType ("_" ++ fieldName ++ "Ordering")))].
Proof.
  intros Hno Hne. unfold possiblyAddOrderingArgument. rewrite Hno.
  assert (has_arg fieldName
            (args ++ [mkArg "orderBy"
                        (ListType (NamedType ("_" ++ fieldName ++ "Ordering")))])
          = false) as ->.
  { rewrite has_arg_app, Hno. unfold has_arg, find_arg.
    cbn [find arg_name orb].
    destruct (String.eqb_spec "orderBy" fieldName); [congruence|reflexivity]. }
  rewrite <- app_assoc. reflexivity.
Qed.

(** C1 (fails on the code).  On [Person] with an author-written
    [_PersonFilter] and [query: true, mutation: false], one run gives the
    root query field [Person] one [orderBy] argument and the second run
    gives it another. *)
Theorem augmentTypeMap_twice_duplicates_orderBy :
  option_map queryArgumentNames
    (resultValue (augmentTypeMap customFilterSchema queryOnly))
  = Some [("Person",
           ["id"; "name"; "_id"; "first"; "offset"; "orderBy"; "filter"])]
  /\ option_map queryArgumentNames
       (resultValue (augmentTwice customFilterSchema queryOnly))
     = Some [("Person",
              ["id"; "name"; "_id"; "first"; "offset"; "orderBy"; "filter";
               "orderBy"])].
Proof. split; vm_compute; reflexivity. Qed.

(** Without the author-written filter the first run stores the Document
    that [parse] returns under [_PersonFilter]; the second run reads
    [name.value] of it and throws. *)
Example augmentTypeMap_twice_throws :
  augmentTwice [("Person", personType)] allEnabled
  = Throw (TypeError "Cannot read property 'value' of undefined").
Proof. vm_compute. reflexivity. Qed.

(** ** Instances *)

Lemma addRelationTypeDirectives_from_to_pairing_witness :
  (exists key' d',
     firstOneSided oneSidedSchema = Some (key', Def d')
     /\ In (key', Def d') oneSidedSchema
     /\ oneSided (Def d') = true
     /\ addRelationTypeDirectives oneSidedSchema = Throw (oneSidedError d')
     /\ forall config,
          augmentTypeMap oneSidedSchema config = Throw (oneSidedError d'))
  /\ exists typeMap',
       addRelationTypeDirectives [("Person", personType)] = Ok typeMap'.
Proof.
  split.
  - apply (proj1 (addRelationTypeDirectives_from_to_pairing oneSidedSchema)
             "Rated" halfRated).
    + right. left. reflexivity.
    + reflexivity.
  - apply (proj2 (addRelationTypeDirectives_from_to_pairing
                    [("Person", personType)])).
    intros key astNode [H|[]]. inversion H. reflexivity.
Defined.

(** The error of the one-sided schema names [Rated] and the missing field. *)
Example oneSidedSchema_error :
  augmentTypeMap oneSidedSchema allEnabled
  = Throw (Error "Relationship type Rated has a 'to' field but no corresponding 'from' field").
Proof. reflexivity. Qed.

Lemma reflexive_relation_field_gets_directions_witness :
  exists typeMap' field',
    handleRelationField "Person" [] allEnabled friendsSchema friendsField
    = Ok (typeMap', field')
    /\ field' = mkField "friends" [] (NamedType "_PersonFriendsDirections") []
    /\ tm_get typeMap' "_PersonFriendsDirections"
       = Some (directionsType "_PersonFriends" friendsField friendOf)
    /\ exists payload,
         tm_get typeMap' "_PersonFriends" = Some (Document [payload])
         /\ def_name payload = "_PersonFriends".
Proof.
  destruct (reflexive_relation_field_gets_directions "Person" [] allEnabled
              friendsSchema friendsField friendOf "FRIEND_OF" "Person")
    as [Hpartial Hreturns];
    [reflexivity | reflexivity | reflexivity | reflexivity | reflexivity
    | discriminate | reflexivity |].
  destruct Hreturns as (typeMap' & field' & H).
  - intros _. eexists. split; reflexivity.
  - exists typeMap', field'. split; [exact H|].
    exact (Hpartial typeMap' field' H).
Defined.

(** The carrier of [Person.friends(since: Int): [FriendOf]]: the
    sub-fields are lists of the payload type and carry the field's
    argument. *)
Example friends_directions :
  directionsType "_PersonFriends" friendsField friendOf
  = Document
      [mkDef ObjectTypeDefinition "_PersonFriendsDirections"
         [mkField "from" [mkArg "since" (NamedType "Int")]
            (ListType (NamedType "_PersonFriends")) [];
          mkField "to" [mkArg "since" (NamedType "Int")]
            (ListType (NamedType "_PersonFriends")) []]
         [relationDirective "FRIEND_OF" "Person" "Person"] []].
Proof. reflexivity. Qed.

(** ** No later stage defines a root container *)

Lemma root_not_underscore rootType (s : string) :
  ("_" ++ s)%string <> rootTypeName rootType.
Proof. destruct rootType; simpl; discriminate. Qed.

Lemma tm_set_lacks typeMap key v root :
  key <> root -> lacks typeMap root -> lacks (tm_set typeMap key v) root.
Proof. unfold lacks. intros Hne H. now rewrite tm_get_set_other. Qed.

Lemma tm_set_present_lacks typeMap key v root :
  tm_get typeMap key <> None -> lacks typeMap root ->
  lacks (tm_set typeMap key v) root.
Proof.
  intros Hsome H. apply tm_set_lacks; auto.
  intros E. subst. contradiction.
Qed.

Lemma push_root_field_lacks typeMap root f typeMap' key :
  push_root_field typeMap root f = Ok typeMap' ->
  lacks typeMap key -> lacks typeMap' key.
Proof.
  intros H Hl. destruct (string_dec root key) as [->|Hne].
  - unfold push_root_field in H. rewrite Hl in H. discriminate.
  - unfold lacks. now rewrite (push_root_field_other _ _ _ _ _ H Hne).
Qed.

Lemma addRelationTypeDirectives_lacks typeMap typeMap' key :
  addRelationTypeDirectives typeMap = Ok typeMap' ->
  lacks typeMap key -> lacks typeMap' key.
Proof.
  unfold lacks. revert typeMap'.
  induction typeMap as [|[k v] rest IH]; simpl; intros typeMap' H Hl.
  - inversion H. reflexivity.
  - destruct (addRelationTypeDirective v); simpl in H; [|discriminate].
    destruct (addRelationTypeDirectives rest) as [rest'|];
      simpl in H; [|discriminate].
    inversion H. simpl.
    destruct (String.eqb k key); [discriminate|]. apply IH; auto.
Qed.

Lemma transformTemporalFields_lacks typeMap config key :
  lacks typeMap key -> lacks (transformTemporalFields typeMap config) key.
Proof.
  unfold lacks, transformTemporalFields.
  induction typeMap as [|[k v] rest IH]; simpl; auto.
  destruct (String.eqb k key) eqn:E; [discriminate|].
  intros H.
  destruct v as [d|defs]; [destruct (_ && _)|]; simpl; rewrite E; auto.
Qed.

Lemma temporalPair_lacks typeMap name outFields inFields rootType :
  lacks typeMap (rootTypeName rootType) ->
  lacks (temporalPair typeMap ("_" ++ name) outFields inFields)
    (rootTypeName rootType).
Proof.
  intros H. unfold temporalPair.
  apply tm_set_lacks; [apply (root_not_underscore rootType)|].
  apply tm_set_lacks; [apply (root_not_underscore rootType)|]. exact H.
Qed.

Lemma addTemporalTypes_lacks typeMap config rootType :
  lacks typeMap (rootTypeName rootType) ->
  lacks (addTemporalTypes typeMap config) (rootTypeName rootType).
Proof.
  intros H. unfold addTemporalTypes.
  apply transformTemporalFields_lacks. unfold temporalTypes.
  destruct (decideTemporalConfig config) as [t d dt lt ldt]. simpl.
  destruct ldt; [apply (temporalPair_lacks _ "Neo4jLocalDateTime")|];
  (destruct lt; [apply (temporalPair_lacks _ "Neo4jLocalTime")|]);
  (destruct dt; [apply (temporalPair_lacks _ "Neo4jDateTime")|]);
  (destruct d; [apply (temporalPair_lacks _ "Neo4jDate")|]);
  (destruct t; [apply (temporalPair_lacks _ "Neo4jTime")|]); exact H.
Qed.

Lemma possiblyAddQuery_lacks astNode typeMap config typeMap' key :
  possiblyAddQuery astNode typeMap config = Ok typeMap' ->
  lacks typeMap key -> lacks typeMap' key.
Proof.
  unfold possiblyAddQuery.
  destruct astNode as [d|defs]; simpl; [|intros H; discriminate H].
  destruct (_ && _); [|intros H; inversion H; subst; auto].
  destruct (op_undefined _ _); [|intros H; inversion H; subst; auto].
  apply push_root_field_lacks.
Qed.

Lemma possiblyAddOrderingEnum_lacks astNode typeMap config typeMap' rootType :
  possiblyAddOrderingEnum astNode typeMap config = Ok typeMap' ->
  lacks typeMap (rootTypeName rootType) ->
  lacks typeMap' (rootTypeName rootType).
Proof.
  unfold possiblyAddOrderingEnum.
  destruct astNode as [d|defs]; simpl; [|intros H; discriminate H].
  destruct (_ && _); [|intros H; inversion H; subst; auto].
  destruct (tm_get typeMap _); [intros H; inversion H; subst; auto|].
  destruct (createOrderingFields d typeMap);
    intros H; inversion H; subst; auto.
  apply tm_set_lacks. apply (root_not_underscore rootType).
Qed.

Lemma possiblyAddFilterInput_lacks astNode typeMap config typeMap' rootType :
  possiblyAddFilterInput astNode typeMap config = Ok typeMap' ->
  lacks typeMap (rootTypeName rootType) ->
  lacks typeMap' (rootTypeName rootType).
Proof.
  unfold possiblyAddFilterInput.
  destruct astNode as [d|defs]; simpl; [|intros H; discriminate H].
  destruct (_ && _); [|intros H; inversion H; subst; auto].
  destruct (tm_get typeMap _); intros H; inversion H; subst; auto.
  apply tm_set_lacks. apply (root_not_underscore rootType).
Qed.

Lemma possiblyAddTypeInput_lacks astNode typeMap config typeMap' rootType :
  possiblyAddTypeInput astNode typeMap config = Ok typeMap' ->
  lacks typeMap (rootTypeName rootType) ->
  lacks typeMap' (rootTypeName rootType).
Proof.
  unfold possiblyAddTypeInput.
  destruct astNode as [d|defs]; simpl; [|intros H; discriminate H].
  destruct (shouldAugmentType config RMutation (def_name d));
    [|intros H; inversion H; subst; auto].
  destruct (isNodeType_def d).
  - destruct (tm_get typeMap _); [intros H; inversion H; subst; auto|].
    destruct (getPrimaryKey d); intros H; inversion H; subst; auto.
    apply tm_set_lacks. apply (root_not_underscore rootType).
  - destruct (getTypeDirective d "relation");
      [|intros H; inversion H; subst; auto].
    destruct (tm_get typeMap _); [intros H; inversion H; subst; auto|].
    destruct (namedTypeOfField "from" _); simpl; [|intros H; discriminate H].
    destruct (namedTypeOfField "to" _); simpl; [|intros H; discriminate H].
    destruct (_ && _); [|intros H; inversion H; subst; auto].
    destruct (buildRelationTypeInputFields _ _);
      intros H; inversion H; subst.
    apply tm_set_lacks. apply (root_not_underscore rootType).
Qed.

Lemma possiblyAddTypeMutation_lacks m d typeMap mutationMap config typeMap'
  key :
  possiblyAddTypeMutation m d typeMap mutationMap config = Ok typeMap' ->
  lacks typeMap key -> lacks typeMap' key.
Proof.
  unfold possiblyAddTypeMutation.
  destruct (op_undefined _ _); [|intros H; inversion H; subst; auto].
  destruct (buildMutationArguments m d typeMap) as [[|a args]|];
    try (intros H; discriminate H); [intros H; inversion H; subst; auto|].
  apply push_root_field_lacks.
Qed.

Lemma possiblyAddTypeMutations_lacks astNode typeMap config typeMap' key :
  possiblyAddTypeMutations astNode typeMap config = Ok typeMap' ->
  lacks typeMap key -> lacks typeMap' key.
Proof.
  unfold possiblyAddTypeMutations.
  destruct astNode as [d|defs]; simpl; [|intros H; discriminate H].
  destruct (shouldAugmentType config RMutation (def_name d));
    [|intros H; inversion H; subst; auto].
  destruct (isNodeType_def d); simpl; [|intros H; inversion H; subst; auto].
  destruct (possiblyAddTypeMutation Create _ _ _ _) as [tm1|] eqn:C;
    simpl; [|intros H; discriminate H].
  destruct (possiblyAddTypeMutation Update _ _ _ _) as [tm2|] eqn:U;
    simpl; [|intros H; discriminate H].
  intros D Hl.
  eapply possiblyAddTypeMutation_lacks; [exact D|].
  eapply possiblyAddTypeMutation_lacks; [exact U|].
  eapply possiblyAddTypeMutation_lacks; [exact C|]. exact Hl.
Qed.

Lemma addRelationMutation_lacks action typeName capitalizedFieldName fromName
  toName mutationMap typeMap relationName relatedAstNode relationHasProps
  config typeMap' rootType :
  addRelationMutation action typeName capitalizedFieldName fromName toName
    mutationMap typeMap relationName relatedAstNode relationHasProps config
  = Ok typeMap' ->
  lacks typeMap (rootTypeName rootType) ->
  lacks typeMap' (rootTypeName rootType).
Proof.
  unfold addRelationMutation.
  destruct (op_undefined _ _); [|intros H; inversion H; subst; auto].
  destruct (push_root_field typeMap "Mutation" _) as [tm1|] eqn:P;
    simpl; [|intros H; discriminate H].
  intros H Hl. apply (push_root_field_lacks _ _ _ _ _ P) in Hl.
  destruct (tm_get tm1 _); inversion H; subst; auto.
  apply tm_set_lacks; auto. apply (root_not_underscore rootType).
Qed.

Lemma possiblyAddRelationMutationField_lacks typeName capitalizedFieldName
  fromName toName mutationMap typeMap relationName relatedAstNode
  relationHasProps config typeMap' rootType :
  possiblyAddRelationMutationField typeName capitalizedFieldName fromName
    toName mutationMap typeMap relationName relatedAstNode relationHasProps
    config = Ok typeMap' ->
  lacks typeMap (rootTypeName rootType) ->
  lacks typeMap' (rootTypeName rootType).
Proof.
  unfold possiblyAddRelationMutationField.
  destruct (addRelationMutation Add _ _ _ _ _ _ _ _ _ _) as [tm1|] eqn:A;
    simpl; [|intros H; discriminate H].
  intros R Hl.
  eapply addRelationMutation_lacks; [exact R|].
  eapply addRelationMutation_lacks; [exact A|]. exact Hl.
Qed.

Lemma possiblyAddRelationTypeFieldPayload_lacks relationAstNode
  capitalizedFieldName typeName typeMap field typeMap' field' rootType :
  possiblyAddRelationTypeFieldPayload relationAstNode capitalizedFieldName
    typeName typeMap field = Ok (typeMap', field') ->
  lacks typeMap (rootTypeName rootType) ->
  lacks typeMap' (rootTypeName rootType).
Proof.
  unfold possiblyAddRelationTypeFieldPayload.
  destruct (tm_get typeMap _); [intros H; inversion H; subst; auto|].
  destruct (getRelationTypeDirectiveArgs relationAstNode) as [[args|]|];
    simpl; try (intros H; discriminate H);
    [|intros H; inversion H; subst; auto].
  match goal with |- context [if ?c then _ else _] => destruct c end;
    (destruct (parseObjectType _ _ _); simpl; [|intros H; discriminate H]);
    intros H Hl; inversion H; subst;
    repeat (apply tm_set_lacks;
            [apply (root_not_underscore rootType)|]); exact Hl.
Qed.

Lemma handleRelationTypeDirective_lacks relatedAstNode typeName field
  capitalizedFieldName relationTypeDirective config typeMap mutationMap
  typeMap' field' rootType :
  handleRelationTypeDirective relatedAstNode typeName field
    capitalizedFieldName relationTypeDirective config typeMap mutationMap
  = Ok (typeMap', field') ->
  lacks typeMap (rootTypeName rootType) ->
  lacks typeMap' (rootTypeName rootType).
Proof.
  unfold handleRelationTypeDirective.
  destruct (argumentValue "name" _) as [relationName|];
    simpl; [|intros H; discriminate H].
  destruct (argumentValue "from" _) as [fromName|];
    simpl; [|intros H; discriminate H].
  destruct (argumentValue "to" _) as [toName|];
    simpl; [|intros H; discriminate H].
  intros H Hl.
  assert (forall tm1,
            (if shouldAugmentRelationField config RMutation fromName toName
             then bind (validateRelationTypeDirectedFields typeName fromName
                          toName)
                    (fun valid =>
                       if valid
                       then possiblyAddRelationMutationField typeName
                              capitalizedFieldName fromName toName mutationMap
                              typeMap relationName relatedAstNode true config
                       else Ok typeMap)
             else Ok typeMap) = Ok tm1 ->
            lacks tm1 (rootTypeName rootType)) as Hstep.
  { intros tm1. destruct (shouldAugmentRelationField _ _ _ _);
      [|intros E; inversion E; subst; auto].
    destruct (validateRelationTypeDirectedFields _ _ _) as [[|]|];
      simpl; try (intros E; discriminate E);
      [|intros E; inversion E; subst; auto].
    intros E. eapply possiblyAddRelationMutationField_lacks; eauto. }
  match type of H with
  | bind ?r _ = _ => destruct r as [tm1|] eqn:E; simpl in H; [|discriminate]
  end.
  destruct (possiblyAddRelationTypeFieldPayload _ _ _ _ _)
    as [[tm2 f2]|] eqn:Q; simpl in H; [|discriminate].
  inversion H; subst.
  eapply possiblyAddRelationTypeFieldPayload_lacks; [exact Q|].
  apply Hstep. reflexivity.
Qed.

Lemma handleRelationFieldDirective_lacks relatedAstNode typeName
  capitalizedFieldName fieldValueName relationFieldDirective mutationMap
  typeMap config typeMap' rootType :
  handleRelationFieldDirective relatedAstNode typeName capitalizedFieldName
    fieldValueName relationFieldDirective mutationMap typeMap config
  = Ok typeMap' ->
  lacks typeMap (rootTypeName rootType) ->
  lacks typeMap' (rootTypeName rootType).
Proof.
  unfold handleRelationFieldDirective.
  destruct (shouldAugmentRelationField _ _ _ _);
    [|intros H; inversion H; subst; auto].
  destruct (getRelationName _); simpl; [|intros H; discriminate H].
  destruct (getRelationDirection _) as [direction|];
    simpl; [|intros H; discriminate H].
  destruct ((direction =? "IN")%string || (direction =? "in")%string);
    apply possiblyAddRelationMutationField_lacks.
Qed.

Lemma handleRelationField_lacks typeName mutationMap config typeMap field
  typeMap' field' rootType :
  handleRelationField typeName mutationMap config typeMap field
  = Ok (typeMap', field') ->
  lacks typeMap (rootTypeName rootType) ->
  lacks typeMap' (rootTypeName rootType).
Proof.
  unfold handleRelationField.
  destruct (fieldIsNotIgnored field); [|intros H; inversion H; subst; auto].
  destruct (tm_get typeMap (_getNamedType (field_type field)))
    as [[related|defs]|]; try (intros H; inversion H; subst; auto; fail).
  destruct (isNodeType_def related).
  - destruct (getFieldDirective field "relation");
      [|intros H; inversion H; subst; auto].
    destruct (handleRelationFieldDirective _ _ _ _ _ _ _ _) as [tm1|] eqn:E;
      simpl; [|intros H; discriminate H].
    intros H Hl. inversion H; subst.
    eapply handleRelationFieldDirective_lacks; eauto.
  - destruct (getTypeDirective related "relation");
      [|intros H; inversion H; subst; auto].
    apply handleRelationTypeDirective_lacks.
Qed.

Lemma handleRelationFieldsLoop_lacks typeName mutationMap config rootType
  fields :
  forall typeMap typeMap' fields',
    handleRelationFieldsLoop typeName mutationMap config typeMap fields
    = Ok (typeMap', fields') ->
    lacks typeMap (rootTypeName rootType) ->
    lacks typeMap' (rootTypeName rootType).
Proof.
  induction fields as [|field rest IH]; simpl; intros typeMap typeMap' fields' H Hl.
  - inversion H; subst; auto.
  - destruct (handleRelationField _ _ _ _ _) as [[tm1 f1]|] eqn:E;
      simpl in H; [|discriminate].
    destruct (handleRelationFieldsLoop _ _ _ tm1 rest) as [[tm2 r2]|] eqn:L;
      simpl in H; [|discriminate].
    inversion H; subst.
    eapply IH; [exact L|].
    eapply handleRelationField_lacks; eauto.
Qed.

Lemma handleRelationFields_lacks astNode typeMap config typeMap' astNode'
  rootType :
  handleRelationFields astNode typeMap config = Ok (typeMap', astNode') ->
  lacks typeMap (rootTypeName rootType) ->
  lacks typeMap' (rootTypeName rootType).
Proof.
  unfold handleRelationFields.
  destruct astNode as [d|defs]; simpl; [|intros H; discriminate H].
  destruct (isNodeType_def d); [|intros H; inversion H; subst; auto].
  destruct (handleRelationFieldsLoop _ _ _ _ _) as [[tm1 fs]|] eqn:L;
    simpl; [|intros H; discriminate H].
  intros H Hl. inversion H; subst.
  eapply handleRelationFieldsLoop_lacks; eauto.
Qed.

Lemma augmentEntry_lacks config typeMap name typeMap' rootType :
  augmentEntry config typeMap name = Ok typeMap' ->
  lacks typeMap (rootTypeName rootType) ->
  lacks typeMap' (rootTypeName rootType).
Proof.
  unfold augmentEntry.
  destruct (isTemporalType name); [intros H; inversion H; subst; auto|].
  destruct (tm_get typeMap name) as [type|] eqn:G;
    [|intros H; inversion H; subst; auto].
  intros H Hl.
  assert (name <> rootTypeName rootType) as Hne
    by (intros E; subst; unfold lacks in Hl; congruence).
  destruct (possiblyAddQuery _ _ _) as [tm1|] eqn:S1;
    simpl in H; [|discriminate].
  destruct (possiblyAddOrderingEnum _ _ _) as [tm2|] eqn:S2;
    simpl in H; [|discriminate].
  destruct (possiblyAddTypeInput _ _ _) as [tm3|] eqn:S3;
    simpl in H; [|discriminate].
  destruct (possiblyAddFilterInput _ _ _) as [tm4|] eqn:S4;
    simpl in H; [|discriminate].
  destruct (possiblyAddTypeMutations _ _ _) as [tm5|] eqn:S5;
    simpl in H; [|discriminate].
  destruct (handleRelationFields _ _ _) as [[tm6 type6]|] eqn:S6;
    simpl in H; [|discriminate].
  inversion H; subst.
  apply tm_set_lacks; auto.
  eapply handleRelationFields_lacks; [exact S6|].
  eapply possiblyAddTypeMutations_lacks; [exact S5|].
  eapply possiblyAddFilterInput_lacks; [exact S4|].
  eapply possiblyAddTypeInput_lacks; [exact S3|].
  eapply possiblyAddOrderingEnum_lacks; [exact S2|].
  eapply possiblyAddQuery_lacks; [exact S1|].
  apply tm_set_lacks; auto.
Qed.

Lemma augmentEntries_lacks config rootType names :
  forall typeMap typeMap',
    augmentEntries config typeMap names = Ok typeMap' ->
    lacks typeMap (rootTypeName rootType) ->
    lacks typeMap' (rootTypeName rootType).
Proof.
  induction names as [|name rest IH]; simpl; intros typeMap typeMap' H Hl.
  - inversion H; subst; auto.
  - destruct (augmentEntry config typeMap name) as [tm1|] eqn:E;
      simpl in H; [|discriminate].
    eapply IH; [exact H|]. eapply augmentEntry_lacks; eauto.
Qed.

Lemma augmentQueryArguments_lacks typeMap config key :
  lacks typeMap key -> lacks (augmentQueryArguments typeMap config) key.
Proof.
  intros Hl. unfold augmentQueryArguments.
  destruct (createOperationMap _); auto.
  destruct (tm_get typeMap "Query") as [[d|defs]|] eqn:G; auto.
  apply tm_set_present_lacks; auto. congruence.
Qed.

Lemma addDirectiveDeclarations_lacks typeMap config rootType :
  lacks typeMap (rootTypeName rootType) ->
  lacks (addDirectiveDeclarations typeMap config) (rootTypeName rootType).
Proof.
  intros Hl. unfold addDirectiveDeclarations.
  repeat (apply tm_set_lacks; [destruct rootType; discriminate|]). exact Hl.
Qed.

(** A root container that [initializeOperationTypes] did not define is not
    defined by the rest of the pipeline. *)
Lemma augmentTypeMap_lacks typeMap config typeMap' rootType :
  augmentTypeMap typeMap config = Ok typeMap' ->
  lacks (initializeOperationTypes typeMap
           (excludeIgnoredTypes typeMap config)) (rootTypeName rootType) ->
  lacks typeMap' (rootTypeName rootType).
Proof.
  unfold augmentTypeMap. intros H Hl.
  destruct (addRelationTypeDirectives _) as [tm1|] eqn:R;
    simpl in H; [|discriminate].
  destruct (augmentEntries _ _ _) as [tm2|] eqn:A; simpl in H; [|discriminate].
  inversion H; subst.
  apply addDirectiveDeclarations_lacks, augmentQueryArguments_lacks.
  eapply augmentEntries_lacks; [exact A|].
  apply addTemporalTypes_lacks.
  eapply addRelationTypeDirectives_lacks; eauto.
Qed.

(** C10.  The root container of an operation that the input map lacks is
    defined only if the input map holds a node type that the policy
    permits for that operation: by [initializeOperationTypes], and by the
    whole of [augmentTypeMap], whose later stages define no root
    container.  When every node type is excluded for the operation,
    [initializeOperationTypes] leaves the entry of its root container as
    it was. *)
Theorem root_container_needs_permitted_node typeMap config rootType :
  (lacks typeMap (rootTypeName rootType) ->
   ~ lacks (initializeOperationTypes typeMap config) (rootTypeName rootType) ->
   exists key type, permittedNodeType typeMap config rootType key type)
  /\ ((forall key type, In (key, Def type) typeMap ->
         isNodeType_def type = true ->
         shouldAugmentType config rootType (def_name type) = false) ->
      tm_get (initializeOperationTypes typeMap config) (rootTypeName rootType)
      = tm_get typeMap (rootTypeName rootType))
  /\ (forall typeMap',
        augmentTypeMap typeMap config = Ok typeMap' ->
        lacks typeMap (rootTypeName rootType) ->
        ~ lacks typeMap' (rootTypeName rootType) ->
        exists key type,
          permittedNodeType typeMap (excludeIgnoredTypes typeMap config)
            rootType key type).
Proof.
  split; [|split].
  - apply (initializeOperationTypes_roots typeMap config rootType).
  - apply (initializeOperationTypes_roots typeMap config rootType).
  - intros typeMap' H Hl Hnot.
    apply (proj1 (initializeOperationTypes_roots typeMap
                    (excludeIgnoredTypes typeMap config) rootType) Hl).
    intros Hinit. apply Hnot.
    eapply augmentTypeMap_lacks; eauto.
Qed.

Lemma root_container_needs_permitted_node_witness :
  (exists key type,
     permittedNodeType [("Person", personType)] allEnabled RQuery key type)
  /\ tm_get (initializeOperationTypes [("Person", personType)] allDisabled)
       (rootTypeName RMutation)
     = tm_get [("Person", personType)] (rootTypeName RMutation)
  /\ exists key type,
       permittedNodeType [("Person", personType)]
         (excludeIgnoredTypes [("Person", personType)] allEnabled)
         RMutation key type.
Proof.
  split; [|split].
  - apply (proj1 (root_container_needs_permitted_node
                    [("Person", personType)] allEnabled RQuery)).
    + reflexivity.
    + vm_compute. discriminate.
  - apply (proj1 (proj2 (root_container_needs_permitted_node
                           [("Person", personType)] allDisabled RMutation))).
    intros key type _ _. reflexivity.
  - apply (proj2 (proj2 (root_container_needs_permitted_node
                           [("Person", personType)] allEnabled RMutation))
             (okValue (augmentTypeMap [("Person", personType)] allEnabled) [])).
    + vm_compute. reflexivity.
    + reflexivity.
    + vm_compute. discriminate.
Defined.

(** ** Policy through the pipeline *)

Lemma excludeIgnoredTypes_excluded typeMap config rootType T :
  shouldAugmentType config rootType T = false ->
  shouldAugmentType (excludeIgnoredTypes typeMap config) rootType T = false.
Proof.
  unfold shouldAugmentType, excludeIgnoredTypes.
  destruct rootType; cbn [config_policy query mutation].
  - destruct (query config) as [b|ex]; auto.
    destruct (String.eqb T ""); auto.
    rewrite existsb_app. intros H. apply negb_false_iff in H.
    now rewrite H.
  - destruct (mutation config) as [b|ex]; auto.
    destruct (String.eqb T ""); auto.
    rewrite existsb_app. intros H. apply negb_false_iff in H.
    now rewrite H.
Qed.

Lemma last_char_derived (X suffix : string) :
  suffix <> EmptyString ->
  last_char ("_" ++ X ++ suffix) = last_char suffix.
Proof.
  intros H. rewrite <- append_assoc. now apply last_char_append.
Qed.

Section DerivativeKey.

Context {PK : PrimaryKey}.
Variables (config : Config) (K : string).
Hypothesis K_underscore : exists s, K = ("_" ++ s)%string.
Hypothesis K_last :
  last_char K = Some "r"%char \/ last_char K = Some "g"%char.
Hypothesis K_not_filter :
  forall X, shouldAugmentType config RQuery X = true ->
            ("_" ++ X ++ "Filter")%string <> K.
Hypothesis K_not_ordering :
  forall X, shouldAugmentType config RQuery X = true ->
            ("_" ++ X ++ "Ordering")%string <> K.

Lemma K_not_plain (s : string) :
  (forall t, s <> ("_" ++ t)%string) -> s <> K.
Proof.
  intros H E. destruct K_underscore as [t Ht]. apply (H t). congruence.
Qed.

Lemma K_not_ending (s : string) (c : ascii) :
  last_char s = Some c -> c <> "r"%char -> c <> "g"%char -> s <> K.
Proof.
  intros Hs Hr Hg E. subst s. rewrite Hs in K_last.
  destruct K_last as [X|X]; inversion X; contradiction.
Qed.

Lemma K_not_input (X : string) : ("_" ++ X ++ "Input")%string <> K.
Proof.
  apply (K_not_ending _ "t"%char); [|discriminate|discriminate].
  now rewrite last_char_derived.
Qed.

Lemma K_not_Query : "Query"%string <> K.
Proof. apply K_not_plain. discriminate. Qed.

Lemma K_not_Mutation : "Mutation"%string <> K.
Proof. apply K_not_plain. discriminate. Qed.

Lemma tm_set_noDerivative typeMap key v :
  key <> K -> noDerivativeAt typeMap K ->
  noDerivativeAt (tm_set typeMap key v) K.
Proof.
  intros Hne [H|(d & H & Hd)]; [left|right; exists d; split; [|exact Hd]];
    rewrite tm_get_set_other; auto.
Qed.

Lemma tm_set_object_noDerivative typeMap key d :
  def_kind d = ObjectTypeDefinition -> def_name d = key ->
  noDerivativeAt typeMap K ->
  noDerivativeAt (tm_set typeMap key (Document [d])) K.
Proof.
  intros Hk Hn H. destruct (string_dec key K) as [E|Hne];
    [|apply tm_set_noDerivative; auto].
  right. exists d. rewrite <- E, tm_get_set_same. auto.
Qed.

Lemma push_root_field_noDerivative typeMap root f typeMap' :
  push_root_field typeMap root f = Ok typeMap' ->
  root <> K -> noDerivativeAt typeMap K -> noDerivativeAt typeMap' K.
Proof.
  intros H Hne [Hn|(d & Hd & Hk)]; [left|right; exists d; split; auto];
    rewrite (push_root_field_other _ _ _ _ _ H Hne); auto.
Qed.

Lemma possiblyAddQuery_noDerivative astNode typeMap typeMap' :
  possiblyAddQuery astNode typeMap config = Ok typeMap' ->
  noDerivativeAt typeMap K -> noDerivativeAt typeMap' K.
Proof.
  unfold possiblyAddQuery.
  destruct astNode as [d|defs]; simpl; [|intros H; discriminate H].
  destruct (_ && _); [|intros H; inversion H; subst; auto].
  destruct (op_undefined _ _); [|intros H; inversion H; subst; auto].
  intros H. eapply push_root_field_noDerivative; [exact H|].
  apply K_not_Query.
Qed.

Lemma possiblyAddOrderingEnum_noDerivative astNode typeMap typeMap' :
  possiblyAddOrderingEnum astNode typeMap config = Ok typeMap' ->
  noDerivativeAt typeMap K -> noDerivativeAt typeMap' K.
Proof.
  unfold possiblyAddOrderingEnum.
  destruct astNode as [d|defs]; simpl; [|intros H; discriminate H].
  destruct (isNodeType_def d); simpl; [|intros H; inversion H; subst; auto].
  destruct (shouldAugmentType config RQuery (def_name d)) eqn:S;
    [|intros H; inversion H; subst; auto].
  destruct (tm_get typeMap _); [intros H; inversion H; subst; auto|].
  destruct (createOrderingFields d typeMap);
    intros H; inversion H; subst; auto.
  apply tm_set_noDerivative. now apply K_not_ordering.
Qed.

Lemma possiblyAddFilterInput_noDerivative astNode typeMap typeMap' :
  possiblyAddFilterInput astNode typeMap config = Ok typeMap' ->
  noDerivativeAt typeMap K -> noDerivativeAt typeMap' K.
Proof.
  unfold possiblyAddFilterInput.
  destruct astNode as [d|defs]; simpl; [|intros H; discriminate H].
  destruct (isNodeType_def d); simpl; [|intros H; inversion H; subst; auto].
  destruct (shouldAugmentType config RQuery (def_name d)) eqn:S;
    [|intros H; inversion H; subst; auto].
  destruct (tm_get typeMap _); intros H; inversion H; subst; auto.
  apply tm_set_noDerivative. now apply K_not_filter.
Qed.

Lemma possiblyAddTypeInput_noDerivative astNode typeMap typeMap' :
  possiblyAddTypeInput astNode typeMap config = Ok typeMap' ->
  noDerivativeAt typeMap K -> noDerivativeAt typeMap' K.
Proof.
  unfold possiblyAddTypeInput.
  destruct astNode as [d|defs]; simpl; [|intros H; discriminate H].
  destruct (shouldAugmentType config RMutation (def_name d));
    [|intros H; inversion H; subst; auto].
  destruct (isNodeType_def d).
  - destruct (tm_get typeMap _); [intros H; inversion H; subst; auto|].
    destruct (getPrimaryKey d); intros H; inversion H; subst; auto.
    apply tm_set_noDerivative. apply K_not_input.
  - destruct (getTypeDirective d "relation");
      [|intros H; inversion H; subst; auto].
    destruct (tm_get typeMap _); [intros H; inversion H; subst; auto|].
    destruct (namedTypeOfField "from" _); simpl; [|intros H; discriminate H].
    destruct (namedTypeOfField "to" _); simpl; [|intros H; discriminate H].
    destruct (_ && _); [|intros H; inversion H; subst; auto].
    destruct (buildRelationTypeInputFields _ _);
      intros H; inversion H; subst.
    apply tm_set_noDerivative. apply K_not_input.
Qed.

Lemma possiblyAddTypeMutation_noDerivative m d typeMap mutationMap typeMap' :
  possiblyAddTypeMutation m d typeMap mutationMap config = Ok typeMap' ->
  noDerivativeAt typeMap K -> noDerivativeAt typeMap' K.
Proof.
  unfold possiblyAddTypeMutation.
  destruct (op_undefined _ _); [|intros H; inversion H; subst; auto].
  destruct (buildMutationArguments m d typeMap) as [[|a args]|];
    try (intros H; discriminate H); [intros H; inversion H; subst; auto|].
  intros H. eapply push_root_field_noDerivative; [exact H|].
  apply K_not_Mutation.
Qed.

Lemma possiblyAddTypeMutations_noDerivative astNode typeMap typeMap' :
  possiblyAddTypeMutations astNode typeMap config = Ok typeMap' ->
  noDerivativeAt typeMap K -> noDerivativeAt typeMap' K.
Proof.
  unfold possiblyAddTypeMutations.
  destruct astNode as [d|defs]; simpl; [|intros H; discriminate H].
  destruct (shouldAugmentType config RMutation (def_name d));
    [|intros H; inversion H; subst; auto].
  destruct (isNodeType_def d); simpl; [|intros H; inversion H; subst; auto].
  destruct (possiblyAddTypeMutation Create _ _ _ _) as [tm1|] eqn:C;
    simpl; [|intros H; discriminate H].
  destruct (possiblyAddTypeMutation Update _ _ _ _) as [tm2|] eqn:U;
    simpl; [|intros H; discriminate H].
  intros D Hl.
  eapply possiblyAddTypeMutation_noDerivative; [exact D|].
  eapply possiblyAddTypeMutation_noDerivative; [exact U|].
  eapply possiblyAddTypeMutation_noDerivative; [exact C|]. exact Hl.
Qed.

Lemma addRelationMutation_noDerivative action typeName capitalizedFieldName
  fromName toName mutationMap typeMap relationName relatedAstNode
  relationHasProps typeMap' :
  addRelationMutation action typeName capitalizedFieldName fromName toName
    mutationMap typeMap relationName relatedAstNode relationHasProps config
  = Ok typeMap' ->
  noDerivativeAt typeMap K -> noDerivativeAt typeMap' K.
Proof.
  unfold addRelationMutation.
  destruct (op_undefined _ _); [|intros H; inversion H; subst; auto].
  destruct (push_root_field typeMap "Mutation" _) as [tm1|] eqn:P;
    simpl; [|intros H; discriminate H].
  intros H Hl.
  apply (push_root_field_noDerivative _ _ _ _ P K_not_Mutation) in Hl.
  destruct (tm_get tm1 _); inversion H; subst; auto.
  unfold relationMutationPayload.
  apply tm_set_object_noDerivative; auto.
Qed.

Lemma possiblyAddRelationMutationField_noDerivative typeName
  capitalizedFieldName fromName toName mutationMap typeMap relationName
  relatedAstNode relationHasProps typeMap' :
  possiblyAddRelationMutationField typeName capitalizedFieldName fromName
    toName mutationMap typeMap relationName relatedAstNode relationHasProps
    config = Ok typeMap' ->
  noDerivativeAt typeMap K -> noDerivativeAt typeMap' K.
Proof.
  unfold possiblyAddRelationMutationField.
  destruct (addRelationMutation Add _ _ _ _ _ _ _ _ _ _) as [tm1|] eqn:A;
    simpl; [|intros H; discriminate H].
  intros R Hl.
  eapply addRelationMutation_noDerivative; [exact R|].
  eapply addRelationMutation_noDerivative; [exact A|]. exact Hl.
Qed.

Lemma parseObjectType_object name directives fields node :
  parseObjectType name directives fields = Ok node ->
  exists d, node = Document [d]
            /\ def_kind d = ObjectTypeDefinition /\ def_name d = name.
Proof.
  unfold parseObjectType. destruct fields; [discriminate|].
  intros H. inversion H. eexists. repeat split.
Qed.

Lemma possiblyAddRelationTypeFieldPayload_noDerivative relationAstNode
  capitalizedFieldName typeName typeMap field typeMap' field' :
  possiblyAddRelationTypeFieldPayload relationAstNode capitalizedFieldName
    typeName typeMap field = Ok (typeMap', field') ->
  noDerivativeAt typeMap K -> noDerivativeAt typeMap' K.
Proof.
  unfold possiblyAddRelationTypeFieldPayload.
  destruct (tm_get typeMap _); [intros H; inversion H; subst; auto|].
  destruct (getRelationTypeDirectiveArgs relationAstNode) as [[args|]|];
    simpl; try (intros H; discriminate H);
    [|intros H; inversion H; subst; auto].
  match goal with |- context [if ?c then _ else _] => destruct c end;
    (destruct (parseObjectType _ _ _) as [node|] eqn:P; simpl;
     [|intros H; discriminate H]);
    destruct (parseObjectType_object _ _ _ _ P) as (p & -> & Hk & Hn);
    intros H Hl; inversion H; subst typeMap';
    apply tm_set_object_noDerivative; auto.
  apply tm_set_object_noDerivative; auto.
Qed.

Lemma handleRelationTypeDirective_noDerivative relatedAstNode typeName field
  capitalizedFieldName relationTypeDirective typeMap mutationMap typeMap'
  field' :
  handleRelationTypeDirective relatedAstNode typeName field
    capitalizedFieldName relationTypeDirective config typeMap mutationMap
  = Ok (typeMap', field') ->
  noDerivativeAt typeMap K -> noDerivativeAt typeMap' K.
Proof.
  unfold handleRelationTypeDirective.
  destruct (argumentValue "name" _) as [relationName|];
    simpl; [|intros H; discriminate H].
  destruct (argumentValue "from" _) as [fromName|];
    simpl; [|intros H; discriminate H].
  destruct (argumentValue "to" _) as [toName|];
    simpl; [|intros H; discriminate H].
  intros H Hl.
  assert (forall tm1,
            (if shouldAugmentRelationField config RMutation fromName toName
             then bind (validateRelationTypeDirectedFields typeName fromName
                          toName)
                    (fun valid =>
                       if valid
                       then possiblyAddRelationMutationField typeName
                              capitalizedFieldName fromName toName mutationMap
                              typeMap relationName relatedAstNode true config
                       else Ok typeMap)
             else Ok typeMap) = Ok tm1 ->
            noDerivativeAt tm1 K) as Hstep.
  { intros tm1. destruct (shouldAugmentRelationField _ _ _ _);
      [|intros E; inversion E; subst; auto].
    destruct (validateRelationTypeDirectedFields _ _ _) as [[|]|];
      simpl; try (intros E; discriminate E);
      [|intros E; inversion E; subst; auto].
    intros E. eapply possiblyAddRelationMutationField_noDerivative; eauto. }
  match type of H with
  | bind ?r _ = _ => destruct r as [tm1|] eqn:E; simpl in H; [|discriminate]
  end.
  destruct (possiblyAddRelationTypeFieldPayload _ _ _ _ _)
    as [[tm2 f2]|] eqn:Q; simpl in H; [|discriminate].
  inversion H; subst.
  eapply possiblyAddRelationTypeFieldPayload_noDerivative; [exact Q|].
  apply Hstep. reflexivity.
Qed.

Lemma handleRelationFieldDirective_noDerivative relatedAstNode typeName
  capitalizedFieldName fieldValueName relationFieldDirective mutationMap
  typeMap typeMap' :
  handleRelationFieldDirective relatedAstNode typeName capitalizedFieldName
    fieldValueName relationFieldDirective mutationMap typeMap config
  = Ok typeMap' ->
  noDerivativeAt typeMap K -> noDerivativeAt typeMap' K.
Proof.
  unfold handleRelationFieldDirective.
  destruct (shouldAugmentRelationField _ _ _ _);
    [|intros H; inversion H; subst; auto].
  destruct (getRelationName _); simpl; [|intros H; discriminate H].
  destruct (getRelationDirection _) as [direction|];
    simpl; [|intros H; discriminate H].
  destruct ((direction =? "IN")%string || (direction =? "in")%string);
    apply possiblyAddRelationMutationField_noDerivative.
Qed.

Lemma handleRelationField_noDerivative typeName mutationMap typeMap field
  typeMap' field' :
  handleRelationField typeName mutationMap config typeMap field
  = Ok (typeMap', field') ->
  noDerivativeAt typeMap K -> noDerivativeAt typeMap' K.
Proof.
  unfold handleRelationField.
  destruct (fieldIsNotIgnored field); [|intros H; inversion H; subst; auto].
  destruct (tm_get typeMap (_getNamedType (field_type field)))
    as [[related|defs]|]; try (intros H; inversion H; subst; auto; fail).
  destruct (isNodeType_def related).
  - destruct (getFieldDirective field "relation");
      [|intros H; inversion H; subst; auto].
    destruct (handleRelationFieldDirective _ _ _ _ _ _ _ _) as [tm1|] eqn:E;
      simpl; [|intros H; discriminate H].
    intros H Hl. inversion H; subst.
    eapply handleRelationFieldDirective_noDerivative; eauto.
  - destruct (getTypeDirective related "relation");
      [|intros H; inversion H; subst; auto].
    apply handleRelationTypeDirective_noDerivative.
Qed.

Lemma handleRelationFieldsLoop_noDerivative typeName mutationMap fields :
  forall typeMap typeMap' fields',
    handleRelationFieldsLoop typeName mutationMap config typeMap fields
    = Ok (typeMap', fields') ->
    noDerivativeAt typeMap K -> noDerivativeAt typeMap' K.
Proof.
  induction fields as [|field rest IH]; simpl;
    intros typeMap typeMap' fields' H Hl.
  - inversion H; subst; auto.
  - destruct (handleRelationField _ _ _ _ _) as [[tm1 f1]|] eqn:E;
      simpl in H; [|discriminate].
    destruct (handleRelationFieldsLoop _ _ _ tm1 rest) as [[tm2 r2]|] eqn:L;
      simpl in H; [|discriminate].
    inversion H; subst.
    eapply IH; [exact L|].
    eapply handleRelationField_noDerivative; eauto.
Qed.

Lemma handleRelationFields_noDerivative astNode typeMap typeMap' astNode' :
  handleRelationFields astNode typeMap config = Ok (typeMap', astNode') ->
  noDerivativeAt typeMap K -> noDerivativeAt typeMap' K.
Proof.
  unfold handleRelationFields.
  destruct astNode as [d|defs]; simpl; [|intros H; discriminate H].
  destruct (isNodeType_def d); [|intros H; inversion H; subst; auto].
  destruct (handleRelationFieldsLoop _ _ _ _ _) as [[tm1 fs]|] eqn:L;
    simpl; [|intros H; discriminate H].
  intros H Hl. inversion H; subst.
  eapply handleRelationFieldsLoop_noDerivative; eauto.
Qed.

Lemma augmentEntry_noDerivative typeMap name typeMap' :
  name <> K ->
  augmentEntry config typeMap name = Ok typeMap' ->
  noDerivativeAt typeMap K -> noDerivativeAt typeMap' K.
Proof.
  intros Hne. unfold augmentEntry.
  destruct (isTemporalType name); [intros H; inversion H; subst; auto|].
  destruct (tm_get typeMap name) as [type|] eqn:G;
    [|intros H; inversion H; subst; auto].
  intros H Hl.
  destruct (possiblyAddQuery _ _ _) as [tm1|] eqn:S1;
    simpl in H; [|discriminate].
  destruct (possiblyAddOrderingEnum _ _ _) as [tm2|] eqn:S2;
    simpl in H; [|discriminate].
  destruct (possiblyAddTypeInput _ _ _) as [tm3|] eqn:S3;
    simpl in H; [|discriminate].
  destruct (possiblyAddFilterInput _ _ _) as [tm4|] eqn:S4;
    simpl in H; [|discriminate].
  destruct (possiblyAddTypeMutations _ _ _) as [tm5|] eqn:S5;
    simpl in H; [|discriminate].
  destruct (handleRelationFields _ _ _) as [[tm6 type6]|] eqn:S6;
    simpl in H; [|discriminate].
  inversion H; subst.
  apply tm_set_noDerivative; auto.
  eapply handleRelationFields_noDerivative; [exact S6|].
  eapply possiblyAddTypeMutations_noDerivative; [exact S5|].
  eapply possiblyAddFilterInput_noDerivative; [exact S4|].
  eapply possiblyAddTypeInput_noDerivative; [exact S3|].
  eapply possiblyAddOrderingEnum_noDerivative; [exact S2|].
  eapply possiblyAddQuery_noDerivative; [exact S1|].
  apply tm_set_noDerivative; auto.
Qed.

Lemma augmentEntries_noDerivative names :
  ~ In K names ->
  forall typeMap typeMap',
    augmentEntries config typeMap names = Ok typeMap' ->
    noDerivativeAt typeMap K -> noDerivativeAt typeMap' K.
Proof.
  induction names as [|name rest IH]; simpl;
    intros Hnot typeMap typeMap' H Hl.
  - inversion H; subst; auto.
  - destruct (augmentEntry config typeMap name) as [tm1|] eqn:E;
      simpl in H; [|discriminate].
    eapply IH; [tauto|exact H|].
    eapply augmentEntry_noDerivative; [|exact E|exact Hl].
    intros X. apply Hnot. now left.
Qed.

Lemma augmentQueryArguments_noDerivative typeMap :
  noDerivativeAt typeMap K ->
  noDerivativeAt (augmentQueryArguments typeMap config) K.
Proof.
  intros Hl. unfold augmentQueryArguments.
  destruct (createOperationMap _); auto.
  destruct (tm_get typeMap "Query") as [[d|defs]|]; auto.
  apply tm_set_noDerivative; auto. apply K_not_Query.
Qed.

Lemma addDirectiveDeclarations_noDerivative typeMap :
  noDerivativeAt typeMap K ->
  noDerivativeAt (addDirectiveDeclarations typeMap config) K.
Proof.
  intros Hl. unfold addDirectiveDeclarations.
  repeat (apply tm_set_noDerivative; [apply K_not_plain; discriminate|]).
  exact Hl.
Qed.

Lemma possiblyAddObjectType_lacks_derivative typeMap name :
  name <> K -> lacks typeMap K -> lacks (possiblyAddObjectType typeMap name) K.
Proof.
  intros Hne Hl. unfold possiblyAddObjectType.
  destruct (tm_get typeMap name); auto. now apply tm_set_lacks.
Qed.

Lemma initializeOperationTypes_lacks_derivative typeMap config' :
  lacks typeMap K -> lacks (initializeOperationTypes typeMap config') K.
Proof.
  intros Hl. unfold initializeOperationTypes.
  destruct (hasNonExcludedNodeType _ _ RQuery _);
    destruct (hasNonExcludedNodeType _ _ RMutation _); auto;
    repeat (apply possiblyAddObjectType_lacks_derivative;
            [apply K_not_Query || apply K_not_Mutation|]); auto.
Qed.

Lemma temporalPair_lacks_derivative typeMap name outFields inFields c :
  last_char name = Some c -> c <> "r"%char -> c <> "g"%char ->
  lacks typeMap K ->
  lacks (temporalPair typeMap name outFields inFields) K.
Proof.
  intros Hc Hr Hg H. unfold temporalPair.
  apply tm_set_lacks.
  - apply (K_not_ending _ "t"%char); [|discriminate|discriminate].
    apply last_char_append. discriminate.
  - apply tm_set_lacks; auto. exact (K_not_ending _ _ Hc Hr Hg).
Qed.

Lemma addTemporalTypes_lacks_derivative typeMap config' :
  lacks typeMap K -> lacks (addTemporalTypes typeMap config') K.
Proof.
  intros H. unfold addTemporalTypes.
  apply transformTemporalFields_lacks. unfold temporalTypes.
  destruct (decideTemporalConfig config') as [t d dt lt ldt]. simpl.
  destruct ldt;
    [apply (temporalPair_lacks_derivative _ _ _ _ "e"%char);
     [reflexivity|discriminate|discriminate|]|];
  (destruct lt;
    [apply (temporalPair_lacks_derivative _ _ _ _ "e"%char);
     [reflexivity|discriminate|discriminate|]|]);
  (destruct dt;
    [apply (temporalPair_lacks_derivative _ _ _ _ "e"%char);
     [reflexivity|discriminate|discriminate|]|]);
  (destruct d;
    [apply (temporalPair_lacks_derivative _ _ _ _ "e"%char);
     [reflexivity|discriminate|discriminate|]|]);
  (destruct t;
    [apply (temporalPair_lacks_derivative _ _ _ _ "e"%char);
     [reflexivity|discriminate|discriminate|]|]); exact H.
Qed.

Lemma lacks_not_In_keys typeMap key :
  lacks typeMap key -> ~ In key (tm_keys typeMap).
Proof.
  unfold lacks, tm_keys. induction typeMap as [|[k v] rest IH]; simpl.
  - intros _ [].
  - destruct (String.eqb_spec k key); [discriminate|].
    intros H [E|Hin]; [contradiction|]. now apply IH.
Qed.

(** A key that no derivative generator permitted by the policy writes
    stays without an enum or input type through the pipeline. *)
Lemma augmentTypeMap_noDerivative typeMap config0 typeMap' :
  excludeIgnoredTypes typeMap config0 = config ->
  augmentTypeMap typeMap config0 = Ok typeMap' ->
  lacks typeMap K -> noDerivativeAt typeMap' K.
Proof.
  intros Hc. unfold augmentTypeMap. rewrite Hc. intros H Hl.
  destruct (addRelationTypeDirectives _) as [tm1|] eqn:R;
    simpl in H; [|discriminate].
  destruct (augmentEntries _ _ _) as [tm2|] eqn:A; simpl in H; [|discriminate].
  inversion H; subst typeMap'.
  apply addDirectiveDeclarations_noDerivative,
    augmentQueryArguments_noDerivative.
  assert (lacks (addTemporalTypes tm1 config) K) as Hloop.
  { apply addTemporalTypes_lacks_derivative.
    eapply addRelationTypeDirectives_lacks; [exact R|].
    now apply initializeOperationTypes_lacks_derivative. }
  eapply augmentEntries_noDerivative; [|exact A|left; exact Hloop].
  now apply lacks_not_In_keys.
Qed.

End DerivativeKey.

Lemma root_is_not_node rootType q :
  def_name q = rootTypeName rootType -> isNodeType_def q = false.
Proof.
  intros H. unfold isNodeType_def. rewrite H.
  destruct rootType; cbn [rootTypeName String.eqb Ascii.eqb Bool.eqb negb andb];
    now rewrite ?andb_false_r.
Qed.

Lemma has_field_map_named n (g : FieldDefinition -> FieldDefinition) fields :
  (forall f, field_name (g f) = field_name f) ->
  has_field n (map g fields) = has_field n fields.
Proof.
  intros Hg. unfold has_field, find_field.
  induction fields as [|f rest IH]; cbn [map find]; [reflexivity|].
  rewrite Hg. destruct (String.eqb (field_name f) n); [reflexivity|exact IH].
Qed.

Lemma rootKept_refl n root typeMap : rootKept n root typeMap typeMap.
Proof.
  unfold rootKept. destruct (tm_get typeMap root) as [[q|defs]|] eqn:G; auto.
  exists q. auto.
Qed.

Lemma rootKept_trans n root a b c :
  rootKept n root a b -> rootKept n root b c -> rootKept n root a c.
Proof.
  unfold rootKept.
  destruct (tm_get a root) as [[q|defs]|].
  - intros (q' & -> & Hn & Hf) (q'' & Hc & Hn' & Hf').
    exists q''. split; [exact Hc|]. split; congruence.
  - intros ->. auto.
  - intros ->. auto.
Qed.

Lemma rootKept_same n root typeMap typeMap' :
  tm_get typeMap' root = tm_get typeMap root ->
  rootKept n root typeMap typeMap'.
Proof.
  intros E. unfold rootKept. rewrite <- E.
  destruct (tm_get typeMap' root) as [[q|defs]|]; auto.
  exists q. auto.
Qed.

Lemma tm_set_rootKept n root typeMap key v :
  key <> root -> rootKept n root typeMap (tm_set typeMap key v).
Proof. intros Hne. apply rootKept_same. now apply tm_get_set_other. Qed.

Lemma rootKept_rootNamed n root typeMap typeMap' :
  rootKept n root typeMap typeMap' ->
  rootNamed typeMap root -> rootNamed typeMap' root.
Proof.
  unfold rootKept, rootNamed. intros H Hn q' G.
  destruct (tm_get typeMap root) as [[q|defs]|].
  - destruct H as (q0 & E & Hname & _). rewrite E in G. inversion G; subst.
    rewrite Hname. now apply Hn.
  - congruence.
  - congruence.
Qed.

Lemma rootKept_has_field n root typeMap typeMap' :
  rootKept n root typeMap typeMap' ->
  has_field n (rootFields typeMap' root)
  = has_field n (rootFields typeMap root).
Proof.
  unfold rootKept, rootFields.
  destruct (tm_get typeMap root) as [[q|defs]|].
  - intros (q' & -> & _ & Hf). exact Hf.
  - intros ->. reflexivity.
  - intros ->. reflexivity.
Qed.

Lemma push_root_field_rootKept n root typeMap r f typeMap' :
  push_root_field typeMap r f = Ok typeMap' ->
  (r = root -> field_name f <> n) ->
  rootKept n root typeMap typeMap'.
Proof.
  intros H Hf. destruct (string_dec r root) as [E|Hne].
  - subst r. unfold push_root_field in H. unfold rootKept.
    destruct (tm_get typeMap root) as [[q|defs]|]; try discriminate.
    destruct (has_fields_member (def_kind q)); [|discriminate].
    inversion H. eexists. split; [apply tm_get_set_same|].
    split; [reflexivity|].
    cbn [set_fields def_fields]. rewrite has_field_app.
    unfold has_field at 2, find_field. cbn [find].
    destruct (String.eqb_spec (field_name f) n) as [X|X];
      [now destruct (Hf eq_refl)|apply orb_false_r].
  - apply rootKept_same. exact (push_root_field_other _ _ _ _ _ H Hne).
Qed.

Section RootField.

Context {PK : PrimaryKey}.
Variables (config : Config) (rootType : RootType) (n : string).
Hypothesis n_query :
  rootType = RQuery ->
  forall X, shouldAugmentType config RQuery X = true -> X <> n.
Hypothesis n_mutation :
  rootType = RMutation ->
  forall m X, shouldAugmentType config RMutation X = true ->
              (mutationTypeName m ++ X)%string <> n.
Hypothesis n_relation :
  rootType = RMutation -> forall a s, (actionName a ++ s)%string <> n.

Lemma possiblyAddQuery_rootKept astNode typeMap typeMap' :
  possiblyAddQuery astNode typeMap config = Ok typeMap' ->
  rootKept n (rootTypeName rootType) typeMap typeMap'.
Proof.
  unfold possiblyAddQuery.
  destruct astNode as [d|defs]; simpl; [|intros H; discriminate H].
  destruct (isNodeType_def d); simpl;
    [|intros H; inversion H; apply rootKept_refl].
  destruct (shouldAugmentType config RQuery (def_name d)) eqn:S;
    [|intros H; inversion H; apply rootKept_refl].
  destruct (op_undefined _ _); [|intros H; inversion H; apply rootKept_refl].
  intros H. eapply push_root_field_rootKept; [exact H|].
  cbn [field_name]. intros E. destruct rootType; [|discriminate E].
  now apply n_query.
Qed.

Lemma possiblyAddOrderingEnum_rootKept astNode typeMap typeMap' :
  possiblyAddOrderingEnum astNode typeMap config = Ok typeMap' ->
  rootKept n (rootTypeName rootType) typeMap typeMap'.
Proof.
  unfold possiblyAddOrderingEnum.
  destruct astNode as [d|defs]; simpl; [|intros H; discriminate H].
  destruct (_ && _); [|intros H; inversion H; apply rootKept_refl].
  destruct (tm_get typeMap _); [intros H; inversion H; apply rootKept_refl|].
  destruct (createOrderingFields d typeMap);
    intros H; inversion H; try apply rootKept_refl.
  apply tm_set_rootKept. apply root_not_underscore.
Qed.

Lemma possiblyAddFilterInput_rootKept astNode typeMap typeMap' :
  possiblyAddFilterInput astNode typeMap config = Ok typeMap' ->
  rootKept n (rootTypeName rootType) typeMap typeMap'.
Proof.
  unfold possiblyAddFilterInput.
  destruct astNode as [d|defs]; simpl; [|intros H; discriminate H].
  destruct (_ && _); [|intros H; inversion H; apply rootKept_refl].
  destruct (tm_get typeMap _); intros H; inversion H; try apply rootKept_refl.
  apply tm_set_rootKept. apply root_not_underscore.
Qed.

Lemma possiblyAddTypeInput_rootKept astNode typeMap typeMap' :
  possiblyAddTypeInput astNode typeMap config = Ok typeMap' ->
  rootKept n (rootTypeName rootType) typeMap typeMap'.
Proof.
  unfold possiblyAddTypeInput.
  destruct astNode as [d|defs]; simpl; [|intros H; discriminate H].
  destruct (shouldAugmentType config RMutation (def_name d));
    [|intros H; inversion H; apply rootKept_refl].
  destruct (isNodeType_def d).
  - destruct (tm_get typeMap _); [intros H; inversion H; apply rootKept_refl|].
    destruct (getPrimaryKey d); intros H; inversion H;
      try apply rootKept_refl.
    apply tm_set_rootKept. apply root_not_underscore.
  - destruct (getTypeDirective d "relation");
      [|intros H; inversion H; apply rootKept_refl].
    destruct (tm_get typeMap _); [intros H; inversion H; apply rootKept_refl|].
    destruct (namedTypeOfField "from" _); simpl; [|intros H; discriminate H].
    destruct (namedTypeOfField "to" _); simpl; [|intros H; discriminate H].
    destruct (_ && _); [|intros H; inversion H; apply rootKept_refl].
    destruct (buildRelationTypeInputFields _ _);
      intros H; inversion H; subst.
    apply tm_set_rootKept. apply root_not_underscore.
Qed.

Lemma possiblyAddTypeMutation_rootKept m d typeMap mutationMap typeMap' :
  shouldAugmentType config RMutation (def_name d) = true ->
  possiblyAddTypeMutation m d typeMap mutationMap config = Ok typeMap' ->
  rootKept n (rootTypeName rootType) typeMap typeMap'.
Proof.
  intros S. unfold possiblyAddTypeMutation.
  destruct (op_undefined _ _); [|intros H; inversion H; apply rootKept_refl].
  destruct (buildMutationArguments m d typeMap) as [[|a args]|];
    try (intros H; discriminate H);
    [intros H; inversion H; apply rootKept_refl|].
  intros H. eapply push_root_field_rootKept; [exact H|].
  cbn [field_name]. intros E. destruct rootType; [discriminate E|].
  now apply n_mutation.
Qed.

Lemma possiblyAddTypeMutations_rootKept astNode typeMap typeMap' :
  possiblyAddTypeMutations astNode typeMap config = Ok typeMap' ->
  rootKept n (rootTypeName rootType) typeMap typeMap'.
Proof.
  unfold possiblyAddTypeMutations.
  destruct astNode as [d|defs]; simpl; [|intros H; discriminate H].
  destruct (shouldAugmentType config RMutation (def_name d)) eqn:S;
    [|intros H; inversion H; apply rootKept_refl].
  destruct (isNodeType_def d); simpl;
    [|intros H; inversion H; apply rootKept_refl].
  destruct (possiblyAddTypeMutation Create _ _ _ _) as [tm1|] eqn:C;
    simpl; [|intros H; discriminate H].
  destruct (possiblyAddTypeMutation Update _ _ _ _) as [tm2|] eqn:U;
    simpl; [|intros H; discriminate H].
  intros D.
  eapply rootKept_trans;
    [eapply possiblyAddTypeMutation_rootKept; [exact S|exact C]|].
  eapply rootKept_trans;
    [eapply possiblyAddTypeMutation_rootKept; [exact S|exact U]|].
  eapply possiblyAddTypeMutation_rootKept; [exact S|exact D].
Qed.

Lemma addRelationMutation_rootKept action typeName capitalizedFieldName
  fromName toName mutationMap typeMap relationName relatedAstNode
  relationHasProps typeMap' :
  addRelationMutation action typeName capitalizedFieldName fromName toName
    mutationMap typeMap relationName relatedAstNode relationHasProps config
  = Ok typeMap' ->
  rootKept n (rootTypeName rootType) typeMap typeMap'.
Proof.
  unfold addRelationMutation.
  destruct (op_undefined _ _); [|intros H; inversion H; apply rootKept_refl].
  destruct (push_root_field typeMap "Mutation" _) as [tm1|] eqn:P;
    simpl; [|intros H; discriminate H].
  intros H.
  eapply rootKept_trans.
  - eapply push_root_field_rootKept; [exact P|].
    unfold relationMutationField. cbn [field_name].
    intros E. destruct rootType; [discriminate E|]. now apply n_relation.
  - destruct (tm_get tm1 _); inversion H; try apply rootKept_refl.
    apply tm_set_rootKept. apply root_not_underscore.
Qed.

Lemma possiblyAddRelationMutationField_rootKept typeName capitalizedFieldName
  fromName toName mutationMap typeMap relationName relatedAstNode
  relationHasProps typeMap' :
  possiblyAddRelationMutationField typeName capitalizedFieldName fromName
    toName mutationMap typeMap relationName relatedAstNode relationHasProps
    config = Ok typeMap' ->
  rootKept n (rootTypeName rootType) typeMap typeMap'.
Proof.
  unfold possiblyAddRelationMutationField.
  destruct (addRelationMutation Add _ _ _ _ _ _ _ _ _ _) as [tm1|] eqn:A;
    simpl; [|intros H; discriminate H].
  intros R.
  eapply rootKept_trans; eapply addRelationMutation_rootKept; eauto.
Qed.

Lemma possiblyAddRelationTypeFieldPayload_rootKept relationAstNode
  capitalizedFieldName typeName typeMap field typeMap' field' :
  possiblyAddRelationTypeFieldPayload relationAstNode capitalizedFieldName
    typeName typeMap field = Ok (typeMap', field') ->
  rootKept n (rootTypeName rootType) typeMap typeMap'.
Proof.
  unfold possiblyAddRelationTypeFieldPayload.
  destruct (tm_get typeMap _); [intros H; inversion H; apply rootKept_refl|].
  destruct (getRelationTypeDirectiveArgs relationAstNode) as [[args|]|];
    simpl; try (intros H; discriminate H);
    [|intros H; inversion H; apply rootKept_refl].
  match goal with |- context [if ?c then _ else _] => destruct c end;
    (destruct (parseObjectType _ _ _); simpl; [|intros H; discriminate H]);
    intros H; inversion H; subst.
  - eapply rootKept_trans; apply tm_set_rootKept; apply root_not_underscore.
  - apply tm_set_rootKept. apply root_not_underscore.
Qed.

Lemma handleRelationTypeDirective_rootKept relatedAstNode typeName field
  capitalizedFieldName relationTypeDirective typeMap mutationMap typeMap'
  field' :
  handleRelationTypeDirective relatedAstNode typeName field
    capitalizedFieldName relationTypeDirective config typeMap mutationMap
  = Ok (typeMap', field') ->
  rootKept n (rootTypeName rootType) typeMap typeMap'.
Proof.
  unfold handleRelationTypeDirective.
  destruct (argumentValue "name" _) as [relationName|];
    simpl; [|intros H; discriminate H].
  destruct (argumentValue "from" _) as [fromName|];
    simpl; [|intros H; discriminate H].
  destruct (argumentValue "to" _) as [toName|];
    simpl; [|intros H; discriminate H].
  intros H.
  assert (forall tm1,
            (if shouldAugmentRelationField config RMutation fromName toName
             then bind (validateRelationTypeDirectedFields typeName fromName
                          toName)
                    (fun valid =>
                       if valid
                       then possiblyAddRelationMutationField typeName
                              capitalizedFieldName fromName toName mutationMap
                              typeMap relationName relatedAstNode true config
                       else Ok typeMap)
             else Ok typeMap) = Ok tm1 ->
            rootKept n (rootTypeName rootType) typeMap tm1) as Hstep.
  { intros tm1. destruct (shouldAugmentRelationField _ _ _ _);
      [|intros E; inversion E; apply rootKept_refl].
    destruct (validateRelationTypeDirectedFields _ _ _) as [[|]|];
      simpl; try (intros E; discriminate E);
      [|intros E; inversion E; apply rootKept_refl].
    apply possiblyAddRelationMutationField_rootKept. }
  match type of H with
  | bind ?r _ = _ => destruct r as [tm1|] eqn:E; simpl in H; [|discriminate]
  end.
  destruct (possiblyAddRelationTypeFieldPayload _ _ _ _ _)
    as [[tm2 f2]|] eqn:Q; simpl in H; [|discriminate].
  inversion H; subst.
  eapply rootKept_trans; [apply Hstep; reflexivity|].
  eapply possiblyAddRelationTypeFieldPayload_rootKept; exact Q.
Qed.

Lemma handleRelationFieldDirective_rootKept relatedAstNode typeName
  capitalizedFieldName fieldValueName relationFieldDirective mutationMap
  typeMap typeMap' :
  handleRelationFieldDirective relatedAstNode typeName capitalizedFieldName
    fieldValueName relationFieldDirective mutationMap typeMap config
  = Ok typeMap' ->
  rootKept n (rootTypeName rootType) typeMap typeMap'.
Proof.
  unfold handleRelationFieldDirective.
  destruct (shouldAugmentRelationField _ _ _ _);
    [|intros H; inversion H; apply rootKept_refl].
  destruct (getRelationName _); simpl; [|intros H; discriminate H].
  destruct (getRelationDirection _) as [direction|];
    simpl; [|intros H; discriminate H].
  destruct ((direction =? "IN")%string || (direction =? "in")%string);
    apply possiblyAddRelationMutationField_rootKept.
Qed.

Lemma handleRelationField_rootKept typeName mutationMap typeMap field
  typeMap' field' :
  handleRelationField typeName mutationMap config typeMap field
  = Ok (typeMap', field') ->
  rootKept n (rootTypeName rootType) typeMap typeMap'.
Proof.
  unfold handleRelationField.
  destruct (fieldIsNotIgnored field);
    [|intros H; inversion H; apply rootKept_refl].
  destruct (tm_get typeMap (_getNamedType (field_type field)))
    as [[related|defs]|];
    try (intros H; inversion H; apply rootKept_refl; fail).
  destruct (isNodeType_def related).
  - destruct (getFieldDirective field "relation");
      [|intros H; inversion H; apply rootKept_refl].
    destruct (handleRelationFieldDirective _ _ _ _ _ _ _ _) as [tm1|] eqn:E;
      simpl; [|intros H; discriminate H].
    intros H. inversion H; subst.
    eapply handleRelationFieldDirective_rootKept; eauto.
  - destruct (getTypeDirective related "relation");
      [|intros H; inversion H; apply rootKept_refl].
    apply handleRelationTypeDirective_rootKept.
Qed.

Lemma handleRelationFieldsLoop_rootKept typeName mutationMap fields :
  forall typeMap typeMap' fields',
    handleRelationFieldsLoop typeName mutationMap config typeMap fields
    = Ok (typeMap', fields') ->
    rootKept n (rootTypeName rootType) typeMap typeMap'.
Proof.
  induction fields as [|field rest IH]; simpl;
    intros typeMap typeMap' fields' H.
  - inversion H; apply rootKept_refl.
  - destruct (handleRelationField _ _ _ _ _) as [[tm1 f1]|] eqn:E;
      simpl in H; [|discriminate].
    destruct (handleRelationFieldsLoop _ _ _ tm1 rest) as [[tm2 r2]|] eqn:L;
      simpl in H; [|discriminate].
    inversion H; subst.
    eapply rootKept_trans; [eapply handleRelationField_rootKept; eauto|].
    eapply IH; exact L.
Qed.

Lemma handleRelationFields_rootKept astNode typeMap typeMap' astNode' :
  handleRelationFields astNode typeMap config = Ok (typeMap', astNode') ->
  rootKept n (rootTypeName rootType) typeMap typeMap'.
Proof.
  unfold handleRelationFields.
  destruct astNode as [d|defs]; simpl; [|intros H; discriminate H].
  destruct (isNodeType_def d); [|intros H; inversion H; apply rootKept_refl].
  destruct (handleRelationFieldsLoop _ _ _ _ _) as [[tm1 fs]|] eqn:L;
    simpl; [|intros H; discriminate H].
  intros H. inversion H; subst.
  eapply handleRelationFieldsLoop_rootKept; eauto.
Qed.

Lemma augmentEntry_rootKept typeMap name typeMap' :
  rootNamed typeMap (rootTypeName rootType) ->
  augmentEntry config typeMap name = Ok typeMap' ->
  rootKept n (rootTypeName rootType) typeMap typeMap'.
Proof.
  intros Hnamed. unfold augmentEntry.
  destruct (isTemporalType name);
    [intros H; inversion H; apply rootKept_refl|].
  destruct (tm_get typeMap name) as [type|] eqn:G;
    [|intros H; inversion H; apply rootKept_refl].
  intros H.
  destruct (possiblyAddQuery _ _ _) as [tm1|] eqn:S1;
    simpl in H; [|discriminate].
  destruct (possiblyAddOrderingEnum _ _ _) as [tm2|] eqn:S2;
    simpl in H; [|discriminate].
  destruct (possiblyAddTypeInput _ _ _) as [tm3|] eqn:S3;
    simpl in H; [|discriminate].
  destruct (possiblyAddFilterInput _ _ _) as [tm4|] eqn:S4;
    simpl in H; [|discriminate].
  destruct (possiblyAddTypeMutations _ _ _) as [tm5|] eqn:S5;
    simpl in H; [|discriminate].
  destruct (handleRelationFields _ _ _) as [[tm6 type6]|] eqn:S6;
    simpl in H; [|discriminate].
  inversion H; subst typeMap'.
  assert (rootKept n (rootTypeName rootType)
            (tm_set typeMap name (augmentType type typeMap config)) tm6)
    as Hsteps.
  { eapply rootKept_trans; [eapply possiblyAddQuery_rootKept; exact S1|].
    eapply rootKept_trans;
      [eapply possiblyAddOrderingEnum_rootKept; exact S2|].
    eapply rootKept_trans; [eapply possiblyAddTypeInput_rootKept; exact S3|].
    eapply rootKept_trans;
      [eapply possiblyAddFilterInput_rootKept; exact S4|].
    eapply rootKept_trans;
      [eapply possiblyAddTypeMutations_rootKept; exact S5|].
    eapply handleRelationFields_rootKept; exact S6. }
  destruct (string_dec name (rootTypeName rootType)) as [E|Hne].
  - subst name. destruct type as [q|defs].
    + pose proof (root_is_not_node rootType q (Hnamed q G)) as Hnode.
      unfold augmentType in S6, Hsteps. rewrite Hnode in S6, Hsteps.
      unfold handleRelationFields in S6. cbn [name_value bind] in S6.
      rewrite Hnode in S6. inversion S6; subst tm6 type6.
      unfold rootKept. rewrite G. exists q.
      rewrite tm_get_set_same. auto.
    + cbn [augmentType] in S1. unfold possiblyAddQuery in S1.
      cbn [name_value bind] in S1. discriminate.
  - eapply rootKept_trans; [apply tm_set_rootKept; exact Hne|].
    eapply rootKept_trans; [exact Hsteps|].
    apply tm_set_rootKept. exact Hne.
Qed.

Lemma augmentEntries_rootKept names :
  forall typeMap typeMap',
    rootNamed typeMap (rootTypeName rootType) ->
    augmentEntries config typeMap names = Ok typeMap' ->
    rootKept n (rootTypeName rootType) typeMap typeMap'.
Proof.
  induction names as [|name rest IH]; simpl; intros typeMap typeMap' Hn H.
  - inversion H; apply rootKept_refl.
  - destruct (augmentEntry config typeMap name) as [tm1|] eqn:E;
      simpl in H; [|discriminate].
    pose proof (augmentEntry_rootKept _ _ _ Hn E) as K1.
    eapply rootKept_trans; [exact K1|].
    apply IH; [|exact H]. exact (rootKept_rootNamed _ _ _ _ K1 Hn).
Qed.

Lemma augmentQueryArguments_rootKept typeMap :
  rootKept n (rootTypeName rootType) typeMap
    (augmentQueryArguments typeMap config).
Proof.
  unfold augmentQueryArguments.
  destruct (createOperationMap (tm_get typeMap "Query")) as [|f0 l] eqn:Q;
    [apply rootKept_refl|].
  destruct (tm_get typeMap "Query") as [[d|defs]|] eqn:G;
    try apply rootKept_refl.
  destruct (string_dec "Query" (rootTypeName rootType)) as [E|Hne];
    [|now apply tm_set_rootKept].
  unfold rootKept. rewrite <- E, G. eexists.
  split; [apply tm_get_set_same|]. split; [reflexivity|].
  cbn [set_fields def_fields].
  rewrite has_field_map_named.
  - rewrite <- Q. unfold createOperationMap.
    rewrite has_field_createOperationMap_fold. reflexivity.
  - intros f. destruct (_ && _); reflexivity.
Qed.

Lemma addDirectiveDeclarations_rootKept typeMap :
  rootKept n (rootTypeName rootType) typeMap
    (addDirectiveDeclarations typeMap config).
Proof.
  unfold addDirectiveDeclarations.
  eapply rootKept_trans;
    [|apply tm_set_rootKept; destruct rootType; discriminate].
  eapply rootKept_trans; apply tm_set_rootKept; destruct rootType; discriminate.
Qed.

Lemma possiblyAddObjectType_root typeMap name :
  rootNamed typeMap (rootTypeName rootType) ->
  rootNamed (possiblyAddObjectType typeMap name) (rootTypeName rootType)
  /\ rootFields (possiblyAddObjectType typeMap name) (rootTypeName rootType)
     = rootFields typeMap (rootTypeName rootType).
Proof.
  intros Hn. unfold possiblyAddObjectType.
  destruct (tm_get typeMap name) eqn:G; [auto|].
  destruct (string_dec name (rootTypeName rootType)) as [E|Hne].
  - rewrite <- E. split.
    + intros q. rewrite tm_get_set_same. intros X. inversion X. reflexivity.
    + unfold rootFields. now rewrite tm_get_set_same, G.
  - split.
    + intros q. rewrite tm_get_set_other by exact Hne. apply Hn.
    + unfold rootFields. now rewrite tm_get_set_other by exact Hne.
Qed.

Lemma initializeOperationTypes_root typeMap config' :
  rootNamed typeMap (rootTypeName rootType) ->
  rootNamed (initializeOperationTypes typeMap config') (rootTypeName rootType)
  /\ rootFields (initializeOperationTypes typeMap config')
       (rootTypeName rootType)
     = rootFields typeMap (rootTypeName rootType).
Proof.
  intros Hn. unfold initializeOperationTypes.
  destruct (hasNonExcludedNodeType _ _ RQuery _).
  - destruct (possiblyAddObjectType_root typeMap "Query" Hn) as [Hn1 Hf1].
    destruct (hasNonExcludedNodeType _ _ RMutation _); [|auto].
    destruct (possiblyAddObjectType_root _ "Mutation" Hn1) as [Hn2 Hf2].
    split; [exact Hn2|congruence].
  - destruct (hasNonExcludedNodeType _ _ RMutation _); [|auto].
    apply possiblyAddObjectType_root. exact Hn.
Qed.

Lemma addRelationTypeDirective_named q node :
  addRelationTypeDirective (Def q) = Ok node ->
  exists q', node = Def q' /\ def_name q' = def_name q
             /\ def_fields q' = def_fields q.
Proof.
  unfold addRelationTypeDirective.
  destruct (Kind_eqb _ _); [|intros H; inversion H; eauto].
  destruct (find_field "to" _), (find_field "from" _);
    intros H; inversion H; eauto.
Qed.

Lemma addRelationTypeDirectives_rootKept typeMap typeMap' :
  addRelationTypeDirectives typeMap = Ok typeMap' ->
  rootKept n (rootTypeName rootType) typeMap typeMap'.
Proof.
  unfold rootKept. revert typeMap'.
  induction typeMap as [|[k v] rest IH]; simpl; intros typeMap' H.
  - inversion H. reflexivity.
  - destruct (addRelationTypeDirective v) as [v'|] eqn:V;
      simpl in H; [|discriminate].
    destruct (addRelationTypeDirectives rest) as [rest'|];
      simpl in H; [|discriminate].
    inversion H. simpl.
    destruct (String.eqb k (rootTypeName rootType)); [|apply IH; reflexivity].
    destruct v as [q|defs].
    + destruct (addRelationTypeDirective_named _ _ V) as (q' & -> & Hn & Hf).
      exists q'. rewrite Hf. auto.
    + cbn in V. inversion V. reflexivity.
Qed.

Lemma transformTemporalFields_rootKept typeMap flags :
  rootKept n (rootTypeName rootType) typeMap
    (transformTemporalFields typeMap flags).
Proof.
  unfold rootKept, transformTemporalFields.
  induction typeMap as [|[k v] rest IH]; simpl; [reflexivity|].
  destruct v as [d|defs]; [destruct (_ && _)|]; simpl;
    (destruct (String.eqb k (rootTypeName rootType)); [|exact IH]); eauto.
  eexists. split; [reflexivity|]. split; [reflexivity|].
  cbn [def_fields]. apply has_field_map_named. reflexivity.
Qed.

Lemma temporalPair_rootKept typeMap name outFields inFields :
  rootKept n (rootTypeName rootType) typeMap
    (temporalPair typeMap ("_" ++ name) outFields inFields).
Proof.
  unfold temporalPair.
  eapply rootKept_trans; apply tm_set_rootKept; apply root_not_underscore.
Qed.

Lemma addTemporalTypes_rootKept typeMap config' :
  rootKept n (rootTypeName rootType) typeMap (addTemporalTypes typeMap config').
Proof.
  unfold addTemporalTypes.
  eapply rootKept_trans; [|apply transformTemporalFields_rootKept].
  unfold temporalTypes.
  destruct (decideTemporalConfig config') as [t d dt lt ldt]. simpl.
  destruct ldt;
    [eapply rootKept_trans;
     [|apply (temporalPair_rootKept _ "Neo4jLocalDateTime")]|];
  (destruct lt;
    [eapply rootKept_trans;
     [|apply (temporalPair_rootKept _ "Neo4jLocalTime")]|]);
  (destruct dt;
    [eapply rootKept_trans;
     [|apply (temporalPair_rootKept _ "Neo4jDateTime")]|]);
  (destruct d;
    [eapply rootKept_trans;
     [|apply (temporalPair_rootKept _ "Neo4jDate")]|]);
  (destruct t; [apply (temporalPair_rootKept _ "Neo4jTime")|]);
  apply rootKept_refl.
Qed.

(** A root field name that no generator permitted by the policy pushes is
    among the fields of the root type after the pipeline exactly when it
    was before. *)
Lemma augmentTypeMap_root_field typeMap config0 typeMap' :
  excludeIgnoredTypes typeMap config0 = config ->
  augmentTypeMap typeMap config0 = Ok typeMap' ->
  rootNamed typeMap (rootTypeName rootType) ->
  has_field n (rootFields typeMap' (rootTypeName rootType))
  = has_field n (rootFields typeMap (rootTypeName rootType)).
Proof.
  intros Hc. unfold augmentTypeMap. rewrite Hc. intros H Hn.
  destruct (addRelationTypeDirectives _) as [tm1|] eqn:R;
    simpl in H; [|discriminate].
  destruct (augmentEntries _ _ _) as [tm2|] eqn:A; simpl in H; [|discriminate].
  inversion H; subst typeMap'.
  destruct (initializeOperationTypes_root typeMap config Hn) as [Hn0 Hf0].
  rewrite <- Hf0.
  apply rootKept_has_field.
  pose proof (addRelationTypeDirectives_rootKept _ _ R) as K1.
  pose proof (addTemporalTypes_rootKept tm1 config) as K2.
  pose proof (rootKept_trans _ _ _ _ _ K1 K2) as K12.
  eapply rootKept_trans; [exact K12|].
  eapply rootKept_trans;
    [apply (augmentEntries_rootKept _ _ _
              (rootKept_rootNamed _ _ _ _ K12 Hn0) A)|].
  eapply rootKept_trans; [apply augmentQueryArguments_rootKept|].
  apply addDirectiveDeclarations_rootKept.
Qed.

End RootField.

Lemma derivative_key_shape config T suffix :
  shouldAugmentType config RQuery T = false ->
  suffix = "Filter"%string \/ suffix = "Ordering"%string ->
  (exists s, ("_" ++ T ++ suffix)%string = ("_" ++ s)%string)
  /\ (last_char ("_" ++ T ++ suffix) = Some "r"%char
      \/ last_char ("_" ++ T ++ suffix) = Some "g"%char)
  /\ (forall X, shouldAugmentType config RQuery X = true ->
                ("_" ++ X ++ "Filter")%string <> ("_" ++ T ++ suffix)%string)
  /\ (forall X, shouldAugmentType config RQuery X = true ->
                ("_" ++ X ++ "Ordering")%string <> ("_" ++ T ++ suffix)%string).
Proof.
  intros Hex [->| ->]; (split; [eexists; reflexivity|]).
  - split; [left; now rewrite last_char_derived|]. split.
    + intros X S E. apply derived_name_inj in E.
      exact (excluded_not_augmented _ _ _ _ Hex S E).
    + intros X _. apply ordering_name_not_filter_name.
  - split; [right; now rewrite last_char_derived|]. split.
    + intros X _ E. symmetry in E.
      exact (ordering_name_not_filter_name _ _ E).
    + intros X S E. apply derived_name_inj in E.
      exact (excluded_not_augmented _ _ _ _ Hex S E).
Qed.

Lemma relation_mutation_name_differs a s m T :
  (actionName a ++ s)%string <> (mutationTypeName m ++ T)%string.
Proof. destruct a, m; discriminate. Qed.




(** In the witness [T] has no root query field and no ordering enum, its
    relationship field [filter] has the payload type [_TFilter], and
    [User], which the policy permits, has all three. *)
Example excluded_type_artifacts :
  option_map
    (fun typeMap' =>
       (map field_name (rootFields typeMap' "Query"),
        tm_get typeMap' "_TOrdering",
        isKind (tm_get typeMap' "_UserOrdering") EnumTypeDefinition,
        match tm_get typeMap' "_UserFilter" with
        | Some (Document [d]) => Some (def_kind d)
        | _ => None
        end))
    (resultValue (augmentTypeMap filterNamedSchema excludeT))
  = Some (["User"], None, true, Some InputObjectTypeDefinition).
Proof. vm_compute. reflexivity. Qed.

(** ** Normalized relationship types *)

Lemma find_directive_replaceOrPush name d directives :
  dir_name d = name ->
  find_directive name (replaceOrPushDirective name d directives) = Some d.
Proof.
  intros Hd. unfold find_directive.
  induction directives as [|e rest IH]; cbn [replaceOrPushDirective find].
  - rewrite Hd, String.eqb_refl. reflexivity.
  - destruct (String.eqb (dir_name e) name) eqn:E; cbn [find].
    + rewrite Hd, String.eqb_refl. reflexivity.
    + rewrite E. exact IH.
Qed.

(** After normalization a relationship type carries the relation marker
    with the value types of its [from] and [to] fields, whatever notation
    it was written in; its fields are unchanged. *)
Lemma addRelationTypeDirective_marker d from to :
  def_kind d = ObjectTypeDefinition ->
  find_field "from" (def_fields d) = Some from ->
  find_field "to" (def_fields d) = Some to ->
  exists relationName d',
    addRelationTypeDirective (Def d) = Ok (Def d')
    /\ def_fields d' = def_fields d
    /\ def_name d' = def_name d
    /\ getTypeDirective d' "relation"
       = Some (relationDirective relationName
                 (_getNamedType (field_type from))
                 (_getNamedType (field_type to))).
Proof.
  intros Hk Hf Ht. unfold addRelationTypeDirective.
  rewrite Hk, Hf, Ht. cbn [Kind_eqb].
  eexists _, _. split; [reflexivity|].
  repeat split. unfold getTypeDirective. cbn [def_directives].
  apply find_directive_replaceOrPush. reflexivity.
Qed.

(** The reflexive relationship through the whole pipeline. *)
Example friends_through_the_pipeline :
  option_map
    (fun typeMap' =>
       (fieldOf typeMap' "Person" "friends",
        tm_get typeMap' "_PersonFriendsDirections"))
    (resultValue (augmentTypeMap friendsInput allEnabled))
  = Some
      (Some (mkField "friends" [] (NamedType "_PersonFriendsDirections") []),
       Some (Document
               [mkDef ObjectTypeDefinition "_PersonFriendsDirections"
                  [mkField "from" [mkArg "since" (NamedType "Int")]
                     (ListType (NamedType "_PersonFriends")) [];
                   mkField "to" [mkArg "since" (NamedType "Int")]
                     (ListType (NamedType "_PersonFriends")) []]
                  [relationDirective "FRIEND_OF" "Person" "Person"] []])).
Proof. vm_compute. reflexivity. Qed.

(** * Further properties of the code *)

(** ** Arguments *)

Lemma has_arg_false_not_In name args :
  has_arg name args = false -> ~ In name (map arg_name args).
Proof.
  unfold has_arg, find_arg.
  induction args as [|a args IH]; cbn [find map In]; [tauto|].
  destruct (String.eqb_spec (arg_name a) name); [discriminate|].
  intros H [E|E]; [contradiction|]. exact (IH H E).
Qed.

Lemma has_arg_pushed name type args :
  has_arg name (args ++ [mkArg name type]) = true.
Proof.
  rewrite has_arg_app. unfold has_arg at 2, find_arg. cbn [find arg_name].
  rewrite String.eqb_refl. apply orb_true_r.
Qed.

Lemma possiblyAddArgument_has args fieldName fieldType :
  has_arg fieldName (possiblyAddArgument args fieldName fieldType) = true.
Proof.
  unfold possiblyAddArgument.
  destruct (has_arg fieldName args) eqn:E; [exact E|apply has_arg_pushed].
Qed.

Lemma has_arg_In a args : In a args -> has_arg (arg_name a) args = true.
Proof.
  unfold has_arg, find_arg.
  induction args as [|b args IH]; intros Hin; [destruct Hin|].
  cbn [find]. destruct Hin as [E|H].
  - subst b. now rewrite String.eqb_refl.
  - destruct (String.eqb (arg_name b) (arg_name a)); auto.
Qed.

(** X1.  [possiblyAddArgument] keeps the arguments it is given, in place,
    and appends at most one: it returns them as they are when one of them
    has the name asked for, and with the one argument of that name and
    type at the end when none has.  A second call for the same name
    changes nothing, whatever type it asks for; and argument names that
    were distinct stay distinct. *)
Theorem possiblyAddArgument_existence_check args fieldName fieldType
  fieldType' :
  (exists more,
     possiblyAddArgument args fieldName fieldType = args ++ more)
  /\ ((exists a, In a args /\ arg_name a = fieldName) ->
      possiblyAddArgument args fieldName fieldType = args)
  /\ ((forall a, In a args -> arg_name a <> fieldName) ->
      possiblyAddArgument args fieldName fieldType
      = args ++ [mkArg fieldName (NamedType fieldType)])
  /\ possiblyAddArgument (possiblyAddArgument args fieldName fieldType)
       fieldName fieldType'
     = possiblyAddArgument args fieldName fieldType
  /\ (NoDup (map arg_name args) ->
      NoDup (map arg_name (possiblyAddArgument args fieldName fieldType))).
Proof.
  split; [|split; [|split; [|split]]].
  - unfold possiblyAddArgument. destruct (has_arg fieldName args).
    + exists []. now rewrite app_nil_r.
    + eexists. reflexivity.
  - intros (a & Hin & <-). unfold possiblyAddArgument.
    now rewrite (has_arg_In a args Hin).
  - intros Hnone. unfold possiblyAddArgument.
    destruct (has_arg fieldName args) eqn:E; [|reflexivity].
    unfold has_arg, find_arg in E.
    destruct (find _ args) as [a|] eqn:F; [|discriminate].
    apply find_some in F. destruct F as [Hin Hname].
    apply String.eqb_eq in Hname. now destruct (Hnone a Hin).
  - unfold possiblyAddArgument at 1.
    now rewrite possiblyAddArgument_has.
  - intros Hnd. unfold possiblyAddArgument.
    destruct (has_arg fieldName args) eqn:E; auto.
    rewrite map_app. cbn [map arg_name].
    apply NoDup_app; auto.
    + constructor; [intros []|constructor].
    + intros x Hin [<-|[]]. exact (has_arg_false_not_In _ _ E Hin).
Qed.

Lemma possiblyAddArgument_existence_check_witness :
  possiblyAddArgument [mkArg "first" (NamedType "Int")] "first" "Float"
  = [mkArg "first" (NamedType "Int")]
  /\ possiblyAddArgument [mkArg "first" (NamedType "Int")] "offset" "Int"
     = [mkArg "first" (NamedType "Int"); mkArg "offset" (NamedType "Int")]
  /\ NoDup (map arg_name
              (possiblyAddArgument [mkArg "first" (NamedType "Int")] "offset"
                 "Int")).
Proof.
  destruct (possiblyAddArgument_existence_check
              [mkArg "first" (NamedType "Int")] "first" "Float" "Int")
    as (_ & Hthere & _).
  destruct (possiblyAddArgument_existence_check
              [mkArg "first" (NamedType "Int")] "offset" "Int" "Int")
    as (_ & _ & Hfresh & _ & Hdistinct).
  split; [|split].
  - apply Hthere. eexists. split; [left; reflexivity|reflexivity].
  - apply Hfresh. intros a [<-|[]]. discriminate.
  - apply Hdistinct. constructor; [intros []|constructor].
Defined.

Lemma has_arg_kept name args more :
  has_arg name args = true -> has_arg name (args ++ more) = true.
Proof. intros H. now rewrite has_arg_app, H. Qed.

Lemma possiblyAddArgument_keeps name args fieldName fieldType :
  has_arg name args = true ->
  has_arg name (possiblyAddArgument args fieldName fieldType) = true.
Proof.
  intros H. unfold possiblyAddArgument.
  destruct (has_arg fieldName args); auto. now apply has_arg_kept.
Qed.

Lemma possiblyAddOrderingArgument_keeps name args fieldName :
  has_arg name args = true ->
  has_arg name (possiblyAddOrderingArgument args fieldName) = true.
Proof.
  intros H. unfold possiblyAddOrderingArgument.
  destruct (has_arg fieldName args); auto. now apply has_arg_kept.
Qed.

(** X2.  The arguments added to a field whose value is a node type:
    the field keeps its name, type, directives and its own arguments in
    place; a list field has [first] and [offset] afterwards, and
    [orderBy] too unless it has an argument called like the value type;
    a field without [cypher] has [filter] afterwards. *)
Theorem addNodeListArguments_adds field valueTypeName :
  field_name (addNodeListArguments field valueTypeName) = field_name field
  /\ field_type (addNodeListArguments field valueTypeName) = field_type field
  /\ field_directives (addNodeListArguments field valueTypeName)
     = field_directives field
  /\ (exists more,
        field_arguments (addNodeListArguments field valueTypeName)
        = field_arguments field ++ more)
  /\ (_isListType (field_type field) = true ->
      has_arg "first"
        (field_arguments (addNodeListArguments field valueTypeName)) = true
      /\ has_arg "offset"
           (field_arguments (addNodeListArguments field valueTypeName)) = true
      /\ (has_arg valueTypeName (field_arguments field) = false ->
          valueTypeName <> "first" -> valueTypeName <> "offset" ->
          has_arg "orderBy"
            (field_arguments (addNodeListArguments field valueTypeName))
          = true))
  /\ (hasCypher field = false ->
      has_arg "filter"
        (field_arguments (addNodeListArguments field valueTypeName)) = true).
Proof.
  unfold addNodeListArguments. cbn [field_name field_type field_directives
    field_arguments].
  repeat split.
  - destruct (_isListType (field_type field)), (negb (hasCypher field));
      unfold possiblyAddArgument, possiblyAddOrderingArgument;
      repeat match goal with
             | |- context [if has_arg ?n ?a then _ else _] =>
                 destruct (has_arg n a)
             end;
      rewrite <- ?app_assoc; eexists; try reflexivity;
      symmetry; apply app_nil_r.
  - rewrite H.
    destruct (negb (hasCypher field)); [apply possiblyAddArgument_keeps|];
      apply possiblyAddOrderingArgument_keeps, possiblyAddArgument_keeps,
        possiblyAddArgument_has.
  - rewrite H.
    destruct (negb (hasCypher field)); [apply possiblyAddArgument_keeps|];
      apply possiblyAddOrderingArgument_keeps, possiblyAddArgument_has.
  - intros Hno Hf Ho. rewrite H.
    assert (has_arg "orderBy"
              (possiblyAddOrderingArgument
                 (possiblyAddArgument
                    (possiblyAddArgument (field_arguments field) "first" "Int")
                    "offset" "Int") valueTypeName) = true) as Hob.
    { unfold possiblyAddOrderingArgument.
      assert (has_arg valueTypeName
                (possiblyAddArgument
                   (possiblyAddArgument (field_arguments field) "first" "Int")
                   "offset" "Int") = false) as ->.
      { unfold possiblyAddArgument.
        destruct (has_arg "first" (field_arguments field)) eqn:E1.
        - destruct (has_arg "offset" (field_arguments field)) eqn:E2; auto.
          rewrite has_arg_app, Hno. unfold has_arg, find_arg.
          cbn [find arg_name orb].
          destruct (String.eqb_spec "offset" valueTypeName);
            [congruence|reflexivity].
        - assert (has_arg valueTypeName
                    (field_arguments field ++ [mkArg "first" (NamedType "Int")])
                  = false) as Hf1.
          { rewrite has_arg_app, Hno. unfold has_arg, find_arg.
            cbn [find arg_name orb].
            destruct (String.eqb_spec "first" valueTypeName);
              [congruence|reflexivity]. }
          destruct (has_arg "offset" _); auto.
          rewrite has_arg_app, Hf1. unfold has_arg, find_arg.
          cbn [find arg_name orb].
          destruct (String.eqb_spec "offset" valueTypeName);
            [congruence|reflexivity]. }
      apply has_arg_pushed. }
    destruct (negb (hasCypher field)); auto.
    now apply possiblyAddArgument_keeps.
  - intros Hc. rewrite Hc. cbn [negb]. apply possiblyAddArgument_has.
Qed.

Lemma addNodeListArguments_adds_witness :
  (has_arg "first" (field_arguments (addNodeListArguments actorsField "Person"))
   = true
   /\ has_arg "offset"
        (field_arguments (addNodeListArguments actorsField "Person")) = true
   /\ (has_arg "Person" (field_arguments actorsField) = false ->
       "Person" <> "first" -> "Person" <> "offset" ->
       has_arg "orderBy"
         (field_arguments (addNodeListArguments actorsField "Person")) = true))
  /\ has_arg "filter"
       (field_arguments (addNodeListArguments actorsField "Person")) = true.
Proof.
  split.
  - apply (proj1 (proj2 (proj2 (proj2 (proj2
             (addNodeListArguments_adds actorsField "Person")))))).
    reflexivity.
  - apply (proj2 (proj2 (proj2 (proj2 (proj2
             (addNodeListArguments_adds actorsField "Person")))))).
    reflexivity.
Defined.

(** ** The reserved [_id] field *)

Lemma addOrReplaceNodeIdField_find fields :
  find_field "_id" (addOrReplaceNodeIdField fields)
  = match find_field "_id" fields with
    | Some e => if fieldIsNotIgnored e then Some nodeIdField else Some e
    | None => Some nodeIdField
    end.
Proof.
  unfold find_field.
  induction fields as [|e rest IH]; cbn [addOrReplaceNodeIdField find].
  - reflexivity.
  - destruct (String.eqb (field_name e) "_id") eqn:E.
    + destruct (fieldIsNotIgnored e); cbn [find]; [reflexivity|].
      now rewrite E.
    + cbn [find]. now rewrite E.
Qed.

(** X3.  [addOrReplaceNodeIdField] leaves a field called [_id] on the
    type: the string-typed, argument-less one, unless the first field of
    that name carries [neo4j_ignore], which is kept.  The fields of other
    names are kept in order, and a second call changes nothing. *)
Theorem addOrReplaceNodeIdField_reserved fields :
  find_field "_id" (addOrReplaceNodeIdField fields)
  = match find_field "_id" fields with
    | Some e => if fieldIsNotIgnored e then Some nodeIdField else Some e
    | None => Some nodeIdField
    end
  /\ fieldsNotNamed "_id" (addOrReplaceNodeIdField fields)
     = fieldsNotNamed "_id" fields
  /\ addOrReplaceNodeIdField (addOrReplaceNodeIdField fields)
     = addOrReplaceNodeIdField fields.
Proof.
  split; [apply addOrReplaceNodeIdField_find|]. split.
  - unfold fieldsNotNamed.
    induction fields as [|e rest IH]; cbn [addOrReplaceNodeIdField filter].
    + reflexivity.
    + destruct (String.eqb (field_name e) "_id") eqn:E.
      * destruct (fieldIsNotIgnored e); cbn [filter]; [|now rewrite E].
        reflexivity.
      * cbn [filter]. rewrite E. cbn [negb]. now rewrite IH.
  - induction fields as [|e rest IH]; cbn [addOrReplaceNodeIdField].
    + reflexivity.
    + destruct (String.eqb (field_name e) "_id") eqn:E.
      * destruct (fieldIsNotIgnored e) eqn:I;
          cbn [addOrReplaceNodeIdField]; [reflexivity|].
        now rewrite E, I.
      * cbn [addOrReplaceNodeIdField]. now rewrite E, IH.
Qed.

(** ** Default relationship names *)

Lemma toUpperCase_idempotent c : toUpperCase (toUpperCase c) = toUpperCase c.
Proof.
  destruct c as [[] [] [] [] [] [] [] []]; reflexivity.
Qed.

Lemma chars_append a b : chars (a ++ b) = chars a ++ chars b.
Proof. induction a; simpl; congruence. Qed.

Lemma transformRelationName_at_chars atZero name :
  Forall (fun c => toUpperCase c = c)
    (chars (transformRelationName_at atZero name)).
Proof.
  revert atZero. induction name as [|c rest IH]; intros atZero;
    cbn [transformRelationName_at chars]; [constructor|].
  rewrite chars_append. apply Forall_app. split; [|apply IH].
  destruct (Ascii.eqb c (toUpperCase c) && negb atZero); cbn [chars];
    repeat constructor; apply toUpperCase_idempotent.
Qed.

Lemma transformRelationName_at_length name :
  String.length (transformRelationName_at false name)
  = String.length name
    + List.length (filter (fun c => Ascii.eqb c (toUpperCase c)) (chars name)).
Proof.
  induction name as [|c rest IH]; cbn [transformRelationName_at chars filter];
    [reflexivity|].
  rewrite length_append, IH. cbn [negb]. rewrite andb_true_r.
  destruct (Ascii.eqb c (toUpperCase c)); simpl; lia.
Qed.

(** X4.  The default relationship name of a type has no lower-case
    letter, and is longer than the type name by one underscore for every
    character after the first that is already its own upper case (an
    upper-case letter, a digit or an underscore); nothing is inserted
    before the first character. *)
Theorem transformRelationName_shape relatedAstNode :
  Forall (fun c => toUpperCase c = c)
    (chars (transformRelationName relatedAstNode))
  /\ String.length (transformRelationName relatedAstNode)
     = String.length (def_name relatedAstNode)
       + upperAfterFirst (def_name relatedAstNode)
  /\ match def_name relatedAstNode with
     | EmptyString => transformRelationName relatedAstNode = EmptyString
     | String c rest =>
         transformRelationName relatedAstNode
         = String (toUpperCase c) (transformRelationName_at false rest)
     end.
Proof.
  unfold transformRelationName, upperAfterFirst.
  split; [apply transformRelationName_at_chars|].
  destruct (def_name relatedAstNode) as [|c rest];
    cbn [transformRelationName_at]; [auto|].
  cbn [negb]. rewrite andb_false_r. split; [|reflexivity].
  cbn [append String.length]. rewrite transformRelationName_at_length. lia.
Qed.

(** A type called [ACTED_IN] gets an underscore before every character
    but the first; a camel-case name gets one per word. *)
Example transformRelationName_examples :
  transformRelationName actedIn = "A_C_T_E_D___I_N"
  /\ transformRelationName friendOf = "FRIEND_OF"
  /\ transformRelationName movieType = "MOVIE".
Proof. repeat split. Qed.

(** ** The temporal injector, disabled and re-run *)

Lemma field_eta f :
  mkField (field_name f) (field_arguments f) (field_type f)
    (field_directives f) = f.
Proof. now destruct f. Qed.

Lemma def_eta d :
  mkDef (def_kind d) (def_name d) (def_fields d) (def_directives d)
    (def_values d) = d.
Proof. now destruct d. Qed.

Lemma arg_eta a : mkArg (arg_name a) (arg_type a) = a.
Proof. now destruct a. Qed.

Lemma map_id_ext {A} (f : A -> A) l : (forall x, f x = x) -> map f l = l.
Proof. intros H. induction l; simpl; congruence. Qed.

Lemma temporalLeafName_off name isArgument :
  temporalLeafName name (mkTemporal false false false false false) isArgument
  = name.
Proof.
  unfold temporalLeafName. cbn [time date datetime localtime localdatetime].
  repeat match goal with
         | |- context [if ?b then _ else _] => destruct b
         end; reflexivity.
Qed.

Lemma transformTemporalTypeName_off type isArgument :
  transformTemporalTypeName type (mkTemporal false false false false false)
    isArgument = type.
Proof.
  revert isArgument.
  induction type; intros isArgument; cbn [transformTemporalTypeName];
    rewrite ?temporalLeafName_off, ?IHtype; reflexivity.
Qed.

(** X5.  When the configuration disables all five temporal kinds
    ([temporal: false], or an object with every flag false), the temporal
    injector returns the type map as it is: no type is added and no field
    or argument type is touched. *)
Theorem addTemporalTypes_disabled typeMap config :
  decideTemporalConfig config = mkTemporal false false false false false ->
  addTemporalTypes typeMap config = typeMap.
Proof.
  intros H. unfold addTemporalTypes. rewrite H.
  unfold temporalTypes. cbn [time date datetime localtime localdatetime].
  unfold transformTemporalFields. apply map_id_ext.
  intros [t [d|defs]]; [|reflexivity].
  destruct (_ && _); [|reflexivity].
  do 2 f_equal. rewrite (map_id_ext _ (def_fields d)); [apply def_eta|].
  intros f.
  unfold transformTemporalField, transformTemporalFieldArgs.
  cbn [field_name field_arguments field_type field_directives].
  rewrite transformTemporalTypeName_off.
  rewrite (map_id_ext _ (field_arguments f)); [apply field_eta|].
  intros a. rewrite transformTemporalTypeName_off. apply arg_eta.
Qed.

Lemma addTemporalTypes_disabled_witness :
  addTemporalTypes temporalSchema temporalOff = temporalSchema.
Proof.
  apply (addTemporalTypes_disabled temporalSchema temporalOff). reflexivity.
Defined.

Lemma temporalLeafName_idempotent name config isArgument isArgument' :
  temporalLeafName (temporalLeafName name config isArgument) config isArgument'
  = temporalLeafName name config isArgument.
Proof.
  unfold temporalLeafName at 2.
  destruct (String.eqb_spec name "Time") as [->|N1].
  { destruct (time config) eqn:E; destruct isArgument; try reflexivity;
      unfold temporalLeafName; cbn; now rewrite E. }
  destruct (String.eqb_spec name "Date") as [->|N2].
  { destruct (date config) eqn:E; destruct isArgument; try reflexivity;
      unfold temporalLeafName; cbn; now rewrite E. }
  destruct (String.eqb_spec name "DateTime") as [->|N3].
  { destruct (datetime config) eqn:E; destruct isArgument; try reflexivity;
      unfold temporalLeafName; cbn; now rewrite E. }
  destruct (String.eqb_spec name "LocalTime") as [->|N4].
  { destruct (localtime config) eqn:E; destruct isArgument; try reflexivity;
      unfold temporalLeafName; cbn; now rewrite E. }
  destruct (String.eqb_spec name "LocalDateTime") as [->|N5].
  { destruct (localdatetime config) eqn:E; destruct isArgument;
      try reflexivity; unfold temporalLeafName; cbn; now rewrite E. }
  unfold temporalLeafName.
  destruct (String.eqb_spec name "Time"); [contradiction|].
  destruct (String.eqb_spec name "Date"); [contradiction|].
  destruct (String.eqb_spec name "DateTime"); [contradiction|].
  destruct (String.eqb_spec name "LocalTime"); [contradiction|].
  destruct (String.eqb_spec name "LocalDateTime"); [contradiction|].
  reflexivity.
Qed.

Lemma transformTemporalTypeName_idempotent type config isArgument isArgument' :
  transformTemporalTypeName
    (transformTemporalTypeName type config isArgument) config isArgument'
  = transformTemporalTypeName type config isArgument.
Proof.
  revert isArgument isArgument'.
  induction type; intros isArgument isArgument';
    cbn [transformTemporalTypeName];
    rewrite ?temporalLeafName_idempotent, ?IHtype; reflexivity.
Qed.

Lemma transformTemporalTypeName_layers type config isArgument :
  _isListType (transformTemporalTypeName type config isArgument)
  = _isListType type
  /\ isNonNullType (transformTemporalTypeName type config isArgument)
     = isNonNullType type.
Proof.
  split; [|destruct type; reflexivity].
  revert isArgument. induction type; intros isArgument;
    cbn [transformTemporalTypeName _isListType]; auto.
Qed.

Lemma transformTemporalField_idempotent config f :
  transformTemporalField config (transformTemporalField config f)
  = transformTemporalField config f.
Proof.
  unfold transformTemporalField, transformTemporalFieldArgs.
  cbn [field_name field_arguments field_type field_directives].
  rewrite transformTemporalTypeName_idempotent. f_equal.
  rewrite map_map. apply map_ext. intros a. cbn [arg_name arg_type].
  now rewrite transformTemporalTypeName_idempotent.
Qed.

(** X6.  The temporal rewrite is idempotent and keeps the wrapper layers:
    rewriting a type that was already rewritten, in either position,
    changes nothing, a list stays a list and a required type stays
    required; so running [transformTemporalFields] on its own output
    returns that output. *)
Theorem transformTemporalFields_idempotent typeMap config :
  transformTemporalFields (transformTemporalFields typeMap config) config
  = transformTemporalFields typeMap config
  /\ (forall type isArgument isArgument',
        transformTemporalTypeName
          (transformTemporalTypeName type config isArgument) config isArgument'
        = transformTemporalTypeName type config isArgument
        /\ _isListType (transformTemporalTypeName type config isArgument)
           = _isListType type
        /\ isNonNullType (transformTemporalTypeName type config isArgument)
           = isNonNullType type).
Proof.
  split.
  - unfold transformTemporalFields. rewrite map_map. apply map_ext.
    intros [t [d|defs]]; [|reflexivity].
    destruct (Kind_eqb (def_kind d) ObjectTypeDefinition && _) eqn:E;
      cbn [def_kind]; rewrite E; [|reflexivity].
    cbn [def_name def_fields def_directives def_values].
    do 3 f_equal. rewrite map_map. apply map_ext.
    apply transformTemporalField_idempotent.
  - intros type isArgument isArgument'. split.
    + apply transformTemporalTypeName_idempotent.
    + apply transformTemporalTypeName_layers.
Qed.

(** ** Normalization of relationship types *)

Lemma replaceOrPushDirective_idempotent name d directives :
  dir_name d = name ->
  replaceOrPushDirective name d (replaceOrPushDirective name d directives)
  = replaceOrPushDirective name d directives.
Proof.
  intros Hd.
  induction directives as [|e rest IH]; cbn [replaceOrPushDirective].
  - now rewrite Hd, String.eqb_refl.
  - destruct (String.eqb (dir_name e) name) eqn:E;
      cbn [replaceOrPushDirective].
    + now rewrite Hd, String.eqb_refl.
    + now rewrite E, IH.
Qed.

Lemma replaceOrPushDirective_others name d directives :
  dir_name d = name ->
  directivesNotNamed name (replaceOrPushDirective name d directives)
  = directivesNotNamed name directives.
Proof.
  intros Hd. unfold directivesNotNamed.
  induction directives as [|e rest IH]; cbn [replaceOrPushDirective filter].
  - now rewrite Hd, String.eqb_refl.
  - destruct (String.eqb (dir_name e) name) eqn:E; cbn [filter].
    + now rewrite Hd, String.eqb_refl.
    + rewrite E. cbn [negb]. now rewrite IH.
Qed.

Lemma addRelationTypeDirective_idempotent astNode astNode' :
  addRelationTypeDirective astNode = Ok astNode' ->
  addRelationTypeDirective astNode' = Ok astNode'.
Proof.
  destruct astNode as [d|defs]; [|intros H; inversion H; reflexivity].
  unfold addRelationTypeDirective at 1.
  destruct (Kind_eqb (def_kind d) ObjectTypeDefinition) eqn:K;
    [|intros H; inversion H; subst; unfold addRelationTypeDirective;
      now rewrite K].
  destruct (find_field "to" (def_fields d)) as [to|] eqn:T;
    destruct (find_field "from" (def_fields d)) as [from|] eqn:F;
    intros H; inversion H; subst; clear H.
  - unfold addRelationTypeDirective.
    cbn [def_kind def_fields def_name def_directives def_values].
    rewrite K, T, F.
    rewrite find_directive_replaceOrPush by reflexivity.
    cbn [dir_arg relationDirective dir_arguments find fst String.eqb
         Ascii.eqb Bool.eqb].
    rewrite replaceOrPushDirective_idempotent by reflexivity.
    reflexivity.
  - unfold addRelationTypeDirective. now rewrite K, T, F.
Qed.

(** X7.  Relationship normalization is idempotent: when
    [addRelationTypeDirectives] returns a type map, running it on that map
    returns the same map. *)
Theorem addRelationTypeDirectives_idempotent typeMap typeMap' :
  addRelationTypeDirectives typeMap = Ok typeMap' ->
  addRelationTypeDirectives typeMap' = Ok typeMap'.
Proof.
  revert typeMap'.
  induction typeMap as [|[k v] rest IH]; cbn [addRelationTypeDirectives];
    intros typeMap' H.
  - inversion H. reflexivity.
  - destruct (addRelationTypeDirective v) as [v'|] eqn:E;
      cbn [bind] in H; [|discriminate].
    destruct (addRelationTypeDirectives rest) as [rest'|] eqn:R;
      cbn [bind] in H; [|discriminate].
    inversion H; subst. cbn [addRelationTypeDirectives].
    rewrite (addRelationTypeDirective_idempotent _ _ E), (IH _ eq_refl).
    reflexivity.
Qed.

Lemma addRelationTypeDirectives_idempotent_witness :
  addRelationTypeDirectives
    (okValue (addRelationTypeDirectives friendsInput) [])
  = Ok (okValue (addRelationTypeDirectives friendsInput) []).
Proof.
  apply (addRelationTypeDirectives_idempotent friendsInput).
  reflexivity.
Defined.

Lemma addRelationTypeDirective_undirected astNode :
  hasDirectedFields astNode = false ->
  forall astNode',
    addRelationTypeDirective astNode = Ok astNode' -> astNode' = astNode.
Proof.
  destruct astNode as [d|defs]; [|intros _ ? H; now inversion H].
  unfold hasDirectedFields, addRelationTypeDirective, has_field.
  destruct (Kind_eqb (def_kind d) ObjectTypeDefinition);
    [|intros _ ? H; now inversion H].
  destruct (find_field "to" (def_fields d)),
           (find_field "from" (def_fields d));
    cbn [andb]; intros Hd ? H; try discriminate; now inversion H.
Qed.

(** X8.  Relationship normalization keeps the keys of the type map and
    their order, and returns every entry that is not an object type with
    both a [to] and a [from] field as it was. *)
Theorem addRelationTypeDirectives_keeps_other_types typeMap typeMap' :
  addRelationTypeDirectives typeMap = Ok typeMap' ->
  tm_keys typeMap' = tm_keys typeMap
  /\ forall key astNode,
       tm_get typeMap key = Some astNode ->
       hasDirectedFields astNode = false ->
       tm_get typeMap' key = Some astNode.
Proof.
  revert typeMap'.
  induction typeMap as [|[k v] rest IH]; cbn [addRelationTypeDirectives];
    intros typeMap' H.
  - inversion H. split; [reflexivity|]. intros key astNode G. discriminate G.
  - destruct (addRelationTypeDirective v) as [v'|] eqn:E;
      cbn [bind] in H; [|discriminate].
    destruct (addRelationTypeDirectives rest) as [rest'|] eqn:R;
      cbn [bind] in H; [|discriminate].
    inversion H; subst. destruct (IH _ eq_refl) as [Hk Hg].
    split.
    + unfold tm_keys in *. cbn [map fst]. now rewrite Hk.
    + intros key astNode G Hu. cbn [tm_get] in *.
      destruct (String.eqb k key); [|now apply Hg].
      inversion G; subst.
      now rewrite (addRelationTypeDirective_undirected _ Hu _ E).
Qed.

Lemma addRelationTypeDirectives_keeps_other_types_witness :
  tm_keys (okValue (addRelationTypeDirectives friendsInput) [])
  = tm_keys friendsInput
  /\ forall key astNode,
       tm_get friendsInput key = Some astNode ->
       hasDirectedFields astNode = false ->
       tm_get (okValue (addRelationTypeDirectives friendsInput) []) key
       = Some astNode.
Proof.
  apply (addRelationTypeDirectives_keeps_other_types friendsInput).
  reflexivity.
Defined.

(** X9.  A relationship type (an object type with a [from] and a [to]
    field) comes out of normalization with a relation marker whose [from]
    and [to] are the value types of those fields, whatever its own
    directive said, and whose name is the directive's [name] argument when
    there is one and the default name of the type otherwise; its name,
    fields and other directives are unchanged. *)
Theorem addRelationTypeDirective_forces_endpoints d from to :
  def_kind d = ObjectTypeDefinition ->
  find_field "from" (def_fields d) = Some from ->
  find_field "to" (def_fields d) = Some to ->
  exists d',
    addRelationTypeDirective (Def d) = Ok (Def d')
    /\ getTypeDirective d' "relation"
       = Some (relationDirective (normalizedRelationName d)
                 (_getNamedType (field_type from))
                 (_getNamedType (field_type to)))
    /\ def_name d' = def_name d
    /\ def_fields d' = def_fields d
    /\ directivesNotNamed "relation" (def_directives d')
       = directivesNotNamed "relation" (def_directives d).
Proof.
  intros Hk Hf Ht. unfold addRelationTypeDirective.
  rewrite Hk, Hf, Ht. cbn [Kind_eqb].
  eexists. split; [reflexivity|].
  cbn [def_name def_fields def_directives]. repeat split.
  - unfold getTypeDirective. cbn [def_directives].
    apply find_directive_replaceOrPush. reflexivity.
  - apply replaceOrPushDirective_others. reflexivity.
Qed.

Lemma addRelationTypeDirective_forces_endpoints_witness :
  exists d',
    addRelationTypeDirective (Def misdirectedRated) = Ok (Def d')
    /\ getTypeDirective d' "relation"
       = Some (relationDirective "RATED" "User" "Movie")
    /\ def_name d' = "Rated"
    /\ def_fields d' = def_fields misdirectedRated
    /\ directivesNotNamed "relation" (def_directives d')
       = directivesNotNamed "relation" (def_directives misdirectedRated).
Proof.
  apply (addRelationTypeDirective_forces_endpoints misdirectedRated
           (mkField "from" [] (NamedType "User") [])
           (mkField "to" [] (NamedType "Movie") []));
    reflexivity.
Defined.

(** ** Seeding the root types *)

Lemma tm_get_app typeMap more key v :
  tm_get typeMap key = Some v -> tm_get (typeMap ++ more) key = Some v.
Proof.
  induction typeMap as [|[k v0] rest IH]; cbn [tm_get app]; [discriminate|].
  destruct (String.eqb k key); auto.
Qed.

Lemma possiblyAddObjectType_appends typeMap name :
  exists more,
    possiblyAddObjectType typeMap name = typeMap ++ more
    /\ Forall (fun e => fst e = name /\ snd e = emptyObjectType name) more.
Proof.
  unfold possiblyAddObjectType. destruct (tm_get typeMap name) eqn:E.
  - exists []. split; [now rewrite app_nil_r|constructor].
  - eexists. split; [apply tm_set_fresh; exact E|].
    repeat constructor.
Qed.

(** X10.  [initializeOperationTypes] keeps every entry of the input in
    place, an existing [Query] or [Mutation] type included, and appends
    at most an empty [Query] and an empty [Mutation] object type after
    them. *)
Theorem initializeOperationTypes_appends_roots typeMap config :
  exists more,
    initializeOperationTypes typeMap config = typeMap ++ more
    /\ Forall
         (fun e =>
            (fst e = "Query" \/ fst e = "Mutation")
            /\ snd e = emptyObjectType (fst e))
         more
    /\ forall key astNode,
         tm_get typeMap key = Some astNode ->
         tm_get (initializeOperationTypes typeMap config) key = Some astNode.
Proof.
  assert (exists more,
            initializeOperationTypes typeMap config = typeMap ++ more
            /\ Forall
                 (fun e =>
                    (fst e = "Query" \/ fst e = "Mutation")
                    /\ snd e = emptyObjectType (fst e))
                 more) as (more & Heq & Hall).
  { unfold initializeOperationTypes.
    destruct (hasNonExcludedNodeType _ typeMap RQuery config).
    - destruct (possiblyAddObjectType_appends typeMap "Query")
        as (m1 & -> & H1).
      destruct (hasNonExcludedNodeType _ _ RMutation config).
      + destruct (possiblyAddObjectType_appends (typeMap ++ m1) "Mutation")
          as (m2 & -> & H2).
        exists (m1 ++ m2). split; [now rewrite app_assoc|].
        apply Forall_app. split.
        * eapply Forall_impl; [|exact H1]. intros e [-> ->]. auto.
        * eapply Forall_impl; [|exact H2]. intros e [-> ->]. auto.
      + exists m1. split; [reflexivity|].
        eapply Forall_impl; [|exact H1]. intros e [-> ->]. auto.
    - destruct (hasNonExcludedNodeType _ _ RMutation config).
      + destruct (possiblyAddObjectType_appends typeMap "Mutation")
          as (m2 & -> & H2).
        exists m2. split; [reflexivity|].
        eapply Forall_impl; [|exact H2]. intros e [-> ->]. auto.
      + exists []. split; [now rewrite app_nil_r|constructor]. }
  exists more. split; [exact Heq|]. split; [exact Hall|].
  intros key astNode G. rewrite Heq. now apply tm_get_app.
Qed.

Lemma initializeOperationTypes_appends_roots_witness :
  exists more,
    initializeOperationTypes [("Person", personType)] allEnabled
    = [("Person", personType)] ++ more
    /\ tm_get (initializeOperationTypes [("Person", personType)] allEnabled)
         "Person"
       = Some personType.
Proof.
  destruct (initializeOperationTypes_appends_roots [("Person", personType)]
              allEnabled) as (more & Heq & _ & Hget).
  exists more. split; [exact Heq|]. apply Hget. reflexivity.
Defined.

Lemma possiblyAddObjectType_defines typeMap name :
  tm_get (possiblyAddObjectType typeMap name) name <> None.
Proof.
  unfold possiblyAddObjectType. destruct (tm_get typeMap name) eqn:E.
  - congruence.
  - rewrite tm_get_set_same. discriminate.
Qed.

Lemma possiblyAddObjectType_keeps typeMap name key v :
  tm_get typeMap key = Some v ->
  tm_get (possiblyAddObjectType typeMap name) key = Some v.
Proof.
  intros G. destruct (possiblyAddObjectType_appends typeMap name)
    as (more & -> & _).
  now apply tm_get_app.
Qed.

Lemma hasNonExcludedNodeType_found typeMap1 typeMap rootType config key type :
  (forall k v, tm_get typeMap k = Some v -> tm_get typeMap1 k = Some v) ->
  ~ In EmptyString (tm_keys typeMap) ->
  tm_get typeMap key = Some (Def type) ->
  isNodeType_def type = true ->
  shouldAugmentType config rootType (def_name type) = true ->
  hasNonExcludedNodeType (tm_keys typeMap) typeMap1 rootType config = true.
Proof.
  intros Hsub Hne G Hnode Hperm. unfold hasNonExcludedNodeType.
  destruct (find (nonExcludedNodeType typeMap1 rootType config)
              (tm_keys typeMap)) as [e|] eqn:F.
  - apply find_some in F. destruct F as [Hin _].
    destruct (String.eqb_spec e ""); [subst; contradiction|reflexivity].
  - assert (In key (tm_keys typeMap)) as Hin.
    { apply tm_get_In in G. unfold tm_keys.
      change key with (fst (key, Def type)). now apply in_map. }
    pose proof (find_none _ _ F _ Hin) as Hno.
    unfold nonExcludedNodeType in Hno.
    rewrite (Hsub _ _ G), Hnode, Hperm in Hno. discriminate.
Qed.

(** X11.  When no key of the type map is the empty string and the map
    holds a node type that the policy permits for an operation,
    [initializeOperationTypes] returns a map in which the root container
    of that operation is defined. *)
Theorem initializeOperationTypes_defines_root typeMap config rootType key type :
  ~ In EmptyString (tm_keys typeMap) ->
  tm_get typeMap key = Some (Def type) ->
  isNodeType_def type = true ->
  shouldAugmentType config rootType (def_name type) = true ->
  tm_get (initializeOperationTypes typeMap config) (rootTypeName rootType)
  <> None.
Proof.
  intros Hne G Hnode Hperm. unfold initializeOperationTypes.
  destruct rootType; cbn [rootTypeName].
  - rewrite (hasNonExcludedNodeType_found typeMap typeMap RQuery config key
               type); auto.
    destruct (hasNonExcludedNodeType _ _ RMutation config).
    + destruct (tm_get (possiblyAddObjectType typeMap "Query") "Query")
        as [v|] eqn:E.
      * rewrite (possiblyAddObjectType_keeps _ _ _ _ E). discriminate.
      * exfalso. exact (possiblyAddObjectType_defines _ _ E).
    + apply possiblyAddObjectType_defines.
  - match goal with
    | |- context [hasNonExcludedNodeType _ ?tm1 RMutation config] =>
        rewrite (hasNonExcludedNodeType_found tm1 typeMap RMutation config
                   key type); auto
    end.
    + apply possiblyAddObjectType_defines.
    + intros k v Gk.
      destruct (hasNonExcludedNodeType _ typeMap RQuery config); auto.
      now apply possiblyAddObjectType_keeps.
Qed.

Lemma initializeOperationTypes_defines_root_witness :
  tm_get (initializeOperationTypes [("Person", personType)] allEnabled)
    (rootTypeName RMutation) <> None.
Proof.
  apply (initializeOperationTypes_defines_root [("Person", personType)]
           allEnabled RMutation "Person"
           (mkDef ObjectTypeDefinition "Person"
              [requiredId; mkField "name" [] (NamedType "String") []] [] [])).
  - intros [H|[]]. discriminate H.
  - reflexivity.
  - reflexivity.
  - reflexivity.
Defined.

(** ** The pipeline never drops a type *)

Lemma extendsKeys_refl typeMap : extendsKeys typeMap typeMap.
Proof. exists []. now rewrite app_nil_r. Qed.

Lemma extendsKeys_trans a b c :
  extendsKeys a b -> extendsKeys b c -> extendsKeys a c.
Proof.
  intros [m1 H1] [m2 H2]. exists (m1 ++ m2).
  now rewrite H2, H1, app_assoc.
Qed.

Lemma tm_set_keys typeMap key v :
  tm_keys (tm_set typeMap key v)
  = tm_keys typeMap
    ++ match tm_get typeMap key with Some _ => [] | None => [key] end.
Proof.
  unfold tm_keys.
  induction typeMap as [|[k v0] rest IH]; cbn [tm_set tm_get map fst app].
  - reflexivity.
  - destruct (String.eqb k key); cbn [map fst].
    + now rewrite app_nil_r.
    + now rewrite IH.
Qed.

Lemma tm_set_extends typeMap key v : extendsKeys typeMap (tm_set typeMap key v).
Proof. eexists. apply tm_set_keys. Qed.

Lemma push_root_field_extends typeMap root f typeMap' :
  push_root_field typeMap root f = Ok typeMap' -> extendsKeys typeMap typeMap'.
Proof.
  unfold push_root_field.
  destruct (tm_get typeMap root) as [[d|defs]|]; try discriminate.
  destruct (has_fields_member (def_kind d)); [|discriminate].
  intros H. inversion H. apply tm_set_extends.
Qed.

Ltac keeps_keys :=
  repeat first
    [ apply extendsKeys_refl
    | apply tm_set_extends
    | match goal with
      | H : Ok _ = Ok _ |- _ => inversion H; subst; clear H
      | H : Throw _ = Ok _ |- _ => discriminate H
      | H : push_root_field _ _ _ = Ok _ |- _ =>
          apply push_root_field_extends in H; exact H
      | H : bind ?r _ = Ok _ |- _ =>
          let E := fresh "E" in
          destruct r eqn:E; cbn [bind] in H
      | H : context [match ?x with _ => _ end] |- _ =>
          let E := fresh "E" in destruct x eqn:E
      end ].

Lemma possiblyAddQuery_extends astNode typeMap config typeMap' :
  possiblyAddQuery astNode typeMap config = Ok typeMap' ->
  extendsKeys typeMap typeMap'.
Proof. unfold possiblyAddQuery, name_value. intros H. keeps_keys. Qed.

Lemma possiblyAddOrderingEnum_extends astNode typeMap config typeMap' :
  possiblyAddOrderingEnum astNode typeMap config = Ok typeMap' ->
  extendsKeys typeMap typeMap'.
Proof. unfold possiblyAddOrderingEnum, name_value. intros H. keeps_keys. Qed.

Lemma possiblyAddFilterInput_extends astNode typeMap config typeMap' :
  possiblyAddFilterInput astNode typeMap config = Ok typeMap' ->
  extendsKeys typeMap typeMap'.
Proof. unfold possiblyAddFilterInput, name_value. intros H. keeps_keys. Qed.

Lemma possiblyAddTypeInput_extends astNode typeMap config typeMap' :
  possiblyAddTypeInput astNode typeMap config = Ok typeMap' ->
  extendsKeys typeMap typeMap'.
Proof. unfold possiblyAddTypeInput, name_value. intros H. keeps_keys. Qed.

Lemma possiblyAddTypeMutation_extends m d typeMap mutationMap config typeMap' :
  possiblyAddTypeMutation m d typeMap mutationMap config = Ok typeMap' ->
  extendsKeys typeMap typeMap'.
Proof. unfold possiblyAddTypeMutation. intros H. keeps_keys. Qed.

Lemma possiblyAddTypeMutations_extends astNode typeMap config typeMap' :
  possiblyAddTypeMutations astNode typeMap config = Ok typeMap' ->
  extendsKeys typeMap typeMap'.
Proof.
  unfold possiblyAddTypeMutations.
  destruct astNode as [d|defs]; simpl; [|intros H; discriminate H].
  destruct (shouldAugmentType config RMutation (def_name d));
    [|intros H; inversion H; apply extendsKeys_refl].
  destruct (isNodeType_def d); simpl;
    [|intros H; inversion H; apply extendsKeys_refl].
  destruct (possiblyAddTypeMutation Create _ _ _ _) as [tm1|] eqn:C;
    simpl; [|intros H; discriminate H].
  destruct (possiblyAddTypeMutation Update _ _ _ _) as [tm2|] eqn:U;
    simpl; [|intros H; discriminate H].
  intros D.
  eapply extendsKeys_trans; [eapply possiblyAddTypeMutation_extends; eauto|].
  eapply extendsKeys_trans; eapply possiblyAddTypeMutation_extends; eauto.
Qed.

Lemma addRelationMutation_extends action typeName capitalizedFieldName fromName
  toName mutationMap typeMap relationName relatedAstNode relationHasProps
  config typeMap' :
  addRelationMutation action typeName capitalizedFieldName fromName toName
    mutationMap typeMap relationName relatedAstNode relationHasProps config
  = Ok typeMap' ->
  extendsKeys typeMap typeMap'.
Proof.
  unfold addRelationMutation.
  destruct (op_undefined _ _); [|intros H; inversion H; apply extendsKeys_refl].
  destruct (push_root_field typeMap "Mutation" _) as [tm1|] eqn:P;
    simpl; [|intros H; discriminate H].
  apply push_root_field_extends in P.
  destruct (tm_get tm1 _); intros H; inversion H; subst; auto.
  eapply extendsKeys_trans; [exact P|apply tm_set_extends].
Qed.

Lemma possiblyAddRelationMutationField_extends typeName capitalizedFieldName
  fromName toName mutationMap typeMap relationName relatedAstNode
  relationHasProps config typeMap' :
  possiblyAddRelationMutationField typeName capitalizedFieldName fromName
    toName mutationMap typeMap relationName relatedAstNode relationHasProps
    config = Ok typeMap' ->
  extendsKeys typeMap typeMap'.
Proof.
  unfold possiblyAddRelationMutationField.
  destruct (addRelationMutation Add _ _ _ _ _ _ _ _ _ _) as [tm1|] eqn:A;
    simpl; [|intros H; discriminate H].
  intros R.
  eapply extendsKeys_trans; eapply addRelationMutation_extends; eauto.
Qed.

Lemma possiblyAddRelationTypeFieldPayload_extends relationAstNode
  capitalizedFieldName typeName typeMap field typeMap' field' :
  possiblyAddRelationTypeFieldPayload relationAstNode capitalizedFieldName
    typeName typeMap field = Ok (typeMap', field') ->
  extendsKeys typeMap typeMap'.
Proof.
  unfold possiblyAddRelationTypeFieldPayload.
  destruct (tm_get typeMap _); [intros H; inversion H; apply extendsKeys_refl|].
  destruct (getRelationTypeDirectiveArgs relationAstNode) as [[args|]|];
    simpl; try (intros H; discriminate H);
    [|intros H; inversion H; apply extendsKeys_refl].
  match goal with |- context [if ?c then _ else _] => destruct c end;
    (destruct (parseObjectType _ _ _); simpl; [|intros H; discriminate H]);
    intros H; inversion H; subst.
  - eapply extendsKeys_trans; apply tm_set_extends.
  - apply tm_set_extends.
Qed.

Lemma handleRelationTypeDirective_extends relatedAstNode typeName field
  capitalizedFieldName relationTypeDirective config typeMap mutationMap
  typeMap' field' :
  handleRelationTypeDirective relatedAstNode typeName field
    capitalizedFieldName relationTypeDirective config typeMap mutationMap
  = Ok (typeMap', field') ->
  extendsKeys typeMap typeMap'.
Proof.
  unfold handleRelationTypeDirective.
  destruct (argumentValue "name" _) as [relationName|];
    simpl; [|intros H; discriminate H].
  destruct (argumentValue "from" _) as [fromName|];
    simpl; [|intros H; discriminate H].
  destruct (argumentValue "to" _) as [toName|];
    simpl; [|intros H; discriminate H].
  intros H.
  match type of H with
  | bind ?r _ = _ => destruct r as [tm1|] eqn:E; simpl in H; [|discriminate]
  end.
  destruct (possiblyAddRelationTypeFieldPayload _ _ _ _ _)
    as [[tm2 f2]|] eqn:Q; simpl in H; [|discriminate].
  inversion H; subst.
  eapply extendsKeys_trans;
    [|eapply possiblyAddRelationTypeFieldPayload_extends; eauto].
  destruct (shouldAugmentRelationField _ _ _ _);
    [|inversion E; apply extendsKeys_refl].
  destruct (validateRelationTypeDirectedFields _ _ _) as [[|]|];
    simpl in E; try discriminate; [|inversion E; apply extendsKeys_refl].
  eapply possiblyAddRelationMutationField_extends; eauto.
Qed.

Lemma handleRelationFieldDirective_extends relatedAstNode typeName
  capitalizedFieldName fieldValueName relationFieldDirective mutationMap
  typeMap config typeMap' :
  handleRelationFieldDirective relatedAstNode typeName capitalizedFieldName
    fieldValueName relationFieldDirective mutationMap typeMap config
  = Ok typeMap' ->
  extendsKeys typeMap typeMap'.
Proof.
  unfold handleRelationFieldDirective.
  destruct (shouldAugmentRelationField _ _ _ _);
    [|intros H; inversion H; apply extendsKeys_refl].
  destruct (getRelationName _); simpl; [|intros H; discriminate H].
  destruct (getRelationDirection _) as [direction|];
    simpl; [|intros H; discriminate H].
  destruct ((direction =? "IN")%string || (direction =? "in")%string);
    apply possiblyAddRelationMutationField_extends.
Qed.

Lemma handleRelationField_extends typeName mutationMap config typeMap field
  typeMap' field' :
  handleRelationField typeName mutationMap config typeMap field
  = Ok (typeMap', field') ->
  extendsKeys typeMap typeMap'.
Proof.
  unfold handleRelationField.
  destruct (fieldIsNotIgnored field);
    [|intros H; inversion H; apply extendsKeys_refl].
  destruct (tm_get typeMap (_getNamedType (field_type field)))
    as [[related|defs]|];
    try (intros H; inversion H; apply extendsKeys_refl).
  destruct (isNodeType_def related).
  - destruct (getFieldDirective field "relation");
      [|intros H; inversion H; apply extendsKeys_refl].
    destruct (handleRelationFieldDirective _ _ _ _ _ _ _ _) as [tm1|] eqn:E;
      simpl; [|intros H; discriminate H].
    intros H. inversion H; subst.
    eapply handleRelationFieldDirective_extends; eauto.
  - destruct (getTypeDirective related "relation");
      [|intros H; inversion H; apply extendsKeys_refl].
    apply handleRelationTypeDirective_extends.
Qed.

Lemma handleRelationFieldsLoop_extends typeName mutationMap config fields :
  forall typeMap typeMap' fields',
    handleRelationFieldsLoop typeName mutationMap config typeMap fields
    = Ok (typeMap', fields') ->
    extendsKeys typeMap typeMap'.
Proof.
  induction fields as [|field rest IH]; simpl; intros typeMap typeMap' fields' H.
  - inversion H. apply extendsKeys_refl.
  - destruct (handleRelationField _ _ _ _ _) as [[tm1 f1]|] eqn:E;
      simpl in H; [|discriminate].
    destruct (handleRelationFieldsLoop _ _ _ tm1 rest) as [[tm2 r2]|] eqn:L;
      simpl in H; [|discriminate].
    inversion H; subst.
    eapply extendsKeys_trans;
      [eapply handleRelationField_extends; eauto|eapply IH; eauto].
Qed.

Lemma handleRelationFields_extends astNode typeMap config typeMap' astNode' :
  handleRelationFields astNode typeMap config = Ok (typeMap', astNode') ->
  extendsKeys typeMap typeMap'.
Proof.
  unfold handleRelationFields.
  destruct astNode as [d|defs]; simpl; [|intros H; discriminate H].
  destruct (isNodeType_def d); [|intros H; inversion H; apply extendsKeys_refl].
  destruct (handleRelationFieldsLoop _ _ _ _ _) as [[tm1 fs]|] eqn:L;
    simpl; [|intros H; discriminate H].
  intros H. inversion H; subst.
  eapply handleRelationFieldsLoop_extends; eauto.
Qed.

Lemma augmentEntry_extends config typeMap name typeMap' :
  augmentEntry config typeMap name = Ok typeMap' -> extendsKeys typeMap typeMap'.
Proof.
  unfold augmentEntry.
  destruct (isTemporalType name); [intros H; inversion H; apply extendsKeys_refl|].
  destruct (tm_get typeMap name) as [type|] eqn:G;
    [|intros H; inversion H; apply extendsKeys_refl].
  intros H.
  destruct (possiblyAddQuery _ _ _) as [tm1|] eqn:S1;
    simpl in H; [|discriminate].
  destruct (possiblyAddOrderingEnum _ _ _) as [tm2|] eqn:S2;
    simpl in H; [|discriminate].
  destruct (possiblyAddTypeInput _ _ _) as [tm3|] eqn:S3;
    simpl in H; [|discriminate].
  destruct (possiblyAddFilterInput _ _ _) as [tm4|] eqn:S4;
    simpl in H; [|discriminate].
  destruct (possiblyAddTypeMutations _ _ _) as [tm5|] eqn:S5;
    simpl in H; [|discriminate].
  destruct (handleRelationFields _ _ _) as [[tm6 type6]|] eqn:S6;
    simpl in H; [|discriminate].
  inversion H; subst.
  eapply extendsKeys_trans; [apply tm_set_extends|].
  eapply extendsKeys_trans; [eapply possiblyAddQuery_extends; eauto|].
  eapply extendsKeys_trans; [eapply possiblyAddOrderingEnum_extends; eauto|].
  eapply extendsKeys_trans; [eapply possiblyAddTypeInput_extends; eauto|].
  eapply extendsKeys_trans; [eapply possiblyAddFilterInput_extends; eauto|].
  eapply extendsKeys_trans; [eapply possiblyAddTypeMutations_extends; eauto|].
  eapply extendsKeys_trans; [eapply handleRelationFields_extends; eauto|].
  apply tm_set_extends.
Qed.

Lemma augmentEntries_extends config names :
  forall typeMap typeMap',
    augmentEntries config typeMap names = Ok typeMap' ->
    extendsKeys typeMap typeMap'.
Proof.
  induction names as [|name rest IH]; simpl; intros typeMap typeMap' H.
  - inversion H. apply extendsKeys_refl.
  - destruct (augmentEntry config typeMap name) as [tm1|] eqn:E;
      simpl in H; [|discriminate].
    eapply extendsKeys_trans; [eapply augmentEntry_extends; eauto|eauto].
Qed.

Lemma transformTemporalFields_keys typeMap config :
  tm_keys (transformTemporalFields typeMap config) = tm_keys typeMap.
Proof.
  unfold tm_keys, transformTemporalFields. rewrite map_map.
  apply map_ext. intros [t [d|defs]]; [destruct (_ && _)|]; reflexivity.
Qed.

Lemma addTemporalTypes_extends typeMap config :
  extendsKeys typeMap (addTemporalTypes typeMap config).
Proof.
  unfold addTemporalTypes, extendsKeys.
  rewrite transformTemporalFields_keys.
  unfold temporalTypes, temporalPair.
  destruct (decideTemporalConfig config) as [t d dt lt ldt].
  cbn [time date datetime localtime localdatetime].
  assert (forall a b, extendsKeys a b ->
            exists added, tm_keys b = tm_keys a ++ added) as U by auto.
  apply U.
  destruct t, d, dt, lt, ldt;
    repeat (eapply extendsKeys_trans; [|apply tm_set_extends]);
    apply extendsKeys_refl.
Qed.

Lemma addRelationTypeDirectives_keys typeMap typeMap' :
  addRelationTypeDirectives typeMap = Ok typeMap' ->
  tm_keys typeMap' = tm_keys typeMap.
Proof.
  revert typeMap'.
  induction typeMap as [|[k v] rest IH]; cbn [addRelationTypeDirectives];
    intros typeMap' H.
  - inversion H. reflexivity.
  - destruct (addRelationTypeDirective v) as [v'|];
      cbn [bind] in H; [|discriminate].
    destruct (addRelationTypeDirectives rest) as [rest'|];
      cbn [bind] in H; [|discriminate].
    inversion H; subst. unfold tm_keys in *. cbn [map fst].
    now rewrite (IH _ eq_refl).
Qed.



(** ** Existence checks of the derivative generators *)

Lemma possiblyAddQuery_again astNode typeMap config typeMap' :
  possiblyAddQuery astNode typeMap config = Ok typeMap' ->
  possiblyAddQuery astNode typeMap' config = Ok typeMap'.
Proof.
  intros H. unfold possiblyAddQuery in H |- *.
  destruct astNode as [d|defs]; cbn [name_value bind] in H |- *;
    [|discriminate].
  destruct (isNodeType_def d && _); [|reflexivity].
  unfold op_undefined in H |- *.
  rewrite has_field_createOperationMap in H |- *.
  destruct (has_field (def_name d) (rootFields typeMap "Query")) eqn:E;
    cbn [negb andb] in H.
  - inversion H; subst. now rewrite E.
  - destruct (inherited (def_name d)); cbn [negb] in H.
    + inversion H; subst. now rewrite E.
    + rewrite (push_root_field_fields _ _ _ _ H), has_field_app.
      unfold has_field at 2, find_field. cbn [find field_name].
      rewrite String.eqb_refl, orb_true_r. reflexivity.
Qed.

Lemma possiblyAddOrderingEnum_again astNode typeMap config typeMap' :
  possiblyAddOrderingEnum astNode typeMap config = Ok typeMap' ->
  possiblyAddOrderingEnum astNode typeMap' config = Ok typeMap'.
Proof.
  intros H. unfold possiblyAddOrderingEnum in H |- *.
  destruct astNode as [d|defs]; cbn [name_value bind] in H |- *;
    [|discriminate].
  destruct (isNodeType_def d && _); [|reflexivity].
  destruct (tm_get typeMap _) eqn:G; [inversion H; subst; now rewrite G|].
  destruct (createOrderingFields d typeMap) eqn:V;
    inversion H; subst; [now rewrite G, V|].
  now rewrite tm_get_set_same.
Qed.

Lemma possiblyAddFilterInput_again astNode typeMap config typeMap' :
  possiblyAddFilterInput astNode typeMap config = Ok typeMap' ->
  possiblyAddFilterInput astNode typeMap' config = Ok typeMap'.
Proof.
  intros H. unfold possiblyAddFilterInput in H |- *.
  destruct astNode as [d|defs]; cbn [name_value bind] in H |- *;
    [|discriminate].
  destruct (isNodeType_def d && _); [|reflexivity].
  destruct (tm_get typeMap _) eqn:G; [inversion H; subst; now rewrite G|].
  destruct (buildFilterFields _ d typeMap config) eqn:V;
    inversion H; subst; [now rewrite G, V|].
  now rewrite tm_get_set_same.
Qed.

Lemma possiblyAddTypeInput_again astNode typeMap config typeMap' :
  possiblyAddTypeInput astNode typeMap config = Ok typeMap' ->
  possiblyAddTypeInput astNode typeMap' config = Ok typeMap'.
Proof.
  intros H. unfold possiblyAddTypeInput in H |- *.
  destruct astNode as [d|defs]; cbn [name_value bind] in H |- *;
    [|discriminate].
  destruct (shouldAugmentType config RMutation (def_name d)); [|reflexivity].
  destruct (isNodeType_def d).
  - destruct (tm_get typeMap _) eqn:G; [inversion H; subst; now rewrite G|].
    destruct (getPrimaryKey d); inversion H; subst; [|now rewrite G].
    now rewrite tm_get_set_same.
  - destruct (getTypeDirective d "relation"); [|reflexivity].
    destruct (tm_get typeMap _) eqn:G; [inversion H; subst; now rewrite G|].
    destruct (namedTypeOfField "from" _) eqn:F; cbn [bind] in H |- *;
      [|discriminate].
    destruct (namedTypeOfField "to" _) eqn:T; cbn [bind] in H |- *;
      [|discriminate].
    destruct (hasSomePropertyField _ && _) eqn:C;
      [|inversion H; subst; now rewrite G].
    destruct (buildRelationTypeInputFields _ typeMap) eqn:B; [discriminate|].
    inversion H; subst. now rewrite tm_get_set_same.
Qed.

(** X13.  The existence checks of the derivative generators make each of
    them idempotent: when the query-field, ordering-enum, type-input or
    filter-input generator returns a type map, running it again for the
    same type on that map returns the map unchanged. *)
Theorem derivative_generators_idempotent astNode typeMap config typeMap' :
  (possiblyAddQuery astNode typeMap config = Ok typeMap' ->
   possiblyAddQuery astNode typeMap' config = Ok typeMap')
  /\ (possiblyAddOrderingEnum astNode typeMap config = Ok typeMap' ->
      possiblyAddOrderingEnum astNode typeMap' config = Ok typeMap')
  /\ (possiblyAddTypeInput astNode typeMap config = Ok typeMap' ->
      possiblyAddTypeInput astNode typeMap' config = Ok typeMap')
  /\ (possiblyAddFilterInput astNode typeMap config = Ok typeMap' ->
      possiblyAddFilterInput astNode typeMap' config = Ok typeMap').
Proof.
  repeat split.
  - apply possiblyAddQuery_again.
  - apply possiblyAddOrderingEnum_again.
  - apply possiblyAddTypeInput_again.
  - apply possiblyAddFilterInput_again.
Qed.

Lemma derivative_generators_idempotent_witness :
  possiblyAddQuery userType
    (okValue (possiblyAddQuery userType userWithRoots allEnabled) [])
    allEnabled
  = Ok (okValue (possiblyAddQuery userType userWithRoots allEnabled) [])
  /\ possiblyAddFilterInput userType
       (okValue (possiblyAddFilterInput userType userWithRoots allEnabled) [])
       allEnabled
     = Ok (okValue (possiblyAddFilterInput userType userWithRoots allEnabled)
             []).
Proof.
  split.
  - apply (proj1 (derivative_generators_idempotent userType userWithRoots
                    allEnabled
                    (okValue (possiblyAddQuery userType userWithRoots
                                allEnabled) []))).
    vm_compute. reflexivity.
  - apply (proj2 (proj2 (proj2
             (derivative_generators_idempotent userType userWithRoots
                allEnabled
                (okValue (possiblyAddFilterInput userType userWithRoots
                            allEnabled) []))))).
    vm_compute. reflexivity.
Defined.

(** X14.  For a node type that the policy permits for queries,
    [possiblyAddFilterInput] never throws and leaves [_<Type>Filter]
    defined; when it generates the type, the type is an input whose
    first two fields are the [AND] and [OR] lists of itself, even if no
    field of the node type is filterable. *)
Theorem possiblyAddFilterInput_defines d typeMap config :
  isNodeType_def d = true ->
  shouldAugmentType config RQuery (def_name d) = true ->
  exists typeMap',
    possiblyAddFilterInput (Def d) typeMap config = Ok typeMap'
    /\ defines typeMap' ("_" ++ def_name d ++ "Filter")
    /\ (tm_get typeMap ("_" ++ def_name d ++ "Filter") = None ->
        exists groups,
          tm_get typeMap' ("_" ++ def_name d ++ "Filter")
          = Some (Document
                    [mkDef InputObjectTypeDefinition
                       ("_" ++ def_name d ++ "Filter")
                       (inputField "AND"
                          (ListType
                             (NamedType ("_" ++ def_name d ++ "Filter")))
                        :: inputField "OR"
                             (ListType
                                (NamedType ("_" ++ def_name d ++ "Filter")))
                        :: groups)
                       [] []])).
Proof.
  intros Hnode Hperm. unfold possiblyAddFilterInput, defines.
  cbn [name_value bind]. rewrite Hnode, Hperm. cbn [andb].
  unfold buildFilterFields. cbn [app].
  destruct (tm_get typeMap ("_" ++ def_name d ++ "Filter")) eqn:G.
  - eexists. split; [reflexivity|]. split; [congruence|discriminate].
  - eexists. split; [reflexivity|]. rewrite tm_get_set_same.
    split; [discriminate|]. intros _. eexists. reflexivity.
Qed.

Lemma possiblyAddFilterInput_defines_witness :
  exists typeMap',
    possiblyAddFilterInput userType userWithRoots allEnabled = Ok typeMap'
    /\ defines typeMap' "_UserFilter"
    /\ (tm_get userWithRoots "_UserFilter" = None ->
        exists groups,
          tm_get typeMap' "_UserFilter"
          = Some (Document
                    [mkDef InputObjectTypeDefinition "_UserFilter"
                       (inputField "AND" (ListType (NamedType "_UserFilter"))
                        :: inputField "OR"
                             (ListType (NamedType "_UserFilter"))
                        :: groups)
                       [] []])).
Proof.
  apply (possiblyAddFilterInput_defines
           (mkDef ObjectTypeDefinition "User" [requiredId] [] [])
           userWithRoots allEnabled); reflexivity.
Defined.

(** ** Update needs a field besides the primary key *)

Lemma fold_left_skip {A B} (f : A -> B -> A) (p : B -> bool) l :
  (forall acc t, p t = false -> f acc t = acc) ->
  (forall t, In t l -> p t = false) ->
  forall acc, fold_left f l acc = acc.
Proof.
  intros Hf. induction l as [|t rest IH]; intros Hall acc; cbn [fold_left];
    [reflexivity|].
  rewrite (Hf acc t) by (apply Hall; now left).
  apply IH. intros x Hx. apply Hall. now right.
Qed.

(** X15.  For a type with a primary key and no other field that is
    eligible as a mutation argument, the Update arguments are empty and
    [possiblyAddTypeMutation] adds no [Update<Type>] field: the type map
    is returned as it is. *)
Theorem possiblyAddTypeMutation_update_needs_other_field astNode typeMap
  mutationMap config primaryKey :
  getPrimaryKey astNode = Some primaryKey ->
  (forall t, In t (def_fields astNode) ->
             isUpdatableField typeMap (field_name primaryKey) t = false) ->
  buildMutationArguments Update astNode typeMap = Some []
  /\ possiblyAddTypeMutation Update astNode typeMap mutationMap config
     = Ok typeMap.
Proof.
  intros Hpk Hall.
  assert (buildMutationArguments Update astNode typeMap = Some []) as Hb.
  { unfold buildMutationArguments. rewrite Hpk.
    unfold buildUpdateMutationArguments.
    rewrite (fold_left_skip _ (isUpdatableField typeMap (field_name primaryKey)));
      auto.
    intros acc t Ht. rewrite isUpdatableField_model in Ht.
    now rewrite Ht. }
  split; [exact Hb|].
  unfold possiblyAddTypeMutation. rewrite Hb.
  destruct (op_undefined mutationMap _); reflexivity.
Qed.

Lemma possiblyAddTypeMutation_update_needs_other_field_witness :
  buildMutationArguments Update movieType userWithRoots = Some []
  /\ possiblyAddTypeMutation Update movieType userWithRoots [] allEnabled
     = Ok userWithRoots.
Proof.
  apply (possiblyAddTypeMutation_update_needs_other_field movieType
           userWithRoots [] allEnabled requiredId).
  - reflexivity.
  - intros t [<-|[]]. reflexivity.
Defined.

(** ** Generated names are defined *)

Lemma defines_In typeMap key : defines typeMap key <-> In key (tm_keys typeMap).
Proof.
  unfold defines, tm_keys.
  induction typeMap as [|[k v] rest IH]; cbn [tm_get map fst In].
  - split; [congruence|tauto].
  - destruct (String.eqb_spec k key) as [->|Hne].
    + split; [auto|discriminate].
    + rewrite IH. split; [auto|]. intros [E|H]; [contradiction|exact H].
Qed.

Lemma extendsKeys_defines earlier later key :
  extendsKeys earlier later -> defines earlier key -> defines later key.
Proof.
  intros [added H] Hd. apply defines_In. rewrite H. apply in_or_app.
  left. now apply defines_In.
Qed.

Lemma addRelationMutation_defines_payload action typeName
  capitalizedFieldName fromName toName mutationMap typeMap relationName
  relatedAstNode relationHasProps config typeMap' :
  addRelationMutation action typeName capitalizedFieldName fromName toName
    mutationMap typeMap relationName relatedAstNode relationHasProps config
  = Ok typeMap' ->
  op_undefined mutationMap (actionName action ++ typeName ++ capitalizedFieldName)
  = true ->
  defines typeMap' (relationPayloadName action typeName capitalizedFieldName).
Proof.
  unfold addRelationMutation, relationPayloadName, defines. intros H Hu.
  rewrite Hu in H.
  destruct (push_root_field typeMap "Mutation" _) as [tm1|];
    cbn [bind] in H; [|discriminate].
  destruct (tm_get tm1 _) eqn:G; inversion H; subst.
  - congruence.
  - rewrite tm_get_set_same. discriminate.
Qed.

(** X16.  When [possiblyAddRelationMutationField] returns, the result
    type of every root mutation field it generated is defined in the
    type map: no generated [Add]/[Remove] field refers to a missing
    payload type. *)
Theorem possiblyAddRelationMutationField_defines_payloads typeName
  capitalizedFieldName fromName toName mutationMap typeMap relationName
  relatedAstNode relationHasProps config typeMap' f :
  possiblyAddRelationMutationField typeName capitalizedFieldName fromName
    toName mutationMap typeMap relationName relatedAstNode relationHasProps
    config = Ok typeMap' ->
  In f (generatedRelationMutations mutationMap typeName capitalizedFieldName
          fromName toName relationName relatedAstNode relationHasProps config) ->
  defines typeMap' (_getNamedType (field_type f)).
Proof.
  unfold possiblyAddRelationMutationField, generatedRelationMutations.
  destruct (addRelationMutation Add _ _ _ _ _ _ _ _ _ _) as [tm1|] eqn:A;
    cbn [bind]; [|discriminate].
  intros R Hin. cbn [flat_map actionName] in Hin.
  apply in_app_or in Hin. destruct Hin as [Hin|Hin].
  - destruct (op_undefined mutationMap
                ("Add" ++ typeName ++ capitalizedFieldName)) eqn:U;
      [|contradiction].
    destruct Hin as [<-|[]].
    eapply extendsKeys_defines;
      [eapply addRelationMutation_extends; exact R|].
    exact (addRelationMutation_defines_payload _ _ _ _ _ _ _ _ _ _ _ _ A U).
  - rewrite app_nil_r in Hin.
    destruct (op_undefined mutationMap
                ("Remove" ++ typeName ++ capitalizedFieldName)) eqn:U;
      [|contradiction].
    destruct Hin as [<-|[]].
    exact (addRelationMutation_defines_payload _ _ _ _ _ _ _ _ _ _ _ _ R U).
Qed.

Lemma possiblyAddRelationMutationField_defines_payloads_witness :
  defines
    (okValue
       (possiblyAddRelationMutationField "Person" "Movies" "Person" "Movie" []
          emptyMutationRoot "ACTED_IN" actedIn true allEnabled) [])
    "_AddPersonMoviesPayload".
Proof.
  apply (possiblyAddRelationMutationField_defines_payloads "Person" "Movies"
           "Person" "Movie" [] emptyMutationRoot "ACTED_IN" actedIn true
           allEnabled _
           (relationMutationField Add "Person" "Movies" "Person" "Movie"
              "ACTED_IN" actedIn true allEnabled)).
  - vm_compute. reflexivity.
  - left. reflexivity.
Defined.

Lemma append_nil_r (s : string) : (s ++ "")%string = s.
Proof. induction s; simpl; congruence. Qed.

Lemma possiblyAddRelationTypeFieldPayload_defines relationAstNode
  capitalizedFieldName typeName typeMap field typeMap' field' directive :
  getTypeDirective relationAstNode "relation" = Some directive ->
  possiblyAddRelationTypeFieldPayload relationAstNode capitalizedFieldName
    typeName typeMap field = Ok (typeMap', field') ->
  defines typeMap' ("_" ++ typeName ++ capitalizedFieldName)
  /\ field_type field' = field_type field
  /\ field_name field' = field_name field.
Proof.
  intros Hdir. unfold possiblyAddRelationTypeFieldPayload, defines.
  destruct (tm_get typeMap _) eqn:G.
  { intros H. inversion H; subst. rewrite G. repeat split. discriminate. }
  unfold getRelationTypeDirectiveArgs. rewrite Hdir.
  destruct (dir_arg "name" directive), (dir_arg "from" directive),
    (dir_arg "to" directive); cbn [bind]; try discriminate.
  match goal with |- context [if ?c then _ else _] => destruct c end;
    (destruct (parseObjectType _ _ _); cbn [bind]; [|discriminate]);
    intros H; inversion H; subst; rewrite tm_get_set_same;
    repeat split; discriminate.
Qed.

(** X17.  Take a field that is not ignored and whose value is a
    relationship type whose marker has different [from] and [to].  When
    handling the field returns, the field's type is the payload type
    [_<Type><Field>], as a list if the field was a list and without any
    non-null layer, and that payload type is defined in the type map. *)
Theorem relation_type_field_payload_is_defined typeName mutationMap config
  typeMap field relatedAstNode directive fromName toName typeMap' field' :
  fieldIsNotIgnored field = true ->
  tm_get typeMap (_getNamedType (field_type field)) = Some (Def relatedAstNode) ->
  getTypeDirective relatedAstNode "relation" = Some directive ->
  dir_arg "from" directive = Some fromName ->
  dir_arg "to" directive = Some toName ->
  fromName <> toName ->
  handleRelationField typeName mutationMap config typeMap field
  = Ok (typeMap', field') ->
  field_type field'
  = (if _isListType (field_type field)
     then ListType
            (NamedType ("_" ++ typeName ++ capitalize (field_name field)))
     else NamedType ("_" ++ typeName ++ capitalize (field_name field)))
  /\ defines typeMap' (_getNamedType (field_type field')).
Proof.
  intros Hign Hrel Hdir Hfrom Hto Hne.
  unfold handleRelationField. rewrite Hign, Hrel.
  rewrite (relation_type_is_not_node _ _ Hdir), Hdir.
  unfold handleRelationTypeDirective, argumentValue. rewrite Hfrom, Hto.
  destruct (dir_arg "name" directive) as [relationName|];
    cbn [bind]; [|discriminate].
  intros H.
  match type of H with
  | bind ?r _ = _ => destruct r as [tm1|]; cbn [bind] in H; [|discriminate]
  end.
  destruct (possiblyAddRelationTypeFieldPayload _ _ _ _ _)
    as [[tm2 f2]|] eqn:Q; cbn [bind] in H; [|discriminate].
  inversion H; subst. clear H.
  destruct (possiblyAddRelationTypeFieldPayload_defines _ _ _ _ _ _ _ _
              Hdir Q) as (Hdef & Hty & Hnm).
  unfold replaceRelationTypeValue. cbn [field_type].
  destruct (String.eqb_spec fromName toName); [contradiction|].
  rewrite Hty, andb_true_r, !append_nil_r.
  assert (forall s : string, ("_" ++ typeName ++ s ++ "" = "_" ++ typeName ++ s)%string)
    as Hs by (intros s; now rewrite append_nil_r).
  destruct (_isListType (field_type field)); cbn [_getNamedType];
    rewrite ?Hs; split; auto.
Qed.

Lemma relation_type_field_payload_is_defined_witness :
  field_type
    (snd (okValue
            (handleRelationField "Movie" [] allEnabled ratingsSchema
               ratingsField) ([], ratingsField)))
  = ListType (NamedType "_MovieRatings")
  /\ defines
       (fst (okValue
               (handleRelationField "Movie" [] allEnabled ratingsSchema
                  ratingsField) ([], ratingsField)))
       (_getNamedType
          (field_type
             (snd (okValue
                     (handleRelationField "Movie" [] allEnabled ratingsSchema
                        ratingsField) ([], ratingsField))))).
Proof.
  apply (relation_type_field_payload_is_defined "Movie" [] allEnabled
           ratingsSchema ratingsField ratedType
           (relationDirective "RATED" "User" "Movie") "User" "Movie").
  - reflexivity.
  - reflexivity.
  - reflexivity.
  - reflexivity.
  - reflexivity.
  - discriminate.
  - vm_compute. reflexivity.
Defined.

(** ** Stages that need a root type *)

(** X18.  The generators push onto the root types without checking that
    they are there.  For a permitted node type and a map without a
    [Query] type, [possiblyAddQuery] throws a TypeError, unless the type
    is named like a member of [Object.prototype]: the operation map then
    seems to hold the name and the map is returned as it is.
    [possiblyAddRelationMutationField] throws a TypeError when the map has
    no [Mutation] type and the Add mutation is not in the operation map. *)
Theorem generators_need_root_types :
  (forall d typeMap config,
     isNodeType_def d = true ->
     shouldAugmentType config RQuery (def_name d) = true ->
     tm_get typeMap "Query" = None ->
     possiblyAddQuery (Def d) typeMap config
     = if inherited (def_name d) then Ok typeMap
       else Throw (TypeError "Cannot read property 'fields' of undefined"))
  /\ (forall typeName capitalizedFieldName fromName toName mutationMap typeMap
             relationName relatedAstNode relationHasProps config,
        tm_get typeMap "Mutation" = None ->
        op_undefined mutationMap ("Add" ++ typeName ++ capitalizedFieldName)
        = true ->
        possiblyAddRelationMutationField typeName capitalizedFieldName
          fromName toName mutationMap typeMap relationName relatedAstNode
          relationHasProps config
        = Throw (TypeError "Cannot read property 'fields' of undefined")).
Proof.
  split.
  - intros d typeMap config Hnode Hperm Hq.
    unfold possiblyAddQuery. cbn [name_value bind].
    rewrite Hnode, Hperm, Hq. cbn [andb createOperationMap].
    unfold op_undefined. cbn [has_field find_field find negb andb].
    destruct (inherited (def_name d)); cbn [negb]; [reflexivity|].
    unfold push_root_field. now rewrite Hq.
  - intros typeName capitalizedFieldName fromName toName mutationMap typeMap
      relationName relatedAstNode relationHasProps config Hm Hu.
    unfold possiblyAddRelationMutationField, addRelationMutation.
    cbn [actionName]. rewrite Hu. unfold push_root_field. now rewrite Hm.
Qed.

Lemma generators_need_root_types_witness :
  possiblyAddQuery (Def movieType) [("Movie", Def movieType)] allEnabled
  = Throw (TypeError "Cannot read property 'fields' of undefined")
  /\ possiblyAddQuery (Def constructorType)
       [("constructor", Def constructorType)] allEnabled
     = Ok [("constructor", Def constructorType)]
  /\ possiblyAddRelationMutationField "Person" "Movies" "Person" "Movie" []
       [("Movie", Def movieType)] "ACTED_IN" actedIn true allEnabled
     = Throw (TypeError "Cannot read property 'fields' of undefined").
Proof.
  split; [|split].
  - apply (proj1 generators_need_root_types movieType); reflexivity.
  - apply (proj1 generators_need_root_types constructorType); reflexivity.
  - apply (proj2 generators_need_root_types); reflexivity.
Defined.

(** ** Resolver synthesis *)

Lemma obj_get_set_same {V} (o : list (string * V)) key v :
  obj_get (obj_set o key v) key = Some v.
Proof.
  induction o as [|[k v0] rest IH]; cbn [obj_set obj_get].
  - now rewrite String.eqb_refl.
  - destruct (String.eqb k key) eqn:E; cbn [obj_get]; rewrite E; auto.
Qed.

Lemma obj_get_set_other {V} (o : list (string * V)) key key' v :
  key <> key' -> obj_get (obj_set o key v) key' = obj_get o key'.
Proof.
  intros Hne. induction o as [|[k v0] rest IH]; cbn [obj_set obj_get].
  - destruct (String.eqb_spec key key'); [contradiction|reflexivity].
  - destruct (String.eqb_spec k key) as [->|E]; cbn [obj_get].
    + destruct (String.eqb_spec key key'); [contradiction|reflexivity].
    + destruct (String.eqb k key'); auto.
Qed.

Lemma possiblyAddResolvers_step_keeps acc t config name u :
  obj_get acc name = Some u ->
  obj_get (if obj_undefined acc (field_name t)
           then obj_set acc (field_name t) (DefaultResolver config)
           else acc) name = Some u.
Proof.
  intros H. destruct (obj_undefined acc (field_name t)) eqn:U; auto.
  rewrite obj_get_set_other; auto. intros E. subst.
  unfold obj_undefined in U. now rewrite H in U.
Qed.

Lemma possiblyAddResolvers_keeps operationTypeMap config name u :
  forall resolvers,
    obj_get resolvers name = Some u ->
    obj_get (possiblyAddResolvers operationTypeMap resolvers config) name
    = Some u.
Proof.
  unfold possiblyAddResolvers.
  induction operationTypeMap as [|t rest IH]; intros resolvers H;
    cbn [fold_left]; auto.
  apply IH. now apply possiblyAddResolvers_step_keeps.
Qed.

Lemma possiblyAddResolvers_binds operationTypeMap config name :
  forall resolvers,
    has_field name operationTypeMap = true ->
    inherited name = false ->
    obj_get (possiblyAddResolvers operationTypeMap resolvers config) name
    <> None.
Proof.
  induction operationTypeMap as [|t rest IH]; intros resolvers H Hi.
  - discriminate H.
  - change (possiblyAddResolvers (t :: rest) resolvers config)
      with (possiblyAddResolvers rest
              (if obj_undefined resolvers (field_name t)
               then obj_set resolvers (field_name t) (DefaultResolver config)
               else resolvers) config).
    unfold has_field, find_field in H. cbn [find] in H.
    destruct (String.eqb_spec (field_name t) name) as [E|E].
    + assert (exists u,
                obj_get
                  (if obj_undefined resolvers (field_name t)
                   then obj_set resolvers (field_name t)
                          (DefaultResolver config)
                   else resolvers) name = Some u) as [u G].
      { unfold obj_undefined. rewrite E, Hi.
        destruct (obj_get resolvers name) as [v|] eqn:G; cbn [negb].
        - exists v. exact G.
        - eexists. apply obj_get_set_same. }
      rewrite (possiblyAddResolvers_keeps _ _ _ _ _ G). discriminate.
    + apply IH; auto.
Qed.

Lemma possiblyAddResolvers_only_defaults operationTypeMap config name x :
  forall resolvers,
    obj_get (possiblyAddResolvers operationTypeMap resolvers config) name
    = Some x ->
    obj_get resolvers name = Some x
    \/ (x = DefaultResolver config /\ inherited name = false).
Proof.
  unfold possiblyAddResolvers.
  induction operationTypeMap as [|t rest IH]; intros resolvers H;
    cbn [fold_left] in H; auto.
  apply IH in H. destruct H as [H|H]; auto.
  unfold obj_undefined in H.
  destruct (obj_get resolvers (field_name t)) eqn:G; auto.
  destruct (inherited (field_name t)) eqn:I; cbn [negb] in H; auto.
  destruct (String.eqb_spec (field_name t) name) as [E|E].
  - rewrite E, obj_get_set_same in H. inversion H. rewrite <- E. auto.
  - rewrite obj_get_set_other in H; auto.
Qed.

Lemma possiblyAddResolvers_empty operationTypeMap resolvers config :
  possiblyAddResolvers operationTypeMap resolvers config = [] ->
  resolvers = [].
Proof.
  intros H. destruct resolvers as [|[k v] rest]; auto.
  assert (obj_get (possiblyAddResolvers operationTypeMap ((k, v) :: rest)
                     config) k = Some v) as G.
  { apply possiblyAddResolvers_keeps. cbn [obj_get].
    now rewrite String.eqb_refl. }
  rewrite H in G. discriminate.
Qed.

Lemma has_field_In name fields :
  has_field name fields = true
  <-> exists f, In f fields /\ field_name f = name.
Proof.
  unfold has_field, find_field. split.
  - destruct (find _ fields) as [f|] eqn:F; [|discriminate].
    intros _. apply find_some in F. destruct F as [Hin E].
    exists f. split; auto. now apply String.eqb_eq.
  - intros (f & Hin & E).
    destruct (find _ fields) as [g|] eqn:F; auto.
    pose proof (find_none _ _ F f Hin) as N. cbn in N.
    rewrite E, String.eqb_refl in N. discriminate.
Qed.

(** With no resolver supplied, nothing is bound exactly when every
    operation is named like a member of [Object.prototype]. *)
Lemma possiblyAddResolvers_nothing_bound operationTypeMap config :
  possiblyAddResolvers operationTypeMap [] config = []
  <-> forall f, In f operationTypeMap -> inherited (field_name f) = true.
Proof.
  split.
  - intros H f Hin.
    destruct (inherited (field_name f)) eqn:I; auto. exfalso.
    apply (possiblyAddResolvers_binds operationTypeMap config (field_name f)
             []); auto.
    + apply has_field_In. now exists f.
    + now rewrite H.
  - intros H.
    destruct (possiblyAddResolvers operationTypeMap [] config)
      as [|[k v] m] eqn:P; auto. exfalso.
    assert (obj_get (possiblyAddResolvers operationTypeMap [] config) k
            = Some v) as G
      by (rewrite P; cbn [obj_get]; now rewrite String.eqb_refl).
    apply possiblyAddResolvers_only_defaults in G.
    destruct G as [G|[_ G]]; [discriminate G|].
    assert (has_field k operationTypeMap = true) as Hk.
    { clear - P. revert P. unfold possiblyAddResolvers.
      assert (forall acc,
                obj_get
                  (fold_left
                     (fun acc t =>
                        if obj_undefined acc (field_name t)
                        then obj_set acc (field_name t)
                               (DefaultResolver config)
                        else acc) operationTypeMap acc) k <> None ->
                obj_get acc k <> None
                \/ has_field k operationTypeMap = true) as Hgen.
      { induction operationTypeMap as [|t rest IH]; intros acc Hk;
          cbn [fold_left] in Hk; auto.
        apply IH in Hk. destruct Hk as [Hk|Hk].
        - destruct (obj_undefined acc (field_name t)); auto.
          destruct (String.eqb_spec (field_name t) k) as [E|E].
          + right. unfold has_field, find_field. cbn [find].
            now rewrite E, String.eqb_refl.
          + rewrite obj_get_set_other in Hk; auto.
        - right. unfold has_field, find_field in *. cbn [find].
          destruct (String.eqb (field_name t) k); auto. }
      intros P.
      assert (obj_get
                (fold_left
                   (fun acc t =>
                      if obj_undefined acc (field_name t)
                      then obj_set acc (field_name t) (DefaultResolver config)
                      else acc) operationTypeMap []) k <> None) as Hd.
      { rewrite P. cbn [obj_get]. rewrite String.eqb_refl. discriminate. }
      destruct (Hgen [] Hd) as [Hk|Hk]; [|exact Hk].
      cbn [obj_get] in Hk. congruence. }
    apply has_field_In in Hk. destruct Hk as (f & Hin & E).
    rewrite <- E, (H f Hin) in G. discriminate.
Qed.

(** What the step for one root type leaves under the root's key, and
    under the other keys. *)
Lemma augmentRootResolvers_defined augmentedTypeMap root r config :
  exists r',
    augmentRootResolvers augmentedTypeMap root (Some r) config = Ok (Some r')
    /\ rootResolvers (Some r') root
       = possiblyAddResolvers
           (createOperationMap (tm_get augmentedTypeMap root))
           (rootResolvers (Some r) root) config
    /\ forall key, key <> root -> obj_get r' key = obj_get r key.
Proof.
  unfold augmentRootResolvers.
  destruct (possiblyAddResolvers _ _ _) as [|b m] eqn:P.
  - exists r. split; [reflexivity|]. split; [|reflexivity].
    now rewrite (possiblyAddResolvers_empty _ _ _ P).
  - eexists. split; [reflexivity|]. split.
    + cbn [rootResolvers]. now rewrite obj_get_set_same.
    + intros key Hne. apply obj_get_set_other. congruence.
Qed.

Lemma addResolveTypes_defined interfaces :
  forall r,
    exists r',
      addResolveTypes interfaces (Some r) = Ok (Some r')
      /\ (forall e, In e interfaces ->
            obj_get r' e = Some [("__resolveType", ResolveTypeByFragment)])
      /\ (forall key, ~ In key interfaces -> obj_get r' key = obj_get r key).
Proof.
  induction interfaces as [|e rest IH]; intros r; cbn [addResolveTypes].
  - exists r. split; [reflexivity|]. split; [intros e []|reflexivity].
  - cbn [setResolvers bind].
    destruct (IH (obj_set r e [("__resolveType", ResolveTypeByFragment)]))
      as (r' & -> & Hin & Hout).
    exists r'. split; [reflexivity|]. split.
    + intros x [<-|Hx]; [|now apply Hin].
      destruct (in_dec string_dec e rest) as [Hr|Hr]; [now apply Hin|].
      rewrite (Hout _ Hr). apply obj_get_set_same.
    + intros key Hk. cbn [In] in Hk.
      rewrite Hout by tauto. apply obj_get_set_other. tauto.
Qed.

Lemma interfaceTypes_In augmentedTypeMap e :
  In e (interfaceTypes augmentedTypeMap) ->
  isKind (tm_get augmentedTypeMap e) InterfaceTypeDefinition = true.
Proof. unfold interfaceTypes. intros H. apply filter_In in H. tauto. Qed.

(** X19.  Given a resolvers object, [augmentResolvers] returns one in
    which, for the root [Query] and [Mutation] types (when they are not
    interface types), every field of the root type that is not named like
    a member of [Object.prototype] has a resolver, every resolver the
    caller supplied for the root is kept, and whatever else is there is
    the default resolver; under a name that is a member of
    [Object.prototype] nothing is bound. *)
Theorem augmentResolvers_binds_operations augmentedTypeMap r config rootType :
  isKind (tm_get augmentedTypeMap (rootTypeName rootType))
    InterfaceTypeDefinition = false ->
  exists r',
    augmentResolvers augmentedTypeMap (Some r) config = Ok (Some r')
    /\ forall name,
         (has_field name (rootFields augmentedTypeMap (rootTypeName rootType))
          = true ->
          inherited name = false ->
          obj_get (rootResolvers (Some r') (rootTypeName rootType)) name
          <> None)
         /\ (forall u,
               obj_get (rootResolvers (Some r) (rootTypeName rootType)) name
               = Some u ->
               obj_get (rootResolvers (Some r') (rootTypeName rootType)) name
               = Some u)
         /\ (forall x,
               obj_get (rootResolvers (Some r') (rootTypeName rootType)) name
               = Some x ->
               obj_get (rootResolvers (Some r) (rootTypeName rootType)) name
               = Some x
               \/ (x = DefaultResolver config /\ inherited name = false)).
Proof.
  intros Hk. unfold augmentResolvers.
  destruct (augmentRootResolvers_defined augmentedTypeMap "Query" r config)
    as (r1 & -> & Hq1 & Ho1).
  cbn [bind].
  destruct (augmentRootResolvers_defined augmentedTypeMap "Mutation" r1 config)
    as (r2 & -> & Hq2 & Ho2).
  cbn [bind].
  destruct (addResolveTypes_defined (interfaceTypes augmentedTypeMap) r2)
    as (r' & -> & _ & Hout).
  exists r'. split; [reflexivity|].
  assert (rootResolvers (Some r') (rootTypeName rootType)
          = possiblyAddResolvers
              (createOperationMap
                 (tm_get augmentedTypeMap (rootTypeName rootType)))
              (rootResolvers (Some r) (rootTypeName rootType)) config) as ->.
  { assert (~ In (rootTypeName rootType) (interfaceTypes augmentedTypeMap))
      as Hni.
    { intros Hin. apply interfaceTypes_In in Hin. congruence. }
    unfold rootResolvers at 1. rewrite (Hout _ Hni).
    destruct rootType; cbn [rootTypeName] in *.
    - rewrite Ho2 by discriminate. exact Hq1.
    - unfold rootResolvers in Hq2 at 1. rewrite Hq2.
      unfold rootResolvers. now rewrite Ho1 by discriminate. }
  intros name. split; [|split].
  - intros Hf Hi. apply possiblyAddResolvers_binds; auto.
    now rewrite has_field_createOperationMap.
  - intros u. apply possiblyAddResolvers_keeps.
  - intros x. apply possiblyAddResolvers_only_defaults.
Qed.

Lemma augmentResolvers_binds_operations_witness :
  exists r',
    augmentResolvers prototypeNamedSchema (Some callerResolvers) allEnabled
    = Ok (Some r')
    /\ obj_get (rootResolvers (Some r') "Query") "Person" <> None
    /\ obj_get (rootResolvers (Some r') "Query") "custom"
       = Some (UserResolver 1)
    /\ obj_get (rootResolvers (Some r') "Query") "toString" = None.
Proof.
  destruct (augmentResolvers_binds_operations prototypeNamedSchema
              callerResolvers allEnabled RQuery) as (r' & Heq & H);
    [reflexivity|].
  exists r'. split; [exact Heq|]. split; [|split].
  - apply (proj1 (H "Person")); reflexivity.
  - apply (proj1 (proj2 (H "custom"))). reflexivity.
  - destruct (obj_get (rootResolvers (Some r') (rootTypeName RQuery))
                "toString") as [x|] eqn:G; [|exact G].
    destruct (proj2 (proj2 (H "toString")) x G) as [K|[_ K]];
      discriminate K.
Defined.

(** X20.  Given a resolvers object, [augmentResolvers] replaces the entry
    of every interface type of the map by the single [__resolveType]
    function, discarding what the caller supplied under that key, and
    leaves the entries of every key that is neither an interface type nor
    [Query] nor [Mutation] as they were. *)
Theorem augmentResolvers_interfaces augmentedTypeMap r config :
  exists r',
    augmentResolvers augmentedTypeMap (Some r) config = Ok (Some r')
    /\ (forall e, In e (interfaceTypes augmentedTypeMap) ->
          obj_get r' e = Some [("__resolveType", ResolveTypeByFragment)])
    /\ (forall key,
          ~ In key (interfaceTypes augmentedTypeMap) ->
          key <> "Query" -> key <> "Mutation" ->
          obj_get r' key = obj_get r key).
Proof.
  unfold augmentResolvers.
  destruct (augmentRootResolvers_defined augmentedTypeMap "Query" r config)
    as (r1 & -> & _ & Ho1).
  cbn [bind].
  destruct (augmentRootResolvers_defined augmentedTypeMap "Mutation" r1 config)
    as (r2 & -> & _ & Ho2).
  cbn [bind].
  destruct (addResolveTypes_defined (interfaceTypes augmentedTypeMap) r2)
    as (r' & -> & Hin & Hout).
  exists r'. split; [reflexivity|]. split; [exact Hin|].
  intros key Hni Hq Hm. now rewrite (Hout _ Hni), Ho2, Ho1.
Qed.

Lemma augmentResolvers_interfaces_witness :
  exists r',
    augmentResolvers interfaceSchema (Some callerResolvers) allEnabled
    = Ok (Some r')
    /\ obj_get r' "Named" = Some [("__resolveType", ResolveTypeByFragment)]
    /\ obj_get r' "Person" = obj_get callerResolvers "Person".
Proof.
  destruct (augmentResolvers_interfaces interfaceSchema callerResolvers
              allEnabled) as (r' & Heq & Hin & Hout).
  exists r'. split; [exact Heq|]. split.
  - apply Hin. left. reflexivity.
  - apply Hout.
    + intros [H|[]]. discriminate H.
    + intros H. discriminate H.
    + intros H. discriminate H.
Defined.

(** The caller's resolver for the interface [Named] is gone, the one for
    [Query.custom] is kept and [Query.Person] gets the default. *)
Example augmentResolvers_example :
  augmentResolvers interfaceSchema (Some callerResolvers) allEnabled
  = Ok (Some
          [("Query",
            [("custom", UserResolver 1);
             ("Person", DefaultResolver allEnabled)]);
           ("Named", [("__resolveType", ResolveTypeByFragment)])]).
Proof. reflexivity. Qed.

Lemma bindableFields_nil typeMap root :
  bindableFields typeMap root = []
  <-> forall f,
        In f (createOperationMap (tm_get typeMap root)) ->
        inherited (field_name f) = true.
Proof.
  unfold bindableFields. split.
  - intros H f Hin.
    assert (has_field (field_name f) (rootFields typeMap root) = true) as Hf.
    { rewrite <- has_field_createOperationMap. apply has_field_In.
      now exists f. }
    apply has_field_In in Hf. destruct Hf as (g & Hg & E).
    destruct (inherited (field_name f)) eqn:I; auto. exfalso.
    assert (In g (filter (fun f => negb (inherited (field_name f)))
                    (rootFields typeMap root))) as Hin'.
    { apply filter_In. split; auto. now rewrite E, I. }
    rewrite H in Hin'. exact Hin'.
  - intros H.
    destruct (filter _ (rootFields typeMap root)) as [|g rest] eqn:F; auto.
    exfalso.
    assert (In g (g :: rest)) as Hin by now left.
    rewrite <- F in Hin. apply filter_In in Hin. destruct Hin as [Hin Hg].
    assert (has_field (field_name g)
              (createOperationMap (tm_get typeMap root)) = true) as Hf.
    { rewrite has_field_createOperationMap. apply has_field_In.
      now exists g. }
    apply has_field_In in Hf. destruct Hf as (f & Hf & E).
    rewrite <- E, (H f Hf) in Hg. discriminate.
Qed.

Lemma augmentRootResolvers_without_resolvers typeMap root config :
  augmentRootResolvers typeMap root None config
  = match bindableFields typeMap root with
    | [] => Ok None
    | _ :: _ =>
        Throw (TypeError ("Cannot set property '" ++ root ++ "' of undefined"))
    end.
Proof.
  unfold augmentRootResolvers. cbn [rootResolvers].
  destruct (possiblyAddResolvers _ [] config) as [|b m] eqn:P.
  - pose proof (proj1 (possiblyAddResolvers_nothing_bound _ _) P) as Hn.
    now rewrite (proj2 (bindableFields_nil _ _) Hn).
  - cbn [setResolvers].
    destruct (bindableFields typeMap root) as [|g rest] eqn:B; auto.
    pose proof (proj1 (bindableFields_nil _ _) B) as Hn.
    pose proof (proj2 (possiblyAddResolvers_nothing_bound _ config) Hn) as Hp.
    congruence.
Qed.

(** X21.  Without a resolvers object, [augmentResolvers] returns nothing
    exactly when there is nothing to bind: no root query field and no
    root mutation field other than ones named like a member of
    [Object.prototype], and no interface type.  Otherwise it throws a
    TypeError for the first assignment it attempts: [Query], then
    [Mutation], then the first interface type. *)
Theorem augmentResolvers_without_resolvers augmentedTypeMap config :
  (bindableFields augmentedTypeMap "Query" <> [] ->
   augmentResolvers augmentedTypeMap None config
   = Throw (TypeError "Cannot set property 'Query' of undefined"))
  /\ (bindableFields augmentedTypeMap "Query" = [] ->
      bindableFields augmentedTypeMap "Mutation" <> [] ->
      augmentResolvers augmentedTypeMap None config
      = Throw (TypeError "Cannot set property 'Mutation' of undefined"))
  /\ (bindableFields augmentedTypeMap "Query" = [] ->
      bindableFields augmentedTypeMap "Mutation" = [] ->
      forall e rest,
        interfaceTypes augmentedTypeMap = e :: rest ->
        augmentResolvers augmentedTypeMap None config
        = Throw (TypeError ("Cannot set property '" ++ e ++ "' of undefined")))
  /\ (bindableFields augmentedTypeMap "Query" = [] ->
      bindableFields augmentedTypeMap "Mutation" = [] ->
      interfaceTypes augmentedTypeMap = [] ->
      augmentResolvers augmentedTypeMap None config = Ok None).
Proof.
  unfold augmentResolvers.
  rewrite (augmentRootResolvers_without_resolvers augmentedTypeMap "Query").
  repeat split.
  - intros Hq.
    destruct (bindableFields augmentedTypeMap "Query"); [contradiction|].
    reflexivity.
  - intros -> Hm. cbn [bind].
    rewrite (augmentRootResolvers_without_resolvers augmentedTypeMap
               "Mutation").
    destruct (bindableFields augmentedTypeMap "Mutation"); [contradiction|].
    reflexivity.
  - intros -> Hm e rest Hi. cbn [bind].
    rewrite (augmentRootResolvers_without_resolvers augmentedTypeMap
               "Mutation"), Hm, Hi.
    reflexivity.
  - intros -> Hm Hi. cbn [bind].
    rewrite (augmentRootResolvers_without_resolvers augmentedTypeMap
               "Mutation"), Hm, Hi.
    reflexivity.
Qed.

Lemma augmentResolvers_without_resolvers_witness :
  augmentResolvers interfaceSchema None allEnabled
  = Throw (TypeError "Cannot set property 'Query' of undefined")
  /\ augmentResolvers [("Query", objectType "Query" [toStringField])] None
       allEnabled
     = Ok None
  /\ augmentResolvers [("Named", namedInterface)] None allEnabled
     = Throw (TypeError "Cannot set property 'Named' of undefined").
Proof.
  split; [|split].
  - apply (proj1 (augmentResolvers_without_resolvers interfaceSchema
                    allEnabled)).
    discriminate.
  - apply (proj2 (proj2 (proj2 (augmentResolvers_without_resolvers
                                  [("Query", objectType "Query" [toStringField])]
                                  allEnabled))));
      reflexivity.
  - apply (proj1 (proj2 (proj2 (augmentResolvers_without_resolvers
                                  [("Named", namedInterface)] allEnabled)))
             eq_refl eq_refl "Named" []).
    reflexivity.
Defined.

(** ** Extraction from an executable schema *)

Lemma obj_get_In_keys {V} (o : list (string * V)) key :
  obj_get o key <> None <-> In key (map fst o).
Proof.
  induction o as [|[k v] rest IH]; cbn [obj_get map fst In].
  - split; [congruence|tauto].
  - destruct (String.eqb_spec k key) as [->|Hne].
    + split; [auto|discriminate].
    + rewrite IH. split; [auto|]. intros [E|H]; [contradiction|exact H].
Qed.

(** Looking a key up in an object built by assigning [g t] under every
    key [t] of a list for which [g t] is defined. *)
Lemma obj_get_fold_assign {V} (g : string -> option V) keys key :
  forall acc,
    obj_get
      (fold_left
         (fun acc t =>
            match g t with Some v => obj_set acc t v | None => acc end)
         keys acc) key
    = if in_dec string_dec key keys
      then match g key with Some v => Some v | None => obj_get acc key end
      else obj_get acc key.
Proof.
  induction keys as [|t rest IH]; intros acc; cbn [fold_left].
  - reflexivity.
  - rewrite IH.
    destruct (in_dec string_dec key rest) as [Hr|Hr];
      destruct (in_dec string_dec key (t :: rest)) as [Ht|Ht];
      try (exfalso; apply Ht; now right).
    + destruct (g key) eqn:G; auto.
      destruct (g t) eqn:Gt; auto.
      rewrite obj_get_set_other; auto. intros E. subst. congruence.
    + destruct Ht as [->|Ht]; [|contradiction].
      destruct (g key) eqn:G; auto. apply obj_get_set_same.
    + destruct (g t) eqn:Gt; auto.
      rewrite obj_get_set_other; auto. intros E. subst. apply Ht. now left.
Qed.

Lemma fold_left_pointwise {A B} (f g : A -> B -> A) l :
  (forall acc t, f acc t = g acc t) ->
  forall acc, fold_left f l acc = fold_left g l acc.
Proof.
  intros H. induction l as [|t rest IH]; intros acc; cbn [fold_left]; auto.
  now rewrite H, IH.
Qed.

Lemma extractFieldResolvers_fold fields f :
  obj_get
    (fold_left
       (fun acc t =>
          match obj_get fields t with
          | Some field =>
              match resolve field with
              | Some r => obj_set acc t r
              | None => acc
              end
          | None => acc
          end)
       (map fst fields) []) f
  = match obj_get fields f with
    | Some field => resolve field
    | None => None
    end.
Proof.
  rewrite (fold_left_pointwise _
             (fun acc t =>
                match (match obj_get fields t with
                       | Some field => resolve field
                       | None => None
                       end) with
                | Some v => obj_set acc t v
                | None => acc
                end)).
  - rewrite obj_get_fold_assign. cbn [obj_get].
    destruct (in_dec string_dec f (map fst fields)) as [Hin|Hin].
    + destruct (obj_get fields f) as [field|]; auto.
      destruct (resolve field); auto.
    + destruct (obj_get fields f) eqn:G; auto.
      exfalso. apply Hin. apply obj_get_In_keys. congruence.
  - intros acc t. destruct (obj_get fields t) as [field|]; auto.
Qed.

Lemma extractFieldResolversFromSchemaType_lookup type :
  match extractFieldResolversFromSchemaType type with
  | Some m => m <> [] /\ forall f, obj_get m f = fieldResolver type f
  | None => forall f, fieldResolver type f = None
  end.
Proof.
  unfold extractFieldResolversFromSchemaType, fieldResolver.
  destruct (_fields type) as [[|b fields]|]; try reflexivity.
  remember (b :: fields) as fs.
  destruct (fold_left _ (map fst fs) []) as [|x m] eqn:F.
  - intros f. rewrite <- (extractFieldResolvers_fold fs f), F. reflexivity.
  - split; [discriminate|]. intros f.
    rewrite <- (extractFieldResolvers_fold fs f), F. reflexivity.
Qed.

(** X22.  [extractResolversFromSchema] maps a type name to the resolvers
    of the type's fields exactly when the name is a key of the schema's
    type map, is none of the seven introspection names the code lists,
    and at least one field of the type has a resolver; the entry then
    holds, for each field, the field's resolver and nothing else. *)
Theorem extractResolversFromSchema_lookup schema t :
  obj_get (extractResolversFromSchema schema) t
  = (if existsb (String.eqb t) introspectionKeys then None
     else match schema with
          | Some typeMap =>
              match obj_get typeMap t with
              | Some type => extractFieldResolversFromSchemaType type
              | None => None
              end
          | None => None
          end)
  /\ (forall type m,
        extractFieldResolversFromSchemaType type = Some m ->
        m <> [] /\ forall f, obj_get m f = fieldResolver type f)
  /\ (forall type,
        extractFieldResolversFromSchemaType type = None ->
        forall f, fieldResolver type f = None).
Proof.
  split; [|split].
  - unfold extractResolversFromSchema.
    set (typeMap := match schema with Some m => m | None => [] end).
    rewrite (fold_left_pointwise _
               (fun acc t =>
                  match (if negb (existsb (String.eqb t) introspectionKeys)
                         then match obj_get typeMap t with
                              | Some type =>
                                  extractFieldResolversFromSchemaType type
                              | None => None
                              end
                         else None) with
                  | Some v => obj_set acc t v
                  | None => acc
                  end)).
    + rewrite obj_get_fold_assign. cbn [obj_get].
      assert (obj_get typeMap t
              = match schema with
                | Some m => obj_get m t
                | None => None
                end) as Hs by (subst typeMap; now destruct schema).
      destruct (in_dec string_dec t (map fst typeMap)) as [Hin|Hin].
      * destruct (existsb (String.eqb t) introspectionKeys); cbn [negb].
        { reflexivity. }
        rewrite Hs. destruct schema as [m|]; [|reflexivity].
        destruct (obj_get m t) as [type|]; [|reflexivity].
        now destruct (extractFieldResolversFromSchemaType type).
      * assert (obj_get typeMap t = None) as Hn.
        { destruct (obj_get typeMap t) eqn:G; auto.
          exfalso. apply Hin. apply obj_get_In_keys. congruence. }
        rewrite Hs in Hn.
        destruct (existsb (String.eqb t) introspectionKeys); [reflexivity|].
        destruct schema as [m|]; [|reflexivity]. now rewrite Hn.
    + intros acc k. destruct (negb _); [|reflexivity].
      destruct (obj_get typeMap k) as [type|]; [|reflexivity].
      now destruct (extractFieldResolversFromSchemaType type).
  - intros type m H.
    pose proof (extractFieldResolversFromSchemaType_lookup type) as L.
    now rewrite H in L.
  - intros type H.
    pose proof (extractFieldResolversFromSchemaType_lookup type) as L.
    now rewrite H in L.
Qed.

Lemma extractResolversFromSchema_lookup_witness :
  obj_get [("custom", UserResolver 1)] "custom"
  = fieldResolver
      (mkSchemaType
         (Some [("custom", mkSchemaField (Some (UserResolver 1)));
                ("Person", mkSchemaField None)])
         (Some (mkDef ObjectTypeDefinition "Query" [] [] []))) "custom".
Proof.
  apply (proj1 (proj2 (extractResolversFromSchema_lookup (Some resolvedSchema)
                         "Query"))
           (mkSchemaType
              (Some [("custom", mkSchemaField (Some (UserResolver 1)));
                     ("Person", mkSchemaField None)])
              (Some (mkDef ObjectTypeDefinition "Query" [] [] [])))
           [("custom", UserResolver 1)]).
  reflexivity.
Defined.

(** Only [Query] has a resolved field; the introspection type and the
    types without resolvers are left out. *)
Example extractResolversFromSchema_example :
  extractResolversFromSchema (Some resolvedSchema)
  = [("Query", [("custom", UserResolver 1)])]
  /\ extractResolversFromSchema None = [].
Proof. split; reflexivity. Qed.

Lemma extractTypeMap_fold entities :
  forall acc,
    (forall key node, tm_get acc key = Some node ->
       exists d, node = Def d /\ def_name d = key) ->
    forall key node,
      tm_get
        (fold_left
           (fun acc type =>
              match astNode type with
              | Some node => tm_set acc (def_name node) (Def node)
              | None => acc
              end)
           entities acc) key = Some node ->
      exists d, node = Def d /\ def_name d = key.
Proof.
  induction entities as [|e rest IH]; intros acc Hacc key node;
    cbn [fold_left]; [apply Hacc|].
  apply IH. intros k n G.
  destruct (astNode e) as [d|]; [|now apply Hacc].
  destruct (string_dec (def_name d) k) as [E|E].
  - rewrite E, tm_get_set_same in G. inversion G. now exists d.
  - rewrite tm_get_set_other in G; auto.
Qed.

Lemma extractTypeMap_sources (all : list SchemaType) entities :
  forall acc,
    incl entities all ->
    (forall key node, tm_get acc key = Some node ->
       exists type d, In type all /\ astNode type = Some d
                      /\ node = Def d /\ def_name d = key) ->
    forall key node,
      tm_get
        (fold_left
           (fun acc type =>
              match astNode type with
              | Some node => tm_set acc (def_name node) (Def node)
              | None => acc
              end)
           entities acc) key = Some node ->
      exists type d, In type all /\ astNode type = Some d
                     /\ node = Def d /\ def_name d = key.
Proof.
  induction entities as [|e rest IH]; intros acc Hincl Hacc key node;
    cbn [fold_left]; [apply Hacc|].
  apply IH; [intros x Hx; apply Hincl; now right|].
  intros k n G.
  destruct (astNode e) as [d|] eqn:A; [|now apply Hacc].
  destruct (string_dec (def_name d) k) as [E|E].
  - rewrite E, tm_get_set_same in G. inversion G.
    exists e, d. split; [apply Hincl; now left|auto].
  - rewrite tm_get_set_other in G; auto.
Qed.

Lemma extractTypeMap_defines entities d :
  forall acc,
    (defines acc (def_name d) \/ In (Some d) (map astNode entities)) ->
    defines
      (fold_left
         (fun acc type =>
            match astNode type with
            | Some node => tm_set acc (def_name node) (Def node)
            | None => acc
            end)
         entities acc) (def_name d).
Proof.
  induction entities as [|e rest IH]; intros acc H; cbn [fold_left].
  - destruct H as [H|[]]. exact H.
  - apply IH. cbn [map In] in H.
    destruct H as [H|[H|H]]; auto.
    + left. destruct (astNode e); auto.
      eapply extendsKeys_defines; [apply tm_set_extends|exact H].
    + left. rewrite H. unfold defines. rewrite tm_get_set_same. discriminate.
Qed.

(** X23.  In the type map that [extractTypeMapFromSchema] builds, every
    key is the name of the definition stored under it; every entry is the
    AST node of a directive or of a type of the schema, so that what has
    no AST node (the built-in types) contributes nothing; and the name of
    every type or directive that has an AST node is a key. *)
Theorem extractTypeMapFromSchema_keys_are_names typeMap directives :
  (forall key node,
     tm_get (extractTypeMapFromSchema typeMap directives) key = Some node ->
     exists d, node = Def d /\ def_name d = key)
  /\ (forall key node,
        tm_get (extractTypeMapFromSchema typeMap directives) key = Some node ->
        exists type d,
          In type (directives ++ map snd typeMap)
          /\ astNode type = Some d /\ node = Def d /\ def_name d = key)
  /\ (forall d,
        In (Some d) (map astNode (directives ++ map snd typeMap)) ->
        defines (extractTypeMapFromSchema typeMap directives) (def_name d)).
Proof.
  unfold extractTypeMapFromSchema. split; [|split].
  - apply extractTypeMap_fold. intros key node G. discriminate G.
  - apply extractTypeMap_sources; [apply incl_refl|].
    intros key node G. discriminate G.
  - intros d H. apply extractTypeMap_defines. now right.
Qed.

Lemma extractTypeMapFromSchema_keys_are_names_witness :
  (exists d,
     Def (mkDef ObjectTypeDefinition "Person" [] [] []) = Def d
     /\ def_name d = "Person")
  /\ (exists type d,
        In type ([] ++ map snd resolvedSchema)
        /\ astNode type = Some d
        /\ Def (mkDef ObjectTypeDefinition "Person" [] [] []) = Def d
        /\ def_name d = "Person")
  /\ defines (extractTypeMapFromSchema resolvedSchema []) "Query"
  /\ tm_get (extractTypeMapFromSchema resolvedSchema []) "String" = None.
Proof.
  destruct (extractTypeMapFromSchema_keys_are_names resolvedSchema [])
    as (Hnames & Hsources & Hdefined).
  split; [|split; [|split]].
  - apply (Hnames "Person"). reflexivity.
  - apply (Hsources "Person"). reflexivity.
  - apply (Hdefined (mkDef ObjectTypeDefinition "Query" [] [] [])).
    left. reflexivity.
  - reflexivity.
Defined.


(** ** The temporal types that the rewrite refers to *)

Lemma temporalPair_defines_output typeMap name outFields inFields :
  defines (temporalPair typeMap name outFields inFields) name.
Proof.
  unfold temporalPair.
  eapply extendsKeys_defines; [apply tm_set_extends|].
  unfold defines. rewrite tm_get_set_same. discriminate.
Qed.

Lemma temporalPair_defines_input typeMap name outFields inFields :
  defines (temporalPair typeMap name outFields inFields) (name ++ "Input").
Proof.
  unfold temporalPair, defines. rewrite tm_get_set_same. discriminate.
Qed.

Lemma temporalPair_keeps typeMap name outFields inFields key :
  defines typeMap key ->
  defines (temporalPair typeMap name outFields inFields) key.
Proof.
  intros H. unfold temporalPair.
  eapply extendsKeys_defines; [apply tm_set_extends|].
  eapply extendsKeys_defines; [apply tm_set_extends|exact H].
Qed.

Ltac temporal_defined :=
  repeat match goal with
         | |- defines (if ?c then _ else _) _ => destruct c
         | |- defines (temporalPair _ ?n _ _) ?n =>
             apply temporalPair_defines_output
         | |- defines (temporalPair _ ?n _ _) _ =>
             first [apply (temporalPair_defines_input _ n)
                   |apply temporalPair_keeps]
         end.

Lemma temporalLeafName_defined typeMap name types isArgument :
  temporalLeafName name types isArgument <> name ->
  defines (temporalTypes typeMap types)
    (temporalLeafName name types isArgument).
Proof.
  unfold temporalLeafName, temporalTypes.
  destruct types as [t d dt lt ldt].
  cbn [time date datetime localtime localdatetime].
  destruct (String.eqb name "Time");
    [destruct t; [|congruence]; intros _; destruct isArgument;
     cbn [append]; temporal_defined|].
  destruct (String.eqb name "Date");
    [destruct d; [|congruence]; intros _; destruct isArgument;
     cbn [append]; temporal_defined|].
  destruct (String.eqb name "DateTime");
    [destruct dt; [|congruence]; intros _; destruct isArgument;
     cbn [append]; temporal_defined|].
  destruct (String.eqb name "LocalTime");
    [destruct lt; [|congruence]; intros _; destruct isArgument;
     cbn [append]; temporal_defined|].
  destruct (String.eqb name "LocalDateTime");
    [destruct ldt; [|congruence]; intros _; destruct isArgument;
     cbn [append]; temporal_defined|].
  congruence.
Qed.

(** X24.  Whenever the temporal rewrite changes the name that a type
    refers to, the new name is defined in the map that [addTemporalTypes]
    returns: a kind is rewritten only if it is enabled, and every enabled
    kind has its output type and its input type injected. *)
Theorem addTemporalTypes_defines_rewritten typeMap config type isArgument :
  _getNamedType
    (transformTemporalTypeName type (decideTemporalConfig config) isArgument)
  <> _getNamedType type ->
  defines (addTemporalTypes typeMap config)
    (_getNamedType
       (transformTemporalTypeName type (decideTemporalConfig config)
          isArgument)).
Proof.
  intros H. unfold addTemporalTypes.
  apply defines_In. rewrite transformTemporalFields_keys. apply defines_In.
  revert isArgument H.
  induction type as [name|t IH|t IH]; intros isArgument H;
    cbn [transformTemporalTypeName _getNamedType] in *.
  - now apply temporalLeafName_defined.
  - now apply IH.
  - now apply IH.
Qed.

Lemma addTemporalTypes_defines_rewritten_witness :
  defines (addTemporalTypes temporalSchema allEnabled) "_Neo4jDateTimeInput"
  /\ defines (addTemporalTypes temporalSchema allEnabled) "_Neo4jDateTime".
Proof.
  split.
  - apply (addTemporalTypes_defines_rewritten temporalSchema allEnabled
             (NamedType "DateTime") true).
    intros H. discriminate H.
  - apply (addTemporalTypes_defines_rewritten temporalSchema allEnabled
             (NonNullType (ListType (NamedType "DateTime"))) true).
    intros H. discriminate H.
Defined.


(** ** Managed types in the printed fields *)

Lemma mentionsManagedType_includes s marker :
  mentionsManagedType s = false -> In marker managedTypeNames ->
  includes marker s = false.
Proof.
  unfold mentionsManagedType. intros H Hin.
  destruct (includes marker s) eqn:E; [|reflexivity].
  rewrite <- H. symmetry. apply existsb_exists. now exists marker.
Qed.

Lemma plainArguments_include args marker :
  forallb plainArgument args = true -> In marker managedTypeNames ->
  existsb (argumentIncludes marker) args = false.
Proof.
  intros H Hin. induction args as [|a rest IH]; [reflexivity|].
  cbn [forallb existsb] in H |- *.
  apply andb_prop in H. destruct H as [Ha Hrest].
  unfold plainArgument in Ha. apply andb_prop in Ha. destruct Ha as [H1 H2].
  apply negb_true_iff in H1, H2.
  unfold argumentIncludes.
  rewrite (mentionsManagedType_includes _ _ H1 Hin),
    (mentionsManagedType_includes _ _ H2 Hin).
  now apply IH.
Qed.

Lemma plainPairs_include (kvs : list (string * string)) marker :
  forallb
    (fun kv =>
       negb (mentionsManagedType (fst kv))
       && negb (mentionsManagedType (snd kv))) kvs = true ->
  In marker managedTypeNames ->
  existsb (pairIncludes marker) kvs = false.
Proof.
  intros H Hin. induction kvs as [|kv rest IH]; [reflexivity|].
  cbn [forallb existsb] in H |- *.
  apply andb_prop in H. destruct H as [Ha Hrest].
  apply andb_prop in Ha. destruct Ha as [H1 H2].
  apply negb_true_iff in H1, H2.
  unfold pairIncludes.
  rewrite (mentionsManagedType_includes _ _ H1 Hin),
    (mentionsManagedType_includes _ _ H2 Hin).
  now apply IH.
Qed.

Lemma plainDirectives_include ds marker :
  forallb plainDirective ds = true -> In marker managedTypeNames ->
  existsb (directiveIncludes marker) ds = false.
Proof.
  intros H Hin. induction ds as [|d rest IH]; [reflexivity|].
  cbn [forallb existsb] in H |- *.
  apply andb_prop in H. destruct H as [Ha Hrest].
  unfold plainDirective in Ha. apply andb_prop in Ha. destruct Ha as [H1 H2].
  apply negb_true_iff in H1.
  unfold directiveIncludes.
  rewrite (mentionsManagedType_includes _ _ H1 Hin),
    (plainPairs_include _ _ H2 Hin).
  now apply IH.
Qed.

Lemma mapNamedType_leaf (f g : string -> string) type :
  f (_getNamedType type) = g (_getNamedType type) ->
  mapNamedType f type = mapNamedType g type.
Proof.
  induction type as [n|t IH|t IH]; cbn [mapNamedType _getNamedType];
    intros H; [now rewrite H|now rewrite IH|now rewrite IH].
Qed.

Lemma mapNamedType_same (f : string -> string) type :
  f (_getNamedType type) = _getNamedType type ->
  mapNamedType f type = type.
Proof.
  induction type as [n|t IH|t IH]; cbn [mapNamedType _getNamedType];
    intros H; [now rewrite H|now rewrite IH|now rewrite IH].
Qed.

Lemma isTemporalType_cases name :
  isTemporalType name = true ->
  name = "_Neo4jTime"%string \/ name = "_Neo4jDate"%string
  \/ name = "_Neo4jDateTime"%string \/ name = "_Neo4jLocalTime"%string
  \/ name = "_Neo4jLocalDateTime"%string.
Proof.
  unfold isTemporalType. cbn [existsb].
  rewrite !orb_true_iff, !String.eqb_eq. intuition discriminate.
Qed.

(** On a field that mentions a structured temporal type only as the type
    of its value, the textual replacement turns that type into its input
    twin and leaves the rest of the field as it is. *)
Lemma transformManagedField_plain t :
  managedOnlyAsType t = true ->
  transformManagedField t
  = mkField (field_name t) (field_arguments t)
      (mapNamedType decideFieldType (field_type t)) (field_directives t).
Proof.
  unfold managedOnlyAsType, plainInput. intros H.
  apply andb_prop in H. destruct H as [H Hdirs].
  apply andb_prop in H. destruct H as [H Hargs].
  apply andb_prop in H. destruct H as [Hname Hleaf].
  apply negb_true_iff in Hname.
  assert (forall marker,
            In marker managedTypeNames ->
            textIncludes marker t
            = includes marker (_getNamedType (field_type t))) as Htext.
  { intros marker Hin. unfold textIncludes.
    rewrite (mentionsManagedType_includes _ _ Hname Hin),
      (plainArguments_include _ _ Hargs Hin),
      (plainDirectives_include _ _ Hdirs Hin).
    cbn [orb]. apply orb_false_r. }
  assert (forall marker replacement,
            In marker managedTypeNames ->
            includes marker (_getNamedType (field_type t)) = true ->
            replaceInText marker replacement t
            = mkField (field_name t) (field_arguments t)
                (mapNamedType (replace marker replacement) (field_type t))
                (field_directives t)) as Hreplace.
  { intros marker replacement Hin Hinc. unfold replaceInText.
    rewrite (mentionsManagedType_includes _ _ Hname Hin),
      (plainArguments_include _ _ Hargs Hin), Hinc.
    reflexivity. }
  unfold transformManagedField.
  rewrite !Htext by (cbn; tauto).
  destruct (isTemporalType (_getNamedType (field_type t))) eqn:T.
  - destruct (isTemporalType_cases _ T) as [E|[E|[E|[E|E]]]];
      rewrite E;
      repeat match goal with
             | |- context [includes ?m ?s] =>
                 let b := eval vm_compute in (includes m s) in
                 change (includes m s) with b
             end;
      cbv beta iota;
      (rewrite Hreplace; [|cbn; intuition|rewrite E; reflexivity]);
      f_equal; apply mapNamedType_leaf; rewrite E; reflexivity.
  - cbn [orb] in Hleaf. apply negb_true_iff in Hleaf.
    rewrite !(mentionsManagedType_includes _ _ Hleaf) by (cbn; tauto).
    rewrite mapNamedType_same; [now destruct t|].
    unfold decideFieldType. now rewrite T.
Qed.

Lemma managedOnlyAsType_input name type :
  plainInput name type = true ->
  managedOnlyAsType (inputField name type) = true.
Proof.
  intros H. unfold managedOnlyAsType, inputField.
  cbn [field_name field_type field_arguments field_directives forallb].
  now rewrite H.
Qed.

Lemma transformManagedField_input name type :
  plainInput name type = true ->
  transformManagedField (inputField name type)
  = inputField name (mapNamedType decideFieldType type).
Proof.
  intros H.
  now rewrite (transformManagedField_plain _ (managedOnlyAsType_input _ _ H)).
Qed.

(** ** Arguments of the Create mutation *)

Lemma createFields_app firstIdField pre rest :
  createFields firstIdField (pre ++ rest)
  = createFields firstIdField pre
    ++ createFields (firstIdField || existsb isPrimaryKeyField pre) rest.
Proof.
  revert firstIdField.
  induction pre as [|t pre IH]; intros b; cbn [app createFields existsb].
  - now rewrite orb_false_r.
  - destruct (isPrimaryKeyField t), b; cbn [andb negb orb app];
      rewrite IH; cbn [orb]; reflexivity.
Qed.

Lemma createFields_length firstIdField eligible :
  length (createFields firstIdField eligible) = length eligible.
Proof.
  revert firstIdField.
  induction eligible as [|t rest IH]; intros b; cbn [createFields length].
  - reflexivity.
  - destruct (_ && _); cbn [length]; now rewrite IH.
Qed.

Lemma buildCreateMutationArguments_fold typeMap fields :
  let step :=
    fun (st : list FieldDefinition * bool) (t : FieldDefinition) =>
      let '(acc, firstIdField) := st in
      let valueTypeName := _getNamedType (field_type t) in
      if fieldIsNotIgnored t && isMutationArgumentField typeMap t then
        if isNonNullType (field_type t)
           && negb (_isListType (field_type t))
           && String.eqb valueTypeName "ID"
           && negb firstIdField
        then (acc ++ [inputField (field_name t) (NamedType valueTypeName)],
              true)
        else (acc ++ [t], firstIdField)
      else st in
  forall acc firstIdField,
    fold_left step fields (acc, firstIdField)
    = (acc ++ createFields firstIdField
                (filter (isCreateArgumentField typeMap) fields),
       firstIdField
       || existsb isPrimaryKeyField
            (filter (isCreateArgumentField typeMap) fields)).
Proof.
  intros step.
  assert (forall acc b t,
            step (acc, b) t
            = if isCreateArgumentField typeMap t then
                if isPrimaryKeyField t && negb b
                then (acc ++ [inputField (field_name t)
                                (NamedType (_getNamedType (field_type t)))],
                      true)
                else (acc ++ [t], b)
              else (acc, b)) as Hstep by reflexivity.
  clearbody step.
  induction fields as [|t rest IH]; intros acc b; cbn [fold_left filter].
  - cbn [createFields existsb]. now rewrite app_nil_r, orb_false_r.
  - rewrite Hstep.
    destruct (isCreateArgumentField typeMap t); [|apply IH].
    cbn [createFields existsb].
    destruct (isPrimaryKeyField t) eqn:P; cbn [andb].
    + destruct b; cbn [negb]; rewrite IH, <- app_assoc; cbn [app orb].
      * reflexivity.
      * unfold isPrimaryKeyField in P.
        apply andb_prop in P. destruct P as [_ P].
        apply String.eqb_eq in P. now rewrite P.
    + rewrite IH, <- app_assoc. cbn [app orb]. reflexivity.
Qed.

(** X25.  The Create mutation takes one argument per eligible field, in
    the order of the fields.  For an eligible field that mentions a
    structured temporal type only as the type of its value, the argument
    has the name of the field; the first eligible [ID!] field gives a
    nullable [ID] argument, and every other one, a later [ID!] field
    included, an argument of the type of the field, with a structured
    temporal type turned into its input twin. *)
Theorem buildCreateMutationArguments_first_id astNode typeMap :
  length (buildCreateMutationArguments astNode typeMap)
  = length (filter (isCreateArgumentField typeMap) (def_fields astNode))
  /\ forall pre t post,
       filter (isCreateArgumentField typeMap) (def_fields astNode)
       = pre ++ t :: post ->
       managedOnlyAsType t = true ->
       nth_error (buildCreateMutationArguments astNode typeMap) (length pre)
       = Some
           (mkArg (field_name t)
              (if isPrimaryKeyField t && negb (existsb isPrimaryKeyField pre)
               then NamedType "ID"
               else mapNamedType decideFieldType (field_type t))).
Proof.
  split; [apply buildCreateMutationArguments_length|].
  intros pre t post E Hplain.
  unfold buildCreateMutationArguments.
  rewrite (buildCreateMutationArguments_fold typeMap (def_fields astNode)).
  cbn [fst app].
  unfold buildInputValueDefinitions, transformManagedFieldTypes.
  rewrite E, createFields_app, !map_app.
  rewrite nth_error_app2; rewrite !length_map, createFields_length;
    [|apply le_n].
  rewrite Nat.sub_diag. cbn [orb createFields].
  destruct (isPrimaryKeyField t && negb (existsb isPrimaryKeyField pre));
    cbn [map nth_error].
  - rewrite transformManagedField_input; [reflexivity|].
    unfold managedOnlyAsType in Hplain.
    apply andb_prop in Hplain. destruct Hplain as [Hplain _].
    apply andb_prop in Hplain. destruct Hplain as [Hplain _].
    unfold plainInput in Hplain |- *.
    apply andb_prop in Hplain. destruct Hplain as [-> _]. reflexivity.
  - now rewrite (transformManagedField_plain t Hplain).
Qed.

Lemma buildCreateMutationArguments_first_id_witness :
  nth_error (buildCreateMutationArguments accountType []) 1
  = Some (mkArg "owner" (NonNullType (NamedType "ID"))).
Proof.
  apply (proj2 (buildCreateMutationArguments_first_id accountType [])
           [requiredId]
           (mkField "owner" [] (NonNullType (NamedType "ID")) [])
           [mkField "note" [] (NamedType "String") []]);
    reflexivity.
Defined.

(** [id] loses its non-null layer, [owner] keeps it, and [internal], whose
    value is a node type, is no argument. *)
Example buildCreateMutationArguments_example :
  buildCreateMutationArguments accountType []
  = [mkArg "id" (NamedType "ID");
     mkArg "owner" (NonNullType (NamedType "ID"));
     mkArg "note" (NamedType "String")].
Proof. reflexivity. Qed.

(** A temporal field that takes a temporal argument is printed with that
    argument, and the first occurrence of the type name in the text is the
    one in the argument: the Create argument keeps the output type. *)
Example buildCreateMutationArguments_temporal_argument :
  managedOnlyAsType bornField = false
  /\ buildCreateMutationArguments
       (mkDef ObjectTypeDefinition "Person" [requiredId; bornField] [] []) []
     = [mkArg "id" (NamedType "ID");
        mkArg "born" (NamedType "_Neo4jDateTime")].
Proof. split; reflexivity. Qed.

(** ** Ordering values and query arguments *)

Lemma fold_left_push {A B} (f : list B -> A -> list B) (g : A -> list B) l :
  (forall acc t, f acc t = acc ++ g t) ->
  forall acc, fold_left f l acc = acc ++ flat_map g l.
Proof.
  intros H. induction l as [|t rest IH]; intros acc;
    cbn [fold_left flat_map].
  - now rewrite app_nil_r.
  - now rewrite IH, H, app_assoc.
Qed.

Lemma createQueryArguments_flat_map astNode typeMap :
  createQueryArguments astNode typeMap
  = flat_map
      (fun t =>
         if fieldIsNotIgnored t then
           if scalarLike typeMap (_getNamedType (field_type t)) then
             [mkArg (field_name t) (NamedType (_getNamedType (field_type t)))]
           else if isTemporalType (_getNamedType (field_type t)) then
             [mkArg (field_name t)
                (NamedType (_getNamedType (field_type t) ++ "Input"))]
           else []
         else [])
      (def_fields astNode).
Proof.
  unfold createQueryArguments.
  match goal with
  | |- _ = flat_map ?g ?l => rewrite (fold_left_push _ g l)
  end; [reflexivity|].
  intros acc t. destruct (fieldIsNotIgnored t); [|now rewrite app_nil_r].
  destruct (scalarLike _ _); [reflexivity|].
  destruct (isTemporalType _); [reflexivity|now rewrite app_nil_r].
Qed.

Lemma createOrderingFields_flat_map astNode typeMap :
  createOrderingFields astNode typeMap
  = flat_map orderingValues
      (filter (isSortableField typeMap) (def_fields astNode)).
Proof.
  unfold createOrderingFields.
  rewrite (fold_left_push _
             (fun field =>
                if isSortableField typeMap field
                then orderingValues field else [])
             (def_fields astNode)).
  - cbn [app]. induction (def_fields astNode) as [|t rest IH];
      cbn [flat_map filter]; [reflexivity|].
    rewrite IH. now destruct (isSortableField typeMap t).
  - intros acc t. unfold isSortableField.
    destruct (_ && _ && _); [reflexivity|now rewrite app_nil_r].
Qed.

(** X26.  The values of an ordering enum are the [_asc]/[_desc] pairs of
    the sortable fields of the type, one pair per field and in the order
    of the fields; a sortable field is never a list and always has a
    query argument of its name.  Every query argument has a bare named
    type: the list and non-null layers of the field are dropped. *)
Theorem ordering_values_have_query_arguments astNode typeMap :
  createOrderingFields astNode typeMap
  = flat_map orderingValues
      (filter (isSortableField typeMap) (def_fields astNode))
  /\ (forall field,
        In field (def_fields astNode) ->
        isSortableField typeMap field = true ->
        _isListType (field_type field) = false
        /\ has_arg (field_name field)
             (createQueryArguments astNode typeMap) = true)
  /\ Forall
       (fun a =>
          exists field,
            In field (def_fields astNode)
            /\ arg_name a = field_name field
            /\ (arg_type a = NamedType (_getNamedType (field_type field))
                \/ arg_type a
                   = NamedType (_getNamedType (field_type field) ++ "Input")))
       (createQueryArguments astNode typeMap).
Proof.
  split; [apply createOrderingFields_flat_map|]. split.
  - intros field Hin Hc. unfold isSortableField in Hc.
    apply andb_prop in Hc. destruct Hc as [Hc Hk].
    apply andb_prop in Hc. destruct Hc as [Hl Hi].
    split; [now apply negb_true_iff in Hl|].
    rewrite createQueryArguments_flat_map.
    set (valueTypeName := _getNamedType (field_type field)) in *.
    destruct (scalarLike typeMap valueTypeName) eqn:S.
    + apply (has_arg_In (mkArg (field_name field) (NamedType valueTypeName))).
      apply in_flat_map. exists field. split; [exact Hin|].
      rewrite Hi. fold valueTypeName. rewrite S. now left.
    + apply (has_arg_In
               (mkArg (field_name field)
                  (NamedType (valueTypeName ++ "Input")))).
      apply in_flat_map. exists field. split; [exact Hin|].
      rewrite Hi. fold valueTypeName. rewrite S.
      unfold scalarLike in S.
      apply orb_false_iff in S. destruct S as [S _].
      apply orb_false_iff in S. destruct S as [S1 S2].
      rewrite S1, S2 in Hk. cbn [orb] in Hk. rewrite Hk. now left.
  - rewrite createQueryArguments_flat_map. apply Forall_forall.
    intros a Ha. apply in_flat_map in Ha. destruct Ha as (field & Hin & Ha).
    exists field. split; [exact Hin|].
    destruct (fieldIsNotIgnored field); [|destruct Ha].
    destruct (scalarLike _ _).
    + destruct Ha as [<-|[]]. cbn [arg_name arg_type]. auto.
    + destruct (isTemporalType _); [|destruct Ha].
      destruct Ha as [<-|[]]. cbn [arg_name arg_type]. auto.
Qed.

Lemma ordering_values_have_query_arguments_witness :
  createOrderingFields accountType []
  = ["id_asc"; "id_desc"; "owner_asc"; "owner_desc"; "note_asc";
     "note_desc"]%string
  /\ has_arg "id" (createQueryArguments accountType []) = true.
Proof.
  destruct (ordering_values_have_query_arguments accountType [])
    as (Hvalues & Hsortable & _).
  split; [exact Hvalues|].
  apply (Hsortable requiredId); [left|]; reflexivity.
Defined.

(** ** Arguments of the Update and Delete mutations *)

Lemma fold_left_push_map {A B} (p : B -> bool) (g : B -> A) l :
  forall acc,
    fold_left (fun acc t => if p t then acc ++ [g t] else acc) l acc
    = acc ++ map g (filter p l).
Proof.
  induction l as [|t rest IH]; intros acc; cbn [fold_left filter].
  - now rewrite app_nil_r.
  - rewrite IH. destruct (p t); [|reflexivity].
    now rewrite <- app_assoc.
Qed.

(** X27.  Take a type on which the primary-key selector gives a field
    whose name mentions no structured temporal type.  The Delete mutation
    takes exactly one argument, the required primary key; the Update
    mutation takes nothing when no other field is eligible, and otherwise
    the same required primary key first and then, in field order, one
    optional argument for each other eligible field, provided the names
    of these mention no structured temporal type either.  None of the
    other fields is named like the primary key. *)
Theorem update_and_delete_select_by_primary_key (PK : PrimaryKey) astNode
  typeMap primaryKey :
  getPrimaryKey astNode = Some primaryKey ->
  plainInput (field_name primaryKey) (field_type primaryKey) = true ->
  let selector :=
    mkArg (field_name primaryKey)
      (NonNullType
         (NamedType (decideFieldType (_getNamedType (field_type primaryKey)))))
  in
  let others :=
    filter (isUpdatableField typeMap (field_name primaryKey))
      (def_fields astNode) in
  buildMutationArguments Delete astNode typeMap = Some [selector]
  /\ (Forall (fun t => plainInput (field_name t) (field_type t) = true)
        others ->
      buildMutationArguments Update astNode typeMap
      = Some match others with
             | [] => []
             | _ :: _ => selector :: map optionalArgument others
             end)
  /\ Forall (fun t => field_name t <> field_name primaryKey) others.
Proof.
  intros Hpk Hplain selector others.
  assert (plainInput (field_name primaryKey)
            (NonNullType (NamedType (_getNamedType (field_type primaryKey))))
          = true) as Hkey by exact Hplain.
  unfold buildMutationArguments. rewrite Hpk. split; [|split].
  - unfold buildDeleteMutationArguments, transformManagedFieldTypes,
      buildInputValueDefinitions.
    cbn [map]. now rewrite (transformManagedField_input _ _ Hkey).
  - intros Hothers. unfold buildUpdateMutationArguments.
    pose proof (fold_left_push_map
                  (isUpdatableField typeMap (field_name primaryKey))
                  (fun t => inputField (field_name t)
                              match field_type t with
                              | NonNullType inner => inner
                              | other => other
                              end)
                  (def_fields astNode) []) as Hfold.
    cbn [app] in Hfold. fold others in Hfold.
    match goal with
    | |- context [fold_left ?f (def_fields astNode) []] =>
        change (fold_left f (def_fields astNode) [])
          with (fold_left
                  (fun acc t =>
                     if isUpdatableField typeMap (field_name primaryKey) t
                     then acc ++ [inputField (field_name t)
                                    match field_type t with
                                    | NonNullType inner => inner
                                    | other => other
                                    end]
                     else acc)
                  (def_fields astNode) [])
    end.
    rewrite Hfold.
    destruct others as [|t rest]; [reflexivity|].
    cbn [map]. f_equal.
    unfold transformManagedFieldTypes, buildInputValueDefinitions.
    cbn [map]. rewrite (transformManagedField_input _ _ Hkey).
    cbn [inputField field_name field_type mapNamedType]. f_equal.
    change (map (fun field => mkArg (field_name field) (field_type field))
              (map transformManagedField
                 (map (fun t => inputField (field_name t)
                                  match field_type t with
                                  | NonNullType inner => inner
                                  | other => other
                                  end)
                    (t :: rest)))
            = map optionalArgument (t :: rest)).
    rewrite !map_map. apply map_ext_in. intros x Hx.
    rewrite Forall_forall in Hothers. specialize (Hothers x Hx).
    rewrite transformManagedField_input; [reflexivity|].
    unfold plainInput in Hothers |- *.
    destruct (field_type x); exact Hothers.
  - apply Forall_forall. intros t Ht. apply filter_In in Ht.
    destruct Ht as [_ Ht]. unfold isUpdatableField in Ht.
    apply andb_prop in Ht. destruct Ht as [Ht _].
    apply andb_prop in Ht. destruct Ht as [_ Ht].
    apply negb_true_iff in Ht. now apply String.eqb_neq.
Qed.

Lemma update_and_delete_select_by_primary_key_witness :
  buildMutationArguments Delete accountType []
  = Some [mkArg "id" (NonNullType (NamedType "ID"))]
  /\ buildMutationArguments Update accountType []
     = Some [mkArg "id" (NonNullType (NamedType "ID"));
             mkArg "owner" (NamedType "ID");
             mkArg "note" (NamedType "String")].
Proof.
  destruct (update_and_delete_select_by_primary_key requiredIdKey accountType
              [] requiredId eq_refl eq_refl) as (Hdelete & Hupdate & _).
  split; [exact Hdelete|].
  apply Hupdate. repeat constructor.
Defined.

(** A primary key whose name mentions a structured temporal type is
    renamed in the arguments of Delete and Update. *)
Example buildDeleteMutationArguments_renamed_key :
  getPrimaryKey eventType
  = Some (mkField "_Neo4jDateKey" [] (NonNullType (NamedType "ID")) [])
  /\ buildMutationArguments Delete eventType []
     = Some [mkArg "_Neo4jDateInputKey" (NonNullType (NamedType "ID"))].
Proof. split; reflexivity. Qed.
